(** * Verification of the streaming tag parser and the approval handlers
      of prompt_manager (frontend/components/PromptVariableModal.tsx).

    The parser is written with ECMAScript regular expressions.  The
    development therefore starts with a model of JavaScript strings
    (sequences of UTF-16 code units), of the backtracking matcher of
    ECMA-262 (continuation-passing, as in the standard), of the regular
    expression built-ins used by the source (exec, match, matchAll,
    replace), of atob, JSON.parse and JSON.stringify, and then embeds
    parseMessageContent and the approve / deny handlers on top. *)

From Stdlib Require Import List NArith ZArith Bool String Ascii Lia.
From stdpp Require Import gmap.
Import ListNotations.

Local Open Scope nat_scope.

(* ===================================================================== *)
(** ** JavaScript strings *)
(* ===================================================================== *)

Module JsString.

(** A string is a sequence of 16-bit code units. *)
Definition char := N.
Definition str := list char.

Definition char_of_ascii (a : ascii) : char := N_of_ascii a.

(** [js "..."] is the string whose code units are the characters of an
    ASCII literal. *)
Definition js (s : string) : str := List.map char_of_ascii (list_ascii_of_string s).

(** In a [jsq] literal an apostrophe stands for the double quote (code
    unit 34); the literal itself then needs no quote character. *)
Definition DQUOTE : char := 34%N.
Definition jsq (s : string) : str :=
  List.map (fun c => if N.eqb c 39 then DQUOTE else c) (js s).

Definition ch (s : string) : char :=
  match s with
  | String a _ => char_of_ascii a
  | EmptyString => 0%N
  end.

Definition LF : char := 10%N.
Definition CR : char := 13%N.

Fixpoint str_eqb (a b : str) : bool :=
  match a, b with
  | [], [] => true
  | x :: a', y :: b' => N.eqb x y && str_eqb a' b'
  | _, _ => false
  end.

(** WhiteSpace and LineTerminator code points of ECMA-262: the set
    stripped by String.prototype.trim and matched by the class [\s]. *)
Definition is_space (c : char) : bool :=
  ((9 <=? c) && (c <=? 13))%N
  || N.eqb c 32 || N.eqb c 160 || N.eqb c 5760
  || ((8192 <=? c) && (c <=? 8202))%N
  || N.eqb c 8232 || N.eqb c 8233 || N.eqb c 8239 || N.eqb c 8287
  || N.eqb c 12288 || N.eqb c 65279.

Fixpoint trimStart (s : str) : str :=
  match s with
  | c :: s' => if is_space c then trimStart s' else s
  | [] => []
  end.

Definition trimEnd (s : str) : str := rev (trimStart (rev s)).

(** String.prototype.trim *)
Definition trim (s : str) : str := trimEnd (trimStart s).

(** String.prototype.slice for indices already in range [0, +inf):
    empty when [from] is not below [to]. *)
Definition slice (s : str) (from to : nat) : str :=
  firstn (to - from) (skipn from s).

(** [s.slice(from)] *)
Definition slice_from (s : str) (from : nat) : str := skipn from s.

(** [s.substring(0, n)] *)
Definition substring0 (s : str) (n : nat) : str := firstn n s.

Fixpoint startsWith (s p : str) : bool :=
  match p, s with
  | [], _ => true
  | x :: p', y :: s' => N.eqb x y && startsWith s' p'
  | _ :: _, [] => false
  end.

Definition endsWith (s p : str) : bool := startsWith (rev s) (rev p).

Fixpoint includes (s p : str) : bool :=
  startsWith s p ||
  match s with
  | [] => false
  | _ :: s' => includes s' p
  end.

(** Truthiness of a string: non-empty. *)
Definition truthy (s : str) : bool :=
  match s with [] => false | _ :: _ => true end.

End JsString.
Import JsString.

(* ===================================================================== *)
(** ** Regular expressions: the backtracking matcher of ECMA-262 *)
(* ===================================================================== *)

Module Regex.

(** A class is a list of inclusive code-unit ranges, possibly negated. *)
Record charset := mkSet { ranges : list (N * N); negated : bool }.

Inductive regex :=
| Empty
| Chars (cs : charset)
| Seq (r1 r2 : regex)
| Alt (r1 r2 : regex)
| Repeat (min : nat) (max : option nat) (greedy : bool) (r : regex)
| Group (k : nat) (r : regex)            (* k-th capturing group, k >= 1 *)
| Backref (k : nat)
| NotAhead (r : regex)                   (* (?!r) *)
| EndAnchor.                             (* $ without the m flag *)

(** Pattern syntax *)
Definition one (c : char) : regex := Chars (mkSet [(c, c)] false).
(** The characters of [w], one after the other. *)
Definition chars_of (w : str) : regex :=
  fold_right (fun c r => Seq (one c) r) Empty w.
Definition lit (s : string) : regex := chars_of (js s).
Definition litq (s : string) : regex := chars_of (jsq s).
Definition seq (rs : list regex) : regex := fold_right Seq Empty rs.
Fixpoint alts (rs : list regex) : regex :=
  match rs with
  | [] => Empty
  | [r] => r
  | r :: rs' => Alt r (alts rs')
  end.
Definition cls (l : list (N * N)) : regex := Chars (mkSet l false).
Definition ncls (l : list (N * N)) : regex := Chars (mkSet l true).
Definition only (s : string) : list (N * N) := [(ch s, ch s)].
Definition span (a b : string) : N * N := (ch a, ch b).
Definition space_ranges : list (N * N) :=
  [(9, 13); (32, 32); (160, 160); (5760, 5760); (8192, 8202); (8232, 8233);
   (8239, 8239); (8287, 8287); (12288, 12288); (65279, 65279)]%N.
Definition ws : regex := cls space_ranges.                       (* \s *)
Definition anychar : regex := ncls [].                           (* [\s\S] *)
Definition dot : regex :=                                        (* . *)
  ncls [(10, 10); (13, 13); (8232, 8233)]%N.
Definition star (r : regex) : regex := Repeat 0 None true r.     (* r* *)
Definition star_lazy (r : regex) : regex := Repeat 0 None false r. (* r*? *)
Definition plus (r : regex) : regex := Repeat 1 None true r.     (* r+ *)
Definition opt (r : regex) : regex := Repeat 0 (Some 1) true r.  (* r? *)

(** Capturing groups contained in a pattern: reset on every entry of a
    quantified atom (RepeatMatcher, step 3). *)
Fixpoint parens (r : regex) : list nat :=
  match r with
  | Seq a b | Alt a b => parens a ++ parens b
  | Repeat _ _ _ a | NotAhead a => parens a
  | Group k a => k :: parens a
  | _ => []
  end.

Record MatchState := mkState {
  endIndex : nat;
  captures : list (option (nat * nat))   (* group k is at position k - 1 *)
}.

Definition Continuation := MatchState -> option MatchState.
Definition Matcher := MatchState -> Continuation -> option MatchState.

Fixpoint set_nth {A} (l : list A) (i : nat) (v : A) : list A :=
  match l, i with
  | [], _ => []
  | _ :: t, 0 => v :: t
  | h :: t, S i' => h :: set_nth t i' v
  end.

Definition set_capture (k : nat) (v : option (nat * nat)) (x : MatchState) : MatchState :=
  mkState (endIndex x) (set_nth (captures x) (k - 1) v).

Definition clear_captures (ks : list nat) (x : MatchState) : MatchState :=
  fold_left (fun y k => set_capture k None y) ks x.

Definition get_capture (x : MatchState) (k : nat) : option (nat * nat) :=
  nth (k - 1) (captures x) None.

(** Canonicalize (non-unicode): upper-casing under the i flag.  Only the
    ASCII letters are mapped; a code unit above 127 never canonicalizes
    to one below 128, and every pattern of the source with the i flag
    lists ASCII letters and white space only. *)
Definition canon (ignoreCase : bool) (c : char) : char :=
  if ignoreCase && (97 <=? c)%N && (c <=? 122)%N then (c - 32)%N else c.

Definition in_ranges (l : list (N * N)) (c : char) : bool :=
  existsb (fun '(lo, hi) => (lo <=? c)%N && (c <=? hi)%N) l.

(** CharacterSetMatcher: some member of the set has the canonical form of
    the input character. *)
Definition charset_mem (ignoreCase : bool) (cs : charset) (c : char) : bool :=
  let cc := canon ignoreCase c in
  let found :=
    in_ranges (ranges cs) cc
    || (ignoreCase && (65 <=? cc)%N && (cc <=? 90)%N && in_ranges (ranges cs) (cc + 32)%N) in
  xorb found (negated cs).

Section Matcher.

Variable input : str.
Variable ignoreCase : bool.

Definition advance (n : nat) (x : MatchState) : MatchState :=
  mkState (endIndex x + n) (captures x).

(** RepeatMatcher of ECMA-262.  The recursion is on [fuel]; every round
    either lowers [min] or moves the end index forward, so
    [min + (length input - endIndex x) + 1] rounds are enough. *)
Fixpoint repeat_matcher (m : Matcher) (ks : list nat) (greedy : bool)
    (fuel : nat) (min : nat) (max : option nat) (x : MatchState) (c : Continuation)
    : option MatchState :=
  match fuel with
  | 0 => None
  | S fuel' =>
      match max with
      | Some 0 => c x
      | _ =>
          let d : Continuation := fun y =>
            if (min =? 0) && (endIndex y =? endIndex x) then None
            else repeat_matcher m ks greedy fuel' (min - 1) (option_map pred max) y c in
          let xr := clear_captures ks x in
          if negb (min =? 0) then m xr d
          else if greedy then
            match m xr d with
            | Some z => Some z
            | None => c x
            end
          else
            match c x with
            | Some z => Some z
            | None => m xr d
            end
      end
  end.

Fixpoint backref_ok (s : str) (at_ : nat) (from len : nat) : bool :=
  match len with
  | 0 => true
  | S len' =>
      match nth_error s from, nth_error s at_ with
      | Some a, Some b =>
          N.eqb (canon ignoreCase a) (canon ignoreCase b)
          && backref_ok s (S at_) (S from) len'
      | _, _ => false
      end
  end.

Fixpoint matcher (r : regex) : Matcher :=
  match r with
  | Empty => fun x c => c x
  | Chars cs => fun x c =>
      match nth_error input (endIndex x) with
      | Some a => if charset_mem ignoreCase cs a then c (advance 1 x) else None
      | None => None
      end
  | Seq r1 r2 => fun x c => matcher r1 x (fun y => matcher r2 y c)
  | Alt r1 r2 => fun x c =>
      match matcher r1 x c with
      | Some z => Some z
      | None => matcher r2 x c
      end
  | Repeat min max greedy r1 => fun x c =>
      repeat_matcher (matcher r1) (parens r1) greedy
        (min + (length input - endIndex x) + 1) min max x c
  | Group k r1 => fun x c =>
      matcher r1 x (fun y => c (set_capture k (Some (endIndex x, endIndex y)) y))
  | Backref k => fun x c =>
      match get_capture x k with
      | None => c x
      | Some (s, e) =>
          if backref_ok input (endIndex x) s (e - s) then c (advance (e - s) x) else None
      end
  | NotAhead r1 => fun x c =>
      match matcher r1 x (fun y => Some y) with
      | Some _ => None
      | None => c x
      end
  | EndAnchor => fun x c =>
      if endIndex x =? length input then c x else None
  end.

End Matcher.

(** A compiled RegExp object: pattern, number of capturing groups and the
    flags that matter here. *)
Record RegExp := mkRegExp {
  pattern : regex;
  ngroups : nat;
  flag_i : bool
}.

Record MatchResult := mkMatch {
  index : nat;          (* match.index *)
  stop : nat;           (* index + match[0].length *)
  groups : list (option (nat * nat))
}.

(** Try the pattern at position [i] (the internal [[RegExpMatcher]]). *)
Definition match_at (re : RegExp) (input : str) (i : nat) : option MatchResult :=
  match matcher input (flag_i re) (pattern re)
          (mkState i (repeat None (ngroups re))) (fun y => Some y) with
  | Some y => Some (mkMatch i (endIndex y) (captures y))
  | None => None
  end.

(** The search loop of RegExpBuiltinExec: positions [i], [i+1], ... up to
    the length of the input; [n] counts the positions left to try. *)
Fixpoint search (re : RegExp) (input : str) (n : nat) (i : nat) : option MatchResult :=
  match n with
  | 0 => None
  | S n' =>
      match match_at re input i with
      | Some m => Some m
      | None => search re input n' (S i)
      end
  end.

(** [re.exec(input)] for a regular expression with the g flag whose
    lastIndex is [lastIndex]: the match, if any, and the new lastIndex. *)
Definition exec (re : RegExp) (input : str) (lastIndex : nat) : option MatchResult * nat :=
  if length input <? lastIndex then (None, 0)
  else
    match search re input (S (length input - lastIndex)) lastIndex with
    | Some m => (Some m, stop m)
    | None => (None, 0)
    end.

(** [input.match(re)] for a regular expression without the g flag. *)
Definition match_first (re : RegExp) (input : str) : option MatchResult :=
  search re input (S (length input)) 0.

(** match[0] *)
Definition matched (input : str) (m : MatchResult) : str :=
  slice input (index m) (stop m).

(** match[k] for k >= 1: [None] is undefined. *)
Definition group (input : str) (m : MatchResult) (k : nat) : option str :=
  match nth (k - 1) (groups m) None with
  | Some (s, e) => Some (slice input s e)
  | None => None
  end.

(** All matches of a global regular expression scanned from lastIndex 0,
    as matchAll and replace enumerate them: after an empty match the
    scan resumes one code unit further (AdvanceStringIndex). *)
Fixpoint all_matches (re : RegExp) (input : str) (fuel : nat) (lastIndex : nat)
    : list MatchResult :=
  match fuel with
  | 0 => []
  | S fuel' =>
      match exec re input lastIndex with
      | (Some m, next) =>
          m :: all_matches re input fuel'
                 (if stop m =? index m then S next else next)
      | (None, _) => []
      end
  end.

Definition matchAll (re : RegExp) (input : str) : list MatchResult :=
  all_matches re input (S (S (length input))) 0.

(** The result string of [input.replace(re, '')] given the list of
    matches: the pieces between the matches. *)
Fixpoint remove_matches (input : str) (ms : list MatchResult) (pos : nat) : str :=
  match ms with
  | [] => slice_from input pos
  | m :: ms' =>
      if pos <=? index m
      then slice input pos (index m) ++ remove_matches input ms' (stop m)
      else remove_matches input ms' pos
  end.

(** [input.replace(re, '')] for a regular expression with the g flag. *)
Definition replace_all_empty (re : RegExp) (input : str) : str :=
  remove_matches input (matchAll re input) 0.

End Regex.
Import Regex.

(* ===================================================================== *)
(** ** The regular expressions of the source *)
(* ===================================================================== *)

Module Patterns.

(** The patterns are quoted in the comments with \x22 for the double
    quote and with a blank between a star and a closing parenthesis. *)

(** The pieces of TAG_REGEX. *)

(** [^<] *)
Definition NOT_LT : charset := mkSet (only "<") true.

(** [\/]?\1, the body of the look-ahead *)
Definition LOOKAHEAD : regex := seq [opt (cls (only "/")); Backref 1].

(** (?:<(?![\/]?\1)[^<]* ) *)
Definition LOOP : regex := seq [lit "<"; NotAhead LOOKAHEAD; star (Chars NOT_LT)].

(** <\/\1> *)
Definition CLOSE : regex := seq [lit "</"; Backref 1; lit ">"].

(** (?:\s+([^>]*?))? *)
Definition ATTRS : regex := opt (seq [plus ws; Group 2 (star_lazy (ncls (only ">")))]).

(** ([^<]* (?:<(?![\/]?\1)[^<]* )*?)(?:<\/\1>|$) *)
Definition BODY : regex :=
  seq [Group 3 (seq [star (Chars NOT_LT); star_lazy LOOP]); Alt CLOSE EndAnchor].

(** thought|think|tool_call|tool_pending|tool_result|tool|answer *)
Definition TAG_NAMES : regex :=
  alts [lit "thought"; lit "think"; lit "tool_call"; lit "tool_pending";
        lit "tool_result"; lit "tool"; lit "answer"].

(** <(tool_pending)\s+([^>]*?)\s*\/> *)
Definition SELF_CLOSING : regex :=
  seq [ lit "<"; Group 4 (lit "tool_pending"); plus ws;
        Group 5 (star_lazy (ncls (only ">"))); star ws; lit "/>" ].

(** /<(thought|think|tool_call|tool_pending|tool_result|tool|answer)(?:\s+([^>]*?))?>(?:([^<]* (?:<(?![\/]?\1)[^<]* )*?)(?:<\/\1>|$))?|<(tool_pending)\s+([^>]*?)\s*\/>/g *)
Definition TAG_REGEX : RegExp :=
  mkRegExp
    (Alt (seq [lit "<"; Group 1 TAG_NAMES; ATTRS; lit ">"; opt BODY]) SELF_CLOSING)
    5 false.

(** [\x22'] *)
Definition quote_class : regex := cls [(DQUOTE, DQUOTE); span "'" "'"].

(** /name=[\x22'](.*?)[\x22']/ *)
Definition NAME_ATTR_REGEX : RegExp :=
  mkRegExp (seq [lit "name="; quote_class; Group 1 (star_lazy dot); quote_class]) 1 false.

(** /<argument\s+name=[\x22'](.*?)[\x22']\s+value=[\x22'](.*?)[\x22']\s*\/?>/g *)
Definition ARGUMENT_REGEX : RegExp :=
  mkRegExp
    (seq [ lit "<argument"; plus ws; lit "name="; quote_class;
           Group 1 (star_lazy dot); quote_class; plus ws; lit "value="; quote_class;
           Group 2 (star_lazy dot); quote_class; star ws; opt (lit "/"); lit ">" ])
    2 false.

(** /<([a-zA-Z0-9_]+)>([\s\S]*?)<\/\1>/g *)
Definition DEEP_ARG_REGEX : RegExp :=
  mkRegExp
    (seq [ lit "<";
           Group 1 (plus (cls [span "a" "z"; span "A" "Z"; span "0" "9"; span "_" "_"]));
           lit ">"; Group 2 (star_lazy anychar); lit "</"; Backref 1; lit ">" ])
    2 false.

(** new RegExp(`${name}=[\x22'](.*?)[\x22']`), for an attribute name made
    of ordinary characters (the four names the source passes are). *)
Definition attr_regex (name : str) : RegExp :=
  mkRegExp
    (seq [chars_of name; lit "="; quote_class; Group 1 (star_lazy dot); quote_class])
    1 false.

(** /\s/g *)
Definition SPACE_REGEX : RegExp := mkRegExp ws 0 false.

(** /(?:GET|UPDATE|DELETE|SEARCH|WRITE)\s+(?:MEMORY|WEB|FILE)[\s\S]*?(\n|$)/gi *)
Definition TOOL_HEADER_REGEX : RegExp :=
  mkRegExp
    (seq [ alts [lit "GET"; lit "UPDATE"; lit "DELETE"; lit "SEARCH"; lit "WRITE"];
           plus ws;
           alts [lit "MEMORY"; lit "WEB"; lit "FILE"];
           star_lazy anychar;
           Group 1 (Alt (one LF) EndAnchor) ])
    1 true.

(** /\{\s*\x22name\x22\s*:\s*\x22[^\x22]+\x22\s*,\s*\x22arguments\x22[\s\S]*?\}/g *)
Definition RAW_JSON_REGEX : RegExp :=
  mkRegExp
    (seq [ lit "{"; star ws; litq "'name'"; star ws; lit ":"; star ws; litq "'";
           plus (ncls [(DQUOTE, DQUOTE)]); litq "'"; star ws; lit ","; star ws;
           litq "'arguments'"; star_lazy anychar; lit "}" ])
    0 false.

(** /```[a-z]*\s*```/gi *)
Definition EMPTY_FENCE_REGEX : RegExp :=
  mkRegExp (seq [lit "```"; star (cls [span "a" "z"]); star ws; lit "```"]) 0 true.

End Patterns.
Import Patterns.

(* ===================================================================== *)
(** ** Objects, JSON and base64 *)
(* ===================================================================== *)

Module Json.

(** Own enumerable string-keyed properties of an ordinary object, in the
    order in which JSON.stringify and Object.keys list them
    (OrdinaryOwnPropertyKeys): array indices in ascending order first,
    then the other keys in creation order. *)
Definition props (V : Type) := list (str * V).

Definition is_digit (c : char) : bool := ((48 <=? c) && (c <=? 57))%N.

Fixpoint digits_value (s : str) (acc : N) : N :=
  match s with
  | [] => acc
  | c :: s' => digits_value s' (acc * 10 + (c - 48))%N
  end.

(** The array index denoted by a key: a canonical decimal numeral below
    2^32 - 1. *)
Definition array_index (k : str) : option N :=
  match k with
  | [] => None
  | c :: rest =>
      if forallb is_digit k
         && (negb (N.eqb c 48) || match rest with [] => true | _ => false end)
         && (length k <=? 10)
         && (digits_value k 0 <? 4294967295)%N
      then Some (digits_value k 0)
      else None
  end.

Fixpoint has_key {V} (k : str) (o : props V) : bool :=
  match o with
  | [] => false
  | (k', _) :: o' => str_eqb k k' || has_key k o'
  end.

Fixpoint replace_value {V} (k : str) (v : V) (o : props V) : props V :=
  match o with
  | [] => []
  | (k', v') :: o' =>
      if str_eqb k k' then (k', v) :: o' else (k', v') :: replace_value k v o'
  end.

Fixpoint insert_index {V} (i : N) (k : str) (v : V) (o : props V) : props V :=
  match o with
  | [] => [(k, v)]
  | (k', v') :: o' =>
      match array_index k' with
      | Some j => if (j <? i)%N then (k', v') :: insert_index i k v o'
                  else (k, v) :: o
      | None => (k, v) :: o
      end
  end.

(** CreateDataProperty on an ordinary object. *)
Definition define_property {V} (k : str) (v : V) (o : props V) : props V :=
  if has_key k o then replace_value k v o
  else
    match array_index k with
    | Some i => insert_index i k v o
    | None => o ++ [(k, v)]
    end.

(** The assignment [o[k] = v] on an object created by an object literal,
    for a string [v]: the inherited accessor __proto__ ignores a value
    that is not an object, every other key becomes an own property. *)
Definition assign_string {V} (k : str) (v : V) (o : props V) : props V :=
  if str_eqb k (js "__proto__") then o else define_property k v o.

(** The Number values that are not integers of magnitude at most 2^53:
    a finite value (-1)^neg * m * 2^e of IEEE 754 binary64 (2^52 <= m <
    2^53 and -1074 <= e <= 971, or m < 2^52 and e = -1074), or an
    infinity. *)
Inductive double :=
| Finite (neg : bool) (m : positive) (e : Z)
| Infinite (neg : bool).

(** JSON values.  A Number value is an integer of magnitude at most
    2^53 ([JNum], negative zero with zero) or another binary64 value
    ([JDouble]). *)
#[local] Unset Elimination Schemes.
Inductive json :=
| JNull
| JBool (b : bool)
| JNum (z : Z)
| JDouble (d : double)
| JStr (s : str)
| JArr (l : list json)
| JObj (o : list (str * json)).
#[local] Set Elimination Schemes.

Definition hex_digit (n : N) : char :=
  if (n <? 10)%N then (48 + n)%N else (87 + n)%N.

(** \uXXXX with lower-case hexadecimal digits *)
Definition unicode_escape (c : char) : str :=
  js "\u" ++ [ hex_digit (c / 4096 mod 16); hex_digit (c / 256 mod 16);
               hex_digit (c / 16 mod 16); hex_digit (c mod 16) ]%N.

Definition is_high_surrogate (c : char) : bool := ((55296 <=? c) && (c <=? 56319))%N.
Definition is_low_surrogate (c : char) : bool := ((56320 <=? c) && (c <=? 57343))%N.

(** The body of QuoteJSONString, code point by code point. *)
Fixpoint quote_body (s : str) : str :=
  match s with
  | [] => []
  | c :: s' =>
      if N.eqb c 8 then js "\b" ++ quote_body s'
      else if N.eqb c 9 then js "\t" ++ quote_body s'
      else if N.eqb c 10 then js "\n" ++ quote_body s'
      else if N.eqb c 12 then js "\f" ++ quote_body s'
      else if N.eqb c 13 then js "\r" ++ quote_body s'
      else if N.eqb c 34 then [92; 34]%N ++ quote_body s'
      else if N.eqb c 92 then [92; 92]%N ++ quote_body s'
      else if (c <? 32)%N then unicode_escape c ++ quote_body s'
      else if is_high_surrogate c then
        match s' with
        | d :: s'' =>
            if is_low_surrogate d then c :: d :: quote_body s''
            else unicode_escape c ++ quote_body s'
        | [] => unicode_escape c
        end
      else if is_low_surrogate c then unicode_escape c ++ quote_body s'
      else c :: quote_body s'
  end.

Definition quote (s : str) : str := [DQUOTE] ++ quote_body s ++ [DQUOTE].

Fixpoint uint_digits (d : Decimal.uint) : str :=
  match d with
  | Decimal.Nil => []
  | Decimal.D0 d' => 48%N :: uint_digits d'
  | Decimal.D1 d' => 49%N :: uint_digits d'
  | Decimal.D2 d' => 50%N :: uint_digits d'
  | Decimal.D3 d' => 51%N :: uint_digits d'
  | Decimal.D4 d' => 52%N :: uint_digits d'
  | Decimal.D5 d' => 53%N :: uint_digits d'
  | Decimal.D6 d' => 54%N :: uint_digits d'
  | Decimal.D7 d' => 55%N :: uint_digits d'
  | Decimal.D8 d' => 56%N :: uint_digits d'
  | Decimal.D9 d' => 57%N :: uint_digits d'
  end.

(** Number::toString for an integer *)
Definition number_to_string (z : Z) : str :=
  match z with
  | Z0 => js "0"
  | Zpos p => uint_digits (Pos.to_uint p)
  | Zneg p => js "-" ++ uint_digits (Pos.to_uint p)
  end.

(** *** Number::toString for a binary64 value *)

(** [s * 10^p] as a fraction *)
Definition scaled (s p : Z) : Z * Z :=
  if (0 <=? p)%Z then (s * 10 ^ p, 1)%Z else (s, 10 ^ (- p))%Z.

Definition frac_le (a b : Z * Z) : bool := (fst a * snd b <=? fst b * snd a)%Z.
Definition frac_lt (a b : Z * Z) : bool := (fst a * snd b <? fst b * snd a)%Z.

(** The number of decimal digits of [x >= 1]. *)
Fixpoint digits_count (fuel : nat) (x : Z) : Z :=
  match fuel with
  | O => 0%Z
  | S f => if (x <? 10)%Z then 1%Z else (1 + digits_count f (x / 10))%Z
  end.

(** The least [j >= 1] with [num * 10^j >= den]. *)
Fixpoint shift_count (fuel : nat) (num den : Z) : Z :=
  match fuel with
  | O => 0%Z
  | S f => if (den <=? num * 10)%Z then 1%Z else (1 + shift_count f (num * 10) den)%Z
  end.

(** The [n] with [10^(n-1) <= num / den < 10^n]; a binary64 value has
    fewer than 400 digits before or zeros after the point. *)
Definition decimal_exponent (num den : Z) : Z :=
  if (den <=? num)%Z then digits_count 400 (num / den)
  else (1 - shift_count 400 num den)%Z.

Section Shortest.

(** The rationals [lo / den] and [hi / den] bound the values that round
    to [v / den], the bounds included if [closed]; [n] is the decimal
    exponent of [v / den]. *)
Variables (lo v hi den : Z) (closed : bool) (n : Z).

Definition inside (s p : Z) : bool :=
  let x := scaled s p in
  if closed then frac_le (lo, den) x && frac_le x (hi, den)
  else frac_lt (lo, den) x && frac_lt x (hi, den).

(** [s] of [k] digits with the exponent [n]; [10^k] is the one digit 1
    with the exponent [n + 1]. *)
Definition candidate (s k : Z) : Z * Z :=
  if (s =? 10 ^ k)%Z then (1, n + 1)%Z else (s, n).

(** The least number [k] of digits, from [k] on, for which some
    [s * 10^(n - k)] rounds to the value, and that [s]: the nearer to the
    value of the two candidates below and above it, the even one if
    they are equally near. *)
Fixpoint shortest (fuel : nat) (k : Z) : Z * Z :=
  match fuel with
  | O => (0%Z, n)
  | S f =>
      let p := (n - k)%Z in
      let s_lo := if (0 <=? p)%Z then (v / (den * 10 ^ p))%Z
                  else ((v * 10 ^ (- p)) / den)%Z in
      let s_hi := (s_lo + 1)%Z in
      let ok_lo := inside s_lo p in
      let ok_hi := inside s_hi p in
      if ok_lo && ok_hi then
        let mid := scaled (2 * s_lo + 1) p in
        if frac_lt ((2 * v)%Z, den) mid then candidate s_lo k
        else if frac_lt mid ((2 * v)%Z, den) then candidate s_hi k
        else if Z.even s_lo then candidate s_lo k else candidate s_hi k
      else if ok_lo then candidate s_lo k
      else if ok_hi then candidate s_hi k
      else shortest f (k + 1)%Z
  end.

End Shortest.

(** The integers s and n of Number::toString for the value m * 2^e: s
    has as few digits as possible, k say, and s * 10^(n - k) is a decimal
    that rounds to the value (17 digits always do). *)
Definition shortest_digits (m : positive) (e : Z) : Z * Z :=
  let m := Zpos m in
  let narrow := ((m =? 2 ^ 52) && (-1074 <? e))%Z in
  let lo := (if narrow then 4 * m - 1 else 4 * m - 2)%Z in
  let hi := (4 * m + 2)%Z in
  let v := (4 * m)%Z in
  let sc := (e - 2)%Z in
  let '(lo, v, hi, den) :=
    if (0 <=? sc)%Z then (lo * 2 ^ sc, v * 2 ^ sc, hi * 2 ^ sc, 1)%Z
    else (lo, v, hi, 2 ^ (- sc))%Z in
  shortest lo v hi den (Z.even m) (decimal_exponent v den) 17 1.

Definition zeros (k : Z) : str := List.repeat 48%N (Z.to_nat k).

(** The text of Number::toString given s and n: plain digits for an
    integer below 10^21, a decimal point inside or after "0." for n
    above -6, the exponent form otherwise. *)
Definition format_number (s n : Z) : str :=
  let ds := number_to_string s in
  let k := Z.of_nat (length ds) in
  if ((k <=? n) && (n <=? 21))%Z then ds ++ zeros (n - k)
  else if ((0 <? n) && (n <=? 21))%Z
  then firstn (Z.to_nat n) ds ++ js "." ++ skipn (Z.to_nat n) ds
  else if ((-6 <? n) && (n <=? 0))%Z then js "0." ++ zeros (- n) ++ ds
  else
    let mantissa := match ds with
                    | [d] => [d]
                    | d :: rest => d :: js "." ++ rest
                    | [] => []
                    end in
    mantissa ++ js "e" ++ (if (n - 1 <? 0)%Z then js "-" else js "+")
    ++ number_to_string (Z.abs (n - 1)).

(** SerializeJSONProperty for a Number: its text if it is finite, null
    otherwise. *)
Definition double_to_string (d : double) : str :=
  match d with
  | Finite neg m e =>
      let (s, n) := shortest_digits m e in
      (if neg then js "-" else []) ++ format_number s n
  | Infinite _ => js "null"
  end.

Fixpoint join_comma (l : list str) : str :=
  match l with
  | [] => []
  | [x] => x
  | x :: l' => x ++ js "," ++ join_comma l'
  end.

(** JSON.stringify without indentation (SerializeJSONProperty). *)
Fixpoint stringify (v : json) : str :=
  match v with
  | JNull => js "null"
  | JBool true => js "true"
  | JBool false => js "false"
  | JNum z => number_to_string z
  | JDouble d => double_to_string d
  | JStr s => quote s
  | JArr l => js "[" ++ join_comma (List.map stringify l) ++ js "]"
  | JObj o =>
      js "{" ++ join_comma (List.map (fun kv => quote (fst kv) ++ js ":" ++ stringify (snd kv)) o)
      ++ js "}"
  end.

(** *** JSON.parse *)

Inductive parsed (A : Type) :=
| Parsed (a : A) (rest : str)
| SyntaxError
| Unmodelled.      (* out of fuel; never for the fuel JSON_parse gives *)
Arguments Parsed {A}.
Arguments SyntaxError {A}.
Arguments Unmodelled {A}.

Definition is_json_space (c : char) : bool :=
  N.eqb c 9 || N.eqb c 10 || N.eqb c 13 || N.eqb c 32.

Fixpoint skip_space (s : str) : str :=
  match s with
  | c :: s' => if is_json_space c then skip_space s' else s
  | [] => []
  end.

Definition hex_value (c : char) : option N :=
  if is_digit c then Some (c - 48)%N
  else if ((97 <=? c) && (c <=? 102))%N then Some (c - 87)%N
  else if ((65 <=? c) && (c <=? 70))%N then Some (c - 55)%N
  else None.

(** The characters of a string literal after the opening quote. *)
Fixpoint parse_string_body (s : str) (acc : str) : parsed str :=
  match s with
  | [] => SyntaxError
  | c :: s' =>
      if N.eqb c 34 then Parsed (rev acc) s'
      else if (c <? 32)%N then SyntaxError
      else if N.eqb c 92 then
        match s' with
        | e :: s'' =>
            if N.eqb e 117 then                         (* \uXXXX *)
              match s'' with
              | a :: b :: c1 :: d :: s3 =>
                  match hex_value a, hex_value b, hex_value c1, hex_value d with
                  | Some x1, Some x2, Some x3, Some x4 =>
                      parse_string_body s3 ((x1 * 4096 + x2 * 256 + x3 * 16 + x4)%N :: acc)
                  | _, _, _, _ => SyntaxError
                  end
              | _ => SyntaxError
              end
            else
              let simple (x : char) := parse_string_body s'' (x :: acc) in
              if N.eqb e 34 then simple 34%N
              else if N.eqb e 92 then simple 92%N
              else if N.eqb e 47 then simple 47%N
              else if N.eqb e 98 then simple 8%N
              else if N.eqb e 102 then simple 12%N
              else if N.eqb e 110 then simple 10%N
              else if N.eqb e 114 then simple 13%N
              else if N.eqb e 116 then simple 9%N
              else SyntaxError
        | [] => SyntaxError
        end
      else parse_string_body s' (c :: acc)
  end.

Fixpoint take_digits (s : str) : str * str :=
  match s with
  | c :: s' => if is_digit c then let (d, r) := take_digits s' in (c :: d, r) else ([], s)
  | [] => ([], [])
  end.

Definition MAX_SAFE : N := 9007199254740992.

(** *** The Number value of a numeric token *)

Inductive rounded := RZero | RFinite (m : positive) (e : Z) | RInfinity.

(** [num / den >= 2^t], for positive [num] and [den] *)
Definition at_least_pow2 (num den t : Z) : bool :=
  if (0 <=? t)%Z then (den * 2 ^ t <=? num)%Z else (den <=? num * 2 ^ (- t))%Z.

(** The Number value for the positive rational num / den: the binary64
    value nearest to it, the one with an even significand if two are
    equally near; zero and infinity when the value is below or beyond
    the range. *)
Definition round_binary64 (num den : Z) : rounded :=
  let t := (Z.log2 num - Z.log2 den)%Z in
  let fl := if at_least_pow2 num den t then t else (t - 1)%Z in
  let e := Z.max (fl - 52) (-1074) in
  let n' := if (0 <=? e)%Z then num else (num * 2 ^ (- e))%Z in
  let d' := if (0 <=? e)%Z then (den * 2 ^ e)%Z else den in
  let q := (n' / d')%Z in
  let r := (n' mod d')%Z in
  let q := if ((d' <? 2 * r) || ((d' =? 2 * r) && Z.odd q))%Z then (q + 1)%Z else q in
  if (q =? 0)%Z then RZero
  else
    let (m, e) := if (q =? 2 ^ 53)%Z then (2 ^ 52, e + 1)%Z else (q, e) in
    if (971 <? e)%Z then RInfinity else RFinite (Z.to_pos m) e.

(** The value of the token with the sign [neg], the digits
    [int_digits] before and [frac_digits] after the point and the
    exponent [exponent].  A value of 10^311 or more is infinite and a
    value below 10^-330 is zero, whatever its digits. *)
Definition Number_value (neg : bool) (int_digits frac_digits : str) (exponent : Z) : json :=
  let M := Z.of_N (digits_value (int_digits ++ frac_digits) 0) in
  let E := (exponent - Z.of_nat (length frac_digits))%Z in
  let len := Z.of_nat (length (int_digits ++ frac_digits)) in
  if (M =? 0)%Z then JNum 0
  else if (310 <? E)%Z then JDouble (Infinite neg)
  else if (len + E <? -330)%Z then JNum 0
  else
    let (num, den) := scaled M E in
    match round_binary64 num den with
    | RZero => JNum 0
    | RInfinity => JDouble (Infinite neg)
    | RFinite m e =>
        let z := if (0 <=? e)%Z then (Zpos m * 2 ^ e)%Z else (Zpos m / 2 ^ (- e))%Z in
        let integral := if (0 <=? e)%Z then true else (Zpos m mod 2 ^ (- e) =? 0)%Z in
        if integral && (z <=? Z.of_N MAX_SAFE)%Z
        then JNum (if neg then Z.opp z else z)
        else JDouble (Finite neg m e)
    end.

(** (. digits)? : [None] when no digit follows the point *)
Definition read_fraction (s : str) : option (str * str) :=
  match s with
  | c :: s' =>
      if N.eqb c 46 then
        match take_digits s' with
        | ([], _) => None
        | (fd, r) => Some (fd, r)
        end
      else Some ([], s)
  | [] => Some ([], s)
  end.

(** ([eE] [+-]? digits)? : [None] when no digit follows *)
Definition read_exponent (s : str) : option (Z * str) :=
  match s with
  | c :: s' =>
      if N.eqb c 101 || N.eqb c 69 then
        let (negative, s'') :=
          match s' with
          | sign :: t =>
              if N.eqb sign 45 then (true, t)
              else if N.eqb sign 43 then (false, t)
              else (false, s')
          | [] => (false, s')
          end in
        match take_digits s'' with
        | ([], _) => None
        | (xd, r) =>
            Some (if negative then Z.opp (Z.of_N (digits_value xd 0))
                  else Z.of_N (digits_value xd 0), r)
        end
      else Some (0%Z, s)
  | [] => Some (0%Z, s)
  end.

(** The rest of a token that goes on with a fraction or an exponent. *)
Definition fraction_and_exponent (neg : bool) (int_digits s3 : str) : parsed json :=
  match read_fraction s3 with
  | None => SyntaxError
  | Some (frac_digits, s4) =>
      match read_exponent s4 with
      | None => SyntaxError
      | Some (exponent, s5) => Parsed (Number_value neg int_digits frac_digits exponent) s5
      end
  end.

(** A token of digits only: an integer of at most 16 digits and of
    magnitude at most 2^53 is a Number value as it stands. *)
Definition plain_integer (neg : bool) (int_digits s3 : str) : parsed json :=
  if (length int_digits <=? 16) && (digits_value int_digits 0 <=? MAX_SAFE)%N
  then Parsed (JNum (if neg then Z.opp (Z.of_N (digits_value int_digits 0))
                     else Z.of_N (digits_value int_digits 0))) s3
  else Parsed (Number_value neg int_digits [] 0) s3.

(** A number token: -? (0 | [1-9][0-9]* ) (. [0-9]+)? ([eE] [+-]? [0-9]+)? *)
Definition parse_number (s : str) : parsed json :=
  let (neg, s1) := match s with
                   | c :: s' => if N.eqb c 45 then (true, s') else (false, s)
                   | [] => (false, s)
                   end in
  let (ds, s2) := take_digits s1 in
  match ds with
  | [] => SyntaxError
  | d0 :: more =>
      let (int_digits, s3) :=
        if N.eqb d0 48 then ([d0], more ++ s2) else (ds, s2) in
      match s3 with
      | c :: _ =>
          if N.eqb c 46 || N.eqb c 101 || N.eqb c 69
          then fraction_and_exponent neg int_digits s3
          else plain_integer neg int_digits s3
      | [] => plain_integer neg int_digits s3
      end
  end.

Definition expect (word : str) (v : json) (s : str) : parsed json :=
  if startsWith s word then Parsed v (skipn (length word) s) else SyntaxError.

(** A value; [fuel] bounds the nesting depth and the number of elements
    and members read, and each of these consumes input, so the length of
    the text is enough. *)
Fixpoint parse_value (fuel : nat) (s : str) : parsed json :=
  match fuel with
  | 0 => Unmodelled
  | S fuel' =>
      let parse_elements :=
        fix elements (n : nat) (s : str) (acc : list json) : parsed json :=
          match n with
          | 0 => Unmodelled
          | S n' =>
              match parse_value fuel' (skip_space s) with
              | Parsed v r =>
                  match skip_space r with
                  | c :: r' =>
                      if N.eqb c 44 then elements n' r' (v :: acc)
                      else if N.eqb c 93 then Parsed (JArr (rev (v :: acc))) r'
                      else SyntaxError
                  | [] => SyntaxError
                  end
              | SyntaxError => SyntaxError
              | Unmodelled => Unmodelled
              end
          end in
      let parse_members :=
        fix members (n : nat) (s : str) (acc : list (str * json)) : parsed json :=
          match n with
          | 0 => Unmodelled
          | S n' =>
              match skip_space s with
              | q :: s1 =>
                  if N.eqb q 34 then
                    match parse_string_body s1 [] with
                    | Parsed k r =>
                        match skip_space r with
                        | c :: r1 =>
                            if N.eqb c 58 then
                              match parse_value fuel' (skip_space r1) with
                              | Parsed v r2 =>
                                  match skip_space r2 with
                                  | c2 :: r3 =>
                                      if N.eqb c2 44 then members n' r3 (define_property k v acc)
                                      else if N.eqb c2 125
                                      then Parsed (JObj (define_property k v acc)) r3
                                      else SyntaxError
                                  | [] => SyntaxError
                                  end
                              | SyntaxError => SyntaxError
                              | Unmodelled => Unmodelled
                              end
                            else SyntaxError
                        | [] => SyntaxError
                        end
                    | SyntaxError => SyntaxError
                    | Unmodelled => Unmodelled
                    end
                  else SyntaxError
              | [] => SyntaxError
              end
          end in
      match s with
      | [] => SyntaxError
      | c :: s' =>
          if N.eqb c 123 then                                   (* { *)
            match skip_space s' with
            | c1 :: r => if N.eqb c1 125 then Parsed (JObj []) r
                         else parse_members fuel' s' []
            | [] => SyntaxError
            end
          else if N.eqb c 91 then                               (* [ *)
            match skip_space s' with
            | c1 :: r => if N.eqb c1 93 then Parsed (JArr []) r
                         else parse_elements fuel' s' []
            | [] => SyntaxError
            end
          else if N.eqb c 34 then
            match parse_string_body s' [] with
            | Parsed k r => Parsed (JStr k) r
            | SyntaxError => SyntaxError
            | Unmodelled => Unmodelled
            end
          else if N.eqb c 116 then expect (js "true") (JBool true) s
          else if N.eqb c 102 then expect (js "false") (JBool false) s
          else if N.eqb c 110 then expect (js "null") JNull s
          else parse_number s
      end
  end.

(** JSON.parse(text): one value surrounded by white space. *)
Definition JSON_parse (text : str) : parsed json :=
  match parse_value (S (length text)) (skip_space text) with
  | Parsed v r =>
      match skip_space r with
      | [] => Parsed v []
      | _ :: _ => SyntaxError
      end
  | SyntaxError => SyntaxError
  | Unmodelled => Unmodelled
  end.

(** *** atob: the forgiving-base64 decode of the HTML standard *)

Definition is_ascii_space (c : char) : bool :=
  N.eqb c 9 || N.eqb c 10 || N.eqb c 12 || N.eqb c 13 || N.eqb c 32.

Definition sextet (c : char) : option N :=
  if ((65 <=? c) && (c <=? 90))%N then Some (c - 65)%N
  else if ((97 <=? c) && (c <=? 122))%N then Some (c - 71)%N
  else if ((48 <=? c) && (c <=? 57))%N then Some (c + 4)%N
  else if N.eqb c 43 then Some 62%N
  else if N.eqb c 47 then Some 63%N
  else None.

Fixpoint sextets (s : str) : option (list N) :=
  match s with
  | [] => Some []
  | c :: s' =>
      match sextet c, sextets s' with
      | Some v, Some l => Some (v :: l)
      | _, _ => None
      end
  end.

Fixpoint decode_groups (l : list N) : str :=
  match l with
  | a :: b :: c :: d :: l' =>
      let n := (a * 262144 + b * 4096 + c * 64 + d)%N in
      (n / 65536)%N :: (n / 256 mod 256)%N :: (n mod 256)%N :: decode_groups l'
  | [a; b; c] =>
      let n := (a * 4096 + b * 64 + c)%N in
      [(n / 1024)%N; (n / 4 mod 256)%N]
  | [a; b] => [((a * 64 + b) / 16)%N]
  | _ => []
  end.

Definition strip_padding (s : str) : str :=
  if length s mod 4 =? 0 then
    match rev s with
    | 61%N :: 61%N :: r => rev r
    | 61%N :: r => rev r
    | _ => s
    end
  else s.

(** atob(data): [None] when it throws InvalidCharacterError. *)
Definition atob (data : str) : option str :=
  let d := strip_padding (List.filter (fun c => negb (is_ascii_space c)) data) in
  if length d mod 4 =? 1 then None
  else
    match sextets d with
    | Some l => Some (decode_groups l)
    | None => None
    end.

End Json.
Import Json.

(* ===================================================================== *)
(** ** parseMessageContent *)
(* ===================================================================== *)

Module Parser.

Inductive kind := Text | Thought | Tool | Pending.

(** { type, content, isStreaming? } *)
Record part := mkPart {
  type : kind;
  content : str;
  isStreaming : option bool      (* [None]: the property is absent *)
}.

Definition kind_eqb (a b : kind) : bool :=
  match a, b with
  | Text, Text | Thought, Thought | Tool, Tool | Pending, Pending => true
  | _, _ => false
  end.

(** *** Effects: the module-level attribute cache and exceptions *)

Inductive exn := TypeError.

Inductive outcome (A : Type) :=
| Returns (a : A)
| Throws (e : exn)
| OutOfModel.       (* JSON.parse ran out of fuel: this never happens *)
Arguments Returns {A}.
Arguments Throws {A}.
Arguments OutOfModel {A}.

(** ATTR_REGEX_CACHE: Record<string, RegExp> *)
Abbreviation cache := (gmap str RegExp).

Definition M (A : Type) : Type := cache -> outcome A * cache.

Definition ret {A} (a : A) : M A := fun c => (Returns a, c).
Definition throw {A} (e : exn) : M A := fun c => (Throws e, c).
Definition out_of_model {A} : M A := fun c => (OutOfModel, c).
Definition bind {A B} (m : M A) (f : A -> M B) : M B :=
  fun c =>
    match m c with
    | (Returns a, c') => f a c'
    | (Throws e, c') => (Throws e, c')
    | (OutOfModel, c') => (OutOfModel, c')
    end.

Notation "x <- m ;; f" := (bind m (fun x => f))
  (at level 100, m at next level, right associativity).

(** [a || b] on values that are strings or undefined *)
Definition js_or (a b : option str) : option str :=
  match a with
  | Some (_ :: _) => a
  | _ => b
  end.

Definition or_empty (a : option str) : str :=
  match a with
  | Some s => s
  | None => []
  end.

(** getAttr(tagContent, name).  [tagContent] is [None] when the caller
    passes undefined; calling its method match then raises TypeError. *)
Definition getAttr (tagContent : option str) (name : str) : M (option str) :=
  fun c =>
    let (re, c') :=
      match c !! name with
      | Some re => (re, c)
      | None => (attr_regex name, <[name := attr_regex name]> c)
      end in
    match tagContent with
    | None => (Throws TypeError, c')
    | Some t =>
        (Returns match match_first re t with
                 | Some m => group t m 1
                 | None => None
                 end, c')
    end.

Definition MAX_CONTENT_LENGTH : nat := 1000 * 1000.
Definition MAX_ITERATIONS : nat := 100 * 100.

(** Sub-pattern A: the object built from <argument name=... value=... /> *)
Definition flat_args (tagInner : str) : props str :=
  fold_left
    (fun args am => assign_string (or_empty (group tagInner am 1))
                                  (or_empty (group tagInner am 2)) args)
    (matchAll ARGUMENT_REGEX tagInner) [].

Definition excluded_key (k : str) : bool :=
  existsb (str_eqb k) [js "arguments"; js "thought"; js "think"].

(** Sub-pattern B: <key>value</key> *)
Definition deep_args (tagInner : str) (args : props str) : props str :=
  fold_left
    (fun args dam =>
       let k := or_empty (group tagInner dam 1) in
       if negb (excluded_key k)
       then assign_string k (trim (or_empty (group tagInner dam 2))) args
       else args)
    (matchAll DEEP_ARG_REGEX tagInner) args.

(** JSON.stringify({ name: toolName, arguments: args }) *)
Definition tool_json (toolName : str) (args : props str) : str :=
  stringify (JObj [(js "name", JStr toolName);
                   (js "arguments", JObj (List.map (fun kv => (fst kv, JStr (snd kv))) args))]).

(** The content of the part pushed for a tool_call or tool tag. *)
Definition toolContent (type tagAttrs tagInner : str) : str :=
  if str_eqb type (js "tool") && includes tagAttrs (js "name=") then
    let toolName :=
      match match_first NAME_ATTR_REGEX tagAttrs with
      | Some nameMatch => or_empty (group tagAttrs nameMatch 1)
      | None => js "unknown"
      end in
    if negb (startsWith (trim tagInner) (js "{")) then
      let args := flat_args tagInner in
      let args := if length args =? 0 then deep_args tagInner args else args in
      tool_json toolName args
    else tagInner
  else tagInner.

(** The try block of the tool_pending branch: [None] when atob or
    JSON.parse throws (caught and logged). *)
Definition decode_pending (requestId tool action paramsB64 : str) : outcome (option part) :=
  let cleanB64 := replace_all_empty SPACE_REGEX (trim paramsB64) in
  match atob cleanB64 with
  | None => Returns None
  | Some text =>
      match JSON_parse text with
      | Parsed params _ =>
          Returns (Some (mkPart Pending
            (stringify (JObj [(js "request_id", JStr requestId); (js "tool", JStr tool);
                              (js "action", JStr action); (js "params", params)]))
            None))
      | SyntaxError => Returns None
      | Unmodelled => OutOfModel
      end
  end.

Definition pending_parts (tagContent : option str) : M (list part) :=
  requestId <- getAttr tagContent (js "request_id") ;;
  tool <- getAttr tagContent (js "tool") ;;
  action <- getAttr tagContent (js "action") ;;
  paramsB64 <- getAttr tagContent (js "params_b64") ;;
  match requestId, tool, action, paramsB64 with
  | Some ((_ :: _) as r), Some ((_ :: _) as t), Some ((_ :: _) as a), Some ((_ :: _) as p) =>
      match decode_pending r t a p with
      | Returns (Some pt) => ret [pt]
      | Returns None => ret []
      | Throws e => throw e
      | OutOfModel => out_of_model
      end
  | _, _, _, _ => ret []
  end.

(** The parts pushed for one match of TAG_REGEX (the if / else-if chain
    of the loop body). *)
Definition tag_parts (content : str) (m : MatchResult) : M (list part) :=
  let fullTag := matched content m in
  let type := js_or (group content m 1) (group content m 4) in
  let tagAttrs := or_empty (js_or (group content m 2) (Some [])) in
  let tagInner := or_empty (js_or (group content m 3) (Some [])) in
  let tag (name : str) :=
    match type with Some t => str_eqb t name | None => false end in
  if tag (js "thought") || tag (js "think") then
    ret [mkPart Thought tagInner
           (Some (negb (endsWith fullTag (js "</" ++ or_empty type ++ js ">"))))]
  else if tag (js "tool_call") || tag (js "tool") then
    ret [mkPart Tool (toolContent (or_empty type) tagAttrs tagInner) None]
  else if tag (js "tool_pending") then
    pending_parts (js_or (group content m 2) (group content m 5))
  else if tag (js "tool_result") then ret []
  else if tag (js "answer") then ret [mkPart Text tagInner None]
  else ret [].

(** The variables of the while loop. *)
Record loop_state := mkLoop {
  parts : list part;
  lastIndex : nat;          (* the local variable lastIndex *)
  regexLastIndex : nat      (* tagRegex.lastIndex *)
}.

Definition push_text (ps : list part) (text : str) : list part :=
  if truthy (trim text) then ps ++ [mkPart Text text None] else ps.

(** The while loop; [budget] is MAX_ITERATIONS - iterations. *)
Fixpoint scan_tags (content : str) (budget : nat) (st : loop_state) : M loop_state :=
  match exec TAG_REGEX content (regexLastIndex st) with
  | (None, _) => ret st
  | (Some m, next) =>
      match budget with
      | 0 => ret st                                          (* break *)
      | S budget' =>
          if (index m =? lastIndex st) && (length (matched content m) =? 0) then
            scan_tags content budget' (mkLoop (parts st) (S (lastIndex st)) next)
          else
            let ps := push_text (parts st) (slice content (lastIndex st) (index m)) in
            new <- tag_parts content m ;;
            scan_tags content budget' (mkLoop (ps ++ new) next next)
      end
  end.

(** The three replacements and the trim applied to a text part. *)
Definition clean_text (s : str) : str :=
  trim (replace_all_empty EMPTY_FENCE_REGEX
          (replace_all_empty RAW_JSON_REGEX
             (replace_all_empty TOOL_HEADER_REGEX s))).

Definition clean_part (p : part) : part :=
  match type p with
  | Text => mkPart Text (clean_text (content p)) (isStreaming p)
  | _ => p
  end.

Definition keep_part (p : part) : bool :=
  negb (kind_eqb (type p) Text) || truthy (content p).

(** Everything after the first guard of parseMessageContent. *)
Definition parse_body (content : str) : M (list part) :=
  let content :=
    if MAX_CONTENT_LENGTH <? length content
    then substring0 content MAX_CONTENT_LENGTH else content in
  st <- scan_tags content MAX_ITERATIONS (mkLoop [] 0 0) ;;
  let ps := push_text (parts st) (slice_from content (lastIndex st)) in
  ret (List.filter keep_part (List.map clean_part ps)).

Definition parseMessageContent (content : str) : M (list part) :=
  if negb (truthy content) || (length (trim content) =? 0)
  then ret [mkPart Text [] None]
  else parse_body content.

(** A call made when no attribute has been looked up yet. *)
Definition parse (content : str) : outcome (list part) :=
  fst (parseMessageContent content ∅).

End Parser.
Import Parser.

(** The two caps are large unary numbers: proofs treat them as constants. *)
#[global] Opaque MAX_CONTENT_LENGTH MAX_ITERATIONS.

(* ===================================================================== *)
(** ** The streaming consumer's cap (handleSubmit) *)
(* ===================================================================== *)

Module Consumer.

Definition MAX_RESPONSE_LENGTH : nat := 5 * (1000 * 1000).

(** The marker appended on truncation: a line feed and "...[truncated]". *)
Definition TRUNCATION_MARKER : str := [LF] ++ js "...[truncated]".

(** The safety check after [accumulatedResponse += chunk]: the
    accumulated text to keep and whether the read loop breaks. *)
#[global] Opaque MAX_RESPONSE_LENGTH.

Definition cap_response (accumulatedResponse : str) : str * bool :=
  if MAX_RESPONSE_LENGTH <? length accumulatedResponse
  then (substring0 accumulatedResponse MAX_RESPONSE_LENGTH ++ TRUNCATION_MARKER, true)
  else (accumulatedResponse, false).

End Consumer.

(* ===================================================================== *)
(** ** Approve and deny (handleApproveAction, handleDenyAction,
       PendingActionBlock) *)
(* ===================================================================== *)

Module Approval.

(** The values of votedActions: Record<string, 'approved' | 'denied'> *)
Inductive vote := approved | denied.

Record PendingAction := mkPending {
  request_id : str;
  tool : str;
  action : str;
  params : json
}.

(** What the handlers do to the outside, in order. *)
Inductive event :=
| PostApprove (id : str)        (* axios.post(.../pending-actions/<id>/approve) *)
| PostDeny (id : str)           (* axios.post(.../pending-actions/<id>/deny) *)
| FetchPendingCount
| HandleSubmit (customPrompt : str)
| ConsoleError
| Alert (message : str).

(** The component state the handlers touch, with the trace of events. *)
Record ui := mkUi {
  votedActions : gmap str vote;
  trace : list event
}.

(** How the awaited axios.post settles: rejected, or resolved with
    [JSON.stringify(res.data.result)] as text. *)
Inductive reply := Rejected | Resolved (result : str).

Definition approve_follow_up (result : str) : str :=
  js "USER APPROVED: The action was APPROVED. Tool Result: " ++ result ++ js ". "
  ++ [LF] ++ js "            " ++ [LF]
  ++ js "CRITICAL: Please provide a clear, user-friendly summary of what was accomplished (e.g., "
  ++ [DQUOTE] ++ js "I've written the file test.txt with your content" ++ [DQUOTE]
  ++ js "). If there was an error in the tool output, explain it concisely.".

Definition deny_follow_up : str :=
  js "The user DENIED the action. Inform the user you cannot proceed with that specific action and explain if necessary.".

Definition log (e : list event) (s : ui) : ui :=
  mkUi (votedActions s) (trace s ++ e).

Definition setVoted (id : str) (v : vote) (s : ui) : ui :=
  mkUi (<[id := v]> (votedActions s)) (trace s).

Definition handleApproveAction (pending : PendingAction) (r : reply) (s : ui) : ui :=
  let s := setVoted (request_id pending) approved s in
  let s := log [PostApprove (request_id pending)] s in
  match r with
  | Resolved result =>
      log [FetchPendingCount; HandleSubmit (approve_follow_up result)] s
  | Rejected =>
      log [ConsoleError; Alert (js "Approval failed.")] s
  end.

Definition handleDenyAction (pending : PendingAction) (r : reply) (s : ui) : ui :=
  let s := setVoted (request_id pending) denied s in
  let s := log [PostDeny (request_id pending)] s in
  match r with
  | Resolved _ =>
      log [FetchPendingCount; HandleSubmit deny_follow_up] s
  | Rejected =>
      log [ConsoleError; Alert (js "Denial failed.")] s
  end.

(** PendingActionBlock: [status = votedActions[pending.request_id]]; the
    Approve and Deny buttons are rendered only when it is undefined. *)
Definition status (s : ui) (pending : PendingAction) : option vote :=
  votedActions s !! request_id pending.

Definition buttons_rendered (s : ui) (pending : PendingAction) : bool :=
  match status s pending with
  | None => true
  | Some _ => false
  end.

(** A click where the Approve (Deny) button of the block is, or would
    be: the handler runs only when the button is rendered. *)
Definition click_approve (pending : PendingAction) (r : reply) (s : ui) : ui :=
  if buttons_rendered s pending then handleApproveAction pending r s else s.

Definition click_deny (pending : PendingAction) (r : reply) (s : ui) : ui :=
  if buttons_rendered s pending then handleDenyAction pending r s else s.

(** The external resolution calls in a trace. *)
Definition is_resolution_call (e : event) : bool :=
  match e with
  | PostApprove _ | PostDeny _ => true
  | _ => false
  end.

Definition resolution_calls (s : ui) : nat :=
  length (List.filter is_resolution_call (trace s)).

End Approval.

(* ===================================================================== *)
(** ** Vocabulary of the statements *)
(* ===================================================================== *)

(** Empty or made of white space only. *)
Definition blank (s : str) : bool := forallb is_space s.

(** No text part that is empty or white space only. *)
Definition no_blank_text (ps : list part) : Prop :=
  Forall (fun p => type p = Text -> blank (content p) = false) ps.

(** The attribute cache holds, for a name, the expression getAttr
    compiles for that name: the only entries getAttr ever writes. *)
Definition cache_ok (c : gmap str RegExp) : Prop :=
  forall name re, c !! name = Some re -> re = attr_regex name.

(** The cache left behind by earlier calls of parseMessageContent, made
    one after the other on the given buffers. *)
Definition cache_after (earlier : list str) : gmap str RegExp :=
  fold_left (fun c buffer => snd (parseMessageContent buffer c)) earlier ∅.

(** A computation whose outcome does not depend on the cache it finds,
    and which keeps the cache well-formed. *)
Definition stable {A} (m : M A) : Prop :=
  forall c1 c2, cache_ok c1 -> cache_ok c2 ->
    fst (m c1) = fst (m c2) /\ cache_ok (snd (m c1)).

(** The buffer the loop scans: the first MAX_CONTENT_LENGTH code units. *)
Definition capped (content : str) : str := substring0 content MAX_CONTENT_LENGTH.

(** [origin content a b q]: the part [q] is what the loop pushes for the
    piece [a, b) of the buffer, which is either a run of plain text, or
    a match of TAG_REGEX starting at [a] and ending at [b]. *)
Inductive origin (content : str) (a b : nat) (q : part) : Prop :=
| plain_run :
    q = mkPart Text (slice content a b) None ->
    blank (slice content a b) = false ->
    origin content a b q
| recognized_tag (m : MatchResult) (c c' : gmap str RegExp) :
    match_at TAG_REGEX content a = Some m ->
    stop m = b ->
    tag_parts content m c = (Returns [q], c') ->
    origin content a b q.

(** Pieces in source order between [lo] and [hi]: each starts where the
    one before ended, or later. *)
Fixpoint laid (content : str) (lo : nat) (l : list (nat * nat * part)) (hi : nat) : Prop :=
  match l with
  | [] => lo <= hi
  | (a, b, q) :: l' =>
      lo <= a /\ a <= b /\ origin content a b q /\ laid content b l' hi
  end.

(** The parts of a result, each with the piece of the buffer it comes
    from: the pieces are in source order and do not overlap, and the
    part is the cleaned form of what was pushed for its piece. *)
Fixpoint in_source_order (content : str) (lo : nat) (l : list (nat * nat * part)) : Prop :=
  match l with
  | [] => lo <= length content
  | (a, b, p) :: l' =>
      lo <= a /\ a <= b
      /\ (exists q, origin content a b q /\ p = clean_part q)
      /\ in_source_order content b l'
  end.

(** *** The argument extractor, as the specification words it *)

(** The tool name declared by the name attribute. *)
Definition declared_name (tagAttrs : str) : str :=
  match match_first NAME_ATTR_REGEX tagAttrs with
  | Some nameMatch => or_empty (group tagAttrs nameMatch 1)
  | None => js "unknown"
  end.

(** Flat form: the (name, value) pairs of the <argument .../> children. *)
Definition flat_pairs (tagInner : str) : list (str * str) :=
  List.map (fun am => (or_empty (group tagInner am 1), or_empty (group tagInner am 2)))
           (matchAll ARGUMENT_REGEX tagInner).

(** Nested form: the child elements keyed by their own tag name, with
    their trimmed inner text, the structural names left out. *)
Definition nested_pairs (tagInner : str) : list (str * str) :=
  List.filter (fun kv => negb (excluded_key (fst kv)))
    (List.map (fun dam => (or_empty (group tagInner dam 1),
                           trim (or_empty (group tagInner dam 2))))
              (matchAll DEEP_ARG_REGEX tagInner)).

(** arguments[name] = value, pair after pair, on an empty object *)
Definition record_args (pairs : list (str * str)) : props str :=
  fold_left (fun args kv => assign_string (fst kv) (snd kv) args) pairs [].

(** Flat form first; the nested form if the flat form recorded nothing. *)
Definition spec_arguments (tagInner : str) : props str :=
  match record_args (flat_pairs tagInner) with
  | [] => record_args (nested_pairs tagInner)
  | args => args
  end.

(** *** Buffers without what a pattern looks for *)

(** [blocked ic r a]: the pattern [r] cannot match where the next code
    unit is [a] ([None]: at the end of the input), because its first
    atom consumes a character that [a] is not. *)
Fixpoint blocked (ignoreCase : bool) (r : regex) (a : option char) : bool :=
  match r with
  | Chars cs =>
      match a with
      | Some a => negb (charset_mem ignoreCase cs a)
      | None => true
      end
  | Seq r1 _ => blocked ignoreCase r1 a
  | Alt r1 r2 => blocked ignoreCase r1 a && blocked ignoreCase r2 a
  | Group _ r1 => blocked ignoreCase r1 a
  | Repeat min max _ r1 =>
      match max with
      | Some 0 => false
      | _ => (0 <? min) && blocked ignoreCase r1 a
      end
  | _ => false
  end.

(** A code unit at which neither a tag nor one of the three leaks the
    cleaning removes can start, and which is not white space. *)
Definition plain (a : char) : bool :=
  blocked false (pattern TAG_REGEX) (Some a)
  && blocked true (pattern TOOL_HEADER_REGEX) (Some a)
  && blocked false (pattern RAW_JSON_REGEX) (Some a)
  && blocked true (pattern EMPTY_FENCE_REGEX) (Some a)
  && negb (is_space a).

(** [free_of name s]: the text [s] holds no "<" followed by [name] or by
    "/" and [name]. *)
Fixpoint free_of (name : str) (s : str) : bool :=
  match s with
  | [] => true
  | c :: s' =>
      negb (N.eqb c 60 && (startsWith s' name || startsWith s' (47%N :: name)))
      && free_of name s'
  end.

(** *** Opening tags *)

(** The attribute part of an opening tag, between the name and ">": white
    space [w], then a text [attrs] without ">" that does not begin with
    white space and stands only after white space.  Both are empty for a
    tag without attributes. *)
Definition attribute_text (w attrs : str) : bool :=
  blank w && negb (includes attrs (js ">"))
  && match attrs with
     | [] => true
     | a :: _ => negb (is_space a) && truthy w
     end.

(** "<", the name, the attribute part and ">". *)
Definition opening_tag (name w attrs : str) : str :=
  js "<" ++ name ++ w ++ attrs ++ js ">".

(** TAG_REGEX matches at no index from [from] up to [to], [to] left out. *)
Definition no_tag_between (content : str) (from to : nat) : bool :=
  forallb (fun i => match match_at TAG_REGEX content i with
                    | Some _ => false
                    | None => true
                    end)
          (List.seq from (to - from)).

(** *** The match of a tag that is not closed *)

(** The captures once group 1 holds [name], for a tag whose "<" is at
    index [o]. *)
Definition caps1 (o : nat) (name : str) : list (option (nat * nat)) :=
  [Some (o + 1, o + 1 + length name); None; None; None; None].

(** Where the inner text starts: after "<", the name and ">". *)
Definition body_start (o : nat) (name : str) : nat := o + length name + 2.

(** The captures of a match whose inner text runs to the end of [input]. *)
Definition caps3 (input : str) (o : nat) (name : str) : list (option (nat * nat)) :=
  [Some (o + 1, o + 1 + length name); None; Some (body_start o name, length input);
   None; None].

(** What follows group 3 in BODY: the closing tag or the end of the
    input, tried once the group has been recorded. *)
Definition after_body (input : str) (o : nat) (name : str) (c : Continuation)
    : Continuation :=
  fun y => matcher input false (seq [Alt CLOSE EndAnchor])
             (set_capture 3 (Some (body_start o name, endIndex y)) y) c.

(** *** The matcher moves forward *)

(** [y] ends at or after [x], and inside the input if [x] does. *)
Definition within (input : str) (x y : MatchState) : Prop :=
  endIndex x <= endIndex y /\
  (endIndex x <= length input -> endIndex y <= length input).

(** A matcher that succeeds has called its continuation on a state
    further on. *)
Definition ranged (input : str) (m : Matcher) : Prop :=
  forall x c z, m x c = Some z -> exists y, within input x y /\ c y = Some z.

(** Two continuations that agree on every state further on than [x]. *)
Definition agree_from (input : str) (x : MatchState) (c c' : Continuation) : Prop :=
  forall y, within input x y -> c y = c' y.

(** A matcher that looks at its continuation only further on. *)
Definition forward (input : str) (m : Matcher) : Prop :=
  forall x c c', agree_from input x c c' -> m x c = m x c'.

(** The invariant of the while loop: the parts pushed so far come from
    pieces that lie in order before tagRegex.lastIndex, which is not
    beyond the local lastIndex. *)
Definition loop_inv (content : str) (st : loop_state) : Prop :=
  exists raw,
    List.map snd raw = parts st
    /\ laid content 0 raw (regexLastIndex st)
    /\ regexLastIndex st <= lastIndex st
    /\ regexLastIndex st <= length content.

Definition clean_tagged (t : nat * nat * part) : nat * nat * part :=
  (fst (fst t), snd (fst t), clean_part (snd t)).

(** Arithmetic on lengths, whatever name the element type goes by. *)
Ltac len_lia := unfold char, str in *; lia.

(** Not white space. *)
Definition not_space (c : char) : bool := negb (is_space c).

(* ===================================================================== *)
(** ** String.prototype.replace with a replacement text *)
(* ===================================================================== *)

Module Replace.

(** The text of capture [k] of a match, the empty string if the group
    did not take part. *)
Definition capture_text (input : str) (m : MatchResult) (k : nat) : str :=
  or_empty (group input m k).

Definition digit_value (c : char) : nat := N.to_nat (c - 48).

(** GetSubstitution of ECMA-262 for a match without named groups: in
    the replacement text "$$" stands for "$", "$&" for the match, "$`"
    and "$'" for the text before and after it, "$n" and "$nn" for a
    capture that exists; every other "$" stands for itself. *)
Fixpoint GetSubstitution (input : str) (m : MatchResult) (template : str) : str :=
  match template with
  | [] => []
  | c :: t1 =>
      if negb (N.eqb c 36) then c :: GetSubstitution input m t1
      else
        match t1 with
        | [] => [c]
        | d :: t2 =>
            if N.eqb d 36 then 36%N :: GetSubstitution input m t2
            else if N.eqb d 38 then matched input m ++ GetSubstitution input m t2
            else if N.eqb d 96 then slice input 0 (index m) ++ GetSubstitution input m t2
            else if N.eqb d 39 then slice_from input (stop m) ++ GetSubstitution input m t2
            else if is_digit d then
              let captureLen := length (groups m) in
              let one_digit :=
                if (1 <=? digit_value d) && (digit_value d <=? captureLen)
                then capture_text input m (digit_value d) ++ GetSubstitution input m t2
                else c :: d :: GetSubstitution input m t2 in
              match t2 with
              | d2 :: t3 =>
                  if is_digit d2 then
                    let i := 10 * digit_value d + digit_value d2 in
                    if captureLen <? i then one_digit
                    else if 1 <=? i
                         then capture_text input m i ++ GetSubstitution input m t3
                         else c :: d :: d2 :: GetSubstitution input m t3
                  else one_digit
              | [] => one_digit
              end
            else c :: GetSubstitution input m t1
        end
  end.

(** The result string of replace given the list of matches: the pieces
    between the matches, each match replaced by its substitution. *)
Fixpoint substitute_matches (input template : str) (ms : list MatchResult) (pos : nat)
    : str :=
  match ms with
  | [] => slice_from input pos
  | m :: ms' =>
      if pos <=? index m
      then slice input pos (index m) ++ GetSubstitution input m template
           ++ substitute_matches input template ms' (stop m)
      else substitute_matches input template ms' pos
  end.

(** [input.replace(re, template)] for a regular expression with the g
    flag and a replacement that is a string. *)
Definition replace_all (input : str) (re : RegExp) (template : str) : str :=
  substitute_matches input template (matchAll re input) 0.

End Replace.
Import Replace.

(* ===================================================================== *)
(** ** Template variables (PromptVariableModal, handleSelectPrompt,
       handleVariableConfirm) *)
(* ===================================================================== *)

Module Template.

(** /\[\[(.*?)\]\]/g *)
Definition VARIABLE_REGEX : RegExp :=
  mkRegExp (seq [lit "[["; Group 1 (star_lazy dot); lit "]]"]) 1 false.

(** [Array.from(new Set(l))]: the elements of [l] in the order of their
    first occurrence. *)
Fixpoint set_add (x : str) (s : list str) : list str :=
  match s with
  | [] => [x]
  | y :: s' => if str_eqb x y then s else y :: set_add x s'
  end.

Definition new_Set (l : list str) : list str :=
  fold_left (fun s x => set_add x s) l [].

(** handleSelectPrompt: the variables handed to the modal,
    [uniqueVars = Array.from(new Set(matches.map(m => m[1])))]. *)
Definition uniqueVars (content : str) : list str :=
  new_Set (List.map (fun m => or_empty (group content m 1))
                    (matchAll VARIABLE_REGEX content)).

(** The initial state of the modal:
    [variables.reduce((acc, v) => ({ ...acc, [v]: '' }), {})]. *)
Definition initial_values (variables : list str) : props str :=
  fold_left (fun acc v => define_property v [] acc) variables [].

(** onChange of the input of [variable]:
    [setValues({ ...values, [variable]: e.target.value })]. *)
Definition set_value (variable value : str) (values : props str) : props str :=
  define_property variable value values.

(** The syntax characters of a pattern: ^ $ \ . * + ? ( ) [ ] { } | *)
Definition is_syntax_char (c : char) : bool :=
  existsb (N.eqb c) [94; 36; 92; 46; 42; 43; 63; 40; 41; 91; 93; 123; 125; 124]%N.

(** /[.*+?^${}()|[\]\\]/g *)
Definition SYNTAX_CHAR_REGEX : RegExp :=
  mkRegExp
    (cls [span "." "."; span "*" "*"; span "+" "+"; span "?" "?"; span "^" "^";
          span "$" "$"; span "{" "{"; span "}" "}"; span "(" "("; span ")" ")";
          span "|" "|"; span "[" "["; span "]" "]"; span "\" "\"])
    0 false.

(** [key.replace(/[.*+?^${}()|[\]\\]/g, '\\$&')]: the replacement text
    is a backslash followed by "$&". *)
Definition escapedKey (key : str) : str :=
  replace_all key SYNTAX_CHAR_REGEX (92%N :: js "$&").

(** The pattern of [new RegExp(source)] for a source made of pattern
    characters and of syntax characters escaped by a backslash
    (IdentityEscape); [None] for a source outside this fragment. *)
Fixpoint compile (source : str) : option regex :=
  match source with
  | [] => Some Empty
  | c :: rest =>
      if N.eqb c 92 then
        match rest with
        | e :: rest' =>
            if is_syntax_char e then option_map (Seq (one e)) (compile rest') else None
        | [] => None
        end
      else if is_syntax_char c then None
      else option_map (Seq (one c)) (compile rest)
  end.

(** [new RegExp(`\\[\\[${escapedKey}\\]\\]`, 'g')] *)
Definition placeholder_regex (key : str) : option RegExp :=
  option_map (fun r => mkRegExp r 0 false)
             (compile (js "\[\[" ++ escapedKey key ++ js "\]\]")).

(** handleVariableConfirm: the content after the forEach over
    [Object.entries(values)]; [None] if one of the expressions built on
    the way were outside the fragment of [compile]. *)
Definition handleVariableConfirm (content : str) (values : props str) : option str :=
  fold_left
    (fun substitutedContent kv =>
       match substitutedContent, placeholder_regex (fst kv) with
       | Some s, Some regex => Some (replace_all s regex (snd kv))
       | _, _ => None
       end)
    values (Some content).

End Template.

(* ===================================================================== *)
(** ** The read loop of handleSubmit *)
(* ===================================================================== *)

Module Stream.
Import Consumer.

Definition MAX_CHUNKS : nat := 100 * 1000.

(** The while loop over [reader.read()]: [chunks] are the texts the
    decoder gives for the chunks still to come, the last one followed by
    done.  The result is accumulatedResponse when the loop is left. *)
Fixpoint read_loop (chunks : list str) (accumulatedResponse : str) (chunkCount : nat)
    : str :=
  match chunks with
  | [] => accumulatedResponse                                   (* done *)
  | chunk :: rest =>
      let chunkCount := S chunkCount in
      if MAX_CHUNKS <? chunkCount then accumulatedResponse        (* break *)
      else
        match cap_response (accumulatedResponse ++ chunk) with
        | (truncated, true) => truncated                          (* break *)
        | (accumulated, false) => read_loop rest accumulated chunkCount
        end
  end.

(** accumulatedResponse after the loop, from its initial values. *)
Definition accumulate (chunks : list str) : str := read_loop chunks [] 0.

End Stream.

#[global] Opaque Stream.MAX_CHUNKS.

(* ===================================================================== *)
(** ** The message list (handleDeleteMessage, the message keys) *)
(* ===================================================================== *)

Module Messages.

Record message := mkMessage { role : str; msg_content : str }.

(** [l.filter((x, i) => f(x, i))] *)
Fixpoint filter_indexed {A} (f : A -> nat -> bool) (l : list A) (i : nat) : list A :=
  match l with
  | [] => []
  | x :: l' => if f x i then x :: filter_indexed f l' (S i) else filter_indexed f l' (S i)
  end.

(** [prev.filter((_, i) => i !== index)] *)
Definition without_index (index : nat) (prev : list message) : list message :=
  filter_indexed (fun _ i => negb (i =? index)) prev 0.

Inductive delete_event :=
| PostDeleteMessage (session_id : str) (index : nat)
| FetchHistory
| DeleteConsoleError
| DeleteAlert (text : str).

(** handleDeleteMessage: the messages afterwards and what was done to
    the outside; [accepted] tells whether the awaited post resolves. *)
Definition handleDeleteMessage (sessionId : str) (index : nat) (accepted : bool)
    (messages : list message) : list message * list delete_event :=
  if negb (truthy sessionId) then (without_index index messages, [])
  else if accepted
  then (without_index index messages, [PostDeleteMessage sessionId index; FetchHistory])
  else (messages, [PostDeleteMessage sessionId index; DeleteConsoleError;
                   DeleteAlert (js "Failed to delete message from server.")]).

(** The key of the message at index [idx]:
    [`${idx}-${msg.role}-${msg.content.substring(0, 50).replace(/\s/g, '')}`] *)
Definition msgKey (idx : nat) (msg : message) : str :=
  number_to_string (Z.of_nat idx) ++ js "-" ++ role msg ++ js "-"
  ++ replace_all_empty SPACE_REGEX (substring0 (msg_content msg) 50).

(** parsedMessages: the parts of the assistant messages, null for the
    others. *)
Definition parsedMessages (messages : list message) : M (list (message * option (list part))) :=
  fold_right
    (fun msg rest =>
       parts <- (if str_eqb (role msg) (js "assistant")
                 then (ps <- parseMessageContent (msg_content msg) ;; ret (Some ps))
                 else ret None) ;;
       others <- rest ;;
       ret ((msg, parts) :: others))
    (ret []) messages.

End Messages.

(* ===================================================================== *)
(** ** Sequences of clicks on the pending-action blocks *)
(* ===================================================================== *)

Module Clicks.
Import Approval.

(** A click on the Approve or the Deny button of the block of a pending
    action, with the way the request it may send settles. *)
Inductive click :=
| OnApprove (pending : PendingAction) (r : reply)
| OnDeny (pending : PendingAction) (r : reply).

Definition after_click (s : ui) (k : click) : ui :=
  match k with
  | OnApprove pending r => click_approve pending r s
  | OnDeny pending r => click_deny pending r s
  end.

(** The state after the clicks, one after the other, each on the blocks
    as rendered from the state the click before left. *)
Definition after_clicks (clicks : list click) (s : ui) : ui :=
  fold_left after_click clicks s.

(** The resolution calls sent for the request [id]. *)
Definition calls_for (id : str) (s : ui) : nat :=
  length (List.filter
            (fun e => match e with
                      | PostApprove i | PostDeny i => str_eqb i id
                      | _ => false
                      end)
            (trace s)).

End Clicks.

(* ===================================================================== *)
(** ** Vocabulary of the further statements *)
(* ===================================================================== *)

(** The names TAG_REGEX recognizes. *)
Definition tag_names : list str :=
  [js "thought"; js "think"; js "tool_call"; js "tool_pending"; js "tool_result";
   js "tool"; js "answer"].

(** The text part of a run of plain text, as it reaches the result:
    pushed unless blank, then cleaned, then kept unless empty. *)
Definition text_parts (run : str) : list part :=
  List.filter keep_part (List.map clean_part (push_text [] run)).

(** A closed tag without attributes: "<name>", the inner text,
    "</name>". *)
Definition closed_tag (name inner : str) : str :=
  js "<" ++ name ++ js ">" ++ inner ++ js "</" ++ name ++ js ">".

(** Replacing the occurrences of a word, left to right, an occurrence
    that starts inside a replaced one not counted: [skip] is the number
    of code units still to drop of the occurrence being replaced. *)
Fixpoint replace_word (word value : str) (s : str) (skip : nat) : str :=
  match s with
  | [] => []
  | c :: s' =>
      match skip with
      | S k => replace_word word value s' k
      | 0 =>
          if startsWith s word
          then value ++ replace_word word value s' (length word - 1)
          else c :: replace_word word value s' 0
      end
  end.

(** "[[key]]" *)
Definition placeholder (key : str) : str := js "[[" ++ key ++ js "]]".

(** A line terminator, which "." does not match. *)
Definition is_line_terminator (c : char) : bool :=
  N.eqb c 10 || N.eqb c 13 || N.eqb c 8232 || N.eqb c 8233.

(** A matcher that hands its continuation the captures it found, those
    of the groups [ks] apart. *)
Definition keeps (ks : list nat) (m : Matcher) : Prop :=
  forall x c z, m x c = Some z ->
    exists y, c y = Some z
      /\ forall i, (forall k, In k ks -> k - 1 <> i) ->
                   nth i (captures y) None = nth i (captures x) None.

(** The tags a part of a kind comes from. *)
Definition needs_tag (content : str) (k : kind) : Prop :=
  match k with
  | Text => True
  | Thought => includes content (js "<thought") = true \/ includes content (js "<think") = true
  | Tool => includes content (js "<tool") = true
  | Pending => includes content (js "<tool_pending") = true
  end.

(** The result of a buffer whose tag gives the outcome [o], after the
    text parts of the run [pre] that stands before the tag. *)
Definition after_text (pre : str) (o : outcome (list part)) : outcome (list part) :=
  match o with
  | Returns new => Returns (text_parts pre ++ new)
  | Throws e => Throws e
  | OutOfModel => OutOfModel
  end.

(* ===================================================================== *)
(** ** JSON texts read back: vocabulary *)
(* ===================================================================== *)

(** The number of nodes of a value. *)
Fixpoint json_size (v : json) : nat :=
  match v with
  | JArr l => S (list_sum (List.map json_size l))
  | JObj o => S (list_sum (List.map (fun kv => json_size (snd kv)) o))
  | _ => 1
  end.

(** [k] may stand before the different key [k'] among the own keys of an
    object: array indices in ascending order, then the other keys. *)
Definition key_before (k k' : str) : bool :=
  match array_index k, array_index k' with
  | Some i, Some j => (i <? j)%N
  | Some _, None => true
  | None, Some _ => false
  | None, None => negb (str_eqb k k')
  end.

(** Keys without repetition, in the order of OrdinaryOwnPropertyKeys. *)
Fixpoint ordered_keys (keys : list str) : bool :=
  match keys with
  | [] => true
  | k :: keys' => forallb (key_before k) keys' && ordered_keys keys'
  end.

(** The values without a number that is not an integer of magnitude at
    most 2^53. *)
Fixpoint safe_numbers (v : json) : bool :=
  match v with
  | JDouble _ => false
  | JArr l => forallb safe_numbers l
  | JObj o => forallb (fun kv => safe_numbers (snd kv)) o
  | _ => true
  end.

(** The values that JSON.parse reads back from their JSON text: the
    numbers are integers of magnitude at most 2^53, and the keys of
    every object stand as an object lists them. *)
Fixpoint well_formed (v : json) : bool :=
  match v with
  | JNum z => (Z.abs z <=? Z.of_N MAX_SAFE)%Z
  | JDouble _ => false
  | JArr l => forallb well_formed l
  | JObj o => ordered_keys (List.map fst o) && forallb (fun kv => well_formed (snd kv)) o
  | _ => true
  end.

(** What follows a value inside a JSON text: a comma, a closing bracket
    or a closing brace, or nothing. *)
Definition value_end (rest : str) : bool :=
  match rest with
  | [] => true
  | c :: _ => N.eqb c 44 || N.eqb c 93 || N.eqb c 125
  end.

(** The two loops of parse_value on their own, over the parser [value]
    of an element or of a member's value. *)
Definition parse_elements (value : str -> parsed json)
  : nat -> str -> list json -> parsed json :=
  fix elements (n : nat) (s : str) (acc : list json) : parsed json :=
    match n with
    | 0 => Unmodelled
    | S n' =>
        match value (skip_space s) with
        | Parsed v r =>
            match skip_space r with
            | c :: r' =>
                if N.eqb c 44 then elements n' r' (v :: acc)
                else if N.eqb c 93 then Parsed (JArr (rev (v :: acc))) r'
                else SyntaxError
            | [] => SyntaxError
            end
        | SyntaxError => SyntaxError
        | Unmodelled => Unmodelled
        end
    end.

Definition parse_members (value : str -> parsed json)
  : nat -> str -> list (str * json) -> parsed json :=
  fix members (n : nat) (s : str) (acc : list (str * json)) : parsed json :=
    match n with
    | 0 => Unmodelled
    | S n' =>
        match skip_space s with
        | q :: s1 =>
            if N.eqb q 34 then
              match parse_string_body s1 [] with
              | Parsed k r =>
                  match skip_space r with
                  | c :: r1 =>
                      if N.eqb c 58 then
                        match value (skip_space r1) with
                        | Parsed v r2 =>
                            match skip_space r2 with
                            | c2 :: r3 =>
                                if N.eqb c2 44 then members n' r3 (define_property k v acc)
                                else if N.eqb c2 125
                                then Parsed (JObj (define_property k v acc)) r3
                                else SyntaxError
                            | [] => SyntaxError
                            end
                        | SyntaxError => SyntaxError
                        | Unmodelled => Unmodelled
                        end
                      else SyntaxError
                  | [] => SyntaxError
                  end
              | SyntaxError => SyntaxError
              | Unmodelled => Unmodelled
              end
            else SyntaxError
        | [] => SyntaxError
        end
    end.

(** The object an approval block is rendered from:
    { request_id, tool, action, params }. *)
Definition pending_action (requestId tool action : str) (params : json) : json :=
  JObj [(js "request_id", JStr requestId); (js "tool", JStr tool);
        (js "action", JStr action); (js "params", params)].

(** The object written for a tool tag: { name, arguments }, the
    arguments all strings. *)
Definition tool_activity (name : str) (args : props str) : json :=
  JObj [(js "name", JStr name);
        (js "arguments", JObj (List.map (fun kv => (fst kv, JStr (snd kv))) args))].

(* ===================================================================== *)
(** ** The values of the modal: vocabulary *)
(* ===================================================================== *)

(** [o[k]] for an own property of [o]; [None] when [k] is not a key. *)
Fixpoint get_property {V} (k : str) (o : props V) : option V :=
  match o with
  | [] => None
  | (k', v) :: o' => if str_eqb k k' then Some v else get_property k o'
  end.

(** The state [values] of the modal opened for [variables], after the
    changes [edits] of its inputs, the oldest first: each is the
    variable of the input and the text the input then holds. *)
Definition modal_values (variables : list str) (edits : list (str * str)) : props str :=
  fold_left (fun values e => Template.set_value (fst e) (snd e) values) edits
            (Template.initial_values variables).

(** The text the input of [variable] holds after [edits]: what the last
    change of this input gave, the empty string if there was none. *)
Definition last_typed (edits : list (str * str)) (variable : str) : str :=
  fold_left (fun text e => if str_eqb (fst e) variable then snd e else text) edits [].

(* ===================================================================== *)
(** ** The parts of the messages: vocabulary *)
(* ===================================================================== *)

(** The outcomes of computations made one after the other: the values
    they return, or the first exception. *)
Fixpoint all_returned {A} (l : list (outcome A)) : outcome (list A) :=
  match l with
  | [] => Returns []
  | Returns a :: l' =>
      match all_returned l' with
      | Returns r => Returns (a :: r)
      | Throws e => Throws e
      | OutOfModel => OutOfModel
      end
  | Throws e :: _ => Throws e
  | OutOfModel :: _ => OutOfModel
  end.

(** A message with its parts, tokenized on its own: the parts of its
    content for a message of the assistant, null for the others. *)
Definition message_entry (msg : Messages.message)
  : outcome (Messages.message * option (list part)) :=
  if str_eqb (Messages.role msg) (js "assistant") then
    match parse (Messages.msg_content msg) with
    | Returns ps => Returns (msg, Some ps)
    | Throws e => Throws e
    | OutOfModel => OutOfModel
    end
  else Returns (msg, None).

(* ===================================================================== *)
(** ** The fuel of JSON.parse: vocabulary *)
(* ===================================================================== *)

(** A result of reading the text [s] that did not run out of fuel and,
    if it is a value, left less text than [s]. *)
Definition consumes {A} (s : str) (res : parsed A) : Prop :=
  match res with
  | Parsed _ r => length r < length s
  | SyntaxError => True
  | Unmodelled => False
  end.

(** The same, for a reader that may leave the whole text. *)
Definition within_text {A} (s : str) (res : parsed A) : Prop :=
  match res with
  | Parsed _ r => length r <= length s
  | SyntaxError => True
  | Unmodelled => False
  end.

(* ===================================================================== *)
(** ** The tool tag: vocabulary *)
(* ===================================================================== *)

(** A double quote or an apostrophe. *)
Definition is_quote (a : char) : bool := N.eqb a 34 || N.eqb a 39.

(** A text that stands between quotes as it is: it holds no quote and no
    line terminator. *)
Definition quotable (v : str) : bool :=
  forallb (fun a => negb (is_quote a || is_line_terminator a)) v.

(** A letter, a digit or "_". *)
Definition is_word_char (a : char) : bool :=
  ((97 <=? a) && (a <=? 122))%N || ((65 <=? a) && (a <=? 90))%N
  || ((48 <=? a) && (a <=? 57))%N || N.eqb a 95.

(** No "<" in the text. *)
Definition without_lt (t : str) : bool := forallb (fun a => negb (N.eqb a 60)) t.

(** The attribute text [pre name=qNq rest] declares the tool name [N]
    by a name attribute: [pre] is empty or ends with white space, the
    quotes are quotes, [N] stands between them as it is, and name= does
    not stand earlier (as it does in filename=). *)
Definition declares_name (pre : str) (qa : char) (N : str) (qb : char) : bool :=
  match rev pre with
  | [] => true
  | a :: _ => is_space a
  end
  && negb (includes (pre ++ js "name") (js "name="))
  && is_quote qa && is_quote qb && quotable N.

(** What stands in the inner text of a tool tag: text between children;
    a flat child <argument name=.. value=../>; a nested child
    <key>value</key>. *)
Inductive child :=
| Gap (text : str)
| Flat (sp1 : str) (qa : char) (name : str) (qb : char)
       (sp2 : str) (qc : char) (value : str) (qd : char)
       (sp3 : str) (slash : bool)
| Nested (key value : str).

Definition render (c : child) : str :=
  match c with
  | Gap text => text
  | Flat sp1 qa name qb sp2 qc value qd sp3 slash =>
      js "<argument" ++ sp1 ++ js "name=" ++ qa :: name ++ qb :: sp2
      ++ js "value=" ++ qc :: value ++ qd :: sp3
      ++ (if slash then js "/" else []) ++ js ">"
  | Nested key value => js "<" ++ key ++ js ">" ++ value ++ js "</" ++ key ++ js ">"
  end.

Definition inner_text (items : list child) : str := concat (List.map render items).

(** A flat child opens at the head of [t]: "<argument" and white space
    stand there. *)
Definition flat_start (t : str) : bool :=
  startsWith t (js "<argument")
  && match skipn 9 t with
     | a :: _ => is_space a
     | [] => false
     end.

(** The character after the letters, digits and "_" at the head of [t]. *)
Fixpoint after_word (t : str) : option char :=
  match t with
  | [] => None
  | a :: t' => if is_word_char a then after_word t' else Some a
  end.

(** A nested child opens at the head of [t]: "<", a key and ">" stand
    there. *)
Definition nested_start (t : str) : bool :=
  match t with
  | [] => false
  | a :: t' =>
      N.eqb a 60
      && match t' with
         | b :: _ => is_word_char b
         | [] => false
         end
      && match after_word t' with
         | Some c => N.eqb c 62
         | None => false
         end
  end.

(** The closing tag of [key] stands at the head of [t]. *)
Definition closing_start (key t : str) : bool :=
  startsWith t (js "</" ++ key ++ js ">").

(** [quiet start t next]: nothing starts inside the text [t] when [next]
    follows it. *)
Fixpoint quiet (start : str -> bool) (t next : str) : bool :=
  match t with
  | [] => true
  | _ :: t' => negb (start (t ++ next)) && quiet start t' next
  end.

(** A child as the source reads it, [next] being the text after it.  No
    child opens inside the text between children.  A flat child has white
    space before name= and before value=, maybe some before the end of
    the tag, a quote of either kind at each end of the name and of the
    value, and a name and a value that stand between quotes as they are.
    The key of a nested child is made of letters, digits and "_"; inside
    its value no flat child opens and its closing tag does not stand. *)
Definition well_formed_child (c : child) (next : str) : bool :=
  match c with
  | Gap text => quiet flat_start text next && quiet nested_start text next
  | Flat sp1 qa name qb sp2 qc value qd sp3 _ =>
      truthy sp1 && blank sp1 && truthy sp2 && blank sp2 && blank sp3
      && is_quote qa && is_quote qb && is_quote qc && is_quote qd
      && quotable name && quotable value
  | Nested key value =>
      truthy key && forallb is_word_char key
      && quiet flat_start value (js "</" ++ key ++ js ">" ++ next)
      && quiet (closing_start key) value (js "</" ++ key ++ js ">" ++ next)
  end.

Fixpoint well_formed_children (items : list child) : bool :=
  match items with
  | [] => true
  | c :: rest => well_formed_child c (inner_text rest) && well_formed_children rest
  end.

(** No nested child opens inside a flat child: what the nested form
    needs when it is looked for in an inner text with flat children. *)
Fixpoint flat_children_closed (items : list child) : bool :=
  match items with
  | [] => true
  | c :: rest =>
      match c with
      | Flat _ _ _ _ _ _ _ _ _ _ => quiet nested_start (render c) (inner_text rest)
      | _ => true
      end
      && flat_children_closed rest
  end.

(** The (name, value) pairs of the flat children, in order. *)
Definition flat_arguments (items : list child) : list (str * str) :=
  flat_map (fun c => match c with
                     | Flat _ _ name _ _ _ value _ _ _ => [(name, value)]
                     | _ => []
                     end) items.

(** The names that are structure, not arguments. *)
Definition structural_names : list str := [js "arguments"; js "thought"; js "think"].

(** The nested children keyed by their own tag name, each with its
    trimmed inner text, the structural names left out. *)
Definition nested_arguments (items : list child) : list (str * str) :=
  flat_map (fun c => match c with
                     | Nested key value =>
                         if forallb (fun n => negb (str_eqb key n)) structural_names
                         then [(key, trim value)] else []
                     | _ => []
                     end) items.

(** The flat children first; the nested children if the flat ones
    recorded nothing. *)
Definition collected (items : list child) : props str :=
  match record_args (flat_arguments items) with
  | [] => record_args (nested_arguments items)
  | args => args
  end.

(* ===================================================================== *)
(** ** JSON.parse never runs out of fuel *)
(* ===================================================================== *)

Section Fuel.

Lemma parse_value_S fuel s :
  parse_value (S fuel) s
  = match s with
    | [] => SyntaxError
    | c :: s' =>
        if N.eqb c 123 then
          match skip_space s' with
          | c1 :: r => if N.eqb c1 125 then Parsed (JObj []) r
                       else parse_members (parse_value fuel) fuel s' []
          | [] => SyntaxError
          end
        else if N.eqb c 91 then
          match skip_space s' with
          | c1 :: r => if N.eqb c1 93 then Parsed (JArr []) r
                       else parse_elements (parse_value fuel) fuel s' []
          | [] => SyntaxError
          end
        else if N.eqb c 34 then
          match parse_string_body s' [] with
          | Parsed k r => Parsed (JStr k) r
          | SyntaxError => SyntaxError
          | Unmodelled => Unmodelled
          end
        else if N.eqb c 116 then expect (js "true") (JBool true) s
        else if N.eqb c 102 then expect (js "false") (JBool false) s
        else if N.eqb c 110 then expect (js "null") JNull s
        else parse_number s
    end.
Proof. reflexivity. Qed.

Lemma parse_elements_S value n s acc :
  parse_elements value (S n) s acc
  = match value (skip_space s) with
    | Parsed v r =>
        match skip_space r with
        | c :: r' =>
            if N.eqb c 44 then parse_elements value n r' (v :: acc)
            else if N.eqb c 93 then Parsed (JArr (rev (v :: acc))) r'
            else SyntaxError
        | [] => SyntaxError
        end
    | SyntaxError => SyntaxError
    | Unmodelled => Unmodelled
    end.
Proof. reflexivity. Qed.

Lemma parse_members_S value n s acc :
  parse_members value (S n) s acc
  = match skip_space s with
    | q :: s1 =>
        if N.eqb q 34 then
          match parse_string_body s1 [] with
          | Parsed k r =>
              match skip_space r with
              | c :: r1 =>
                  if N.eqb c 58 then
                    match value (skip_space r1) with
                    | Parsed v r2 =>
                        match skip_space r2 with
                        | c2 :: r3 =>
                            if N.eqb c2 44
                            then parse_members value n r3 (define_property k v acc)
                            else if N.eqb c2 125
                            then Parsed (JObj (define_property k v acc)) r3
                            else SyntaxError
                        | [] => SyntaxError
                        end
                    | SyntaxError => SyntaxError
                    | Unmodelled => Unmodelled
                    end
                  else SyntaxError
              | [] => SyntaxError
              end
          | SyntaxError => SyntaxError
          | Unmodelled => Unmodelled
          end
        else SyntaxError
    | [] => SyntaxError
    end.
Proof. reflexivity. Qed.

Lemma skip_space_length s : length (skip_space s) <= length s.
Proof.
  induction s as [|c s IH]; simpl; [lia|]. destruct (is_json_space c); simpl; lia.
Qed.

Lemma take_digits_length s :
  length (fst (take_digits s)) + length (snd (take_digits s)) = length s.
Proof.
  induction s as [|c s IH]; [reflexivity|]. cbn [take_digits].
  destruct (is_digit c); [|reflexivity].
  destruct (take_digits s) as [d r]. cbn [fst snd length] in *. lia.
Qed.

Lemma consumes_shorter {A} (s s' : str) (res : parsed A) :
  consumes s' res -> length s' <= length s -> consumes s res.
Proof. destruct res; simpl; try tauto. lia. Qed.

Lemma within_consumes {A} (s s' : str) (res : parsed A) :
  within_text s' res -> length s' < length s -> consumes s res.
Proof. destruct res; simpl; try tauto. lia. Qed.

Lemma string_consumes (n : nat) : forall s acc,
  length s <= n -> within_text s (parse_string_body s acc).
Proof.
  induction n as [|n IH]; intros s acc Hn.
  - destruct s; [exact I | simpl in Hn; lia].
  - destruct s as [|c s']; [exact I|]. simpl in Hn.
    assert (Next : forall t x, length t <= length s' ->
              within_text (c :: s') (parse_string_body t x)).
    { intros t x Ht. specialize (IH t x ltac:(lia)).
      destruct (parse_string_body t x); simpl in *; try tauto. lia. }
    cbn [parse_string_body].
    destruct (N.eqb c 34); [simpl; lia|].
    destruct (c <? 32)%N; [exact I|].
    destruct (N.eqb c 92); [|apply Next; lia].
    destruct s' as [|e s'']; [exact I|].
    destruct (N.eqb e 117).
    + destruct s'' as [|a [|b [|c1 [|d s3]]]]; try exact I.
      destruct (hex_value a), (hex_value b), (hex_value c1), (hex_value d); try exact I.
      apply Next. simpl. lia.
    + cbv zeta.
      repeat match goal with
             | |- within_text _ (if ?b then _ else _) => destruct b
             end;
        try exact I; apply Next; simpl; lia.
Qed.

Lemma fraction_within (s : str) :
  match read_fraction s with
  | Some (_, r) => length r <= length s
  | None => True
  end.
Proof.
  unfold read_fraction. destruct s as [|c s']; [simpl; lia|].
  destruct (N.eqb c 46); [|simpl; lia].
  pose proof (take_digits_length s') as L.
  destruct (take_digits s') as [[|d fd] r]; [exact I|]. cbn [fst snd length] in *. lia.
Qed.

Lemma exponent_within (s : str) :
  match read_exponent s with
  | Some (_, r) => length r <= length s
  | None => True
  end.
Proof.
  unfold read_exponent. destruct s as [|c s']; [simpl; lia|].
  destruct (N.eqb c 101 || N.eqb c 69); [|simpl; lia].
  assert (G : forall (negative : bool) (t : str),
            length t <= length s' ->
            match
              match take_digits t with
              | ([], _) => None
              | (xd, r) =>
                  Some (if negative then Z.opp (Z.of_N (digits_value xd 0))
                        else Z.of_N (digits_value xd 0), r)
              end
            with
            | Some (_, r) => length r <= length (c :: s')
            | None => True
            end).
  { intros negative t Ht. pose proof (take_digits_length t) as L.
    destruct (take_digits t) as [[|d xd] r]; [exact I|]. cbn [fst snd length] in *. lia. }
  destruct s' as [|sign t]; [apply (G false []); lia|].
  destruct (N.eqb sign 45); [apply (G true t); simpl; lia|].
  destruct (N.eqb sign 43); [apply (G false t) | apply (G false (sign :: t))];
    simpl; lia.
Qed.

Lemma fraction_and_exponent_within neg int_digits (s : str) :
  within_text s (fraction_and_exponent neg int_digits s).
Proof.
  unfold fraction_and_exponent. pose proof (fraction_within s) as F.
  destruct (read_fraction s) as [[fd s4]|]; [|exact I].
  pose proof (exponent_within s4) as X.
  destruct (read_exponent s4) as [[x s5]|]; [|exact I]. simpl. lia.
Qed.

Lemma plain_integer_within neg int_digits (s : str) :
  within_text s (plain_integer neg int_digits s).
Proof. unfold plain_integer. destruct (_ && _); simpl; lia. Qed.

Lemma number_consumes s : consumes s (parse_number s).
Proof.
  unfold parse_number.
  assert (G : forall (neg : bool) (s1 : str), length s1 <= length s ->
            consumes s
              (let (ds, s2) := take_digits s1 in
               match ds with
               | [] => SyntaxError
               | d0 :: more =>
                   let (int_digits, s3) :=
                     if N.eqb d0 48 then ([d0], more ++ s2) else (ds, s2) in
                   match s3 with
                   | c :: _ =>
                       if N.eqb c 46 || N.eqb c 101 || N.eqb c 69
                       then fraction_and_exponent neg int_digits s3
                       else plain_integer neg int_digits s3
                   | [] => plain_integer neg int_digits s3
                   end
               end)).
  { intros neg s1 H1. pose proof (take_digits_length s1) as L.
    destruct (take_digits s1) as [[|d0 more] s2]; [exact I|]. cbn [fst snd length] in L.
    assert (T : forall (i s3 : str), length s3 < length s ->
              consumes s
                match s3 with
                | c :: _ =>
                    if N.eqb c 46 || N.eqb c 101 || N.eqb c 69
                    then fraction_and_exponent neg i s3
                    else plain_integer neg i s3
                | [] => plain_integer neg i s3
                end).
    { intros i s3 H3. destruct s3 as [|c s3'].
      - eapply within_consumes; [apply plain_integer_within | exact H3].
      - destruct (N.eqb c 46 || N.eqb c 101 || N.eqb c 69);
          (eapply within_consumes;
           [first [apply fraction_and_exponent_within | apply plain_integer_within]
           | exact H3]). }
    destruct (N.eqb d0 48); apply T; [rewrite length_app|]; lia. }
  destruct s as [|c s']; [apply G; lia|].
  destruct (N.eqb c 45); apply G; simpl; lia.
Qed.

Lemma expect_consumes (word : str) v (s : str) :
  word <> [] -> consumes s (expect word v s).
Proof.
  intros Hw. unfold expect. destruct (startsWith s word) eqn:E; [|exact I].
  simpl. rewrite length_skipn.
  assert (length word <= length s).
  { clear Hw. revert s E. induction word as [|x w IH]; intros s E; [simpl; lia|].
    destruct s as [|y s]; [discriminate|]. simpl in E. apply andb_prop in E.
    destruct E as [_ E]. specialize (IH s E). simpl. lia. }
  destruct word; [congruence|]. simpl in *. lia.
Qed.

Section LoopFuel.

Variable value : str -> parsed json.
Variable bound : nat.
Hypothesis value_consumes : forall s, length s <= bound -> consumes s (value s).

Lemma elements_consume : forall n s acc,
  length s < n -> length s <= bound ->
  within_text s (parse_elements value n s acc).
Proof.
  induction n as [|n IH]; intros s acc Hn Hb; [lia|].
  rewrite parse_elements_S.
  pose proof (skip_space_length s) as K.
  pose proof (value_consumes (skip_space s) ltac:(lia)) as V.
  destruct (value (skip_space s)) as [v r| |]; [|exact I|exact V]. simpl in V.
  pose proof (skip_space_length r) as Kr.
  destruct (skip_space r) as [|c r']; [exact I|]. simpl in Kr.
  destruct (N.eqb c 44).
  - specialize (IH r' (v :: acc) ltac:(lia) ltac:(lia)).
    destruct (parse_elements value n r' (v :: acc)); simpl in *; try tauto. lia.
  - destruct (N.eqb c 93); [simpl; lia | exact I].
Qed.

Lemma members_consume : forall n s acc,
  length s < n -> length s <= bound ->
  within_text s (parse_members value n s acc).
Proof.
  induction n as [|n IH]; intros s acc Hn Hb; [lia|].
  rewrite parse_members_S.
  pose proof (skip_space_length s) as K.
  destruct (skip_space s) as [|q s1]; [exact I|]. simpl in K.
  destruct (N.eqb q 34); [|exact I].
  pose proof (string_consumes (length s1) s1 [] (le_n _)) as S1.
  destruct (parse_string_body s1 []) as [k r| |]; [|exact I|exact S1]. simpl in S1.
  pose proof (skip_space_length r) as Kr.
  destruct (skip_space r) as [|c r1]; [exact I|]. simpl in Kr.
  destruct (N.eqb c 58); [|exact I].
  pose proof (skip_space_length r1) as K1.
  pose proof (value_consumes (skip_space r1) ltac:(lia)) as V.
  destruct (value (skip_space r1)) as [v r2| |]; [|exact I|exact V]. simpl in V.
  pose proof (skip_space_length r2) as K2.
  destruct (skip_space r2) as [|c2 r3]; [exact I|]. simpl in K2.
  destruct (N.eqb c2 44).
  - specialize (IH r3 (define_property k v acc) ltac:(lia) ltac:(lia)).
    destruct (parse_members value n r3 (define_property k v acc)); simpl in *;
      try tauto. lia.
  - destruct (N.eqb c2 125); [simpl; lia | exact I].
Qed.

End LoopFuel.

(** With more fuel than the text has code units, a value is read or a
    syntax error found. *)
Lemma value_consumes_text fuel : forall s,
  length s < fuel -> consumes s (parse_value fuel s).
Proof.
  induction fuel as [|f IH]; intros s Hs; [lia|].
  rewrite parse_value_S. destruct s as [|c s']; [exact I|]. simpl in Hs.
  assert (V : forall t, length t <= length s' -> consumes t (parse_value f t))
    by (intros t Ht; apply IH; lia).
  destruct (N.eqb c 123).
  { pose proof (skip_space_length s') as K.
    destruct (skip_space s') as [|c1 r]; [exact I|]. simpl in K.
    destruct (N.eqb c1 125); [simpl; lia|].
    pose proof (members_consume (parse_value f) (length s') V f s' [] ltac:(lia) (le_n _)) as L.
    destruct (parse_members (parse_value f) f s' []); simpl in *; try tauto. lia. }
  destruct (N.eqb c 91).
  { pose proof (skip_space_length s') as K.
    destruct (skip_space s') as [|c1 r]; [exact I|]. simpl in K.
    destruct (N.eqb c1 93); [simpl; lia|].
    pose proof (elements_consume (parse_value f) (length s') V f s' [] ltac:(lia) (le_n _)) as L.
    destruct (parse_elements (parse_value f) f s' []); simpl in *; try tauto. lia. }
  destruct (N.eqb c 34).
  { pose proof (string_consumes (length s') s' [] (le_n _)) as L.
    destruct (parse_string_body s' []); simpl in *; try tauto. lia. }
  destruct (N.eqb c 116); [apply expect_consumes; discriminate|].
  destruct (N.eqb c 102); [apply expect_consumes; discriminate|].
  destruct (N.eqb c 110); [apply expect_consumes; discriminate|].
  apply number_consumes.
Qed.

(** JSON.parse gives a value or throws SyntaxError, for every text. *)
Lemma JSON_parse_in_model text : JSON_parse text <> Unmodelled.
Proof.
  unfold JSON_parse.
  pose proof (skip_space_length text) as K.
  pose proof (value_consumes_text (S (length text)) (skip_space text) ltac:(lia)) as V.
  destruct (parse_value (S (length text)) (skip_space text)) as [v r| |];
    [|discriminate|destruct V].
  destruct (skip_space r); discriminate.
Qed.

End Fuel.

Section InModel.

Lemma bind_in_model {A B} (m : M A) (f : A -> M B) c :
  fst (m c) <> OutOfModel ->
  (forall a c', fst (f a c') <> OutOfModel) ->
  fst (bind m f c) <> OutOfModel.
Proof.
  intros Hm Hf. unfold bind. destruct (m c) as [[a|e|] c'].
  - apply Hf.
  - discriminate.
  - exfalso. apply Hm. reflexivity.
Qed.

Lemma getAttr_in_model tagContent name c : fst (getAttr tagContent name c) <> OutOfModel.
Proof.
  unfold getAttr. destruct (c !! name); destruct tagContent; discriminate.
Qed.

Lemma decode_pending_in_model r t a p : decode_pending r t a p <> OutOfModel.
Proof.
  unfold decode_pending. destruct (atob _) as [text|]; [|discriminate].
  pose proof (JSON_parse_in_model text) as J.
  destruct (JSON_parse text); [discriminate | discriminate | congruence].
Qed.

Lemma pending_parts_in_model tagContent c :
  fst (pending_parts tagContent c) <> OutOfModel.
Proof.
  unfold pending_parts.
  apply bind_in_model; [apply getAttr_in_model | intros rq c1].
  apply bind_in_model; [apply getAttr_in_model | intros tl c2].
  apply bind_in_model; [apply getAttr_in_model | intros ac c3].
  apply bind_in_model; [apply getAttr_in_model | intros pb c4].
  destruct rq as [[|r0 r]|], tl as [[|t0 t]|], ac as [[|a0 a]|], pb as [[|p0 p]|];
    try discriminate.
  pose proof (decode_pending_in_model (r0 :: r) (t0 :: t) (a0 :: a) (p0 :: p)) as D.
  destruct (decode_pending (r0 :: r) (t0 :: t) (a0 :: a) (p0 :: p)) as [[pt|]|e|];
    [discriminate | discriminate | discriminate | congruence].
Qed.

Lemma tag_parts_in_model content m c : fst (tag_parts content m c) <> OutOfModel.
Proof.
  unfold tag_parts. cbv zeta.
  repeat match goal with
         | |- fst ((if ?b then _ else _) _) <> _ => destruct b
         end;
    try discriminate.
  apply pending_parts_in_model.
Qed.

Lemma scan_tags_in_model content budget : forall st c,
  fst (scan_tags content budget st c) <> OutOfModel.
Proof.
  induction budget as [|budget IH]; intros st c; cbn [scan_tags];
    destruct (exec TAG_REGEX content (regexLastIndex st)) as [[m|] next];
    try discriminate.
  destruct ((index m =? lastIndex st) && (length (matched content m) =? 0));
    [apply IH|].
  apply bind_in_model; [apply tag_parts_in_model | intros new c'; apply IH].
Qed.

(** The tokenizer returns its parts or raises a TypeError, for every
    buffer and from every cache. *)
Lemma parseMessageContent_in_model content c :
  fst (parseMessageContent content c) <> OutOfModel.
Proof.
  unfold parseMessageContent. destruct (negb (truthy content) || _); [discriminate|].
  unfold parse_body. apply bind_in_model; [apply scan_tags_in_model|].
  intros st c'. discriminate.
Qed.

Lemma parse_in_model content : parse content <> OutOfModel.
Proof. apply parseMessageContent_in_model. Qed.

End InModel.

(* ===================================================================== *)
(** ** Properties of strings *)
(* ===================================================================== *)

Section StringFacts.

Lemma trimStart_nil_iff s : trimStart s = [] <-> blank s = true.
Proof.
  unfold blank. induction s as [|c s IH]; simpl.
  - tauto.
  - destruct (is_space c) eqn:E; simpl.
    + exact IH.
    + split; discriminate.
Qed.

Lemma trimStart_head s c t : trimStart s = c :: t -> is_space c = false.
Proof.
  induction s as [|a s IH]; simpl; [discriminate|].
  destruct (is_space a) eqn:E; [exact IH|].
  intros H. injection H as -> _. exact E.
Qed.

Lemma trimStart_suffix s : exists p, s = p ++ trimStart s /\ blank p = true.
Proof.
  induction s as [|a s [p [Hp Hb]]]; simpl.
  - exists []. split; reflexivity.
  - destruct (is_space a) eqn:E.
    + exists (a :: p). simpl. unfold blank in *. simpl. rewrite E, Hb.
      split; [f_equal; exact Hp | reflexivity].
    + exists []. split; reflexivity.
Qed.

Lemma blank_app a b : blank (a ++ b) = blank a && blank b.
Proof. apply forallb_app. Qed.

Lemma blank_rev s : blank (rev s) = blank s.
Proof.
  induction s as [|a s IH]; simpl; [reflexivity|].
  rewrite blank_app, IH. simpl. rewrite andb_true_r. apply andb_comm.
Qed.

Lemma trim_nil_iff s : trim s = [] <-> blank s = true.
Proof.
  unfold trim, trimEnd. split.
  - intros H.
    assert (H1 : trimStart (rev (trimStart s)) = []).
    { destruct (trimStart (rev (trimStart s))) as [|c t]; [reflexivity|].
      simpl in H. destruct (rev t); discriminate. }
    apply trimStart_nil_iff in H1. rewrite blank_rev in H1.
    destruct (trimStart s) as [|c t] eqn:E.
    + apply trimStart_nil_iff. exact E.
    + apply trimStart_head in E. unfold blank in H1. simpl in H1.
      rewrite E in H1. discriminate.
  - intros H. apply trimStart_nil_iff in H. rewrite H. reflexivity.
Qed.

(** A trimmed string is empty or holds a character that is not white
    space. *)
Lemma trim_not_blank s : trim s <> [] -> blank (trim s) = false.
Proof.
  unfold trim, trimEnd. intros H.
  destruct (trimStart (rev (trimStart s))) as [|c t] eqn:E.
  - exfalso. apply H. reflexivity.
  - apply trimStart_head in E. simpl. rewrite blank_app. unfold blank at 2.
    simpl. rewrite E. simpl. apply andb_false_r.
Qed.

Lemma truthy_false_iff (s : str) : truthy s = false <-> s = [].
Proof. destruct s; simpl; split; congruence. Qed.

Lemma length_zero_iff (s : str) : (length s =? 0) = true <-> s = [].
Proof. destruct s; simpl; split; congruence. Qed.

(** The first guard of parseMessageContent is the test for a blank
    buffer. *)
Lemma guard_is_blank content :
  negb (truthy content) || (length (trim content) =? 0) = blank content.
Proof.
  destruct (blank content) eqn:B.
  - apply trim_nil_iff in B. rewrite B. simpl. apply orb_true_r.
  - destruct content as [|a l]; [discriminate|]. simpl negb. simpl orb.
    destruct (length (trim (a :: l)) =? 0) eqn:E; [|reflexivity].
    apply length_zero_iff in E. apply trim_nil_iff in E. congruence.
Qed.

End StringFacts.

(* ===================================================================== *)
(** ** What the final map / filter guarantees *)
(* ===================================================================== *)

Section CleanedParts.

Lemma cleaned_no_blank_text ps :
  no_blank_text (List.filter keep_part (List.map clean_part ps)).
Proof.
  unfold no_blank_text. apply List.Forall_forall. intros p Hp.
  apply filter_In in Hp. destruct Hp as [Hin Hkeep].
  apply in_map_iff in Hin. destruct Hin as [q [Hq _]].
  intros Ht. unfold keep_part in Hkeep. rewrite Ht in Hkeep. simpl in Hkeep.
  unfold clean_part in Hq. destruct (type q) eqn:Tq; subst p; simpl in *;
    try congruence.
  unfold clean_text in *. apply trim_not_blank.
  intros E. rewrite E in Hkeep. discriminate.
Qed.

Lemma bind_returns {A B} (m : M A) (f : A -> M B) c b c' :
  bind m f c = (Returns b, c') ->
  exists a c1, m c = (Returns a, c1) /\ f a c1 = (Returns b, c').
Proof.
  unfold bind. destruct (m c) as [[a|e|] c1]; intros H; try discriminate.
  exists a, c1. split; [reflexivity | exact H].
Qed.

Lemma parse_body_no_blank_text content c ps c' :
  parse_body content c = (Returns ps, c') -> no_blank_text ps.
Proof.
  unfold parse_body. intros H. apply bind_returns in H.
  destruct H as [st [c1 [_ H]]]. unfold ret in H. injection H as <- _.
  apply cleaned_no_blank_text.
Qed.

End CleanedParts.

(* ===================================================================== *)
(** ** Theorems on the text parts of the output *)
(* ===================================================================== *)

(** C10, as amended.  For a buffer that is not blank (not empty and not
    made of white space only), no text part of the result is empty or
    white space only; for a blank buffer the result is the single text
    part with the empty content.  This holds for every buffer on which
    the tokenizer returns, and on every buffer it returns or raises an
    exception: no buffer is left without an outcome. *)
Theorem text_parts_of_result content c :
  fst (parseMessageContent content c) <> OutOfModel
  /\ forall ps,
       fst (parseMessageContent content c) = Returns ps ->
       (blank content = true -> ps = [mkPart Text [] None]) /\
       (blank content = false -> no_blank_text ps).
Proof.
  split; [apply parseMessageContent_in_model|].
  intros ps. destruct (parseMessageContent content c) as [out c'] eqn:E.
  cbn [fst]. intros ->. revert E.
  unfold parseMessageContent. rewrite guard_is_blank.
  destruct (blank content) eqn:B; intros H.
  - split; [|discriminate]. intros _. unfold ret in H. congruence.
  - split; [discriminate|]. intros _. eapply parse_body_no_blank_text. exact H.
Qed.

Lemma text_parts_of_result_witness :
  let content := js " Hello <answer>  </answer> GET memory x" in
  parseMessageContent content ∅
    = (Returns [mkPart Text (js "Hello") None], ∅) /\
  ((blank content = true -> [mkPart Text (js "Hello") None] = [mkPart Text [] None]) /\
   (blank content = false -> no_blank_text [mkPart Text (js "Hello") None])).
Proof.
  split; [vm_compute; reflexivity|].
  apply (proj2 (text_parts_of_result (js " Hello <answer>  </answer> GET memory x") ∅)
           [mkPart Text (js "Hello") None]).
  vm_compute. reflexivity.
Defined.

(** C10, as stated, fails on the empty buffer and on a buffer of blanks:
    the guard at the top of parseMessageContent returns one text part
    with the empty content. *)
Lemma blank_buffer_gives_empty_text_part :
  parse [] = Returns [mkPart Text [] None] /\
  parse (js "   ") = Returns [mkPart Text [] None] /\
  ~ (forall content ps, parse content = Returns ps -> no_blank_text ps).
Proof.
  split; [reflexivity|]. split; [reflexivity|].
  intros H. specialize (H [] [mkPart Text [] None] eq_refl).
  unfold no_blank_text in H. inversion H as [|p l Hp _]; subst.
  specialize (Hp eq_refl). discriminate.
Qed.

(* ===================================================================== *)
(** ** Determinism: the outcome does not depend on the attribute cache *)
(* ===================================================================== *)

Section Determinism.

Lemma cache_ok_empty : cache_ok ∅.
Proof. intros name re H. rewrite lookup_empty in H. discriminate. Qed.

Lemma cache_ok_insert c name :
  cache_ok c -> cache_ok (<[name := attr_regex name]> c).
Proof.
  intros Hc n re H. destruct (decide (name = n)) as [->|Hne].
  - rewrite lookup_insert_eq in H. congruence.
  - rewrite lookup_insert_ne in H by exact Hne. apply Hc. exact H.
Qed.

Lemma stable_ret {A} (a : A) : stable (ret a).
Proof. intros c1 c2 H1 H2. split; [reflexivity | exact H1]. Qed.

Lemma stable_throw {A} e : stable (@throw A e).
Proof. intros c1 c2 H1 H2. split; [reflexivity | exact H1]. Qed.

Lemma stable_out_of_model {A} : stable (@out_of_model A).
Proof. intros c1 c2 H1 H2. split; [reflexivity | exact H1]. Qed.

Lemma stable_bind {A B} (m : M A) (f : A -> M B) :
  stable m -> (forall a, stable (f a)) -> stable (bind m f).
Proof.
  intros Hm Hf c1 c2 H1 H2. unfold bind.
  destruct (Hm c1 c2 H1 H2) as [E K1]. destruct (Hm c2 c1 H2 H1) as [_ K2].
  destruct (m c1) as [o1 d1], (m c2) as [o2 d2]. simpl in *. subst o2.
  destruct o1 as [a|e|]; [|split; [reflexivity | exact K1]..].
  apply Hf; assumption.
Qed.

Lemma stable_getAttr tagContent name : stable (getAttr tagContent name).
Proof.
  intros c1 c2 H1 H2. unfold getAttr.
  destruct (c1 !! name) as [r1|] eqn:E1, (c2 !! name) as [r2|] eqn:E2;
    try (apply H1 in E1; subst r1); try (apply H2 in E2; subst r2);
    destruct tagContent; simpl; split; try reflexivity; try assumption;
    apply cache_ok_insert; assumption.
Qed.

Lemma stable_pending_parts tagContent : stable (pending_parts tagContent).
Proof.
  unfold pending_parts.
  repeat (apply stable_bind; [apply stable_getAttr | intros ?]).
  repeat match goal with
         | |- stable (match ?x with _ => _ end) => destruct x
         end;
    first [apply stable_ret | apply stable_throw | apply stable_out_of_model].
Qed.

Lemma stable_tag_parts content m : stable (tag_parts content m).
Proof.
  unfold tag_parts.
  repeat match goal with
         | |- stable (if ?b then _ else _) => destruct b
         end;
    first [apply stable_ret | apply stable_pending_parts].
Qed.

Lemma stable_scan_tags content budget :
  forall st, stable (scan_tags content budget st).
Proof.
  induction budget as [|b IH]; intros st; simpl.
  - destruct (exec TAG_REGEX content (regexLastIndex st)) as [[m|] next];
      apply stable_ret.
  - destruct (exec TAG_REGEX content (regexLastIndex st)) as [[m|] next];
      [|apply stable_ret].
    destruct ((index m =? lastIndex st) && (length (matched content m) =? 0)).
    + apply IH.
    + apply stable_bind; [apply stable_tag_parts | intros new; apply IH].
Qed.

Lemma stable_parseMessageContent content : stable (parseMessageContent content).
Proof.
  unfold parseMessageContent, parse_body.
  destruct (negb (truthy content) || (length (trim content) =? 0));
    [apply stable_ret|].
  apply stable_bind; [apply stable_scan_tags | intros st; apply stable_ret].
Qed.

Lemma cache_after_ok earlier : cache_ok (cache_after earlier).
Proof.
  unfold cache_after. generalize cache_ok_empty. generalize (∅ : gmap str RegExp).
  induction earlier as [|b l IH]; intros c Hc; simpl; [exact Hc|].
  apply IH. apply (stable_parseMessageContent b c c Hc Hc).
Qed.

End Determinism.

(** C1.  The tokenizer is deterministic.  Whatever buffers were parsed
    before (they only fill the shared attribute cache), a call on a
    buffer has the outcome of a call made first of all; in particular two
    calls in a row on the same buffer return the same list of parts, with
    the same kinds, contents and flags in the same order (or raise the
    same exception).  The outcome is, for every buffer, a list of parts
    or an exception: whatever a tool_pending tag holds, numbers of every
    form among its parameters included, the call has its outcome in the
    model. *)
Theorem parse_is_deterministic (earlier : list str) (content : str) :
  fst (parseMessageContent content (cache_after earlier)) = parse content
  /\ fst (parseMessageContent content (snd (parseMessageContent content ∅)))
     = fst (parseMessageContent content ∅)
  /\ parse content <> OutOfModel.
Proof.
  split; [|split].
  - apply stable_parseMessageContent; [apply cache_after_ok | apply cache_ok_empty].
  - apply stable_parseMessageContent; [|apply cache_ok_empty].
    apply (cache_after_ok [content]).
  - apply parse_in_model.
Qed.

(* ===================================================================== *)
(** ** The matcher only moves forward *)
(* ===================================================================== *)

Section MatcherRange.

Variable input : str.
Variable ignoreCase : bool.

Lemma within_refl x : within input x x.
Proof. split; auto. Qed.

Lemma within_trans x y z : within input x y -> within input y z -> within input x z.
Proof. unfold within. intros [H1 H2] [H3 H4]. split; [lia | auto]. Qed.

Lemma endIndex_clear_captures ks x :
  endIndex (clear_captures ks x) = endIndex x.
Proof.
  unfold clear_captures. revert x.
  induction ks as [|k ks IH]; intros x; simpl; [reflexivity|].
  rewrite IH. reflexivity.
Qed.

Lemma within_clear ks x y : within input (clear_captures ks x) y -> within input x y.
Proof. unfold within. rewrite endIndex_clear_captures. auto. Qed.

Lemma repeat_matcher_S (m : Matcher) ks greedy fuel min max x c :
  repeat_matcher m ks greedy (S fuel) min max x c =
  match max with
  | Some 0 => c x
  | _ =>
      let d : Continuation := fun y =>
        if (min =? 0) && (endIndex y =? endIndex x) then None
        else repeat_matcher m ks greedy fuel (min - 1) (option_map pred max) y c in
      let xr := clear_captures ks x in
      if negb (min =? 0) then m xr d
      else if greedy then
        match m xr d with
        | Some z => Some z
        | None => c x
        end
      else
        match c x with
        | Some z => Some z
        | None => m xr d
        end
  end.
Proof. reflexivity. Qed.

Lemma ranged_repeat m ks greedy :
  ranged input m ->
  forall fuel min max x c z,
    repeat_matcher m ks greedy fuel min max x c = Some z ->
    exists y, within input x y /\ c y = Some z.
Proof.
  intros Hm. induction fuel as [|fuel IH]; intros min max x c z H;
    [discriminate|].
  rewrite repeat_matcher_S in H.
  assert (Hx : forall r, c x = Some r -> r = z ->
                         exists y', within input x y' /\ c y' = Some z).
  { intros r E ->. exists x. split; [apply within_refl | exact E]. }
  destruct (match max with Some 0 => true | _ => false end) eqn:Z.
  { destruct max as [[|k]|]; try discriminate. exact (Hx z H eq_refl). }
  assert (H' : (let d : Continuation := fun y =>
                  if (min =? 0) && (endIndex y =? endIndex x) then None
                  else repeat_matcher m ks greedy fuel (min - 1)
                         (option_map pred max) y c in
                let xr := clear_captures ks x in
                if negb (min =? 0) then m xr d
                else if greedy then
                  match m xr d with Some z => Some z | None => c x end
                else
                  match c x with Some z => Some z | None => m xr d end) = Some z).
  { destruct max as [[|k]|]; try discriminate; exact H. }
  clear H Z. cbv zeta in H'.
  set (d := fun y : MatchState =>
              if (min =? 0) && (endIndex y =? endIndex x) then None
              else repeat_matcher m ks greedy fuel (min - 1)
                     (option_map pred max) y c) in H'.
  assert (Hm' : forall r, m (clear_captures ks x) d = Some r -> r = z ->
                          exists y', within input x y' /\ c y' = Some z).
  { intros r E ->. apply Hm in E. destruct E as [y [Hy E]].
    apply within_clear in Hy. unfold d in E.
    destruct ((min =? 0) && (endIndex y =? endIndex x)); [discriminate|].
    apply IH in E. destruct E as [y' [Hy' E]]. exists y'. split; [|exact E].
    eapply within_trans; eassumption. }
  destruct (negb (min =? 0)); [exact (Hm' z H' eq_refl)|].
  destruct greedy.
  - destruct (m (clear_captures ks x) d) as [r|] eqn:E.
    + injection H' as ->. exact (Hm' z eq_refl eq_refl).
    + exact (Hx z H' eq_refl).
  - destruct (c x) as [r|] eqn:E.
    + injection H' as ->. exact (Hx z eq_refl eq_refl).
    + exact (Hm' z H' eq_refl).
Qed.

Lemma backref_ok_bound at_ from len :
  backref_ok ignoreCase input at_ from len = true -> len = 0 \/ at_ + len <= length input.
Proof.
  revert at_ from. induction len as [|len IH]; intros at_ from H; [left; reflexivity|].
  right. simpl in H.
  destruct (nth_error input from); [|discriminate].
  destruct (nth_error input at_) eqn:E; [|discriminate].
  apply andb_prop in H. destruct H as [_ H]. apply IH in H.
  assert (at_ < length input) by (apply nth_error_Some; congruence).
  destruct H as [->|H]; lia.
Qed.

Lemma ranged_matcher r : ranged input (matcher input ignoreCase r).
Proof.
  induction r as [|cs|r1 IH1 r2 IH2|r1 IH1 r2 IH2|min max greedy r1 IH1|k r1 IH1|k|r1 IH1|];
    intros x c z H; simpl in H.
  - exists x. split; [apply within_refl | exact H].
  - destruct (nth_error input (endIndex x)) as [a|] eqn:E; [|discriminate].
    destruct (charset_mem ignoreCase cs a); [|discriminate].
    exists (advance 1 x). split; [|exact H].
    assert (endIndex x < length input) by (apply nth_error_Some; congruence).
    unfold within, advance. simpl. lia.
  - apply IH1 in H. destruct H as [y [Hy H]]. apply IH2 in H.
    destruct H as [y' [Hy' H]]. exists y'. split; [|exact H].
    eapply within_trans; eassumption.
  - destruct (matcher input ignoreCase r1 x c) as [r|] eqn:E.
    + injection H as ->. apply IH1. exact E.
    + apply IH2. exact H.
  - eapply ranged_repeat; [exact IH1 | exact H].
  - apply IH1 in H. destruct H as [y [Hy H]].
    exists (set_capture k (Some (endIndex x, endIndex y)) y). split; [|exact H].
    exact Hy.
  - destruct (get_capture x k) as [[s e]|].
    + destruct (backref_ok ignoreCase input (endIndex x) s (e - s)) eqn:B; [|discriminate].
      exists (advance (e - s) x). split; [|exact H].
      apply backref_ok_bound in B. unfold within, advance. simpl. lia.
    + exists x. split; [apply within_refl | exact H].
  - destruct (matcher input ignoreCase r1 x (fun y => Some y)); [discriminate|].
    exists x. split; [apply within_refl | exact H].
  - destruct (endIndex x =? length input); [|discriminate].
    exists x. split; [apply within_refl | exact H].
Qed.

(** *** The fuel of RepeatMatcher is enough *)

Lemma agree_from_later x y c c' :
  within input x y -> agree_from input x c c' -> agree_from input y c c'.
Proof.
  intros Hxy H z Hz. apply H. eapply within_trans; eassumption.
Qed.

Lemma forward_repeat m ks greedy :
  forward input m ->
  forall fuel min max x c c',
    agree_from input x c c' ->
    repeat_matcher m ks greedy fuel min max x c
    = repeat_matcher m ks greedy fuel min max x c'.
Proof.
  intros Hm. induction fuel as [|fuel IH]; intros min max x c c' H; [reflexivity|].
  rewrite !repeat_matcher_S.
  assert (Hx : c x = c' x) by (apply H; apply within_refl).
  assert (Hd : m (clear_captures ks x)
                 (fun y => if (min =? 0) && (endIndex y =? endIndex x) then None
                           else repeat_matcher m ks greedy fuel (min - 1)
                                  (option_map pred max) y c)
               = m (clear_captures ks x)
                   (fun y => if (min =? 0) && (endIndex y =? endIndex x) then None
                             else repeat_matcher m ks greedy fuel (min - 1)
                                    (option_map pred max) y c')).
  { apply Hm. intros y Hy.
    destruct ((min =? 0) && (endIndex y =? endIndex x)); [reflexivity|].
    apply IH. apply agree_from_later with x; [|exact H].
    apply within_clear with ks. exact Hy. }
  cbv zeta. rewrite Hx, Hd. reflexivity.
Qed.

Lemma forward_matcher r : forward input (matcher input ignoreCase r).
Proof.
  induction r as [|cs|r1 IH1 r2 IH2|r1 IH1 r2 IH2|min max greedy r1 IH1|k r1 IH1|k|r1 IH1|];
    intros x c c' H; simpl.
  - apply H. apply within_refl.
  - destruct (nth_error input (endIndex x)) as [a|] eqn:E; [|reflexivity].
    destruct (charset_mem ignoreCase cs a); [|reflexivity].
    apply H. assert (endIndex x < length input) by (apply nth_error_Some; congruence).
    unfold within, advance. simpl. lia.
  - apply IH1. intros y Hy. apply IH2. apply agree_from_later with x; assumption.
  - rewrite (IH1 x c c' H), (IH2 x c c' H). reflexivity.
  - apply forward_repeat; assumption.
  - apply IH1. intros y Hy. apply H. exact Hy.
  - destruct (get_capture x k) as [[s e]|]; [|apply H; apply within_refl].
    destruct (backref_ok ignoreCase input (endIndex x) s (e - s)) eqn:B; [|reflexivity].
    apply H. apply backref_ok_bound in B. unfold within, advance. simpl. lia.
  - rewrite (H x (within_refl x)). reflexivity.
  - rewrite (H x (within_refl x)). reflexivity.
Qed.

(** With the fuel [matcher] gives it, and with any larger one,
    RepeatMatcher computes the same result: the recursion never stops for
    lack of fuel. *)
Lemma repeat_fuel_enough m ks greedy :
  ranged input m -> forward input m ->
  forall f1 f2 min max x c,
    endIndex x <= length input ->
    min + (length input - endIndex x) < f1 ->
    min + (length input - endIndex x) < f2 ->
    repeat_matcher m ks greedy f1 min max x c
    = repeat_matcher m ks greedy f2 min max x c.
Proof.
  intros Hr Hf. induction f1 as [|f1 IH]; intros f2 min max x c Hx H1 H2; [lia|].
  destruct f2 as [|f2]; [lia|]. rewrite !repeat_matcher_S.
  assert (Hd : m (clear_captures ks x)
                 (fun y => if (min =? 0) && (endIndex y =? endIndex x) then None
                           else repeat_matcher m ks greedy f1 (min - 1)
                                  (option_map pred max) y c)
               = m (clear_captures ks x)
                   (fun y => if (min =? 0) && (endIndex y =? endIndex x) then None
                             else repeat_matcher m ks greedy f2 (min - 1)
                                    (option_map pred max) y c)).
  { apply Hf. intros y Hy. apply within_clear in Hy. destruct Hy as [Hy1 Hy2].
    specialize (Hy2 Hx).
    destruct ((min =? 0) && (endIndex y =? endIndex x)) eqn:E; [reflexivity|].
    apply IH; [exact Hy2 | |].
    - destruct min as [|min]; [|lia]. simpl in E. apply Nat.eqb_neq in E. lia.
    - destruct min as [|min]; [|lia]. simpl in E. apply Nat.eqb_neq in E. lia. }
  cbv zeta. rewrite Hd. reflexivity.
Qed.

Lemma matcher_repeat_fuel r min max greedy x c extra :
  endIndex x <= length input ->
  matcher input ignoreCase (Repeat min max greedy r) x c
  = repeat_matcher (matcher input ignoreCase r) (parens r) greedy
      (min + (length input - endIndex x) + 1 + extra) min max x c.
Proof.
  intros Hx. simpl. apply repeat_fuel_enough;
    [apply ranged_matcher | apply forward_matcher | exact Hx | lia | lia].
Qed.

End MatcherRange.

(* ===================================================================== *)
(** ** Matches found by exec *)
(* ===================================================================== *)

Section ExecFacts.

Lemma match_at_range re input i m :
  match_at re input i = Some m ->
  index m = i /\ i <= stop m /\ (i <= length input -> stop m <= length input).
Proof.
  unfold match_at. intros H.
  destruct (matcher input (flag_i re) (pattern re) _ _) as [y|] eqn:E; [|discriminate].
  injection H as <-. simpl.
  apply ranged_matcher in E. destruct E as [y' [[H1 H2] E]].
  injection E as ->. simpl in *. auto.
Qed.

Lemma search_found re input n : forall i m,
  search re input n i = Some m ->
  i <= index m /\ index m < i + n /\ match_at re input (index m) = Some m.
Proof.
  induction n as [|n IH]; intros i m H; simpl in H; [discriminate|].
  destruct (match_at re input i) as [m'|] eqn:E.
  - injection H as ->. destruct (match_at_range _ _ _ _ E) as [Hi _].
    rewrite Hi. repeat split; [lia | lia | exact E].
  - apply IH in H. destruct H as [H1 [H2 H3]]. repeat split; [lia | lia | exact H3].
Qed.

Lemma exec_found re input lastIndex m next :
  exec re input lastIndex = (Some m, next) ->
  lastIndex <= index m /\ index m <= stop m /\ stop m <= length input
  /\ next = stop m /\ match_at re input (index m) = Some m.
Proof.
  unfold exec. destruct (length input <? lastIndex) eqn:L; [discriminate|].
  apply Nat.ltb_ge in L.
  destruct (search re input _ lastIndex) as [m'|] eqn:E; [|discriminate].
  intros H. injection H as -> <-.
  apply search_found in E. destruct E as [H1 [H2 H3]].
  destruct (match_at_range _ _ _ _ H3) as [_ [H4 H5]].
  repeat split; try assumption; lia.
Qed.

End ExecFacts.

(* ===================================================================== *)
(** ** The loop pushes parts in source order *)
(* ===================================================================== *)

Section SourceOrder.

Lemma ret_returns {A} (a b : A) (c c' : gmap str RegExp) :
  ret a c = (Returns b, c') -> a = b /\ c = c'.
Proof. unfold ret. intros H. injection H as -> ->. auto. Qed.

Lemma pending_parts_at_most_one tagContent c new c' :
  pending_parts tagContent c = (Returns new, c') -> new = [] \/ exists q, new = [q].
Proof.
  unfold pending_parts. intros H.
  repeat (apply bind_returns in H; destruct H as [? [? [_ H]]]).
  repeat match type of H with
         | (match ?x with _ => _ end) _ = _ => destruct x
         end;
    first [ apply ret_returns in H; destruct H as [<- _]; eauto
          | discriminate H ].
Qed.

Lemma tag_parts_at_most_one content m c new c' :
  tag_parts content m c = (Returns new, c') -> new = [] \/ exists q, new = [q].
Proof.
  unfold tag_parts. intros H.
  repeat match type of H with
         | (if ?b then _ else _) _ = _ => destruct b
         end;
    first [ apply ret_returns in H; destruct H as [<- _]; eauto
          | eapply pending_parts_at_most_one; exact H ].
Qed.

Lemma length_matched content m :
  index m <= stop m <= length content ->
  length (matched content m) = stop m - index m.
Proof.
  intros H. unfold matched, slice. rewrite length_firstn, length_skipn. lia.
Qed.

Lemma laid_bounds content l : forall lo hi, laid content lo l hi -> lo <= hi.
Proof.
  induction l as [|[[a b] q] l IH]; intros lo hi H; simpl in H; [exact H|].
  destruct H as [H1 [H2 [_ H3]]]. apply IH in H3. lia.
Qed.

Lemma laid_app content l1 : forall lo mid l2 hi,
  laid content lo l1 mid -> laid content mid l2 hi -> laid content lo (l1 ++ l2) hi.
Proof.
  induction l1 as [|[[a b] q] l1 IH]; intros lo mid l2 hi H1 H2; simpl in *.
  - destruct l2 as [|[[a b] q] l2]; simpl in *; [lia|].
    destruct H2 as [? [? [? ?]]]. repeat split; try assumption; lia.
  - destruct H1 as [? [? [? H1]]]. repeat split; try assumption.
    eapply IH; eassumption.
Qed.

Lemma laid_raise content l : forall lo hi hi',
  laid content lo l hi -> hi <= hi' -> laid content lo l hi'.
Proof.
  intros lo hi hi' H L. rewrite <- (app_nil_r l).
  eapply laid_app; [exact H | simpl; exact L].
Qed.

Lemma push_text_laid content raw ps a b hi :
  List.map snd raw = ps ->
  laid content 0 raw hi -> hi <= a ->
  (blank (slice content a b) = false -> a <= b) ->
  exists raw',
    List.map snd raw' = push_text ps (slice content a b)
    /\ laid content 0 raw' (Nat.max hi b).
Proof.
  intros Hm Hl Ha Hb. unfold push_text.
  destruct (truthy (trim (slice content a b))) eqn:T.
  - assert (B : blank (slice content a b) = false).
    { destruct (blank (slice content a b)) eqn:B; [|reflexivity].
      apply trim_nil_iff in B. rewrite B in T. discriminate. }
    exists (raw ++ [(a, b, mkPart Text (slice content a b) None)]). split.
    + rewrite map_app, Hm. reflexivity.
    + eapply laid_app; [exact Hl|]. simpl. specialize (Hb B).
      repeat split; try lia. apply plain_run; [reflexivity | exact B].
  - exists raw. split; [exact Hm|]. eapply laid_raise; [exact Hl | lia].
Qed.

Lemma scan_tags_inv content budget : forall st c st' c',
  scan_tags content budget st c = (Returns st', c') ->
  loop_inv content st -> loop_inv content st'.
Proof.
  induction budget as [|budget IH]; intros st c st' c' H Hinv; simpl in H.
  - destruct (exec TAG_REGEX content (regexLastIndex st)) as [[m|] next];
      apply ret_returns in H; destruct H as [<- _]; exact Hinv.
  - destruct (exec TAG_REGEX content (regexLastIndex st)) as [[m|] next] eqn:E;
      [|apply ret_returns in H; destruct H as [<- _]; exact Hinv].
    apply exec_found in E. destruct E as [E1 [E2 [E3 [-> E5]]]].
    destruct Hinv as [raw [Hm [Hl [Hle Hlen]]]].
    destruct ((index m =? lastIndex st) && (length (matched content m) =? 0)) eqn:S.
    + apply IH in H; [exact H|]. exists raw. simpl.
      apply andb_prop in S. destruct S as [S S0]. apply Nat.eqb_eq in S.
      apply Nat.eqb_eq in S0. rewrite length_matched in S0 by lia.
      repeat split; [exact Hm | | lia | exact E3].
      eapply laid_raise; [exact Hl | lia].
    + apply bind_returns in H. destruct H as [new [c1 [Ht H]]].
      apply IH in H; [exact H|]. simpl.
      destruct (le_lt_dec (lastIndex st) (index m)) as [Lt|Gt].
      * destruct (push_text_laid content raw (parts st) (lastIndex st) (index m)
                    (regexLastIndex st) Hm Hl Hle) as [raw1 [Hm1 Hl1]]; [lia|].
        rewrite Nat.max_r in Hl1 by lia.
        destruct (tag_parts_at_most_one _ _ _ _ _ Ht) as [->|[q ->]].
        -- exists raw1. simpl. rewrite app_nil_r. repeat split; try assumption; try lia.
           eapply laid_raise; [exact Hl1 | lia].
        -- exists (raw1 ++ [(index m, stop m, q)]). simpl. rewrite map_app, Hm1.
           repeat split; try reflexivity; try lia.
           eapply laid_app; [exact Hl1|]. simpl.
           repeat split; try lia. eapply recognized_tag; eauto.
      * assert (Hs : slice content (lastIndex st) (index m) = []).
        { unfold slice. replace (index m - lastIndex st) with 0 by lia. reflexivity. }
        rewrite Hs. unfold push_text. simpl.
        destruct (tag_parts_at_most_one _ _ _ _ _ Ht) as [->|[q ->]].
        -- exists raw. simpl. rewrite app_nil_r. repeat split; try assumption; try lia.
           eapply laid_raise; [exact Hl | lia].
        -- exists (raw ++ [(index m, stop m, q)]). simpl. rewrite map_app, Hm.
           repeat split; try reflexivity; try lia.
           eapply laid_app; [exact Hl|]. simpl.
           repeat split; try lia. eapply recognized_tag; eauto.
Qed.

Lemma in_source_order_lower content l : forall lo lo',
  lo <= lo' -> in_source_order content lo' l -> in_source_order content lo l.
Proof.
  destruct l as [|[[a b] p] l]; intros lo lo' L H; simpl in *; [lia|].
  destruct H as [? [? [? ?]]]. repeat split; try assumption; lia.
Qed.

Lemma cleaned_in_source_order content raw : forall lo,
  laid content lo raw (length content) ->
  in_source_order content lo
    (List.filter (fun t => keep_part (snd t)) (List.map clean_tagged raw)).
Proof.
  induction raw as [|[[a b] q] raw IH]; intros lo H; simpl in *; [exact H|].
  destruct H as [H1 [H2 [H3 H4]]]. apply IH in H4.
  destruct (keep_part (clean_part q)); simpl.
  - repeat split; try assumption. exists q. split; [exact H3 | reflexivity].
  - eapply in_source_order_lower; [|exact H4]. lia.
Qed.

Lemma cleaned_snd raw :
  List.map snd (List.filter (fun t => keep_part (snd t)) (List.map clean_tagged raw))
  = List.filter keep_part (List.map clean_part (List.map snd raw)).
Proof.
  induction raw as [|[[a b] q] raw IH]; simpl; [reflexivity|].
  destruct (keep_part (clean_part q)); simpl; rewrite IH; reflexivity.
Qed.

Lemma capped_eq content :
  (if MAX_CONTENT_LENGTH <? length content
   then substring0 content MAX_CONTENT_LENGTH else content) = capped content.
Proof.
  unfold capped, substring0.
  destruct (MAX_CONTENT_LENGTH <? length content) eqn:L; [reflexivity|].
  apply Nat.ltb_ge in L. symmetry. apply firstn_all2. exact L.
Qed.

Lemma parse_body_in_source_order content c ps c' :
  parse_body content c = (Returns ps, c') ->
  exists tagged,
    List.map snd tagged = ps /\ in_source_order (capped content) 0 tagged.
Proof.
  unfold parse_body. rewrite capped_eq. set (buffer := capped content).
  intros H. apply bind_returns in H. destruct H as [st [c1 [Hs H]]].
  apply ret_returns in H. destruct H as [<- _].
  apply scan_tags_inv in Hs.
  2:{ exists []. simpl. repeat split; lia. }
  destruct Hs as [raw [Hm [Hl [Hle Hlen]]]].
  assert (Hr : slice_from buffer (lastIndex st)
               = slice buffer (lastIndex st) (length buffer)).
  { unfold slice_from, slice. symmetry. apply firstn_all2. rewrite length_skipn. lia. }
  rewrite Hr.
  destruct (push_text_laid buffer raw (parts st) (lastIndex st) (length buffer)
              (regexLastIndex st) Hm Hl Hle) as [raw1 [Hm1 Hl1]].
  { intros B. destruct (le_lt_dec (lastIndex st) (length buffer)) as [L|G]; [exact L|].
    unfold slice in B. rewrite skipn_all2 in B by lia.
    rewrite firstn_nil in B. discriminate. }
  rewrite Nat.max_r in Hl1 by lia.
  exists (List.filter (fun t => keep_part (snd t)) (List.map clean_tagged raw1)).
  split.
  - rewrite cleaned_snd, Hm1. reflexivity.
  - apply cleaned_in_source_order. exact Hl1.
Qed.

End SourceOrder.

(** C2.  The parts of a result are in source order: each part comes from
    a piece [a, b) of the (capped) buffer that is either a plain-text run
    or a recognized tag, the pieces follow one another without overlap
    in the order of the list, and the part is the cleaned form of what
    the loop pushed for its piece.  A blank buffer gives the one empty
    text part.  This holds for every buffer on which the tokenizer
    returns, and on every buffer it returns or raises an exception (the
    TypeError of a tool_pending tag without attribute text): no buffer
    is left without an outcome. *)
Theorem parts_in_source_order content c :
  fst (parseMessageContent content c) <> OutOfModel
  /\ forall ps,
       fst (parseMessageContent content c) = Returns ps ->
       (blank content = true /\ ps = [mkPart Text [] None])
       \/ (blank content = false
           /\ exists tagged,
                List.map snd tagged = ps /\ in_source_order (capped content) 0 tagged).
Proof.
  split; [apply parseMessageContent_in_model|].
  intros ps. destruct (parseMessageContent content c) as [out c'] eqn:E.
  cbn [fst]. intros ->. revert E.
  unfold parseMessageContent. rewrite guard_is_blank.
  destruct (blank content) eqn:B; intros H.
  - left. apply ret_returns in H. destruct H as [<- _]. auto.
  - right. split; [reflexivity|]. eapply parse_body_in_source_order. exact H.
Qed.

Lemma parts_in_source_order_witness :
  let content := js "Hello <thought>thinking...</thought> world" in
  let ps := [mkPart Text (js "Hello") None;
             mkPart Thought (js "thinking...") (Some false);
             mkPart Text (js "world") None] in
  parseMessageContent content ∅ = (Returns ps, ∅)
  /\ ((blank content = true /\ ps = [mkPart Text [] None])
      \/ (blank content = false
          /\ exists tagged,
               List.map snd tagged = ps /\ in_source_order (capped content) 0 tagged)).
Proof.
  split; [vm_compute; reflexivity|].
  apply (proj2 (parts_in_source_order
                  (js "Hello <thought>thinking...</thought> world") ∅)
           [mkPart Text (js "Hello") None;
            mkPart Thought (js "thinking...") (Some false);
            mkPart Text (js "world") None]).
  vm_compute. reflexivity.
Defined.

(** The pieces of the example of the specification: the text before the
    tag, the tag, the text after it. *)
Lemma example_pieces :
  let content := js "Hello <thought>thinking...</thought> world" in
  in_source_order (capped content) 0
    [ (0, 6, mkPart Text (js "Hello") None);
      (6, 36, mkPart Thought (js "thinking...") (Some false));
      (36, 42, mkPart Text (js "world") None) ].
Proof.
  cbv zeta.
  replace (capped (js "Hello <thought>thinking...</thought> world"))
    with (js "Hello <thought>thinking...</thought> world") by (vm_compute; reflexivity).
  simpl. repeat split; try lia.
  - exists (mkPart Text (js "Hello ") None). split; [|vm_compute; reflexivity].
    apply plain_run; vm_compute; reflexivity.
  - exists (mkPart Thought (js "thinking...") (Some false)). split; [|reflexivity].
    apply (recognized_tag _ _ _ _ (mkMatch 6 36 [Some (7, 14); None; Some (15, 26); None; None]) ∅ ∅);
      vm_compute; reflexivity.
  - exists (mkPart Text (js " world") None). split; [|vm_compute; reflexivity].
    apply plain_run; vm_compute; reflexivity.
Qed.

(* ===================================================================== *)
(** ** Removing white space: trim().replace(/\s/g, '') *)
(* ===================================================================== *)

Section Spaces.

Lemma ws_mem (a : char) : charset_mem false (mkSet space_ranges false) a = is_space a.
Proof.
  unfold charset_mem, canon, in_ranges, space_ranges, is_space.
  cbn [negated ranges andb existsb xorb].
  rewrite xorb_false_r.
  apply eq_true_iff_eq.
  rewrite !orb_true_iff, !andb_true_iff, !N.leb_le, !N.eqb_eq. lia.
Qed.

Lemma space_match_at (s : str) i :
  match_at SPACE_REGEX s i =
  match nth_error s i with
  | Some a => if is_space a then Some (mkMatch i (i + 1) []) else None
  | None => None
  end.
Proof.
  unfold match_at, SPACE_REGEX, ws, cls. cbn [pattern flag_i ngroups repeat matcher endIndex].
  destruct (nth_error s i) as [a|]; [|reflexivity].
  rewrite ws_mem. destruct (is_space a); reflexivity.
Qed.

Lemma skipn_cons_nth (s : str) i a :
  nth_error s i = Some a -> skipn i s = a :: skipn (S i) s.
Proof.
  revert i. induction s as [|b s IH]; intros i H; destruct i; try discriminate.
  - injection H as ->. reflexivity.
  - simpl in H. simpl. rewrite (IH i H). reflexivity.
Qed.

Lemma slice_cons_nth (s : str) i j a :
  nth_error s i = Some a -> i < j -> slice s i j = a :: slice s (S i) j.
Proof.
  intros H L. unfold slice. rewrite (skipn_cons_nth s i a H).
  replace (j - i) with (S (j - S i)) by lia. reflexivity.
Qed.

(** The first white space found from [i] on, with what lies before it. *)
Lemma search_space (s : str) n : forall i,
  length s < i + n ->
  match search SPACE_REGEX s n i with
  | None => List.filter not_space (skipn i s) = skipn i s
  | Some m =>
      i <= index m /\ stop m = index m + 1 /\ index m < length s
      /\ List.filter not_space (skipn i s)
         = slice s i (index m) ++ List.filter not_space (skipn (index m + 1) s)
  end.
Proof.
  induction n as [|n IH]; intros i H.
  - simpl. rewrite skipn_all2 by lia. reflexivity.
  - simpl. rewrite space_match_at. destruct (nth_error s i) as [a|] eqn:E.
    + assert (Hi : i < length s) by (apply nth_error_Some; congruence).
      rewrite (skipn_cons_nth s i a E). destruct (is_space a) eqn:Ea.
      * cbn [index stop]. repeat split; try lia.
        unfold slice. rewrite Nat.sub_diag. simpl. unfold not_space at 1.
        rewrite Ea. simpl. rewrite Nat.add_1_r. reflexivity.
      * specialize (IH (S i)). destruct (search SPACE_REGEX s n (S i)) as [m|].
        -- destruct IH as [H1 [H2 [H3 H4]]]; [lia|]. repeat split; try lia.
           simpl. unfold not_space at 1. rewrite Ea. simpl. rewrite H4.
           rewrite (slice_cons_nth s i (index m) a E) by lia. reflexivity.
        -- simpl. unfold not_space at 1. rewrite Ea. simpl. rewrite IH by lia.
           reflexivity.
    + apply nth_error_None in E.
      specialize (IH (S i)). rewrite skipn_all2 by lia.
      destruct (search SPACE_REGEX s n (S i)) as [m|].
      * destruct IH as [H1 [H2 [H3 H4]]]; lia.
      * reflexivity.
Qed.

Lemma remove_spaces_from (s : str) fuel : forall i,
  i <= length s -> length s - i < fuel ->
  remove_matches s (all_matches SPACE_REGEX s fuel i) i
  = List.filter not_space (skipn i s).
Proof.
  induction fuel as [|fuel IH]; intros i Hi Hf; [lia|].
  simpl. unfold exec.
  replace (length s <? i) with false by (symmetry; apply Nat.ltb_ge; exact Hi).
  pose proof (search_space s (S (length s - i)) i) as Hs.
  destruct (search SPACE_REGEX s (S (length s - i)) i) as [m|].
  - destruct Hs as [H1 [H2 [H3 H4]]]; [lia|].
    replace (stop m =? index m) with false by (symmetry; apply Nat.eqb_neq; lia).
    simpl. replace (i <=? index m) with true by (symmetry; apply Nat.leb_le; exact H1).
    rewrite H4, H2. f_equal. apply IH; lia.
  - simpl. unfold slice_from. symmetry. apply Hs. lia.
Qed.

(** replace(/\s/g, '') removes exactly the white space. *)
Lemma replace_spaces (s : str) :
  replace_all_empty SPACE_REGEX s = List.filter not_space s.
Proof.
  unfold replace_all_empty, matchAll. apply (remove_spaces_from s _ 0); lia.
Qed.

Lemma filter_blank (p : str) : blank p = true -> List.filter not_space p = [].
Proof.
  unfold blank. induction p as [|a p IH]; simpl; [reflexivity|].
  intros H. apply andb_prop in H. destruct H as [Ha H].
  unfold not_space at 1. rewrite Ha. simpl. apply IH. exact H.
Qed.

Lemma filter_trimStart (s : str) :
  List.filter not_space (trimStart s) = List.filter not_space s.
Proof.
  destruct (trimStart_suffix s) as [p [E B]]. rewrite E at 2.
  rewrite List.filter_app, (filter_blank p B). reflexivity.
Qed.

Lemma filter_not_space_rev (s : str) :
  List.filter not_space (rev s) = rev (List.filter not_space s).
Proof.
  induction s as [|a s IH]; [reflexivity|].
  simpl. rewrite List.filter_app, IH. simpl.
  destruct (not_space a); simpl; [reflexivity | apply app_nil_r].
Qed.

Lemma filter_trim (s : str) :
  List.filter not_space (trim s) = List.filter not_space s.
Proof.
  unfold trim, trimEnd.
  rewrite filter_not_space_rev, filter_trimStart, filter_not_space_rev,
    rev_involutive, filter_trimStart.
  reflexivity.
Qed.

(** paramsB64.trim().replace(/\s/g, '') is paramsB64 without its white
    space. *)
Lemma clean_b64 (paramsB64 : str) :
  replace_all_empty SPACE_REGEX (trim paramsB64) = List.filter not_space paramsB64.
Proof. rewrite replace_spaces. apply filter_trim. Qed.

End Spaces.

(* ===================================================================== *)
(** ** Theorems on the tool_pending tag *)
(* ===================================================================== *)

Section PendingFacts.

Lemma getAttr_returns t name c :
  exists v c', getAttr (Some t) name c = (Returns v, c').
Proof. unfold getAttr. destruct (c !! name); eauto. Qed.

Lemma decode_pending_no_throw r t a p e : decode_pending r t a p <> Throws e.
Proof.
  unfold decode_pending. destruct (atob _); [|discriminate].
  destruct (JSON_parse _); discriminate.
Qed.

(** With an attribute text to look into, the tool_pending branch raises
    nothing. *)
Lemma pending_text_never_throws t c e : fst (pending_parts (Some t) c) <> Throws e.
Proof.
  unfold pending_parts, bind.
  destruct (getAttr_returns t (js "request_id") c) as [v1 [c1 ->]].
  destruct (getAttr_returns t (js "tool") c1) as [v2 [c2 ->]].
  destruct (getAttr_returns t (js "action") c2) as [v3 [c3 ->]].
  destruct (getAttr_returns t (js "params_b64") c3) as [v4 [c4 ->]].
  destruct v1 as [[|? ?]|]; try discriminate;
    destruct v2 as [[|? ?]|]; try discriminate;
    destruct v3 as [[|? ?]|]; try discriminate;
    destruct v4 as [[|? ?]|]; try discriminate.
  match goal with
  | |- context [decode_pending ?r ?t ?a ?p] =>
      pose proof (decode_pending_no_throw r t a p e);
      destruct (decode_pending r t a p) as [[pt|]|e'|]; simpl; congruence
  end.
Qed.

End PendingFacts.

(** C5.  The self-closing tool_pending tag of the specification yields
    exactly one pending part; its content is the JSON text of the record
    with request_id r1, tool file, action write and params {a: 1}, which
    is what JSON.parse gives back to PendingActionBlock.  Decoding removes
    the white space of params_b64, decodes the base64 text and parses the
    result as JSON. *)
Theorem pending_tag_decoded :
  let pending_text :=
    jsq "{'request_id':'r1','tool':'file','action':'write','params':{'a':1}}" in
  parse (jsq "<tool_pending request_id='r1' tool='file' action='write' params_b64='eyJhIjoxfQ==' />")
    = Returns [mkPart Pending pending_text None]
  /\ JSON_parse pending_text
     = Parsed (JObj [(js "request_id", JStr (js "r1")); (js "tool", JStr (js "file"));
                     (js "action", JStr (js "write"));
                     (js "params", JObj [(js "a", JNum 1)])]) []
  /\ atob (js "eyJhIjoxfQ==") = Some (jsq "{'a':1}")
  /\ parse (jsq "<tool_pending request_id='r1' tool='file' action='write' params_b64=' eyJh Ijox fQ== ' />")
     = Returns [mkPart Pending pending_text None]
  /\ (forall requestId tool action paramsB64,
        decode_pending requestId tool action paramsB64 =
        match atob (List.filter not_space paramsB64) with
        | None => Returns None
        | Some text =>
            match JSON_parse text with
            | Parsed params _ =>
                Returns (Some (mkPart Pending
                  (stringify (JObj [(js "request_id", JStr requestId);
                                    (js "tool", JStr tool);
                                    (js "action", JStr action);
                                    (js "params", params)]))
                  None))
            | SyntaxError => Returns None
            | Unmodelled => OutOfModel
            end
        end).
Proof.
  refine (conj _ (conj _ (conj _ (conj _ _)))).
  - vm_compute. reflexivity.
  - vm_compute. reflexivity.
  - vm_compute. reflexivity.
  - vm_compute. reflexivity.
  - intros. unfold decode_pending. rewrite clean_b64. reflexivity.
Qed.

(** C6, on the code.  A tool_pending tag without any attribute makes
    [match[2] || match[5]] undefined, and getAttr raises TypeError out of
    parseMessageContent; the tag of the specification that only lacks
    action and params_b64 is dropped without a part. *)
Theorem bare_pending_tag_throws :
  parse (js "<tool_pending>") = Throws TypeError
  /\ parse (js "before <tool_pending > after") = Throws TypeError
  /\ parse (jsq "<tool_pending request_id='r1' tool='file' />") = Returns [].
Proof. repeat split; vm_compute; reflexivity. Qed.

(* ===================================================================== *)
(** ** The tool tag: the arguments as a fold over the matches *)
(* ===================================================================== *)

Section ToolFacts.

Lemma flat_args_record tagInner : flat_args tagInner = record_args (flat_pairs tagInner).
Proof.
  unfold flat_args, record_args, flat_pairs.
  generalize (@nil (str * str)). induction (matchAll ARGUMENT_REGEX tagInner) as [|am l IH];
    intros acc; simpl; [reflexivity | apply IH].
Qed.

Lemma deep_args_record tagInner :
  deep_args tagInner [] = record_args (nested_pairs tagInner).
Proof.
  unfold deep_args, record_args, nested_pairs.
  generalize (@nil (str * str)). induction (matchAll DEEP_ARG_REGEX tagInner) as [|dam l IH];
    intros acc; simpl; [reflexivity|].
  destruct (negb (excluded_key (or_empty (group tagInner dam 1)))); simpl; apply IH.
Qed.

Lemma collected_args_spec tagInner :
  (let args := flat_args tagInner in
   if length args =? 0 then deep_args tagInner args else args)
  = spec_arguments tagInner.
Proof.
  cbv zeta. unfold spec_arguments. rewrite <- flat_args_record.
  destruct (flat_args tagInner) as [|kv args] eqn:E; simpl.
  - apply deep_args_record.
  - reflexivity.
Qed.

Lemma or_empty_default g : or_empty (js_or g (Some [])) = or_empty g.
Proof. destruct g as [[|a l]|]; reflexivity. Qed.

End ToolFacts.

(* ===================================================================== *)
(** ** Theorems on approve and deny *)
(* ===================================================================== *)

Section ApprovalFacts.
Import Approval.

(** C8, on the code.  handleApproveAction and handleDenyAction record
    the vote before the request is sent and do not take it back when the
    request is rejected: the status is set although the call failed (and
    the buttons are no longer rendered); the failure is reported with an
    alert. *)
Theorem rejected_call_keeps_vote (pending : PendingAction) (s : ui) :
  status (handleApproveAction pending Rejected s) pending = Some approved
  /\ status (handleDenyAction pending Rejected s) pending = Some denied
  /\ buttons_rendered (handleApproveAction pending Rejected s) pending = false
  /\ In (Alert (js "Approval failed.")) (trace (handleApproveAction pending Rejected s))
  /\ In (Alert (js "Denial failed.")) (trace (handleDenyAction pending Rejected s)).
Proof.
  unfold buttons_rendered, status, handleApproveAction, handleDenyAction. simpl.
  rewrite !lookup_insert_eq. repeat split; apply in_or_app; right; simpl; auto.
Qed.

(** C9.  Where the status of a request is already approved, the block
    renders no Approve button, so invoking Approve there changes nothing:
    no request is sent and the whole state stays as it was. *)
Theorem approve_again_is_noop (pending : PendingAction) (r : reply) (s : ui) :
  status s pending = Some approved ->
  click_approve pending r s = s
  /\ resolution_calls (click_approve pending r s) = resolution_calls s
  /\ votedActions (click_approve pending r s) = votedActions s.
Proof.
  intros H. unfold click_approve, buttons_rendered. rewrite H. auto.
Qed.

Lemma approve_again_is_noop_witness :
  let pending := mkPending (js "r1") (js "file") (js "write") (JObj [(js "a", JNum 1)]) in
  let s := handleApproveAction pending (Resolved (js "null")) (mkUi ∅ []) in
  status s pending = Some approved
  /\ (click_approve pending Rejected s = s
      /\ resolution_calls (click_approve pending Rejected s) = resolution_calls s
      /\ votedActions (click_approve pending Rejected s) = votedActions s).
Proof.
  split.
  - vm_compute. reflexivity.
  - apply (approve_again_is_noop
             (mkPending (js "r1") (js "file") (js "write") (JObj [(js "a", JNum 1)]))
             Rejected).
    vm_compute. reflexivity.
Defined.

(** The first click, for comparison: one request, and the vote. *)
Lemma first_approve_sends_one_call (pending : PendingAction) (r : reply) (s : ui) :
  status s pending = None ->
  resolution_calls (click_approve pending r s) = S (resolution_calls s)
  /\ status (click_approve pending r s) pending = Some approved.
Proof.
  intros H. unfold click_approve, buttons_rendered. rewrite H.
  unfold resolution_calls, status, handleApproveAction. destruct r; simpl;
    rewrite lookup_insert_eq; rewrite !List.filter_app, !length_app; simpl; split;
    try reflexivity; lia.
Qed.

End ApprovalFacts.

(* ===================================================================== *)
(** ** Where a pattern cannot match *)
(* ===================================================================== *)

Section Blocked.

Variable input : str.
Variable ignoreCase : bool.

Lemma blocked_sound r : forall x c,
  blocked ignoreCase r (nth_error input (endIndex x)) = true ->
  matcher input ignoreCase r x c = None.
Proof.
  induction r as [|cs|r1 IH1 r2 IH2|r1 IH1 r2 IH2|min max greedy r1 IH1|k r1 IH1|k|r1 IH1|];
    intros x c H; simpl in H; try discriminate.
  - simpl. destruct (nth_error input (endIndex x)) as [a|]; [|reflexivity].
    apply negb_true_iff in H. rewrite H. reflexivity.
  - simpl. apply IH1. exact H.
  - simpl. apply andb_prop in H. destruct H as [H1 H2].
    rewrite IH1 by exact H1. apply IH2. exact H2.
  - simpl. rewrite Nat.add_1_r, repeat_matcher_S.
    assert (H' : (0 <? min) = true /\
                 blocked ignoreCase r1 (nth_error input (endIndex x)) = true).
    { destruct max as [[|k]|]; try discriminate; apply andb_prop in H; exact H. }
    destruct H' as [Hmin Hb]. apply Nat.ltb_lt in Hmin.
    assert (Hz : (min =? 0) = false) by (apply Nat.eqb_neq; lia).
    assert (Hm : forall d, matcher input ignoreCase r1 (clear_captures (parens r1) x) d = None).
    { intros d. apply IH1. rewrite endIndex_clear_captures. exact Hb. }
    destruct max as [[|k]|]; try discriminate; cbv zeta; rewrite Hz; simpl negb;
      cbv iota; apply Hm.
  - simpl. apply IH1. exact H.
Qed.

Lemma blocked_match_at re i :
  flag_i re = ignoreCase ->
  blocked ignoreCase (pattern re) (nth_error input i) = true ->
  match_at re input i = None.
Proof.
  intros E H. unfold match_at. rewrite E.
  rewrite blocked_sound; [reflexivity | exact H].
Qed.

End Blocked.

Section NoMatch.

Lemma search_none re input n : forall i,
  (forall j, match_at re input j = None) -> search re input n i = None.
Proof.
  induction n as [|n IH]; intros i H; simpl; [reflexivity|].
  rewrite H. apply IH. exact H.
Qed.

Lemma exec_none re input lastIndex :
  (forall j, match_at re input j = None) -> exec re input lastIndex = (None, 0).
Proof.
  intros H. unfold exec. destruct (length input <? lastIndex); [reflexivity|].
  rewrite search_none by exact H. reflexivity.
Qed.

Lemma replace_none re input :
  (forall j, match_at re input j = None) -> replace_all_empty re input = input.
Proof.
  intros H. unfold replace_all_empty, matchAll. simpl.
  rewrite exec_none by exact H. reflexivity.
Qed.

Lemma scan_tags_none content budget st c :
  exec TAG_REGEX content (regexLastIndex st) = (None, 0) ->
  scan_tags content budget st c = (Returns st, c).
Proof. intros H. destruct budget; simpl; rewrite H; reflexivity. Qed.

(** No match anywhere in a buffer whose code units all block the
    pattern, the end of the buffer included. *)
Lemma blocked_everywhere re input :
  Forall (fun a => blocked (flag_i re) (pattern re) (Some a) = true) input ->
  blocked (flag_i re) (pattern re) None = true ->
  forall j, match_at re input j = None.
Proof.
  intros Hall Hend j. apply blocked_match_at with (ignoreCase := flag_i re);
    [reflexivity|].
  destruct (nth_error input j) as [a|] eqn:E; [|exact Hend].
  apply nth_error_In in E. rewrite List.Forall_forall in Hall. apply Hall. exact E.
Qed.

Lemma trimStart_id (s : str) :
  match s with a :: _ => is_space a = false | [] => True end -> trimStart s = s.
Proof. destruct s as [|a s]; simpl; [reflexivity|]. intros ->. reflexivity. Qed.

Lemma trim_id (s : str) :
  Forall (fun a => is_space a = false) s -> trim s = s.
Proof.
  intros H. unfold trim, trimEnd.
  rewrite (trimStart_id s) by (destruct H; auto).
  rewrite trimStart_id; [apply rev_involutive|].
  apply List.Forall_rev in H. destruct H; auto.
Qed.

Lemma plain_parts (a : char) :
  plain a = true ->
  blocked false (pattern TAG_REGEX) (Some a) = true
  /\ blocked true (pattern TOOL_HEADER_REGEX) (Some a) = true
  /\ blocked false (pattern RAW_JSON_REGEX) (Some a) = true
  /\ blocked true (pattern EMPTY_FENCE_REGEX) (Some a) = true
  /\ is_space a = false.
Proof.
  unfold plain. rewrite !andb_true_iff, negb_true_iff. tauto.
Qed.

Lemma clean_text_plain (s : str) :
  Forall (fun a => plain a = true) s -> clean_text s = s.
Proof.
  intros H. unfold clean_text.
  rewrite (replace_none TOOL_HEADER_REGEX).
  2:{ apply blocked_everywhere; [|reflexivity].
      eapply List.Forall_impl; [|exact H]. intros a Ha. pose proof (plain_parts a Ha); tauto. }
  rewrite (replace_none RAW_JSON_REGEX).
  2:{ apply blocked_everywhere; [|reflexivity].
      eapply List.Forall_impl; [|exact H]. intros a Ha. pose proof (plain_parts a Ha); tauto. }
  rewrite (replace_none EMPTY_FENCE_REGEX).
  2:{ apply blocked_everywhere; [|reflexivity].
      eapply List.Forall_impl; [|exact H]. intros a Ha. pose proof (plain_parts a Ha); tauto. }
  apply trim_id. eapply List.Forall_impl; [|exact H].
  intros a Ha. pose proof (plain_parts a Ha); tauto.
Qed.

(** A buffer of plain code units comes back as one text part holding
    the capped buffer: nothing is removed and nothing is added. *)
Lemma parse_plain (content : str) :
  capped content <> [] ->
  Forall (fun a => plain a = true) (capped content) ->
  parse content = Returns [mkPart Text (capped content) None].
Proof.
  intros Hne H. unfold parse, parseMessageContent.
  assert (Hsp : Forall (fun a => is_space a = false) (capped content)).
  { eapply List.Forall_impl; [|exact H]. intros a Ha. pose proof (plain_parts a Ha); tauto. }
  assert (Hb : blank content = false).
  { unfold capped, substring0 in *. destruct content as [|a l].
    - rewrite firstn_nil in Hne. congruence.
    - destruct MAX_CONTENT_LENGTH as [|k]; [simpl in Hne; congruence|].
      simpl in Hsp. inversion Hsp as [|? ? Ha _]; subst.
      unfold blank. simpl. rewrite Ha. reflexivity. }
  rewrite guard_is_blank, Hb. unfold parse_body. rewrite capped_eq.
  unfold bind. rewrite scan_tags_none.
  2:{ apply exec_none. apply blocked_everywhere; [|reflexivity].
      eapply List.Forall_impl; [|exact H]. intros a Ha. pose proof (plain_parts a Ha); tauto. }
  simpl. unfold slice_from, push_text. simpl skipn.
  rewrite (trim_id _ Hsp).
  destruct (capped content) as [|a l] eqn:E; [congruence|]. simpl.
  unfold keep_part, clean_part. simpl. rewrite <- E in *.
  rewrite clean_text_plain by exact H. rewrite E. reflexivity.
Qed.

End NoMatch.

(* ===================================================================== *)
(** ** Theorems on the length cap *)
(* ===================================================================== *)

Section CapFacts.

Lemma firstn_repeat_le {A} (a : A) n : forall m,
  n <= m -> firstn n (repeat a m) = repeat a n.
Proof.
  induction n as [|n IH]; intros m H; [reflexivity|].
  destruct m as [|m]; [lia|]. simpl. rewrite IH by lia. reflexivity.
Qed.

Lemma startsWith_repeat_false (a b : char) p n :
  N.eqb b a = false -> startsWith (repeat a n) (b :: p) = false.
Proof. intros H. destruct n; simpl; [reflexivity|]. rewrite H. reflexivity. Qed.

Lemma includes_repeat_false (a b : char) p n :
  N.eqb b a = false -> includes (repeat a n) (b :: p) = false.
Proof.
  intros H. induction n as [|n IH]; [reflexivity|].
  change (repeat a (S n)) with (a :: repeat a n).
  change (includes (a :: repeat a n) (b :: p))
    with (startsWith (repeat a (S n)) (b :: p) || includes (repeat a n) (b :: p)).
  rewrite startsWith_repeat_false by exact H. exact IH.
Qed.

Lemma caps_positive : 0 < MAX_CONTENT_LENGTH /\ MAX_CONTENT_LENGTH <= Consumer.MAX_RESPONSE_LENGTH.
Proof.
  split; [apply Nat.ltb_lt | apply Nat.leb_le]; vm_compute; reflexivity.
Qed.

Lemma capped_idempotent content : capped (capped content) = capped content.
Proof.
  unfold capped, substring0. rewrite firstn_firstn, Nat.min_id. reflexivity.
Qed.

Lemma parse_body_capped content c : parse_body content c = parse_body (capped content) c.
Proof.
  unfold parse_body. rewrite !capped_eq, capped_idempotent. reflexivity.
Qed.

Lemma parse_repeat_plain (a : char) n content :
  plain a = true -> capped content = repeat a (S n) ->
  parse content = Returns [mkPart Text (repeat a (S n)) None].
Proof.
  intros Ha Hc. rewrite <- Hc. apply parse_plain.
  - rewrite Hc. discriminate.
  - rewrite Hc. apply List.Forall_forall. intros x Hx.
    apply repeat_spec in Hx. subst x. exact Ha.
Qed.

End CapFacts.

(** C7, on the code.  The tokenizer cuts a buffer longer than
    MAX_CONTENT_LENGTH down to its first MAX_CONTENT_LENGTH code units
    and then works on the cut buffer alone: its result is that of the cut
    buffer, with nothing to show the cut.  On a buffer of
    MAX_CONTENT_LENGTH + 1 letters the result is one text part of
    MAX_CONTENT_LENGTH letters.  The marker that handleSubmit appends at
    its own, larger cap lies beyond MAX_CONTENT_LENGTH and is cut off as
    well. *)
Theorem cap_leaves_no_marker :
  let a := ch "a" in
  let buffer := repeat a (S MAX_CONTENT_LENGTH) in
  let response := fst (Consumer.cap_response (repeat a (S Consumer.MAX_RESPONSE_LENGTH))) in
  MAX_CONTENT_LENGTH < length buffer
  /\ parse buffer = Returns [mkPart Text (repeat a MAX_CONTENT_LENGTH) None]
  /\ includes (repeat a MAX_CONTENT_LENGTH) Consumer.TRUNCATION_MARKER = false
  /\ (forall content c, parse_body content c = parse_body (capped content) c)
  /\ response = repeat a Consumer.MAX_RESPONSE_LENGTH ++ Consumer.TRUNCATION_MARKER
  /\ parse response = Returns [mkPart Text (repeat a MAX_CONTENT_LENGTH) None].
Proof.
  cbv zeta. destruct caps_positive as [Hpos Hle].
  destruct MAX_CONTENT_LENGTH as [|k] eqn:Ek; [lia|].
  assert (Hplain : plain (ch "a") = true) by (vm_compute; reflexivity).
  assert (Hresp : fst (Consumer.cap_response (repeat (ch "a") (S Consumer.MAX_RESPONSE_LENGTH)))
                  = repeat (ch "a") Consumer.MAX_RESPONSE_LENGTH ++ Consumer.TRUNCATION_MARKER).
  { unfold Consumer.cap_response. rewrite repeat_length.
    replace (Consumer.MAX_RESPONSE_LENGTH <? S Consumer.MAX_RESPONSE_LENGTH) with true
      by (symmetry; apply Nat.ltb_lt; lia).
    cbn [fst]. unfold substring0. rewrite firstn_repeat_le by lia. reflexivity. }
  refine (conj _ (conj _ (conj _ (conj _ (conj _ _))))).
  - rewrite repeat_length. lia.
  - apply parse_repeat_plain; [exact Hplain|].
    unfold capped, substring0. rewrite Ek. apply firstn_repeat_le. lia.
  - apply includes_repeat_false. reflexivity.
  - apply parse_body_capped.
  - exact Hresp.
  - rewrite Hresp. apply parse_repeat_plain; [exact Hplain|].
    unfold capped, substring0. rewrite Ek, firstn_app, repeat_length.
    replace (S k - Consumer.MAX_RESPONSE_LENGTH) with 0 by lia.
    rewrite firstn_O, app_nil_r. apply firstn_repeat_le. lia.
Qed.

(* ===================================================================== *)
(** ** Stepping the matcher through an input *)
(* ===================================================================== *)

Section Stepping.

Variable input : str.

Lemma matcher_Seq ic r1 r2 x c :
  matcher input ic (Seq r1 r2) x c = matcher input ic r1 x (fun y => matcher input ic r2 y c).
Proof. reflexivity. Qed.

Lemma matcher_Empty ic x c : matcher input ic Empty x c = c x.
Proof. reflexivity. Qed.

Lemma matcher_Alt ic r1 r2 x c :
  matcher input ic (Alt r1 r2) x c =
  match matcher input ic r1 x c with
  | Some z => Some z
  | None => matcher input ic r2 x c
  end.
Proof. reflexivity. Qed.

Lemma matcher_Group ic k r x c :
  matcher input ic (Group k r) x c =
  matcher input ic r x (fun y => c (set_capture k (Some (endIndex x, endIndex y)) y)).
Proof. reflexivity. Qed.

Lemma matcher_NotAhead ic r x c :
  matcher input ic (NotAhead r) x c =
  match matcher input ic r x (fun y => Some y) with
  | Some _ => None
  | None => c x
  end.
Proof. reflexivity. Qed.

Lemma matcher_EndAnchor ic x c :
  matcher input ic EndAnchor x c = if endIndex x =? length input then c x else None.
Proof. reflexivity. Qed.

Lemma matcher_star ic greedy r x c :
  matcher input ic (Repeat 0 None greedy r) x c =
  repeat_matcher (matcher input ic r) (parens r) greedy
    (S (length input - endIndex x)) 0 None x c.
Proof. cbn [matcher]. rewrite Nat.add_1_r. reflexivity. Qed.

Lemma nth_error_skipn_nil (e : nat) : skipn e input = [] -> nth_error input e = None.
Proof.
  intros H. apply nth_error_None.
  assert (L : length (skipn e input) = 0) by (rewrite H; reflexivity).
  rewrite length_skipn in L. lia.
Qed.

Lemma nth_error_skipn_cons (e : nat) a t :
  skipn e input = a :: t -> nth_error input e = Some a.
Proof.
  intros H. rewrite <- (firstn_skipn e input) at 1.
  assert (L : e <= length input).
  { destruct (le_lt_dec e (length input)) as [L|G]; [exact L|].
    rewrite skipn_all2 in H by lia. discriminate. }
  rewrite nth_error_app2 by (rewrite length_firstn; lia).
  rewrite length_firstn, Nat.min_l by exact L. rewrite Nat.sub_diag, H. reflexivity.
Qed.

Lemma skipn_next (e : nat) a t : skipn e input = a :: t -> skipn (e + 1) input = t.
Proof.
  intros H. rewrite Nat.add_comm. rewrite <- skipn_skipn. rewrite H. reflexivity.
Qed.

Lemma skipn_more (e k : nat) w t :
  skipn e input = w ++ t -> length w = k -> skipn (e + k) input = t.
Proof.
  intros H <-. rewrite Nat.add_comm, <- skipn_skipn, H.
  rewrite skipn_app, skipn_all, Nat.sub_diag. reflexivity.
Qed.

Lemma skipn_prefix (pre t : str) k : length pre = k -> skipn k (pre ++ t) = t.
Proof. intros <-. rewrite skipn_app, skipn_all, Nat.sub_diag. reflexivity. Qed.

Lemma skipn_length_le (e : nat) a t : skipn e input = a :: t -> e < length input.
Proof.
  intros H. apply nth_error_skipn_cons in H. apply nth_error_Some. congruence.
Qed.

(** One character of a class *)
Lemma chars_step cs e caps a t c :
  skipn e input = a :: t -> charset_mem false cs a = true ->
  matcher input false (Chars cs) (mkState e caps) c = c (mkState (e + 1) caps).
Proof.
  intros H Ha. simpl. rewrite (nth_error_skipn_cons _ _ _ H), Ha. reflexivity.
Qed.

Lemma chars_stop cs e caps c :
  match skipn e input with
  | [] => True
  | a :: _ => charset_mem false cs a = false
  end ->
  matcher input false (Chars cs) (mkState e caps) c = None.
Proof.
  intros H. simpl. destruct (skipn e input) as [|a t] eqn:E.
  - rewrite (nth_error_skipn_nil _ E). reflexivity.
  - rewrite (nth_error_skipn_cons _ _ _ E), H. reflexivity.
Qed.

Lemma one_mem (a b : char) : charset_mem false (mkSet [(a, a)] false) b = N.eqb a b.
Proof.
  unfold charset_mem, canon, in_ranges. simpl.
  destruct (N.eqb_spec a b) as [->|Hne].
  - rewrite N.leb_refl. reflexivity.
  - destruct (N.leb_spec a b), (N.leb_spec b a); simpl; try reflexivity. lia.
Qed.

(** A literal that is there *)
Lemma lit_step w : forall e caps t c,
  skipn e input = w ++ t ->
  matcher input false (chars_of w) (mkState e caps) c = c (mkState (e + length w) caps).
Proof.
  induction w as [|a w IH]; intros e caps t c H.
  - simpl. rewrite Nat.add_0_r. reflexivity.
  - change (chars_of (a :: w)) with (Seq (one a) (chars_of w)).
    change (matcher input false (Seq (one a) (chars_of w)) (mkState e caps) c)
      with (matcher input false (one a) (mkState e caps)
              (fun y => matcher input false (chars_of w) y c)).
    unfold one. rewrite (chars_step _ _ _ a (w ++ t)); [|exact H|].
    2:{ rewrite one_mem. apply N.eqb_refl. }
    rewrite (IH _ _ t); [|apply (skipn_next _ a); exact H].
    simpl length. f_equal. f_equal. lia.
Qed.

(** A literal that is not there *)
Lemma lit_fail w : forall e caps c,
  startsWith (skipn e input) w = false ->
  matcher input false (chars_of w) (mkState e caps) c = None.
Proof.
  induction w as [|a w IH]; intros e caps c H.
  - destruct (skipn e input); discriminate.
  - change (chars_of (a :: w)) with (Seq (one a) (chars_of w)).
    change (matcher input false (Seq (one a) (chars_of w)) (mkState e caps) c)
      with (matcher input false (one a) (mkState e caps)
              (fun y => matcher input false (chars_of w) y c)).
    destruct (skipn e input) as [|b t] eqn:E.
    + apply chars_stop. rewrite E. exact I.
    + simpl in H. destruct (N.eqb a b) eqn:Eab.
      * unfold one. rewrite (chars_step _ _ _ b t); [|exact E|rewrite one_mem; exact Eab].
        apply IH. rewrite (skipn_next _ _ _ E). exact H.
      * apply chars_stop. rewrite E. rewrite one_mem. exact Eab.
Qed.

(** A back reference to a group that holds [w], where [w] is not next. *)
Lemma backref_ok_false n : forall at_ from,
  length (firstn n (skipn from input)) = n ->
  startsWith (skipn at_ input) (firstn n (skipn from input)) = false ->
  backref_ok false input at_ from n = false.
Proof.
  induction n as [|n IH]; intros at_ from L H.
  - simpl in H. destruct (skipn at_ input); discriminate.
  - simpl. destruct (skipn from input) as [|a t] eqn:Ef; [discriminate L|].
    rewrite (nth_error_skipn_cons _ _ _ Ef).
    destruct (skipn at_ input) as [|b u] eqn:Ea.
    + rewrite (nth_error_skipn_nil _ Ea). reflexivity.
    + rewrite (nth_error_skipn_cons _ _ _ Ea). simpl in H. simpl in L.
      unfold canon. simpl. destruct (N.eqb a b); [|reflexivity]. simpl in *.
      apply IH.
      * replace (S from) with (from + 1) by lia. rewrite (skipn_next _ _ _ Ef). lia.
      * replace (S from) with (from + 1) by lia. replace (S at_) with (at_ + 1) by lia.
        rewrite (skipn_next _ _ _ Ef), (skipn_next _ _ _ Ea). exact H.
Qed.

Lemma backref_fail k s n e caps c :
  nth (k - 1) caps None = Some (s, s + n) ->
  length (firstn n (skipn s input)) = n ->
  startsWith (skipn e input) (firstn n (skipn s input)) = false ->
  matcher input false (Backref k) (mkState e caps) c = None.
Proof.
  intros Hc L H. simpl. unfold get_capture. simpl. rewrite Hc.
  replace (s + n - s) with n by lia.
  rewrite backref_ok_false; [reflexivity | exact L | exact H].
Qed.

(** A greedy star over a class takes the whole run when the rest of the
    pattern accepts it there. *)
Lemma greedy_run cs run : forall e rest caps fuel k z,
  skipn e input = run ++ rest ->
  Forall (fun a => charset_mem false cs a = true) run ->
  match rest with
  | [] => True
  | a :: _ => charset_mem false cs a = false
  end ->
  length run < fuel ->
  k (mkState (e + length run) caps) = Some z ->
  repeat_matcher (matcher input false (Chars cs)) [] true fuel 0 None (mkState e caps) k
  = Some z.
Proof.
  induction run as [|a run IH]; intros e rest caps fuel k z H Hrun Hrest Hf Hk;
    (destruct fuel as [|fuel]; [simpl in Hf; lia|]); rewrite repeat_matcher_S;
    cbv zeta; simpl negb; cbv iota; simpl clear_captures.
  - simpl in H. rewrite chars_stop by (rewrite H; exact Hrest).
    simpl in Hk. rewrite Nat.add_0_r in Hk. exact Hk.
  - simpl in H. inversion Hrun as [|? ? Ha Hrun']; subst.
    rewrite (chars_step _ _ _ a (run ++ rest)) by assumption.
    simpl endIndex. replace (e + 1 =? e) with false by (symmetry; apply Nat.eqb_neq; lia).
    simpl andb. cbv iota. simpl option_map. simpl Nat.sub.
    rewrite (IH (e + 1) rest caps fuel k z); try assumption; try reflexivity.
    + apply (skipn_next _ a). exact H.
    + simpl in Hf. lia.
    + rewrite <- Hk. f_equal. f_equal. simpl. lia.
Qed.

(** The optional atom that cannot start is skipped. *)
Lemma opt_skip r x c :
  (forall d, matcher input false r (clear_captures (parens r) x) d = None) ->
  matcher input false (opt r) x c = c x.
Proof.
  intros H. unfold opt. simpl. rewrite Nat.add_1_r, repeat_matcher_S.
  cbv zeta. simpl negb. cbv iota. rewrite H. reflexivity.
Qed.

(** The optional atom that matches a non-empty piece is taken. *)
Lemma opt_take r x c z :
  endIndex x < length input ->
  matcher input false r (clear_captures (parens r) x)
    (fun y => if endIndex y =? endIndex x then None else c y) = Some z ->
  matcher input false (opt r) x c = Some z.
Proof.
  intros L H. unfold opt. simpl. rewrite Nat.add_1_r, repeat_matcher_S.
  cbv zeta. simpl negb. cbv iota.
  destruct (length input - endIndex x) as [|f] eqn:F; [lia|].
  match goal with
  | |- match matcher _ _ _ _ ?d with _ => _ end = _ =>
      replace d with (fun y : MatchState => if endIndex y =? endIndex x then None else c y)
  end.
  - rewrite H. reflexivity.
  - reflexivity.
Qed.

End Stepping.

Section UnclosedTag.

Variable input : str.
Variable name : str.
Variable o : nat.

(** The tag opens at index [o]: group 1 holds [name], which stands right
    after the opening "<". *)
Hypothesis Hname : firstn (length name) (skipn (o + 1) input) = name.

Lemma not_lt_mem a : charset_mem false NOT_LT a = negb (N.eqb a 60).
Proof.
  unfold NOT_LT, only. change (ch "<") with 60%N.
  unfold charset_mem. cbn [negated ranges canon andb].
  change (in_ranges [(60%N, 60%N)] a) with (((60 <=? a)%N && (a <=? 60)%N) || false).
  rewrite orb_false_r.
  destruct (N.eqb_spec a 60) as [->|Hne]; [reflexivity|].
  destruct (N.leb_spec 60 a), (N.leb_spec a 60); simpl; try reflexivity. lia.
Qed.

Lemma name_length : length (firstn (length name) (skipn (o + 1) input)) = length name.
Proof. rewrite Hname. reflexivity. Qed.

Lemma backref_name_fail e caps c :
  nth 0 caps None = Some (o + 1, o + 1 + length name) ->
  startsWith (skipn e input) name = false ->
  matcher input false (Backref 1) (mkState e caps) c = None.
Proof.
  intros Hc H. apply (backref_fail input 1 (o + 1) (length name)).
  - exact Hc.
  - exact name_length.
  - rewrite Hname. exact H.
Qed.

Lemma opt_unfold r x c :
  matcher input false (opt r) x c =
  match matcher input false r (clear_captures (parens r) x)
          (fun y => if endIndex y =? endIndex x then None
                    else match length input - endIndex x with
                         | 0 => None
                         | S _ => c y
                         end) with
  | Some z => Some z
  | None => c x
  end.
Proof.
  unfold opt. cbn [matcher]. rewrite Nat.add_1_r, repeat_matcher_S.
  cbv zeta. cbn [Nat.eqb negb andb option_map Nat.sub].
  destruct (length input - endIndex x); reflexivity.
Qed.

(** The look-ahead (?![\/]?\1) lets the scan go on where neither the
    name nor "/" and the name follows. *)
Lemma lookahead_passes e t caps c :
  nth 0 caps None = Some (o + 1, o + 1 + length name) ->
  skipn e input = t ->
  startsWith t name = false ->
  startsWith t (47%N :: name) = false ->
  matcher input false (NotAhead LOOKAHEAD) (mkState e caps) c = c (mkState e caps).
Proof.
  intros Hc Ht H1 H2. rewrite matcher_NotAhead.
  assert (E : matcher input false LOOKAHEAD (mkState e caps) (fun y => Some y) = None).
  { unfold LOOKAHEAD, seq. cbn [fold_right]. rewrite matcher_Seq, opt_unfold.
    unfold cls. cbn [parens clear_captures fold_left endIndex]. cbv beta.
    rewrite (matcher_Seq input false (Backref 1)).
    rewrite (backref_name_fail e caps) by (try assumption; rewrite Ht; exact H1).
    destruct t as [|a t'].
    - rewrite chars_stop; [reflexivity|]. rewrite Ht. exact I.
    - destruct (N.eqb a 47) eqn:Ea.
      + apply N.eqb_eq in Ea. subst a.
        rewrite (chars_step input _ e caps 47%N t'); [|exact Ht|reflexivity].
        cbn [endIndex]. replace (e + 1 =? e) with false
          by (symmetry; apply Nat.eqb_neq; lia).
        destruct (length input - e); [reflexivity|].
        rewrite matcher_Seq.
        rewrite backref_name_fail; [reflexivity | exact Hc|].
        rewrite (skipn_next input e _ _ Ht). simpl in H2. exact H2.
      + rewrite chars_stop; [reflexivity|]. rewrite Ht.
        unfold only. rewrite one_mem. change (ch "/") with 47%N.
        rewrite N.eqb_sym. exact Ea. }
  rewrite E. reflexivity.
Qed.

Lemma split_at_lt (t : str) :
  exists run rest, t = run ++ rest
    /\ Forall (fun a => charset_mem false NOT_LT a = true) run
    /\ (rest = [] \/ exists r, rest = 60%N :: r).
Proof.
  induction t as [|a t [run [rest [E [F R]]]]].
  - exists [], []. repeat split; auto.
  - destruct (N.eqb a 60) eqn:Ea.
    + apply N.eqb_eq in Ea. subst a. exists [], (60%N :: t).
      repeat split; eauto.
    + exists (a :: run), rest. subst t. repeat split; auto.
      constructor; [|exact F]. rewrite not_lt_mem, Ea. reflexivity.
Qed.

Lemma free_of_app run rest : free_of name (run ++ rest) = true -> free_of name rest = true.
Proof.
  induction run as [|a run IH]; simpl; [auto|].
  intros H. apply andb_prop in H. destruct H as [_ H]. apply IH. exact H.
Qed.

Lemma free_of_lt t :
  free_of name (60%N :: t) = true ->
  startsWith t name = false /\ startsWith t (47%N :: name) = false
  /\ free_of name t = true.
Proof.
  simpl. intros H. apply andb_prop in H. destruct H as [H1 H2].
  apply negb_true_iff in H1. apply orb_false_elim in H1. tauto.
Qed.

(** The lazy loop (?:<(?![\/]?\1)[^<]* )*? runs to the end of the input
    when the continuation refuses every "<" on the way and accepts the
    end. *)
Lemma lazy_loop_to_end (K : Continuation) z :
  K (mkState (length input) (caps1 o name)) = Some z ->
  (forall e t, skipn e input = 60%N :: t ->
               startsWith t (47%N :: name) = false ->
               K (mkState e (caps1 o name)) = None) ->
  forall n t e fuel,
    length t <= n ->
    skipn e input = t -> e + length t = length input ->
    (t = [] \/ exists t', t = 60%N :: t') ->
    free_of name t = true ->
    length t < fuel ->
    repeat_matcher (matcher input false LOOP) [] false fuel 0 None (mkState e (caps1 o name)) K
    = Some z.
Proof.
  intros Hend HK. induction n as [|n IH]; intros t e fuel Hn Ht He Hshape Hfree Hfuel;
    (destruct fuel as [|fuel]; [len_lia|]); rewrite repeat_matcher_S;
    cbv zeta; cbn [Nat.eqb negb andb option_map Nat.sub clear_captures fold_left].
  - destruct t; [|simpl in Hn; lia]. simpl in He. rewrite Nat.add_0_r in He. subst e.
    rewrite Hend. reflexivity.
  - destruct Hshape as [->|[t' ->]].
    + simpl in He. rewrite Nat.add_0_r in He. subst e. rewrite Hend. reflexivity.
    + destruct (free_of_lt _ Hfree) as [F1 [F2 F3]].
      rewrite (HK e t' Ht F2).
      unfold LOOP, seq. cbn [fold_right]. rewrite matcher_Seq.
      change (lit "<") with (chars_of (js "<")).
      rewrite (lit_step input (js "<") e (caps1 o name) t') by exact Ht.
      change (length (js "<")) with 1.
      rewrite matcher_Seq.
      rewrite (lookahead_passes (e + 1) t' (caps1 o name)); try assumption; try reflexivity.
      2:{ apply (skipn_next input e 60%N). exact Ht. }
      destruct (split_at_lt t') as [run [rest [E [Frun Hrest]]]].
      rewrite matcher_Seq. unfold star, ncls. rewrite matcher_star.
      cbn [parens endIndex].
      apply (greedy_run input _ run (e + 1) rest).
      * rewrite <- E. apply (skipn_next input e 60%N). exact Ht.
      * exact Frun.
      * destruct Hrest as [->|[r ->]]; [exact I|]. rewrite not_lt_mem. reflexivity.
      * cbn [endIndex]. assert (length run <= length t') by (rewrite E, length_app; len_lia).
        simpl in He. len_lia.
      * rewrite matcher_Empty. cbn [endIndex].
        replace (e + 1 + length run =? e) with false
          by (symmetry; apply Nat.eqb_neq; len_lia).
        apply (IH rest).
        -- simpl in Hn. assert (length rest <= length t') by (rewrite E, length_app; len_lia). len_lia.
        -- apply (skipn_more input (e + 1) (length run) run rest); [|reflexivity].
           rewrite <- E. apply (skipn_next input e 60%N). exact Ht.
        -- simpl in He. rewrite E, length_app in He. len_lia.
        -- exact Hrest.
        -- rewrite E in F3. apply free_of_app in F3. exact F3.
        -- simpl in Hfuel. assert (length rest <= length t') by (rewrite E, length_app; len_lia). len_lia.
Qed.


(** The input is [pre], then "<", the name, ">" and the text [s]. *)
Variable pre s : str.
Hypothesis Hpre : length pre = o.
Hypothesis Hinput : input = pre ++ 60%N :: name ++ 62%N :: s.

Lemma input_length : length input = (body_start o name) + length s.
Proof.
  rewrite Hinput. unfold body_start. rewrite length_app. simpl.
  rewrite length_app. simpl. len_lia.
Qed.

Lemma input_split (t : str) :
  pre ++ 60%N :: name ++ 62%N :: t = (pre ++ 60%N :: name) ++ 62%N :: t.
Proof. rewrite <- app_assoc. reflexivity. Qed.

Lemma skipn_gt : skipn (o + 1 + length name) input = 62%N :: s.
Proof.
  rewrite Hinput, input_split. apply skipn_prefix.
  rewrite length_app. simpl. len_lia.
Qed.

Lemma skipn_body : skipn (body_start o name) input = s.
Proof.
  unfold body_start. replace (o + length name + 2) with (o + 1 + length name + 1) by lia.
  apply (skipn_next input _ 62%N). exact skipn_gt.
Qed.

Lemma after_body_at_end c :
  after_body input o name c (mkState (length input) (caps1 o name)) = c (mkState (length input) (caps3 input o name)).
Proof.
  unfold after_body, seq. cbn [fold_right]. rewrite matcher_Seq, matcher_Alt.
  unfold CLOSE, seq. cbn [fold_right]. rewrite matcher_Seq.
  change (lit "</") with (chars_of (js "</")).
  unfold set_capture. cbn [endIndex captures caps1 set_nth Nat.sub].
  rewrite lit_fail by (rewrite skipn_all; reflexivity).
  rewrite matcher_EndAnchor. cbn [endIndex]. rewrite Nat.eqb_refl.
  rewrite matcher_Empty. reflexivity.
Qed.

Lemma after_body_at_lt c e t :
  skipn e input = 60%N :: t ->
  startsWith t (47%N :: name) = false ->
  after_body input o name c (mkState e (caps1 o name)) = None.
Proof.
  intros Ht H. unfold after_body, seq. cbn [fold_right].
  rewrite matcher_Seq, matcher_Alt.
  unfold set_capture. cbn [endIndex captures caps1 set_nth Nat.sub].
  assert (Hclose : forall k, matcher input false CLOSE
            (mkState e [Some (o + 1, o + 1 + length name); None; Some ((body_start o name), e); None; None]) k
            = None).
  { intros k. unfold CLOSE, seq. cbn [fold_right]. rewrite matcher_Seq.
    change (lit "</") with (chars_of (js "</")).
    destruct t as [|a t'].
    - apply lit_fail. rewrite Ht. reflexivity.
    - destruct (N.eqb a 47) eqn:Ea.
      + apply N.eqb_eq in Ea. subst a.
        rewrite (lit_step input (js "</") e _ t') by exact Ht.
        change (length (js "</")) with 2.
        rewrite matcher_Seq. apply backref_name_fail; [reflexivity|].
        rewrite (skipn_more input e 2 (js "</") t' Ht eq_refl).
        simpl in H. exact H.
      + apply lit_fail. rewrite Ht.
        change (startsWith (60%N :: a :: t') (js "</"))
          with (N.eqb 60 60 && (N.eqb 47 a && startsWith t' [])).
        rewrite (N.eqb_sym 47 a), Ea. reflexivity. }
  rewrite Hclose. rewrite matcher_EndAnchor. cbn [endIndex].
  apply (skipn_length_le input) in Ht.
  replace (e =? length input) with false by (symmetry; apply Nat.eqb_neq; len_lia).
  reflexivity.
Qed.

(** The inner text of the tag: everything up to the end of the input. *)
Lemma body_to_end c z :
  free_of name s = true ->
  c (mkState (length input) (caps3 input o name)) = Some z ->
  matcher input false BODY (mkState (body_start o name) (caps1 o name)) c = Some z.
Proof.
  intros Hfree Hc. unfold BODY, seq. cbn [fold_right].
  rewrite matcher_Seq, matcher_Group, matcher_Seq.
  unfold star, ncls. rewrite matcher_star. cbn [parens endIndex].
  destruct (split_at_lt s) as [run [rest [E [Frun Hrest]]]].
  assert (Hlen : length s = length run + length rest) by (rewrite E; apply length_app).
  pose proof input_length as HL.
  apply (greedy_run input _ run (body_start o name) rest).
  - rewrite skipn_body. exact E.
  - exact Frun.
  - destruct Hrest as [->|[r ->]]; [exact I|]. rewrite not_lt_mem. reflexivity.
  - len_lia.
  - rewrite matcher_Seq. unfold star_lazy. rewrite matcher_star.
    change (parens LOOP) with (@nil nat). cbn [endIndex].
    apply (lazy_loop_to_end _ z) with (n := length rest) (t := rest).
    + rewrite matcher_Empty. cbn [endIndex].
      change (matcher input false (Seq (Alt CLOSE EndAnchor) Empty)
                (set_capture 3 (Some ((body_start o name), length input))
                   (mkState (length input) (caps1 o name))) c)
        with (after_body input o name c (mkState (length input) (caps1 o name))).
      rewrite after_body_at_end. exact Hc.
    + intros e t Ht H. rewrite matcher_Empty. cbn [endIndex].
      change (matcher input false (Seq (Alt CLOSE EndAnchor) Empty)
                (set_capture 3 (Some ((body_start o name), e)) (mkState e (caps1 o name))) c)
        with (after_body input o name c (mkState e (caps1 o name))).
      apply (after_body_at_lt c e t Ht H).
    + len_lia.
    + apply (skipn_more input (body_start o name) (length run) run rest); [|reflexivity].
      rewrite skipn_body. exact E.
    + len_lia.
    + exact Hrest.
    + rewrite E in Hfree. apply free_of_app in Hfree. exact Hfree.
    + len_lia.
Qed.

(** From the end of the name to the end of the match. *)
Lemma rest_of_tag c z :
  s <> [] ->
  free_of name s = true ->
  c (mkState (length input) (caps3 input o name)) = Some z ->
  matcher input false (seq [ATTRS; lit ">"; opt BODY]) (mkState (o + 1 + length name) (caps1 o name)) c
  = Some z.
Proof.
  intros Hs Hfree Hc. unfold seq at 1. cbn [fold_right].
  rewrite matcher_Seq. unfold ATTRS. rewrite opt_skip.
  2:{ intros d. apply blocked_sound. rewrite endIndex_clear_captures. cbn [endIndex].
      rewrite (nth_error_skipn_cons input _ _ _ skipn_gt). reflexivity. }
  rewrite matcher_Seq. change (lit ">") with (chars_of (js ">")).
  rewrite (lit_step input (js ">") (o + 1 + length name) (caps1 o name) s) by exact skipn_gt.
  change (length (js ">")) with 1.
  replace (o + 1 + length name + 1) with (body_start o name) by (unfold body_start; len_lia).
  rewrite matcher_Seq.
  pose proof input_length as HL.
  apply opt_take.
  - cbn [endIndex]. destruct s; [congruence|]. simpl in HL. len_lia.
  - change (parens BODY) with [3].
    change (clear_captures [3] (mkState (body_start o name) (caps1 o name))) with (mkState (body_start o name) (caps1 o name)).
    apply body_to_end; [exact Hfree|]. cbn [endIndex].
    replace (length input =? (body_start o name)) with false.
    + rewrite matcher_Empty. exact Hc.
    + symmetry. apply Nat.eqb_neq. destruct s; [congruence|]. simpl in HL. len_lia.
Qed.

(** At the end of the input an optional atom has nothing to take. *)
Lemma opt_at_end r x c :
  endIndex x = length input -> matcher input false (opt r) x c = c x.
Proof.
  intros Hx. rewrite opt_unfold.
  match goal with
  | |- match ?e with _ => _ end = _ => destruct e as [z|] eqn:E; [|reflexivity]
  end.
  apply ranged_matcher in E. destruct E as [y [[H1 H2] E]].
  rewrite endIndex_clear_captures in H1, H2.
  replace (endIndex y =? endIndex x) with true in E; [discriminate|].
  symmetry. apply Nat.eqb_eq. lia.
Qed.

(** The same with no text after the tag: group 3 stays unset. *)
Lemma rest_of_tag_empty c z :
  s = [] ->
  c (mkState (length input) (caps1 o name)) = Some z ->
  matcher input false (seq [ATTRS; lit ">"; opt BODY]) (mkState (o + 1 + length name) (caps1 o name)) c
  = Some z.
Proof.
  intros Hs Hc. unfold seq at 1. cbn [fold_right].
  rewrite matcher_Seq. unfold ATTRS. rewrite opt_skip.
  2:{ intros d. apply blocked_sound. rewrite endIndex_clear_captures. cbn [endIndex].
      rewrite (nth_error_skipn_cons input _ _ _ skipn_gt). reflexivity. }
  rewrite matcher_Seq. change (lit ">") with (chars_of (js ">")).
  rewrite (lit_step input (js ">") (o + 1 + length name) (caps1 o name) s) by exact skipn_gt.
  change (length (js ">")) with 1.
  replace (o + 1 + length name + 1) with (body_start o name) by (unfold body_start; len_lia).
  rewrite matcher_Seq.
  pose proof input_length as HL. rewrite Hs in HL. simpl in HL. rewrite Nat.add_0_r in HL.
  rewrite opt_at_end by (cbn [endIndex]; len_lia).
  rewrite matcher_Empty, <- HL. exact Hc.
Qed.

End UnclosedTag.

Section UnclosedParse.

Lemma search_hit re input n i m :
  match_at re input i = Some m -> search re input (S n) i = Some m.
Proof. intros H. simpl. rewrite H. reflexivity. Qed.

Lemma exec_at_end re input :
  blocked (flag_i re) (pattern re) None = true ->
  exec re input (length input) = (None, 0).
Proof.
  intros H. unfold exec. rewrite Nat.ltb_irrefl, Nat.sub_diag. simpl search.
  rewrite (blocked_match_at input (flag_i re)); [reflexivity | reflexivity |].
  replace (nth_error input (length input)) with (@None char); [exact H|].
  symmetry. apply nth_error_None. lia.
Qed.

Lemma scan_tags_S content budget st c :
  scan_tags content (S budget) st c =
  match exec TAG_REGEX content (regexLastIndex st) with
  | (None, _) => ret st c
  | (Some m, next) =>
      if (index m =? lastIndex st) && (length (matched content m) =? 0) then
        scan_tags content budget (mkLoop (parts st) (S (lastIndex st)) next) c
      else
        bind (tag_parts content m)
          (fun new =>
             scan_tags content budget
               (mkLoop (push_text (parts st) (slice content (lastIndex st) (index m)) ++ new)
                  next next)) c
  end.
Proof.
  simpl. destruct (exec TAG_REGEX content (regexLastIndex st)) as [[m|] next];
    [|reflexivity].
  destruct ((index m =? lastIndex st) && (length (matched content m) =? 0)); reflexivity.
Qed.

Lemma search_skip re input k : forall j n,
  (forall i, j <= i < j + k -> match_at re input i = None) ->
  search re input (k + n) j = search re input n (j + k).
Proof.
  induction k as [|k IH]; intros j n H.
  - rewrite Nat.add_0_r. reflexivity.
  - simpl. rewrite H by lia. rewrite IH.
    + f_equal. lia.
    + intros i Hi. apply H. lia.
Qed.

Lemma not_includes_lt (pre : str) :
  includes pre (js "<") = false -> Forall (fun c => N.eqb 60 c = false) pre.
Proof.
  induction pre as [|c pre IH]; intros H; [constructor|].
  change (includes (c :: pre) (js "<"))
    with ((N.eqb 60 c && startsWith pre []) || includes pre (js "<")) in H.
  apply orb_false_elim in H. destruct H as [H1 H2].
  constructor; [|apply IH; exact H2].
  destruct pre; simpl in H1; rewrite andb_true_r in H1; exact H1.
Qed.

Lemma tag_blocked (c : char) :
  N.eqb 60 c = false -> blocked false (pattern TAG_REGEX) (Some c) = true.
Proof.
  intros H.
  change (blocked false (pattern TAG_REGEX) (Some c))
    with (negb (charset_mem false (mkSet [(60%N, 60%N)] false) c)
          && negb (charset_mem false (mkSet [(60%N, 60%N)] false) c)).
  rewrite one_mem, H. reflexivity.
Qed.

(** The match of an opening tag whose text runs to the end. *)
Lemma unclosed_match (pre name s : str) :
  name = js "thought" \/ name = js "think" ->
  free_of name s = true ->
  let input := pre ++ 60%N :: name ++ 62%N :: s in
  match_at TAG_REGEX input (length pre)
  = Some (mkMatch (length pre) (length input)
            match s with
            | [] => caps1 (length pre) name
            | _ :: _ => caps3 input (length pre) name
            end).
Proof.
  intros Hn Hfree input. set (o := length pre).
  assert (H0 : skipn o input = 60%N :: name ++ 62%N :: s)
    by (apply skipn_prefix; reflexivity).
  assert (H1 : skipn (o + 1) input = name ++ 62%N :: s)
    by (apply (skipn_next input o 60%N); exact H0).
  assert (Hname : firstn (length name) (skipn (o + 1) input) = name).
  { rewrite H1, firstn_app, firstn_all, Nat.sub_diag. apply app_nil_r. }
  assert (Hrest : matcher input false (seq [ATTRS; lit ">"; opt BODY])
                    (mkState (o + 1 + length name) (caps1 o name)) (fun y => Some y)
                  = Some (mkState (length input)
                            match s with
                            | [] => caps1 o name
                            | _ :: _ => caps3 input o name
                            end)).
  { assert (Hs : s = [] \/ s <> []) by (destruct s; [left|right]; congruence).
    destruct Hs as [Es|Hs].
    - rewrite Es.
      apply (rest_of_tag_empty input name o pre s eq_refl eq_refl);
        [exact Es | reflexivity].
    - replace (match s with [] => caps1 o name | _ :: _ => caps3 input o name end)
        with (caps3 input o name) by (destruct s; congruence).
      apply (rest_of_tag input name o Hname pre s eq_refl eq_refl);
        [exact Hs | exact Hfree | reflexivity]. }
  unfold match_at. cbn [pattern flag_i ngroups TAG_REGEX repeat].
  rewrite matcher_Alt. unfold seq at 1. cbn [fold_right].
  rewrite matcher_Seq. change (lit "<") with (chars_of (js "<")).
  rewrite (lit_step input (js "<") o _ (name ++ 62%N :: s)) by exact H0.
  change (length (js "<")) with 1.
  rewrite matcher_Seq, matcher_Group. unfold TAG_NAMES. cbn [alts]. rewrite matcher_Alt.
  destruct Hn as [Hn|Hn].
  - change (lit "thought") with (chars_of (js "thought")).
    rewrite (lit_step input (js "thought") _ _ (62%N :: s))
      by (rewrite H1, Hn; reflexivity).
    cbn [endIndex]. unfold set_capture. cbn [captures endIndex set_nth Nat.sub].
    match goal with
    | |- context [matcher ?i false (Seq ATTRS ?r) ?x ?c] =>
        change (matcher i false (Seq ATTRS r) x c)
          with (matcher input false (seq [ATTRS; lit ">"; opt BODY])
                  (mkState (o + 1 + length (js "thought")) (caps1 o (js "thought"))) c)
    end.
    rewrite <- Hn, Hrest. reflexivity.
  - change (lit "thought") with (chars_of (js "thought")).
    rewrite (lit_fail input (js "thought"))
      by (rewrite H1, Hn; reflexivity).
    rewrite matcher_Alt.
    change (lit "think") with (chars_of (js "think")).
    rewrite (lit_step input (js "think") _ _ (62%N :: s))
      by (rewrite H1, Hn; reflexivity).
    cbn [endIndex]. unfold set_capture. cbn [captures endIndex set_nth Nat.sub].
    match goal with
    | |- context [matcher ?i false (Seq ATTRS ?r) ?x ?c] =>
        change (matcher i false (Seq ATTRS r) x c)
          with (matcher input false (seq [ATTRS; lit ">"; opt BODY])
                  (mkState (o + 1 + length (js "think")) (caps1 o (js "think"))) c)
    end.
    rewrite <- Hn, Hrest. reflexivity.
Qed.

Lemma startsWith_true (p : str) : forall s, startsWith s p = true -> exists v, s = p ++ v.
Proof.
  induction p as [|x p IH]; intros s H.
  - exists s. reflexivity.
  - destruct s as [|y s]; [discriminate|]. simpl in H.
    apply andb_prop in H. destruct H as [E H]. apply N.eqb_eq in E. subst y.
    destruct (IH _ H) as [v ->]. exists v. reflexivity.
Qed.

Lemma startsWith_app (p v : str) : startsWith (p ++ v) p = true.
Proof.
  induction p as [|x p IH]; [destruct v; reflexivity|].
  simpl. rewrite N.eqb_refl. exact IH.
Qed.

Lemma endsWith_true (a b : str) : endsWith a b = true -> exists u, a = u ++ b.
Proof.
  unfold endsWith. intros H. apply startsWith_true in H. destruct H as [v H].
  exists (rev v). rewrite <- (rev_involutive a), H, rev_app_distr, rev_involutive.
  reflexivity.
Qed.

Lemma free_of_occurrence name (u r : str) :
  free_of name (u ++ 60%N :: 47%N :: name ++ r) = false.
Proof.
  induction u as [|a u IH].
  - simpl app. cbn [free_of]. rewrite N.eqb_refl.
    change (startsWith (47%N :: name ++ r) (47%N :: name))
      with (N.eqb 47 47 && startsWith (name ++ r) name).
    rewrite startsWith_app. simpl. rewrite orb_true_r. reflexivity.
  - simpl app. cbn [free_of]. rewrite IH. apply andb_false_r.
Qed.

(** The matched text of an unclosed tag does not end with the closing
    tag. *)
Lemma not_closed (name s : str) :
  name = js "thought" \/ name = js "think" ->
  free_of name s = true ->
  endsWith (60%N :: name ++ 62%N :: s) (js "</" ++ name ++ js ">") = false.
Proof.
  intros Hn Hfree.
  destruct (endsWith (60%N :: name ++ 62%N :: s) (js "</" ++ name ++ js ">")) eqn:E;
    [|reflexivity].
  exfalso. apply endsWith_true in E. destruct E as [u E].
  assert (Hall : free_of name (name ++ 62%N :: s) = true).
  { destruct Hn; subst name; exact Hfree. }
  destruct u as [|a u].
  - destruct Hn; subst name; discriminate E.
  - change (js "</" ++ name ++ js ">") with (60%N :: 47%N :: name ++ [62%N]) in E.
    injection E as _ E. rewrite E in Hall. rewrite free_of_occurrence in Hall.
    discriminate.
Qed.

Lemma or_empty_inner (s : str) : or_empty (js_or (Some s) (Some [])) = s.
Proof. destruct s; reflexivity. Qed.

Lemma slice_prefix (pre mid post : str) a b :
  length pre = a -> a + length mid = b -> slice (pre ++ mid ++ post) a b = mid.
Proof.
  intros <- <-. unfold slice. rewrite skipn_prefix by reflexivity.
  replace (length pre + length mid - length pre) with (length mid) by lia.
  rewrite firstn_app, firstn_all, Nat.sub_diag. apply app_nil_r.
Qed.

(** What the loop pushes for that match: the thought part, streaming. *)
Lemma tag_parts_unclosed (pre name s : str) c :
  name = js "thought" \/ name = js "think" ->
  free_of name s = true ->
  let input := pre ++ 60%N :: name ++ 62%N :: s in
  tag_parts input
    (mkMatch (length pre) (length input)
       match s with
       | [] => caps1 (length pre) name
       | _ :: _ => caps3 input (length pre) name
       end) c
  = (Returns [mkPart Thought s (Some true)], c).
Proof.
  intros Hn Hfree input. set (o := length pre).
  set (m := mkMatch o (length input)
              match s with
              | [] => caps1 o name
              | _ :: _ => caps3 input o name
              end).
  assert (Hlen : length input = o + length name + 2 + length s).
  { unfold input, o. rewrite length_app. simpl. rewrite length_app. simpl. len_lia. }
  assert (G1 : group input m 1 = Some name).
  { assert (E : group input m 1 = Some (slice input (o + 1) (o + 1 + length name)))
      by (unfold m; destruct s; reflexivity).
    rewrite E. f_equal.
    assert (Hi : input = (pre ++ [60%N]) ++ name ++ 62%N :: s)
      by (unfold input; rewrite <- app_assoc; reflexivity).
    rewrite Hi. apply slice_prefix; [|reflexivity].
    rewrite length_app. reflexivity. }
  assert (G3 : or_empty (js_or (group input m 3) (Some [])) = s).
  { assert (Hs : s = [] \/ s <> []) by (destruct s; [left|right]; congruence).
    destruct Hs as [Es|Hs].
    { assert (E : group input m 3 = None) by (unfold m; rewrite Es; reflexivity).
      rewrite E, Es. reflexivity. }
    assert (E : group input m 3 = Some (slice input (body_start o name) (length input)))
      by (unfold m; destruct s; [congruence|reflexivity]).
    rewrite E.
    assert (Hi : input = (pre ++ 60%N :: name ++ [62%N]) ++ s ++ []).
    { unfold input. rewrite app_nil_r, <- !app_assoc. simpl.
      rewrite <- app_assoc. reflexivity. }
    rewrite Hi at 1.
    rewrite slice_prefix.
    - apply or_empty_inner.
    - unfold body_start, o. rewrite length_app. simpl. rewrite length_app. simpl. len_lia.
    - unfold body_start. len_lia. }
  assert (G0 : matched input m = 60%N :: name ++ 62%N :: s).
  { unfold matched, m. cbn [index stop].
    assert (Hi : input = pre ++ (60%N :: name ++ 62%N :: s) ++ [])
      by (unfold input; rewrite app_nil_r; reflexivity).
    rewrite Hi at 1. apply slice_prefix; [reflexivity|].
    simpl. rewrite length_app. simpl. len_lia. }
  unfold tag_parts. rewrite G1, G3, G0.
  assert (Hjs : forall g, js_or (Some name) g = Some name)
    by (intros g; destruct Hn; subst name; reflexivity).
  rewrite Hjs. cbn [or_empty].
  rewrite (not_closed name s Hn Hfree).
  destruct Hn; subst name; reflexivity.
Qed.

Lemma blank_with_lt (pre t : str) : blank (pre ++ 60%N :: t) = false.
Proof. rewrite blank_app. change (blank (60%N :: t)) with false. apply andb_false_r. Qed.

(** A buffer made of text without "<", an opening thought or think tag
    and a text free of the tag name, within the cap. *)
Lemma unclosed_parse (pre name s : str) :
  name = js "thought" \/ name = js "think" ->
  includes pre (js "<") = false ->
  free_of name s = true ->
  length (pre ++ 60%N :: name ++ 62%N :: s) <= MAX_CONTENT_LENGTH ->
  parse (pre ++ 60%N :: name ++ 62%N :: s)
  = Returns (List.filter keep_part (List.map clean_part (push_text [] pre))
             ++ [mkPart Thought s (Some true)]).
Proof.
  intros Hn Hpre Hfree Hlen.
  set (input := pre ++ 60%N :: name ++ 62%N :: s) in *.
  set (o := length pre).
  assert (HL : length input = o + S (length (name ++ 62%N :: s)))
    by (unfold input, o; rewrite length_app; reflexivity).
  unfold parse, parseMessageContent. rewrite guard_is_blank.
  unfold input at 1. rewrite blank_with_lt. fold input.
  unfold parse_body. rewrite capped_eq.
  replace (capped input) with input
    by (unfold capped, substring0; symmetry; apply firstn_all2; exact Hlen).
  assert (Hiter : exists k, MAX_ITERATIONS = S k).
  { exists (pred MAX_ITERATIONS). symmetry. apply Nat.succ_pred.
    apply Nat.eqb_neq. vm_compute. reflexivity. }
  destruct Hiter as [k ->].
  unfold bind at 1. rewrite scan_tags_S. cbn [regexLastIndex lastIndex parts].
  set (m := mkMatch o (length input)
              match s with
              | [] => caps1 o name
              | _ :: _ => caps3 input o name
              end).
  assert (Hexec : exec TAG_REGEX input 0 = (Some m, length input)).
  { unfold exec. replace (length input <? 0) with false by reflexivity.
    rewrite Nat.sub_0_r.
    replace (S (length input)) with (o + S (length input - o)) by lia.
    rewrite search_skip.
    - rewrite (search_hit _ _ _ _ _ (unclosed_match pre name s Hn Hfree)).
      reflexivity.
    - intros i Hi. apply (blocked_match_at input false); [reflexivity|].
      assert (Hi' : i < length pre) by (unfold o in Hi; lia).
      unfold input. rewrite nth_error_app1 by exact Hi'.
      destruct (nth_error pre i) as [c|] eqn:E.
      + apply tag_blocked. apply nth_error_In in E.
        pose proof (not_includes_lt pre Hpre) as Hall.
        rewrite List.Forall_forall in Hall. apply Hall. exact E.
      + apply nth_error_None in E. lia. }
  rewrite Hexec.
  assert (Hm : matched input m = 60%N :: name ++ 62%N :: s).
  { unfold matched, m. cbn [index stop].
    assert (Hi : input = pre ++ (60%N :: name ++ 62%N :: s) ++ [])
      by (unfold input; rewrite app_nil_r; reflexivity).
    rewrite Hi at 1. apply slice_prefix; [reflexivity|]. fold o. simpl. lia. }
  rewrite Hm. change (length (60%N :: name ++ 62%N :: s) =? 0) with false.
  rewrite andb_false_r. unfold bind.
  unfold m. rewrite (tag_parts_unclosed pre name s ∅ Hn Hfree).
  rewrite scan_tags_none.
  2:{ cbn [regexLastIndex]. apply exec_at_end. reflexivity. }
  cbn [parts lastIndex index]. unfold slice_from. rewrite skipn_all.
  assert (Hs : slice input 0 o = pre).
  { unfold input. change (pre ++ 60%N :: name ++ 62%N :: s)
      with ([] ++ pre ++ 60%N :: name ++ 62%N :: s).
    apply slice_prefix; reflexivity. }
  rewrite Hs. unfold ret. cbn [fst].
  change (push_text (push_text [] pre ++ [mkPart Thought s (Some true)]) [])
    with (push_text [] pre ++ [mkPart Thought s (Some true)]).
  rewrite map_app, List.filter_app. reflexivity.
Qed.

Lemma startsWith_firstn (p : str) : forall s k,
  startsWith (firstn k s) p = true -> startsWith s p = true.
Proof.
  induction p as [|x p IH]; intros s k H; [destruct s; reflexivity|].
  destruct k as [|k]; [discriminate|]. destruct s as [|y s]; [discriminate|].
  simpl in *. apply andb_prop in H. destruct H as [E H].
  rewrite E. simpl. apply (IH s k). exact H.
Qed.

Lemma free_of_firstn name (s : str) : forall k,
  free_of name s = true -> free_of name (firstn k s) = true.
Proof.
  induction s as [|c s IH]; intros k H; [destruct k; reflexivity|].
  destruct k as [|k]; [reflexivity|].
  change (firstn (S k) (c :: s)) with (c :: firstn k s).
  cbn [free_of] in *. apply andb_prop in H. destruct H as [H1 H2].
  rewrite (IH k H2), andb_true_r.
  destruct (N.eqb c 60); [|reflexivity]. cbn [andb negb] in *.
  apply negb_true_iff in H1. apply orb_false_elim in H1. destruct H1 as [A B].
  destruct (startsWith (firstn k s) name) eqn:E1.
  { apply startsWith_firstn in E1. congruence. }
  destruct (startsWith (firstn k s) (47%N :: name)) eqn:E2.
  { apply startsWith_firstn in E2. congruence. }
  reflexivity.
Qed.

Lemma parse_capped content :
  blank content = false -> blank (capped content) = false ->
  parse content = parse (capped content).
Proof.
  intros H1 H2. unfold parse, parseMessageContent.
  rewrite !guard_is_blank, H1, H2. rewrite parse_body_capped. reflexivity.
Qed.

Lemma capped_open_tag (pre name s : str) :
  length pre + length name + 2 <= MAX_CONTENT_LENGTH ->
  capped (pre ++ 60%N :: name ++ 62%N :: s)
  = pre ++ 60%N :: name ++ 62%N
      :: substring0 s (MAX_CONTENT_LENGTH - (length pre + length name + 2)).
Proof.
  intros H. unfold capped, substring0.
  assert (E : forall t : str,
             pre ++ 60%N :: name ++ 62%N :: t = (pre ++ 60%N :: name ++ [62%N]) ++ t).
  { intros t. rewrite <- !app_assoc. simpl. rewrite <- app_assoc. reflexivity. }
  rewrite (E s), (E (firstn (MAX_CONTENT_LENGTH - (length pre + length name + 2)) s)),
    firstn_app.
  assert (L : length (pre ++ 60%N :: name ++ [62%N]) = length pre + length name + 2).
  { rewrite length_app. simpl. rewrite length_app. simpl. len_lia. }
  rewrite L, firstn_all2 by (rewrite L; exact H). reflexivity.
Qed.

End UnclosedParse.

(* ===================================================================== *)
(** ** Sequences of approve and deny clicks *)
(* ===================================================================== *)

Section ClickFacts.
Import Approval Clicks.

Lemma str_eqb_eq (a b : str) : str_eqb a b = true <-> a = b.
Proof.
  revert b. induction a as [|x a IH]; intros [|y b]; simpl; split; intros H;
    try discriminate; try reflexivity.
  - apply andb_prop in H. destruct H as [H1 H2]. apply N.eqb_eq in H1.
    apply IH in H2. congruence.
  - injection H as -> ->. rewrite N.eqb_refl. apply IH. reflexivity.
Qed.

Lemma str_eqb_neq (a b : str) : str_eqb a b = false <-> a <> b.
Proof.
  destruct (str_eqb a b) eqn:E.
  - apply str_eqb_eq in E. split; [discriminate | congruence].
  - split; [|reflexivity]. intros _ H. apply str_eqb_eq in H. congruence.
Qed.

Lemma calls_for_log id s (e : list event) :
  calls_for id (log e s)
  = calls_for id s + calls_for id (mkUi (votedActions s) e).
Proof. unfold calls_for, log. simpl. rewrite List.filter_app, length_app. reflexivity. Qed.

Lemma calls_for_setVoted id k v s : calls_for id (setVoted k v s) = calls_for id s.
Proof. reflexivity. Qed.

(** What a handler adds for the request [id]: one call if the action is
    this request, none otherwise. *)
Lemma calls_for_approve id pending r s :
  calls_for id (handleApproveAction pending r s)
  = calls_for id s + (if str_eqb (request_id pending) id then 1 else 0).
Proof.
  unfold handleApproveAction. destruct r; rewrite !calls_for_log, calls_for_setVoted;
    unfold calls_for; simpl; destruct (str_eqb (request_id pending) id); simpl; lia.
Qed.

Lemma calls_for_deny id pending r s :
  calls_for id (handleDenyAction pending r s)
  = calls_for id s + (if str_eqb (request_id pending) id then 1 else 0).
Proof.
  unfold handleDenyAction. destruct r; rewrite !calls_for_log, calls_for_setVoted;
    unfold calls_for; simpl; destruct (str_eqb (request_id pending) id); simpl; lia.
Qed.

Lemma voted_approve pending r s :
  votedActions (handleApproveAction pending r s)
  = <[request_id pending := approved]> (votedActions s).
Proof. destruct r; reflexivity. Qed.

Lemma voted_deny pending r s :
  votedActions (handleDenyAction pending r s)
  = <[request_id pending := denied]> (votedActions s).
Proof. destruct r; reflexivity. Qed.

(** No call has been sent for a request without a vote, and at most one
    for any request. *)
Lemma calls_invariant k s :
  (forall id, calls_for id s <= 1 /\ (votedActions s !! id = None -> calls_for id s = 0)) ->
  forall id, calls_for id (after_click s k) <= 1
             /\ (votedActions (after_click s k) !! id = None
                 -> calls_for id (after_click s k) = 0).
Proof.
  intros Hs id. destruct (Hs id) as [H1 H0].
  destruct k as [pending r|pending r]; simpl;
    unfold click_approve, click_deny, buttons_rendered, status;
    destruct (votedActions s !! request_id pending) eqn:V; try (split; assumption);
    rewrite ?calls_for_approve, ?calls_for_deny, ?voted_approve, ?voted_deny;
    destruct (str_eqb (request_id pending) id) eqn:E.
  all: try (apply str_eqb_eq in E; subst id; rewrite (H0 V), lookup_insert_eq;
            split; [simpl; lia | discriminate]).
  all: apply str_eqb_neq in E; rewrite lookup_insert_ne by exact E;
       rewrite Nat.add_0_r; split; assumption.
Qed.

Lemma calls_invariant_run clicks : forall s,
  (forall id, calls_for id s <= 1 /\ (votedActions s !! id = None -> calls_for id s = 0)) ->
  forall id, calls_for id (after_clicks clicks s) <= 1.
Proof.
  induction clicks as [|k clicks IH]; intros s Hs id; simpl.
  - apply Hs.
  - apply IH. apply calls_invariant. exact Hs.
Qed.

Lemma vote_kept k s id v :
  votedActions s !! id = Some v -> votedActions (after_click s k) !! id = Some v.
Proof.
  intros H. destruct k as [pending r|pending r]; simpl;
    unfold click_approve, click_deny, buttons_rendered, status;
    destruct (votedActions s !! request_id pending) eqn:V; try assumption;
    rewrite ?voted_approve, ?voted_deny;
    (rewrite lookup_insert_ne; [exact H | congruence]).
Qed.

End ClickFacts.

(** X1.  Whatever Approve and Deny buttons are clicked, in whatever
    order and however the requests settle, at most one resolution call
    (approve or deny) is ever sent for a request id, starting from the
    state in which nothing has been voted. *)
Theorem at_most_one_call_per_request (clicks : list Clicks.click) (id : str) :
  Clicks.calls_for id (Clicks.after_clicks clicks (Approval.mkUi ∅ [])) <= 1.
Proof.
  apply calls_invariant_run. intros id'. split; [|reflexivity].
  unfold Clicks.calls_for. simpl. lia.
Qed.

(** X2.  A vote is final: once a request id is recorded as approved or
    denied, no later click, on this or on any other pending action,
    changes or removes the record. *)
Theorem vote_is_final (clicks : list Clicks.click) (s : Approval.ui) (id : str)
    (v : Approval.vote) :
  Approval.votedActions s !! id = Some v ->
  Approval.votedActions (Clicks.after_clicks clicks s) !! id = Some v.
Proof.
  revert s. induction clicks as [|k clicks IH]; intros s H; simpl; [exact H|].
  apply IH. apply vote_kept. exact H.
Qed.

Lemma vote_is_final_witness :
  let pending := Approval.mkPending (js "r1") (js "file") (js "write") JNull in
  let other := Approval.mkPending (js "r2") (js "file") (js "read") JNull in
  let s := Approval.handleApproveAction pending Approval.Rejected (Approval.mkUi ∅ []) in
  let clicks := [Clicks.OnDeny pending (Approval.Resolved (js "null"));
                 Clicks.OnDeny other Approval.Rejected;
                 Clicks.OnApprove pending (Approval.Resolved (js "null"))] in
  Approval.votedActions s !! js "r1" = Some Approval.approved
  /\ Approval.votedActions (Clicks.after_clicks clicks s) !! js "r1"
     = Some Approval.approved.
Proof.
  split; [vm_compute; reflexivity|].
  apply (vote_is_final
           [Clicks.OnDeny (Approval.mkPending (js "r1") (js "file") (js "write") JNull)
              (Approval.Resolved (js "null"));
            Clicks.OnDeny (Approval.mkPending (js "r2") (js "file") (js "read") JNull)
              Approval.Rejected;
            Clicks.OnApprove (Approval.mkPending (js "r1") (js "file") (js "write") JNull)
              (Approval.Resolved (js "null"))]).
  vm_compute. reflexivity.
Defined.

(* ===================================================================== *)
(** ** The read loop of handleSubmit *)
(* ===================================================================== *)

Section StreamFacts.
Import Consumer Stream.

Lemma firstn_app_le {A} (a b : list A) n : n <= length a -> firstn n (a ++ b) = firstn n a.
Proof.
  intros H. rewrite firstn_app. replace (n - length a) with 0 by lia.
  simpl. apply app_nil_r.
Qed.

(** The loop from any of its states: the text accumulated so far is
    within the cap and no more than MAX_CHUNKS chunks have been read. *)
Lemma read_loop_spec (chunks : list str) : forall acc n,
  length acc <= MAX_RESPONSE_LENGTH -> n <= MAX_CHUNKS ->
  read_loop chunks acc n
  = let s := acc ++ concat (firstn (MAX_CHUNKS - n) chunks) in
    if MAX_RESPONSE_LENGTH <? length s
    then substring0 s MAX_RESPONSE_LENGTH ++ TRUNCATION_MARKER
    else s.
Proof.
  induction chunks as [|chunk rest IH]; intros acc n Hacc Hn; cbv zeta.
  - rewrite firstn_nil. simpl concat. rewrite app_nil_r.
    replace (MAX_RESPONSE_LENGTH <? length acc) with false
      by (symmetry; apply Nat.ltb_ge; exact Hacc).
    reflexivity.
  - cbn [read_loop]. destruct (MAX_CHUNKS <? S n) eqn:C.
    + apply Nat.ltb_lt in C. replace (MAX_CHUNKS - n) with 0 by lia.
      simpl firstn. simpl concat. rewrite app_nil_r.
      replace (MAX_RESPONSE_LENGTH <? length acc) with false
        by (symmetry; apply Nat.ltb_ge; exact Hacc).
      reflexivity.
    + apply Nat.ltb_ge in C. replace (MAX_CHUNKS - n) with (S (MAX_CHUNKS - S n)) by lia.
      cbn [firstn concat]. rewrite app_assoc.
      unfold cap_response. destruct (MAX_RESPONSE_LENGTH <? length (acc ++ chunk)) eqn:L.
      * apply Nat.ltb_lt in L.
        replace (MAX_RESPONSE_LENGTH <? length ((acc ++ chunk) ++ concat (firstn (MAX_CHUNKS - S n) rest)))
          with true by (symmetry; apply Nat.ltb_lt; rewrite length_app; len_lia).
        unfold substring0. rewrite (firstn_app_le (acc ++ chunk)) by len_lia. reflexivity.
      * apply Nat.ltb_ge in L. rewrite IH by assumption. reflexivity.
Qed.

Lemma marker_length : length TRUNCATION_MARKER = 15.
Proof. reflexivity. Qed.

End StreamFacts.

(** X3.  What the read loop of handleSubmit accumulates: the texts of
    the first MAX_CHUNKS chunks, one after the other; if these are longer
    than MAX_RESPONSE_LENGTH, their first MAX_RESPONSE_LENGTH code units
    followed by the truncation marker.  In particular a response within
    both caps is accumulated whole. *)
Theorem accumulate_spec (chunks : list str) :
  Stream.accumulate chunks
  = let s := concat (firstn Stream.MAX_CHUNKS chunks) in
    if Consumer.MAX_RESPONSE_LENGTH <? length s
    then substring0 s Consumer.MAX_RESPONSE_LENGTH ++ Consumer.TRUNCATION_MARKER
    else s.
Proof.
  unfold Stream.accumulate. rewrite read_loop_spec by (simpl; lia).
  rewrite Nat.sub_0_r. reflexivity.
Qed.

(** X4.  Whatever the server streams, the accumulated response never
    holds more than MAX_RESPONSE_LENGTH code units plus the fifteen of
    the truncation marker. *)
Theorem accumulated_response_is_bounded (chunks : list str) :
  length (Stream.accumulate chunks) <= Consumer.MAX_RESPONSE_LENGTH + 15.
Proof.
  unfold Stream.accumulate. rewrite read_loop_spec by (simpl; lia). cbv zeta.
  destruct (Consumer.MAX_RESPONSE_LENGTH <? _) eqn:L.
  - unfold substring0. rewrite length_app, length_firstn, marker_length. lia.
  - apply Nat.ltb_ge in L. lia.
Qed.

(* ===================================================================== *)
(** ** The message list: deleting a message, the message keys *)
(* ===================================================================== *)

From Stdlib Require Import DecimalPos.

Section MessageFacts.
Import Messages.

Lemma filter_indexed_past {A} (index : nat) (l : list A) : forall k,
  index < k -> filter_indexed (fun _ i => negb (i =? index)) l k = l.
Proof.
  induction l as [|x l IH]; intros k H; simpl; [reflexivity|].
  replace (k =? index) with false by (symmetry; apply Nat.eqb_neq; lia).
  simpl. rewrite IH by lia. reflexivity.
Qed.

Lemma filter_indexed_upto {A} (index : nat) (l : list A) : forall k,
  k <= index ->
  filter_indexed (fun _ i => negb (i =? index)) l k
  = firstn (index - k) l ++ skipn (S (index - k)) l.
Proof.
  induction l as [|x l IH]; intros k H; simpl.
  - rewrite firstn_nil. reflexivity.
  - destruct (Nat.eqb_spec k index) as [->|Hne]; simpl.
    + rewrite Nat.sub_diag. simpl. apply filter_indexed_past. lia.
    + rewrite IH by lia. replace (index - k) with (S (index - S k)) by lia.
      reflexivity.
Qed.

Lemma without_index_spec index (prev : list message) :
  without_index index prev = firstn index prev ++ skipn (S index) prev.
Proof.
  unfold without_index. rewrite filter_indexed_upto by lia.
  rewrite Nat.sub_0_r. reflexivity.
Qed.

(** *** Keys *)

Lemma uint_digits_inj d : forall d', uint_digits d = uint_digits d' -> d = d'.
Proof.
  induction d as [|d IH|d IH|d IH|d IH|d IH|d IH|d IH|d IH|d IH|d IH];
    intros [|d'|d'|d'|d'|d'|d'|d'|d'|d'|d'] H; simpl in H;
    try discriminate; try reflexivity;
    injection H as H; f_equal; apply IH; exact H.
Qed.

Lemma uint_digits_are_digits d : Forall (fun c => is_digit c = true) (uint_digits d).
Proof. induction d; simpl; constructor; try assumption; reflexivity. Qed.

Lemma index_string_inj (i j : nat) :
  number_to_string (Z.of_nat i) = number_to_string (Z.of_nat j) -> i = j.
Proof.
  intros H. apply Nat2Z.inj.
  destruct (Z.of_nat i) as [|p|p] eqn:Ei; destruct (Z.of_nat j) as [|q|q] eqn:Ej;
    try lia; simpl in H.
  - exfalso. apply (Unsigned.to_uint_nonzero q). apply uint_digits_inj.
    symmetry. exact H.
  - exfalso. apply (Unsigned.to_uint_nonzero p). apply uint_digits_inj. exact H.
  - f_equal. apply Unsigned.to_uint_inj. apply uint_digits_inj. exact H.
Qed.

Lemma index_string_digits (i : nat) :
  Forall (fun c => is_digit c = true) (number_to_string (Z.of_nat i)).
Proof.
  destruct (Z.of_nat i) as [|p|p] eqn:Ei; try lia; simpl.
  - repeat constructor.
  - apply uint_digits_are_digits.
Qed.

(** Two texts that start with digits up to a first "-" and are equal
    have the same digits. *)
Lemma digits_before_dash (a : str) : forall b r r',
  Forall (fun c => is_digit c = true) a -> Forall (fun c => is_digit c = true) b ->
  a ++ 45%N :: r = b ++ 45%N :: r' -> a = b.
Proof.
  induction a as [|x a IH]; intros [|y b] r r' Ha Hb H; simpl in H.
  - reflexivity.
  - injection H as <- _. inversion Hb as [|? ? D _]. discriminate D.
  - injection H as -> _. inversion Ha as [|? ? D _]. discriminate D.
  - injection H as -> H. f_equal. inversion Ha; inversion Hb; subst.
    eapply IH; eassumption.
Qed.

End MessageFacts.

(** X5.  handleDeleteMessage removes exactly the message at the given
    index and keeps the others in their order (a list that has no such
    index stays whole); when there is a session and the server rejects
    the request, the list is not touched at all. *)
Theorem delete_message_removes_one (sessionId : str) (index : nat) (accepted : bool)
    (messages : list Messages.message) :
  fst (Messages.handleDeleteMessage sessionId index accepted messages)
  = if negb (truthy sessionId) || accepted
    then firstn index messages ++ skipn (S index) messages
    else messages.
Proof.
  unfold Messages.handleDeleteMessage.
  destruct (negb (truthy sessionId)); simpl; [apply without_index_spec|].
  destruct accepted; simpl; [apply without_index_spec | reflexivity].
Qed.

(** X6.  The keys given to the rendered messages are pairwise distinct:
    two messages with the same key stand at the same index, whatever
    their roles and contents. *)
Theorem message_keys_are_distinct (i j : nat) (m m' : Messages.message) :
  Messages.msgKey i m = Messages.msgKey j m' -> i = j.
Proof.
  unfold Messages.msgKey. intros H. apply index_string_inj.
  change (js "-") with [45%N] in H. simpl app in H.
  eapply digits_before_dash; [apply index_string_digits | apply index_string_digits | exact H].
Qed.

Lemma message_keys_are_distinct_witness :
  Messages.msgKey 3 (Messages.mkMessage (js "user") (js "a b"))
  = Messages.msgKey 3 (Messages.mkMessage (js "user") (js "ab"))
  /\ 3 = 3.
Proof.
  split; [vm_compute; reflexivity|].
  apply (message_keys_are_distinct 3 3 (Messages.mkMessage (js "user") (js "a b"))
           (Messages.mkMessage (js "user") (js "ab"))).
  vm_compute. reflexivity.
Defined.

(* ===================================================================== *)
(** ** What a successful match tells *)
(* ===================================================================== *)

Section Inversion.

Variable input : str.

Lemma lit_inv w e caps c z :
  matcher input false (chars_of w) (mkState e caps) c = Some z ->
  startsWith (skipn e input) w = true /\ c (mkState (e + length w) caps) = Some z.
Proof.
  intros H. destruct (startsWith (skipn e input) w) eqn:S.
  - split; [reflexivity|]. apply startsWith_true in S. destruct S as [t S].
    rewrite (lit_step input w e caps t) in H by exact S. exact H.
  - rewrite lit_fail in H by exact S. discriminate.
Qed.

Lemma alts_lits_inv w0 words : forall e caps c z,
  matcher input false (alts (List.map chars_of (w0 :: words))) (mkState e caps) c = Some z ->
  exists w, In w (w0 :: words)
    /\ startsWith (skipn e input) w = true
    /\ c (mkState (e + length w) caps) = Some z.
Proof.
  revert w0. induction words as [|w1 words IH]; intros w0 e caps c z H.
  - simpl in H. apply lit_inv in H. exists w0. simpl. tauto.
  - change (alts (List.map chars_of (w0 :: w1 :: words)))
      with (Alt (chars_of w0) (alts (List.map chars_of (w1 :: words)))) in H.
    rewrite matcher_Alt in H.
    destruct (matcher input false (chars_of w0) (mkState e caps) c) as [r|] eqn:E.
    + injection H as ->. apply lit_inv in E. exists w0. simpl. tauto.
    + apply IH in H. destruct H as [w [Hin H]]. exists w. split; [right; exact Hin | exact H].
Qed.

Lemma nth_set_nth_other {A} (l : list A) : forall i j v d,
  i <> j -> nth i (set_nth l j v) d = nth i l d.
Proof.
  induction l as [|a l IH]; intros i j v d H; simpl; [reflexivity|].
  destruct j as [|j]; destruct i as [|i]; simpl; try reflexivity; try congruence.
  apply IH. congruence.
Qed.

Lemma nth_clear_captures ks : forall x i,
  (forall k, In k ks -> k - 1 <> i) ->
  nth i (captures (clear_captures ks x)) None = nth i (captures x) None.
Proof.
  unfold clear_captures.
  induction ks as [|k ks IH]; intros x i H; simpl; [reflexivity|].
  rewrite IH by (intros k' Hk'; apply H; right; exact Hk').
  unfold set_capture. simpl. apply nth_set_nth_other.
  intros E. apply (H k); [left; reflexivity | congruence].
Qed.

Lemma keeps_weaken ks ks' m :
  (forall k, In k ks -> In k ks') -> keeps ks m -> keeps ks' m.
Proof.
  intros Hsub Hm x c z H. apply Hm in H. destruct H as [y [Hy Hk]].
  exists y. split; [exact Hy|]. intros i Hi. apply Hk. intros k Hin.
  apply Hi. apply Hsub. exact Hin.
Qed.

Lemma keeps_repeat m ks greedy :
  keeps ks m ->
  forall fuel min max, keeps ks (repeat_matcher m ks greedy fuel min max).
Proof.
  intros Hm. induction fuel as [|fuel IH]; intros min max x c z H; [discriminate|].
  rewrite repeat_matcher_S in H.
  assert (Hx : c x = Some z ->
               exists y, c y = Some z
                 /\ forall i, (forall k, In k ks -> k - 1 <> i) ->
                      nth i (captures y) None = nth i (captures x) None).
  { intros E. exists x. split; [exact E | reflexivity]. }
  destruct (match max with Some 0 => true | _ => false end) eqn:Z.
  { destruct max as [[|k]|]; try discriminate. exact (Hx H). }
  assert (H' : (let d : Continuation := fun y =>
                  if (min =? 0) && (endIndex y =? endIndex x) then None
                  else repeat_matcher m ks greedy fuel (min - 1)
                         (option_map pred max) y c in
                let xr := clear_captures ks x in
                if negb (min =? 0) then m xr d
                else if greedy then
                  match m xr d with Some z => Some z | None => c x end
                else
                  match c x with Some z => Some z | None => m xr d end) = Some z).
  { destruct max as [[|k]|]; try discriminate; exact H. }
  clear H Z. cbv zeta in H'.
  set (d := fun y : MatchState =>
              if (min =? 0) && (endIndex y =? endIndex x) then None
              else repeat_matcher m ks greedy fuel (min - 1)
                     (option_map pred max) y c) in H'.
  assert (Hm' : m (clear_captures ks x) d = Some z ->
                exists y, c y = Some z
                  /\ forall i, (forall k, In k ks -> k - 1 <> i) ->
                       nth i (captures y) None = nth i (captures x) None).
  { intros E. apply Hm in E. destruct E as [y [Hy Hk]]. unfold d in Hy.
    destruct ((min =? 0) && (endIndex y =? endIndex x)); [discriminate|].
    apply IH in Hy. destruct Hy as [y' [Hy' Hk']]. exists y'. split; [exact Hy'|].
    intros i Hi. rewrite Hk' by exact Hi. rewrite Hk by exact Hi.
    apply nth_clear_captures. exact Hi. }
  destruct (negb (min =? 0)); [exact (Hm' H')|].
  destruct greedy.
  - destruct (m (clear_captures ks x) d) as [r|] eqn:E.
    + injection H' as ->. exact (Hm' eq_refl).
    + exact (Hx H').
  - destruct (c x) as [r|] eqn:E.
    + injection H' as ->. exact (Hx eq_refl).
    + exact (Hm' H').
Qed.

(** The matcher of a pattern changes the captures of its own groups
    only. *)
Lemma keeps_matcher ic r : keeps (parens r) (matcher input ic r).
Proof.
  induction r as [|cs|r1 IH1 r2 IH2|r1 IH1 r2 IH2|min max greedy r1 IH1|k r1 IH1|k|r1 IH1|];
    intros x c z H; simpl in H.
  - exists x. split; [exact H | reflexivity].
  - destruct (nth_error input (endIndex x)) as [a|]; [|discriminate].
    destruct (charset_mem ic cs a); [|discriminate].
    exists (advance 1 x). split; [exact H | reflexivity].
  - apply IH1 in H. destruct H as [y [H Hk]]. apply IH2 in H.
    destruct H as [y' [H Hk']]. exists y'. split; [exact H|].
    intros i Hi. simpl in Hi.
    rewrite Hk' by (intros k Hin; apply Hi; apply in_or_app; right; exact Hin).
    apply Hk. intros k Hin. apply Hi. apply in_or_app. left. exact Hin.
  - destruct (matcher input ic r1 x c) as [r|] eqn:E.
    + injection H as ->. apply IH1 in E. destruct E as [y [H Hk]].
      exists y. split; [exact H|]. intros i Hi. apply Hk. intros k Hin.
      apply Hi. simpl. apply in_or_app. left. exact Hin.
    + apply IH2 in H. destruct H as [y [H Hk]].
      exists y. split; [exact H|]. intros i Hi. apply Hk. intros k Hin.
      apply Hi. simpl. apply in_or_app. right. exact Hin.
  - eapply keeps_repeat; [exact IH1 | exact H].
  - apply IH1 in H. destruct H as [y [H Hk]].
    exists (set_capture k (Some (endIndex x, endIndex y)) y). split; [exact H|].
    intros i Hi. unfold set_capture. simpl captures.
    rewrite nth_set_nth_other by (intros E; apply (Hi k); [left; reflexivity | congruence]).
    apply Hk. intros k' Hin. apply Hi. right. exact Hin.
  - destruct (get_capture x k) as [[s e]|].
    + destruct (backref_ok ic input (endIndex x) s (e - s)); [|discriminate].
      exists (advance (e - s) x). split; [exact H | reflexivity].
    + exists x. split; [exact H | reflexivity].
  - destruct (matcher input ic r1 x (fun y => Some y)); [discriminate|].
    exists x. split; [exact H | reflexivity].
  - destruct (endIndex x =? length input); [|discriminate].
    exists x. split; [exact H | reflexivity].
Qed.

End Inversion.

Section TagType.

Lemma startsWith_nil (s : str) : startsWith s [] = true.
Proof. destruct s; reflexivity. Qed.

Lemma includes_at (p : str) : forall (s : str) i,
  startsWith (skipn i s) p = true -> includes s p = true.
Proof.
  induction s as [|a s IH]; intros i H.
  - rewrite skipn_nil in H. destruct p; [reflexivity | discriminate].
  - destruct i as [|i].
    + simpl skipn in H. cbn [includes]. rewrite H. reflexivity.
    + simpl skipn in H. cbn [includes]. rewrite (IH i H). apply orb_true_r.
Qed.

Lemma includes_firstn (p : str) : forall (s : str) n,
  includes (firstn n s) p = true -> includes s p = true.
Proof.
  induction s as [|a s IH]; intros n H.
  - rewrite firstn_nil in H. exact H.
  - destruct n as [|n].
    + simpl firstn in H. destruct p; [reflexivity | discriminate].
    + simpl firstn in H. cbn [includes] in *. apply orb_prop in H.
      destruct H as [H|H].
      * rewrite (startsWith_firstn p (a :: s) (S n) H). reflexivity.
      * rewrite (IH n H). apply orb_true_r.
Qed.

Lemma includes_prefix (p q : str) : forall s : str,
  includes s (p ++ q) = true -> includes s p = true.
Proof.
  assert (Hs : forall s : str, startsWith s (p ++ q) = true -> startsWith s p = true).
  { induction p as [|x p IH]; intros s H; [destruct s; reflexivity|].
    destruct s as [|y s]; [discriminate|]. simpl in *.
    apply andb_prop in H. destruct H as [-> H]. simpl. apply IH. exact H. }
  induction s as [|a s IH]; intros H; cbn [includes] in *.
  - rewrite orb_false_r in *. apply Hs. exact H.
  - apply orb_prop in H. destruct H as [H|H].
    + rewrite (Hs _ H). reflexivity.
    + rewrite (IH H). apply orb_true_r.
Qed.

Lemma slice_startsWith (s w : str) a :
  startsWith (skipn a s) w = true -> slice s a (a + length w) = w.
Proof.
  intros H. apply startsWith_true in H. destruct H as [t H].
  unfold slice. rewrite H. replace (a + length w - a) with (length w) by lia.
  rewrite firstn_app, firstn_all, Nat.sub_diag. apply app_nil_r.
Qed.

(** Every match of TAG_REGEX starts with "<" and one of the seven names,
    and that name is the type the loop reads: match[1] || match[4]. *)
Lemma tag_match_type content i m :
  match_at TAG_REGEX content i = Some m ->
  exists name, In name tag_names
    /\ js_or (group content m 1) (group content m 4) = Some name
    /\ startsWith (skipn i content) (60%N :: name) = true.
Proof.
  unfold match_at. cbn [pattern flag_i ngroups TAG_REGEX repeat].
  destruct (matcher content false _ _ _) as [z|] eqn:E; [|discriminate].
  intros H. injection H as <-. rewrite matcher_Alt in E.
  destruct (matcher content false (seq [lit "<"; Group 1 TAG_NAMES; ATTRS; lit ">"; opt BODY])
              (mkState i [None; None; None; None; None]) (fun y => Some y)) as [z1|] eqn:E1.
  - injection E as ->. unfold seq in E1. cbn [fold_right] in E1.
    rewrite matcher_Seq in E1. change (lit "<") with (chars_of (js "<")) in E1.
    apply lit_inv in E1. destruct E1 as [S0 E1].
    change (length (js "<")) with 1 in E1.
    rewrite matcher_Seq, matcher_Group in E1.
    change TAG_NAMES with (alts (List.map chars_of tag_names)) in E1.
    apply alts_lits_inv in E1. destruct E1 as [name [Hin [S1 E1]]].
    apply keeps_matcher in E1. destruct E1 as [y [Hy Hk]]. injection Hy as ->.
    specialize (Hk 0). cbn [endIndex] in Hk.
    assert (G : nth 0 (captures z) None = Some (i + 1, i + 1 + length name)).
    { rewrite Hk; [reflexivity|]. intros k Hk'. simpl in Hk'.
      destruct Hk' as [<-|[<-|[]]]; discriminate. }
    exists name. split; [exact Hin|].
    assert (G1 : group content (mkMatch i (endIndex z) (captures z)) 1 = Some name).
    { unfold group. cbn [groups Nat.sub]. rewrite G. f_equal.
      apply slice_startsWith. exact S1. }
    rewrite G1. split.
    + destruct Hin as [<-|[<-|[<-|[<-|[<-|[<-|[<-|[]]]]]]]]; reflexivity.
    + destruct (skipn i content) as [|a t] eqn:Es; [discriminate S0|].
      change (startsWith (a :: t) (js "<")) with (N.eqb 60 a && startsWith t []) in S0.
      rewrite startsWith_nil, andb_true_r in S0.
      assert (St : skipn (i + 1) content = t)
        by (apply (skipn_next content i a); exact Es).
      rewrite St in S1.
      change (startsWith (a :: t) (60%N :: name)) with (N.eqb 60 a && startsWith t name).
      rewrite S0, S1. reflexivity.
  - unfold SELF_CLOSING, seq in E. cbn [fold_right] in E.
    rewrite matcher_Seq in E. change (lit "<") with (chars_of (js "<")) in E.
    apply lit_inv in E. destruct E as [S0 E].
    change (length (js "<")) with 1 in E.
    rewrite matcher_Seq, matcher_Group in E.
    change (lit "tool_pending") with (chars_of (js "tool_pending")) in E.
    apply lit_inv in E. destruct E as [S1 E].
    apply keeps_matcher in E. destruct E as [y [Hy Hk]]. injection Hy as ->.
    cbn [endIndex] in Hk.
    assert (G0 : nth 0 (captures z) None = None).
    { rewrite (Hk 0); [reflexivity|]. intros k Hk'. simpl in Hk'.
      destruct Hk' as [<-|[]]; discriminate. }
    assert (G3 : nth 3 (captures z) None = Some (i + 1, i + 1 + length (js "tool_pending"))).
    { rewrite (Hk 3); [reflexivity|]. intros k Hk'. simpl in Hk'.
      destruct Hk' as [<-|[]]; discriminate. }
    exists (js "tool_pending"). split; [simpl; tauto|].
    assert (G1 : group content (mkMatch i (endIndex z) (captures z)) 1 = None).
    { unfold group. cbn [groups Nat.sub]. rewrite G0. reflexivity. }
    assert (G4 : group content (mkMatch i (endIndex z) (captures z)) 4
                 = Some (js "tool_pending")).
    { unfold group. cbn [groups Nat.sub]. rewrite G3. f_equal.
      apply slice_startsWith. exact S1. }
    rewrite G1, G4. split; [reflexivity|].
    destruct (skipn i content) as [|a t] eqn:Es; [discriminate S0|].
    change (startsWith (a :: t) (js "<")) with (N.eqb 60 a && startsWith t []) in S0.
    rewrite startsWith_nil, andb_true_r in S0.
    assert (St : skipn (i + 1) content = t)
      by (apply (skipn_next content i a); exact Es).
    rewrite St in S1. change (startsWith (a :: t) (60%N :: js "tool_pending"))
      with (N.eqb 60 a && startsWith t (js "tool_pending")).
    rewrite S0, S1. reflexivity.
Qed.

End TagType.

Section TagParts.

Lemma pending_parts_kind tagContent c ps c' :
  pending_parts tagContent c = (Returns ps, c') ->
  Forall (fun q => type q = Pending) ps.
Proof.
  unfold pending_parts. intros H.
  repeat (apply bind_returns in H; destruct H as [? [? [_ H]]]).
  repeat match type of H with
         | (match ?x with _ => _ end) _ = _ => destruct x eqn:?
         end;
    try (apply ret_returns in H; destruct H as [<- _]; constructor);
    try discriminate H.
  - unfold decode_pending in *.
    repeat match goal with
           | E : match ?x with _ => _ end = _ |- _ => destruct x; try discriminate E
           end.
    match goal with
    | E : Returns _ = Returns _ |- _ => injection E as <-
    end.
    reflexivity.
  - constructor.
Qed.

(** The parts pushed for a match, by the name the match starts with:
    only a tool_pending tag can raise an exception, and each kind of
    part has its names. *)
Lemma tag_parts_by_name content m name c out c' :
  In name tag_names ->
  js_or (group content m 1) (group content m 4) = Some name ->
  tag_parts content m c = (out, c') ->
  (name <> js "tool_pending" -> exists ps, out = Returns ps)
  /\ (forall ps, out = Returns ps ->
        Forall (fun q => match type q with
                         | Text => True
                         | Thought => name = js "thought" \/ name = js "think"
                         | Tool => name = js "tool_call" \/ name = js "tool"
                         | Pending => name = js "tool_pending"
                         end) ps).
Proof.
  intros Hin Ht. unfold tag_parts. rewrite Ht.
  destruct Hin as [<-|[<-|[<-|[<-|[<-|[<-|[<-|[]]]]]]]];
    cbv beta zeta;
    repeat match goal with
           | |- context [str_eqb (js ?a) (js ?b)] =>
               let v := eval vm_compute in (str_eqb (js a) (js b)) in
               change (str_eqb (js a) (js b)) with v
           end;
    cbn [orb]; cbv iota; intros H.
  all: try (unfold ret in H; injection H as <- _; split;
            [intros _; eexists; reflexivity
            |intros ps E; injection E as <-;
             first [constructor; [simpl; auto | constructor] | constructor]]).
  split; [intros N; congruence|].
  intros ps E. subst out. apply pending_parts_kind in H.
  eapply List.Forall_impl; [|exact H]. intros q ->. reflexivity.
Qed.

Lemma in_source_order_In content l : forall lo a b p,
  in_source_order content lo l -> In (a, b, p) l ->
  exists q, origin content a b q /\ p = clean_part q.
Proof.
  induction l as [|[[a' b'] p'] l IH]; intros lo a b p H Hin; [destruct Hin|].
  simpl in H. destruct H as [_ [_ [Hq H]]]. destruct Hin as [E|Hin].
  - injection E as -> -> ->. exact Hq.
  - eapply IH; eassumption.
Qed.

Lemma clean_part_type q : type (clean_part q) = type q.
Proof. unfold clean_part. destruct (type q) eqn:E; simpl; congruence. Qed.

Lemma needs_tag_at content i name k :
  startsWith (skipn i content) (60%N :: name) = true ->
  match k with
  | Text => True
  | Thought => name = js "thought" \/ name = js "think"
  | Tool => name = js "tool_call" \/ name = js "tool"
  | Pending => name = js "tool_pending"
  end ->
  needs_tag content k.
Proof.
  intros S Hk. apply includes_at in S. destruct k; simpl in *.
  - exact I.
  - destruct Hk as [->| ->]; [left | right]; exact S.
  - destruct Hk as [->| ->]; [|exact S].
    apply (includes_prefix (js "<tool") (js "_call")). exact S.
  - subst name. exact S.
Qed.

Lemma needs_tag_capped content k : needs_tag (capped content) k -> needs_tag content k.
Proof.
  unfold capped, substring0. destruct k; simpl; auto.
  - intros [H|H]; [left | right]; eapply includes_firstn; exact H.
  - apply includes_firstn.
  - apply includes_firstn.
Qed.

(** The loop returns when every match gives parts. *)
Lemma scan_tags_returns content :
  (forall i m c, match_at TAG_REGEX content i = Some m ->
                 exists new c', tag_parts content m c = (Returns new, c')) ->
  forall budget st c, exists st' c', scan_tags content budget st c = (Returns st', c').
Proof.
  intros Hm. induction budget as [|budget IH]; intros st c.
  - simpl. destruct (exec TAG_REGEX content (regexLastIndex st)) as [[m|] next];
      eexists; eexists; reflexivity.
  - rewrite scan_tags_S.
    destruct (exec TAG_REGEX content (regexLastIndex st)) as [[m|] next] eqn:E;
      [|eexists; eexists; reflexivity].
    destruct ((index m =? lastIndex st) && (length (matched content m) =? 0));
      [apply IH|].
    apply exec_found in E. destruct E as [_ [_ [_ [_ E]]]].
    destruct (Hm _ _ c E) as [new [c1 Ht]]. unfold bind. rewrite Ht. apply IH.
Qed.

Lemma push_text_length ps text : length (push_text ps text) <= length ps + 1.
Proof.
  unfold push_text. destruct (truthy (trim text)); [rewrite length_app; simpl|]; lia.
Qed.

(** Each round of the loop pushes at most two parts. *)
Lemma scan_tags_length content budget : forall st c st' c',
  scan_tags content budget st c = (Returns st', c') ->
  length (parts st') <= length (parts st) + 2 * budget.
Proof.
  induction budget as [|budget IH]; intros st c st' c' H.
  - simpl in H. destruct (exec TAG_REGEX content (regexLastIndex st)) as [[m|] next];
      apply ret_returns in H; destruct H as [<- _]; lia.
  - rewrite scan_tags_S in H.
    destruct (exec TAG_REGEX content (regexLastIndex st)) as [[m|] next];
      [|apply ret_returns in H; destruct H as [<- _]; lia].
    destruct ((index m =? lastIndex st) && (length (matched content m) =? 0)).
    + apply IH in H. simpl in H. lia.
    + apply bind_returns in H. destruct H as [new [c1 [Ht H]]].
      apply IH in H. simpl in H. rewrite length_app in H.
      pose proof (push_text_length (parts st) (slice content (lastIndex st) (index m))).
      destruct (tag_parts_at_most_one _ _ _ _ _ Ht) as [->|[q ->]]; simpl in H; lia.
Qed.

Lemma text_parts_shape (run : str) :
  text_parts run = [] \/ text_parts run = [mkPart Text (clean_text run) None].
Proof.
  unfold text_parts, push_text. destruct (truthy (trim run)); [|left; reflexivity].
  simpl. unfold keep_part, clean_part. simpl.
  destruct (truthy (clean_text run)); [right | left]; reflexivity.
Qed.

Lemma no_lt_no_match (content : str) :
  includes content (js "<") = false ->
  forall j, match_at TAG_REGEX content j = None.
Proof.
  intros H. apply blocked_everywhere; [|reflexivity].
  eapply List.Forall_impl; [|apply not_includes_lt; exact H].
  intros a Ha. apply tag_blocked. exact Ha.
Qed.

Lemma includes_capped_false content p :
  includes content p = false -> includes (capped content) p = false.
Proof.
  intros H. destruct (includes (capped content) p) eqn:E; [|reflexivity].
  apply includes_firstn in E. congruence.
Qed.

End TagParts.

(** X7.  Every part of a result that is not a text part stems from a tag
    that stands in the buffer: a thought part needs "<thought" or
    "<think", a tool part "<tool", a pending part "<tool_pending".  A
    buffer without these texts never shows a thought, a tool activity or
    an approval block.  This holds for every buffer on which the
    tokenizer returns, and on every buffer it returns or raises an
    exception: no buffer is left without an outcome. *)
Theorem parts_need_their_tags (content : str) :
  parse content <> OutOfModel
  /\ forall ps p, parse content = Returns ps -> In p ps -> needs_tag content (type p).
Proof.
  split; [apply parse_in_model|]. intros ps p.
  unfold parse. destruct (parseMessageContent content ∅) as [out c'] eqn:E.
  simpl. intros -> Hin. unfold parseMessageContent in E. rewrite guard_is_blank in E.
  destruct (blank content).
  - apply ret_returns in E. destruct E as [<- _].
    destruct Hin as [<-|[]]. exact I.
  - apply parse_body_in_source_order in E. destruct E as [tagged [Hm Ho]].
    rewrite <- Hm in Hin. apply in_map_iff in Hin.
    destruct Hin as [[[a b] p'] [Hp Hin]]. simpl in Hp. subst p'.
    destruct (in_source_order_In _ _ _ _ _ _ Ho Hin) as [q [Hq ->]].
    rewrite clean_part_type. apply needs_tag_capped.
    destruct Hq as [-> _|m c c1 Hmatch _ Ht]; [exact I|].
    destruct (tag_match_type _ _ _ Hmatch) as [name [Hname [Htype Hs]]].
    destruct (tag_parts_by_name _ _ _ _ _ _ Hname Htype Ht) as [_ Hk].
    specialize (Hk [q] eq_refl). inversion Hk as [|? ? Hq _]; subst.
    eapply needs_tag_at; eassumption.
Qed.

Lemma parts_need_their_tags_witness :
  let content := js "Hi <think>hm</think><tool_call>{}</tool_call>" in
  let ps := [mkPart Text (js "Hi") None; mkPart Thought (js "hm") (Some false);
             mkPart Tool (js "{}") None] in
  parse content = Returns ps
  /\ In (mkPart Tool (js "{}") None) ps
  /\ needs_tag content Tool.
Proof.
  split; [vm_compute; reflexivity|]. split; [simpl; tauto|].
  apply (proj2 (parts_need_their_tags (js "Hi <think>hm</think><tool_call>{}</tool_call>"))
           [mkPart Text (js "Hi") None; mkPart Thought (js "hm") (Some false);
            mkPart Tool (js "{}") None]
           (mkPart Tool (js "{}") None)).
  - vm_compute. reflexivity.
  - simpl. tauto.
Defined.

(** X8.  A buffer that does not hold the text "<tool_pending" is always
    tokenized: parseMessageContent returns a list of parts and raises no
    exception. *)
Theorem no_pending_tag_no_exception (content : str) :
  includes content (js "<tool_pending") = false ->
  exists ps, parse content = Returns ps.
Proof.
  intros H. unfold parse, parseMessageContent. rewrite guard_is_blank.
  destruct (blank content); [eexists; reflexivity|].
  unfold parse_body. rewrite capped_eq.
  destruct (scan_tags_returns (capped content)) with
    (budget := MAX_ITERATIONS) (st := mkLoop [] 0 0) (c := (∅ : gmap str RegExp))
    as [st [c1 Hs]].
  - intros i m c Hm.
    destruct (tag_match_type _ _ _ Hm) as [name [Hname [Htype Hstart]]].
    destruct (tag_parts (capped content) m c) as [out c2] eqn:Et.
    destruct (tag_parts_by_name _ _ _ _ _ _ Hname Htype Et) as [Hr _].
    assert (Hne : name <> js "tool_pending").
    { intros ->. apply includes_at in Hstart.
      change (60%N :: js "tool_pending") with (js "<tool_pending") in Hstart.
      rewrite (includes_capped_false _ _ H) in Hstart. discriminate. }
    destruct (Hr Hne) as [new ->]. eexists. eexists. reflexivity.
  - unfold bind. rewrite Hs. eexists. reflexivity.
Qed.

Lemma no_pending_tag_no_exception_witness :
  includes (js "<tool>x</tool> and <thought>") (js "<tool_pending") = false
  /\ exists ps, parse (js "<tool>x</tool> and <thought>") = Returns ps.
Proof.
  split; [vm_compute; reflexivity|].
  apply (no_pending_tag_no_exception (js "<tool>x</tool> and <thought>")).
  vm_compute. reflexivity.
Defined.

(** X9.  The tokenizer never returns more than 2 * MAX_ITERATIONS + 1
    parts: each of the at most MAX_ITERATIONS rounds of the loop pushes
    at most a text part and a tag part, and one text part may follow.
    This holds for every buffer on which the tokenizer returns, and on
    every buffer it returns or raises an exception: no buffer is left
    without an outcome. *)
Theorem parts_are_bounded (content : str) (c : gmap str RegExp) :
  fst (parseMessageContent content c) <> OutOfModel
  /\ forall ps, fst (parseMessageContent content c) = Returns ps ->
                length ps <= 2 * MAX_ITERATIONS + 1.
Proof.
  split; [apply parseMessageContent_in_model|].
  intros ps. destruct (parseMessageContent content c) as [out c'] eqn:E.
  cbn [fst]. intros ->. revert E.
  unfold parseMessageContent. destruct (negb (truthy content) || _).
  - intros H. apply ret_returns in H. destruct H as [<- _]. simpl. lia.
  - unfold parse_body. intros H. apply bind_returns in H.
    destruct H as [st [c1 [Hs H]]]. apply ret_returns in H. destruct H as [<- _].
    apply scan_tags_length in Hs. simpl in Hs.
    etransitivity; [apply List.filter_length_le|]. rewrite length_map.
    etransitivity; [apply push_text_length|]. lia.
Qed.

Lemma parts_are_bounded_witness :
  parseMessageContent (js "a<answer>b</answer>c") ∅
  = (Returns [mkPart Text (js "a") None; mkPart Text (js "b") None;
              mkPart Text (js "c") None], ∅)
  /\ 3 <= 2 * MAX_ITERATIONS + 1.
Proof.
  split; [vm_compute; reflexivity|].
  apply (proj2 (parts_are_bounded (js "a<answer>b</answer>c") ∅)
           [mkPart Text (js "a") None; mkPart Text (js "b") None;
            mkPart Text (js "c") None]).
  vm_compute. reflexivity.
Defined.

(** X10.  A buffer without "<" gives no tag part: the result is the text
    part of the cleaned (capped) buffer, or nothing if cleaning leaves
    nothing. *)
Theorem text_without_tags (content : str) :
  includes content (js "<") = false -> blank content = false ->
  parse content = Returns (text_parts (capped content))
  /\ (text_parts (capped content) = []
      \/ text_parts (capped content)
         = [mkPart Text (clean_text (capped content)) None]).
Proof.
  intros H B. split; [|apply text_parts_shape].
  unfold parse, parseMessageContent. rewrite guard_is_blank, B.
  unfold parse_body. rewrite capped_eq. unfold bind.
  rewrite scan_tags_none.
  2:{ apply exec_none. apply no_lt_no_match. apply includes_capped_false. exact H. }
  reflexivity.
Qed.

Lemma text_without_tags_witness :
  let content := js "  GET MEMORY notes" ++ [LF] ++ js " the answer is 42 " in
  includes content (js "<") = false /\ blank content = false
  /\ (parse content = Returns (text_parts (capped content))
      /\ (text_parts (capped content) = []
          \/ text_parts (capped content)
             = [mkPart Text (clean_text (capped content)) None]))
  /\ text_parts (capped content) = [mkPart Text (js "the answer is 42") None].
Proof.
  split; [vm_compute; reflexivity|]. split; [vm_compute; reflexivity|].
  split; [|vm_compute; reflexivity].
  apply (text_without_tags (js "  GET MEMORY notes" ++ [LF] ++ js " the answer is 42 "));
    vm_compute; reflexivity.
Defined.

(* ===================================================================== *)
(** ** Text parts are trimmed *)
(* ===================================================================== *)

Section Trimmed.

Lemma trimStart_trimStart s : trimStart (trimStart s) = trimStart s.
Proof.
  destruct (trimStart s) as [|c t] eqn:E; [reflexivity|].
  apply trimStart_id. eapply trimStart_head. exact E.
Qed.

(** String.prototype.trim leaves a trimmed text as it is. *)
Lemma trim_trim s : trim (trim s) = trim s.
Proof.
  unfold trim at 2. unfold trimEnd.
  set (u := trimStart (rev (trimStart s))).
  assert (Hu : trimStart u = u) by apply trimStart_trimStart.
  assert (Ht : trimStart (rev u) = rev u).
  { destruct (trimStart_suffix (rev (trimStart s))) as [p [Hp _]]. fold u in Hp.
    assert (E : trimStart s = rev u ++ rev p).
    { rewrite <- (rev_involutive (trimStart s)), Hp, rev_app_distr. reflexivity. }
    destruct (rev u) as [|a t] eqn:Er; [reflexivity|].
    apply trimStart_id. eapply trimStart_head. exact E. }
  unfold trim, trimEnd. rewrite Ht, rev_involutive, Hu. reflexivity.
Qed.

End Trimmed.

(** X24.  Every text part of every result is trimmed: its content has
    no white space at its beginning or at its end, so that trim leaves
    it as it is.  This holds for every buffer on which the tokenizer
    returns, and on every buffer it returns or raises an exception: no
    buffer is left without an outcome. *)
Theorem text_parts_are_trimmed (buffer : str) :
  parse buffer <> OutOfModel
  /\ forall ps p, parse buffer = Returns ps -> In p ps -> type p = Text ->
                  trim (content p) = content p.
Proof.
  split; [apply parse_in_model|]. intros ps p.
  unfold parse. destruct (parseMessageContent buffer ∅) as [out c'] eqn:E.
  simpl. intros -> Hin Hp. unfold parseMessageContent in E. rewrite guard_is_blank in E.
  destruct (blank buffer).
  - apply ret_returns in E. destruct E as [<- _].
    destruct Hin as [<-|[]]. reflexivity.
  - apply parse_body_in_source_order in E. destruct E as [tagged [Hm Ho]].
    rewrite <- Hm in Hin. apply in_map_iff in Hin.
    destruct Hin as [[[a b] p'] [Hp' Hin]]. simpl in Hp'. subst p'.
    destruct (in_source_order_In _ _ _ _ _ _ Ho Hin) as [q [_ ->]].
    rewrite clean_part_type in Hp. unfold clean_part. rewrite Hp.
    cbn [content]. unfold clean_text. apply trim_trim.
Qed.

Lemma text_parts_are_trimmed_witness :
  let buffer := js "  Hello <thought>hm</thought> world  " in
  let ps := [mkPart Text (js "Hello") None; mkPart Thought (js "hm") (Some false);
             mkPart Text (js "world") None] in
  parse buffer = Returns ps
  /\ trim (js "world") = js "world".
Proof.
  split; [vm_compute; reflexivity|].
  apply (proj2 (text_parts_are_trimmed (js "  Hello <thought>hm</thought> world  "))
           [mkPart Text (js "Hello") None; mkPart Thought (js "hm") (Some false);
            mkPart Text (js "world") None]
           (mkPart Text (js "world") None)).
  - vm_compute. reflexivity.
  - simpl. tauto.
  - reflexivity.
Defined.

(* ===================================================================== *)
(** ** Closed tags without attributes *)
(* ===================================================================== *)

Section ClosedSteps.

Variable input : str.

Lemma alts_cons r (l : list regex) : l <> [] -> alts (r :: l) = Alt r (alts l).
Proof. destruct l; [congruence | reflexivity]. Qed.

(** Alternatives that are words: the first word that stands at the
    position is taken if the rest of the pattern matches after it. *)
Lemma alts_first name e caps t c z : forall front back,
  skipn e input = name ++ t ->
  (forall w, In w front -> startsWith (skipn e input) w = false) ->
  c (mkState (e + length name) caps) = Some z ->
  matcher input false (alts (List.map chars_of (front ++ name :: back))) (mkState e caps) c
  = Some z.
Proof.
  induction front as [|w front IH]; intros back Hs Hw Hc.
  - simpl app. simpl List.map. destruct back as [|b back].
    + simpl alts. rewrite (lit_step input name e caps t) by exact Hs. exact Hc.
    + rewrite alts_cons by discriminate. rewrite matcher_Alt.
      rewrite (lit_step input name e caps t) by exact Hs. rewrite Hc. reflexivity.
  - simpl app. simpl List.map. rewrite alts_cons.
    2:{ rewrite map_app. simpl. destruct (List.map chars_of front); discriminate. }
    rewrite matcher_Alt, lit_fail by (apply Hw; left; reflexivity).
    apply IH; [exact Hs | | exact Hc]. intros w' Hin. apply Hw. right. exact Hin.
Qed.

(** The name of a tag, where ">" follows it. *)
Lemma names_step name e caps t c z :
  In name tag_names ->
  skipn e input = name ++ 62%N :: t ->
  c (mkState (e + length name) caps) = Some z ->
  matcher input false TAG_NAMES (mkState e caps) c = Some z.
Proof.
  intros Hin Hs Hc. change TAG_NAMES with (alts (List.map chars_of tag_names)).
  assert (Hsplit : exists front back,
             tag_names = front ++ name :: back
             /\ forall w, In w front -> startsWith (name ++ 62%N :: t) w = false).
  { unfold tag_names.
    destruct Hin as [<-|[<-|[<-|[<-|[<-|[<-|[<-|[]]]]]]]].
    - exists []. eexists. split; [reflexivity|]. intros w [].
    - exists [js "thought"]. eexists. split; [reflexivity|].
      intros w [<-|[]]. reflexivity.
    - exists [js "thought"; js "think"]. eexists. split; [reflexivity|].
      intros w [<-|[<-|[]]]; reflexivity.
    - exists [js "thought"; js "think"; js "tool_call"]. eexists. split; [reflexivity|].
      intros w [<-|[<-|[<-|[]]]]; reflexivity.
    - exists [js "thought"; js "think"; js "tool_call"; js "tool_pending"]. eexists.
      split; [reflexivity|]. intros w [<-|[<-|[<-|[<-|[]]]]]; reflexivity.
    - exists [js "thought"; js "think"; js "tool_call"; js "tool_pending"; js "tool_result"].
      eexists. split; [reflexivity|].
      intros w [<-|[<-|[<-|[<-|[<-|[]]]]]]; reflexivity.
    - exists [js "thought"; js "think"; js "tool_call"; js "tool_pending"; js "tool_result";
              js "tool"].
      eexists. split; [reflexivity|].
      intros w [<-|[<-|[<-|[<-|[<-|[<-|[]]]]]]]; reflexivity. }
  destruct Hsplit as [front [back [-> Hw]]].
  apply (alts_first name e caps (62%N :: t)); [exact Hs | | exact Hc].
  rewrite Hs. exact Hw.
Qed.

Lemma backref_ok_true w : forall at_ from t u,
  skipn from input = w ++ t -> skipn at_ input = w ++ u ->
  backref_ok false input at_ from (length w) = true.
Proof.
  induction w as [|a w IH]; intros at_ from t u Hf Ha; [reflexivity|].
  simpl. rewrite (nth_error_skipn_cons input from a (w ++ t) Hf).
  rewrite (nth_error_skipn_cons input at_ a (w ++ u) Ha).
  unfold canon. cbn [andb]. rewrite N.eqb_refl. cbn [andb].
  apply (IH (S at_) (S from) t u).
  - replace (S from) with (from + 1) by lia. apply (skipn_next input from a). exact Hf.
  - replace (S at_) with (at_ + 1) by lia. apply (skipn_next input at_ a). exact Ha.
Qed.

Lemma backref_step k s n e caps c :
  nth (k - 1) caps None = Some (s, s + n) ->
  backref_ok false input e s n = true ->
  matcher input false (Backref k) (mkState e caps) c = c (mkState (e + n) caps).
Proof.
  intros Hc Hb. simpl. unfold get_capture. simpl. rewrite Hc.
  replace (s + n - s) with n by lia. rewrite Hb. reflexivity.
Qed.

(** A lazy star stops where the rest of the pattern matches. *)
Lemma lazy_stop m ks fuel x (K : Continuation) z :
  K x = Some z -> repeat_matcher m ks false (S fuel) 0 None x K = Some z.
Proof.
  intros H. rewrite repeat_matcher_S. cbv zeta.
  cbn [Nat.eqb negb]. cbv iota. rewrite H. reflexivity.
Qed.

End ClosedSteps.

Section ClosedTag.

Variable pre name body post : str.
Hypothesis Hname : In name tag_names.
Hypothesis Hbody : includes body (js "<") = false.

Variable input : str.
Hypothesis Hinput :
  input = pre ++ 60%N :: name ++ 62%N :: body ++ 60%N :: 47%N :: name ++ 62%N :: post.

Variable o : nat.
Hypothesis Ho : length pre = o.

Lemma closed_at_lt : skipn o input = 60%N :: name ++ 62%N :: body ++ 60%N :: 47%N :: name ++ 62%N :: post.
Proof. rewrite Hinput. apply skipn_prefix. exact Ho. Qed.

Lemma closed_at_name :
  skipn (o + 1) input = name ++ 62%N :: body ++ 60%N :: 47%N :: name ++ 62%N :: post.
Proof. apply (skipn_next input o 60%N). exact closed_at_lt. Qed.

Lemma closed_at_gt :
  skipn (o + 1 + length name) input = 62%N :: body ++ 60%N :: 47%N :: name ++ 62%N :: post.
Proof. apply (skipn_more input (o + 1) (length name) name); [exact closed_at_name | reflexivity]. Qed.

Lemma closed_at_body :
  skipn (body_start o name) input = body ++ 60%N :: 47%N :: name ++ 62%N :: post.
Proof.
  unfold body_start. replace (o + length name + 2) with (o + 1 + length name + 1) by lia.
  apply (skipn_next input _ 62%N). exact closed_at_gt.
Qed.

Lemma closed_at_close :
  skipn (body_start o name + length body) input = 60%N :: 47%N :: name ++ 62%N :: post.
Proof.
  apply (skipn_more input (body_start o name) (length body) body);
    [exact closed_at_body | reflexivity].
Qed.

Lemma closed_at_close_name :
  skipn (body_start o name + length body + 2) input = name ++ 62%N :: post.
Proof.
  apply (skipn_more input (body_start o name + length body) 2 (js "</"));
    [exact closed_at_close | reflexivity].
Qed.

Lemma closed_at_close_gt :
  skipn (body_start o name + length body + 2 + length name) input = 62%N :: post.
Proof.
  apply (skipn_more input (body_start o name + length body + 2) (length name) name);
    [exact closed_at_close_name | reflexivity].
Qed.

Lemma closed_at_post :
  skipn (body_start o name + length body + 2 + length name + 1) input = post.
Proof. apply (skipn_next input _ 62%N). exact closed_at_close_gt. Qed.

Lemma closed_length :
  length input = body_start o name + length body + 2 + length name + 1 + length post.
Proof.
  rewrite Hinput. unfold body_start. rewrite <- Ho.
  repeat (rewrite ?length_app; simpl length). len_lia.
Qed.

(** The closing tag, once group 3 is recorded. *)
Lemma close_here c z :
  c (mkState (body_start o name + length body + 2 + length name + 1)
       [Some (o + 1, o + 1 + length name); None;
        Some (body_start o name, body_start o name + length body); None; None])
  = Some z ->
  matcher input false (Seq (Alt CLOSE EndAnchor) Empty)
    (mkState (body_start o name + length body)
       [Some (o + 1, o + 1 + length name); None;
        Some (body_start o name, body_start o name + length body); None; None]) c
  = Some z.
Proof.
  intros Hc. rewrite matcher_Seq, matcher_Alt.
  unfold CLOSE, seq. cbn [fold_right]. rewrite matcher_Seq.
  change (lit "</") with (chars_of (js "</")).
  rewrite (lit_step input (js "</") _ _ (name ++ 62%N :: post)) by exact closed_at_close.
  change (length (js "</")) with 2.
  rewrite matcher_Seq.
  rewrite (backref_step input 1 (o + 1) (length name)); [|reflexivity|].
  2:{ apply (backref_ok_true input name _ _
               (62%N :: body ++ 60%N :: 47%N :: name ++ 62%N :: post) (62%N :: post));
        [exact closed_at_name | exact closed_at_close_name]. }
  rewrite matcher_Seq. change (lit ">") with (chars_of (js ">")).
  rewrite (lit_step input (js ">") _ _ post) by exact closed_at_close_gt.
  change (length (js ">")) with 1.
  rewrite !matcher_Empty, Hc. reflexivity.
Qed.

Lemma body_not_lt : Forall (fun a => charset_mem false NOT_LT a = true) body.
Proof.
  eapply List.Forall_impl; [|apply not_includes_lt; exact Hbody].
  intros a Ha. rewrite not_lt_mem, N.eqb_sym, Ha. reflexivity.
Qed.

(** The inner text and the closing tag. *)
Lemma body_closed c z :
  c (mkState (body_start o name + length body + 2 + length name + 1)
       [Some (o + 1, o + 1 + length name); None;
        Some (body_start o name, body_start o name + length body); None; None])
  = Some z ->
  matcher input false BODY (mkState (body_start o name) (caps1 o name)) c = Some z.
Proof.
  intros Hc. unfold BODY, seq. cbn [fold_right].
  rewrite matcher_Seq, matcher_Group, matcher_Seq.
  unfold star, ncls. rewrite matcher_star. cbn [parens endIndex].
  pose proof closed_length as HL.
  apply (greedy_run input _ body (body_start o name) (60%N :: 47%N :: name ++ 62%N :: post)).
  - exact closed_at_body.
  - exact body_not_lt.
  - rewrite not_lt_mem. reflexivity.
  - len_lia.
  - rewrite matcher_Seq. unfold star_lazy. rewrite matcher_star.
    apply lazy_stop. rewrite matcher_Empty. cbn [endIndex].
    unfold set_capture. cbn [endIndex captures caps1 set_nth Nat.sub].
    apply close_here. exact Hc.
Qed.

(** The match of the closed tag: from its "<" to the ">" of its closing
    tag, group 1 the name, group 3 the inner text. *)
Lemma closed_match :
  match_at TAG_REGEX input o
  = Some (mkMatch o (body_start o name + length body + 2 + length name + 1)
            [Some (o + 1, o + 1 + length name); None;
             Some (body_start o name, body_start o name + length body); None; None]).
Proof.
  unfold match_at. cbn [pattern flag_i ngroups TAG_REGEX repeat].
  rewrite matcher_Alt.
  assert (E : matcher input false (seq [lit "<"; Group 1 TAG_NAMES; ATTRS; lit ">"; opt BODY])
                (mkState o [None; None; None; None; None]) (fun y => Some y)
              = Some (mkState (body_start o name + length body + 2 + length name + 1)
                        [Some (o + 1, o + 1 + length name); None;
                         Some (body_start o name, body_start o name + length body);
                         None; None])).
  { unfold seq. cbn [fold_right]. rewrite matcher_Seq.
    change (lit "<") with (chars_of (js "<")).
    rewrite (lit_step input (js "<") o _ _ _ closed_at_lt).
    change (length (js "<")) with 1.
    rewrite matcher_Seq, matcher_Group.
    apply (names_step input name (o + 1) _ _ _ _ Hname closed_at_name).
    cbn [endIndex]. unfold set_capture. cbn [captures endIndex set_nth Nat.sub].
    rewrite matcher_Seq. unfold ATTRS. rewrite opt_skip.
    2:{ intros d. apply blocked_sound. rewrite endIndex_clear_captures. cbn [endIndex].
        rewrite (nth_error_skipn_cons input _ _ _ closed_at_gt). reflexivity. }
    rewrite matcher_Seq. change (lit ">") with (chars_of (js ">")).
    rewrite (lit_step input (js ">") (o + 1 + length name) _ _ _ closed_at_gt).
    change (length (js ">")) with 1.
    replace (o + 1 + length name + 1) with (body_start o name)
      by (unfold body_start; len_lia).
    rewrite matcher_Seq. pose proof closed_length as HL.
    apply opt_take.
    - cbn [endIndex]. len_lia.
    - change (parens BODY) with [3].
      change (clear_captures [3]
                (mkState (body_start o name)
                   [Some (o + 1, o + 1 + length name); None; None; None; None]))
        with (mkState (body_start o name) (caps1 o name)).
      apply body_closed. cbn [endIndex].
      replace (body_start o name + length body + 2 + length name + 1 =? body_start o name)
        with false by (symmetry; apply Nat.eqb_neq; lia).
      rewrite matcher_Empty. reflexivity. }
  rewrite E. reflexivity.
Qed.

End ClosedTag.

Section ClosedParse.

Lemma search_none_from re input n : forall i,
  (forall j, i <= j -> match_at re input j = None) -> search re input n i = None.
Proof.
  induction n as [|n IH]; intros i H; simpl; [reflexivity|].
  rewrite H by lia. apply IH. intros j Hj. apply H. lia.
Qed.

Lemma exec_none_from re input i :
  (forall j, i <= j -> match_at re input j = None) -> exec re input i = (None, 0).
Proof.
  intros H. unfold exec. destruct (length input <? i); [reflexivity|].
  rewrite search_none_from by exact H. reflexivity.
Qed.

Lemma push_text_app ps text : push_text ps text = ps ++ push_text [] text.
Proof.
  unfold push_text. destruct (truthy (trim text)); [reflexivity|].
  symmetry. apply app_nil_r.
Qed.

Lemma endsWith_app (a b : str) : endsWith (a ++ b) b = true.
Proof. unfold endsWith. rewrite rev_app_distr. apply startsWith_app. Qed.

Lemma closed_input (pre name body post : str) :
  pre ++ closed_tag name body ++ post
  = pre ++ 60%N :: name ++ 62%N :: body ++ 60%N :: 47%N :: name ++ 62%N :: post.
Proof.
  unfold closed_tag. change (js "<") with [60%N]. change (js ">") with [62%N].
  change (js "</") with [60%N; 47%N]. rewrite <- !app_assoc. reflexivity.
Qed.

Lemma closed_tag_length (name body : str) :
  length (closed_tag name body) = length name + length body + length name + 5.
Proof.
  unfold closed_tag. repeat (rewrite ?length_app; simpl length). len_lia.
Qed.

(** No tag starts in a text without "<" that follows the position
    [from] of the buffer. *)
Lemma no_match_after (front post : str) j :
  includes post (js "<") = false -> length front <= j ->
  match_at TAG_REGEX (front ++ post) j = None.
Proof.
  intros H Hj. apply (blocked_match_at (front ++ post) false); [reflexivity|].
  rewrite nth_error_app2 by exact Hj.
  destruct (nth_error post (j - length front)) as [a|] eqn:E; [|reflexivity].
  apply tag_blocked. apply nth_error_In in E.
  pose proof (not_includes_lt post H) as Hall.
  rewrite List.Forall_forall in Hall. apply Hall. exact E.
Qed.

Lemma no_match_before (pre rest : str) i :
  includes pre (js "<") = false -> i < length pre ->
  match_at TAG_REGEX (pre ++ rest) i = None.
Proof.
  intros H Hi. apply (blocked_match_at (pre ++ rest) false); [reflexivity|].
  rewrite nth_error_app1 by exact Hi.
  destruct (nth_error pre i) as [a|] eqn:E.
  - apply tag_blocked. apply nth_error_In in E.
    pose proof (not_includes_lt pre H) as Hall.
    rewrite List.Forall_forall in Hall. apply Hall. exact E.
  - apply nth_error_None in E. lia.
Qed.

(** A buffer made of a text without "<", a closed tag whose inner text
    has no "<", and another text without "<": what the loop and the
    final cleaning make of it, given the parts pushed for the tag. *)
Lemma closed_parse (pre name body post : str) (new : list part) :
  In name tag_names ->
  includes pre (js "<") = false ->
  includes body (js "<") = false ->
  includes post (js "<") = false ->
  length (pre ++ closed_tag name body ++ post) <= MAX_CONTENT_LENGTH ->
  (forall c : gmap str RegExp,
     tag_parts (pre ++ closed_tag name body ++ post)
       (mkMatch (length pre)
          (body_start (length pre) name + length body + 2 + length name + 1)
          [Some (length pre + 1, length pre + 1 + length name); None;
           Some (body_start (length pre) name, body_start (length pre) name + length body);
           None; None]) c
     = (Returns new, c)) ->
  parse (pre ++ closed_tag name body ++ post)
  = Returns (text_parts pre ++ List.filter keep_part (List.map clean_part new)
             ++ text_parts post).
Proof.
  intros Hname Hpre Hbody Hpost Hlen Hparts.
  set (input := pre ++ closed_tag name body ++ post) in *.
  set (o := length pre) in *.
  set (stop_ := body_start o name + length body + 2 + length name + 1) in *.
  assert (Hinput : input
            = pre ++ 60%N :: name ++ 62%N :: body ++ 60%N :: 47%N :: name ++ 62%N :: post)
    by apply closed_input.
  assert (HL : length input = stop_ + length post)
    by (apply (closed_length pre name body post input Hinput o eq_refl)).
  assert (Hfront : input = (pre ++ closed_tag name body) ++ post)
    by (unfold input; rewrite <- app_assoc; reflexivity).
  assert (Lfront : length (pre ++ closed_tag name body) = stop_).
  { rewrite length_app, closed_tag_length. unfold stop_, body_start. fold o. lia. }
  unfold parse, parseMessageContent. rewrite guard_is_blank.
  replace (blank input) with false by (rewrite Hinput; symmetry; apply blank_with_lt).
  unfold parse_body. rewrite capped_eq.
  replace (capped input) with input
    by (unfold capped, substring0; symmetry; apply firstn_all2; exact Hlen).
  assert (Hiter : exists k, MAX_ITERATIONS = S k).
  { exists (pred MAX_ITERATIONS). symmetry. apply Nat.succ_pred.
    apply Nat.eqb_neq. vm_compute. reflexivity. }
  destruct Hiter as [k ->].
  unfold bind at 1. rewrite scan_tags_S. cbn [regexLastIndex lastIndex parts].
  match type of Hparts with
  | forall c, tag_parts _ ?mm c = _ => set (m := mm) in *
  end.
  assert (Hole : o <= length input) by (rewrite HL; unfold stop_, body_start; len_lia).
  assert (Hexec : exec TAG_REGEX input 0 = (Some m, stop_)).
  { unfold exec. replace (length input <? 0) with false by reflexivity.
    rewrite Nat.sub_0_r.
    replace (S (length input)) with (o + S (length input - o)) by lia.
    rewrite search_skip.
    - rewrite (search_hit _ _ _ _ m); [reflexivity|].
      apply (closed_match pre name body post Hname Hbody input Hinput o eq_refl).
    - intros i Hi. unfold input. apply no_match_before; [exact Hpre | fold o; lia]. }
  rewrite Hexec.
  assert (Hm : length (matched input m) = stop_ - o).
  { apply length_matched. unfold m. cbn [index stop]. rewrite HL.
    unfold stop_, body_start. len_lia. }
  rewrite Hm.
  replace (stop_ - o =? 0) with false
    by (symmetry; apply Nat.eqb_neq; unfold stop_, body_start; lia).
  rewrite andb_false_r. unfold bind. rewrite Hparts.
  rewrite scan_tags_none.
  2:{ cbn [regexLastIndex]. apply exec_none_from. intros j Hj.
      rewrite Hfront. apply no_match_after; [exact Hpost | rewrite Lfront; exact Hj]. }
  cbn [parts lastIndex index]. unfold m at 1. cbn [index].
  assert (Hs : slice input 0 o = pre).
  { rewrite Hinput.
    change (pre ++ 60%N :: name ++ 62%N :: body ++ 60%N :: 47%N :: name ++ 62%N :: post)
      with ([] ++ pre ++ 60%N :: name ++ 62%N :: body ++ 60%N :: 47%N :: name ++ 62%N :: post).
    apply slice_prefix; reflexivity. }
  assert (Hr : slice_from input stop_ = post).
  { unfold slice_from. rewrite Hfront. apply skipn_prefix. exact Lfront. }
  rewrite Hs, Hr. unfold ret. cbn [fst].
  rewrite (push_text_app (push_text [] pre ++ new) post).
  unfold text_parts. rewrite !map_app, !List.filter_app, <- app_assoc. reflexivity.
Qed.

(** What the loop reads off the match of a closed tag. *)
Lemma closed_groups (pre name body post : str) :
  let input := pre ++ closed_tag name body ++ post in
  let m := mkMatch (length pre)
             (body_start (length pre) name + length body + 2 + length name + 1)
             [Some (length pre + 1, length pre + 1 + length name); None;
              Some (body_start (length pre) name,
                    body_start (length pre) name + length body);
              None; None] in
  matched input m = closed_tag name body
  /\ group input m 1 = Some name
  /\ group input m 2 = None
  /\ group input m 3 = Some body
  /\ group input m 4 = None.
Proof.
  cbv zeta. unfold matched, group. cbn [index stop groups nth Nat.sub].
  repeat split.
  - apply slice_prefix; [reflexivity|]. rewrite closed_tag_length.
    unfold body_start. lia.
  - f_equal. rewrite closed_input.
    change (pre ++ 60%N :: name ++ 62%N :: body ++ 60%N :: 47%N :: name ++ 62%N :: post)
      with (pre ++ [60%N] ++ name ++ 62%N :: body ++ 60%N :: 47%N :: name ++ 62%N :: post).
    rewrite app_assoc. apply slice_prefix; [rewrite length_app; reflexivity | lia].
  - f_equal. rewrite closed_input.
    replace (pre ++ 60%N :: name ++ 62%N :: body ++ 60%N :: 47%N :: name ++ 62%N :: post)
      with ((pre ++ 60%N :: name ++ [62%N]) ++ body ++ 60%N :: 47%N :: name ++ 62%N :: post).
    + apply slice_prefix; [|reflexivity].
      unfold body_start. repeat (rewrite ?length_app; simpl length). len_lia.
    + rewrite <- !app_assoc. simpl. rewrite <- app_assoc. reflexivity.
Qed.

Lemma tag_name_kept name g :
  In name tag_names -> js_or (Some name) g = Some name.
Proof. intros [<-|[<-|[<-|[<-|[<-|[<-|[<-|[]]]]]]]]; reflexivity. Qed.

End ClosedParse.

Section ClosedKinds.

Variable pre name body post : str.
Hypothesis Hname : In name tag_names.

Lemma closed_ends : endsWith (closed_tag name body) (js "</" ++ name ++ js ">") = true.
Proof.
  unfold closed_tag.
  replace (js "<" ++ name ++ js ">" ++ body ++ js "</" ++ name ++ js ">")
    with ((js "<" ++ name ++ js ">" ++ body) ++ (js "</" ++ name ++ js ">")).
  - apply endsWith_app.
  - rewrite <- !app_assoc. reflexivity.
Qed.

(** The if / else-if chain on the match of a closed tag: the type is
    the name, there are no attributes, the inner text is [body]. *)
Lemma closed_tag_parts c :
  tag_parts (pre ++ closed_tag name body ++ post)
    (mkMatch (length pre)
       (body_start (length pre) name + length body + 2 + length name + 1)
       [Some (length pre + 1, length pre + 1 + length name); None;
        Some (body_start (length pre) name, body_start (length pre) name + length body);
        None; None]) c
  = (if str_eqb name (js "thought") || str_eqb name (js "think") then
       ret [mkPart Thought body (Some false)]
     else if str_eqb name (js "tool_call") || str_eqb name (js "tool") then
       ret [mkPart Tool body None]
     else if str_eqb name (js "tool_pending") then pending_parts None
     else if str_eqb name (js "tool_result") then ret []
     else if str_eqb name (js "answer") then ret [mkPart Text body None]
     else ret []) c.
Proof.
  destruct (closed_groups pre name body post) as [G0 [G1 [G2 [G3 G4]]]].
  cbv zeta in G0, G1, G2, G3, G4.
  unfold tag_parts. rewrite G0, G1, G2, G3, G4.
  rewrite (tag_name_kept name None Hname).
  change (or_empty (js_or None (Some []))) with (@nil char).
  rewrite or_empty_inner. cbn [or_empty]. rewrite closed_ends. cbn [negb].
  change (js_or None (group (pre ++ closed_tag name body ++ post) _ 5)) with (@None str).
  destruct (str_eqb name (js "thought") || str_eqb name (js "think")); [reflexivity|].
  destruct (str_eqb name (js "tool_call") || str_eqb name (js "tool")) eqn:T;
    [|reflexivity].
  unfold toolContent. change (includes [] (js "name=")) with false.
  rewrite andb_false_r. reflexivity.
Qed.

End ClosedKinds.









(* ===================================================================== *)
(** ** Replacement texts *)
(* ===================================================================== *)

Section ReplaceFacts.

Lemma GetSubstitution_plain input m (template : str) :
  Forall (fun c => N.eqb c 36 = false) template ->
  GetSubstitution input m template = template.
Proof.
  induction template as [|c t IH]; intros H; [reflexivity|].
  inversion H as [|? ? Hc Ht]; subst. cbn [GetSubstitution]. rewrite Hc. cbn [negb].
  rewrite IH by exact Ht. reflexivity.
Qed.

Lemma no_dollar (value : str) :
  includes value (js "$") = false -> Forall (fun c => N.eqb c 36 = false) value.
Proof.
  induction value as [|c v IH]; intros H; [constructor|].
  change (includes (c :: v) (js "$"))
    with ((N.eqb 36 c && startsWith v []) || includes v (js "$")) in H.
  apply orb_false_elim in H. destruct H as [H1 H2].
  rewrite startsWith_nil, andb_true_r in H1.
  constructor; [rewrite N.eqb_sym; exact H1 | apply IH; exact H2].
Qed.

Lemma skipn_split (s : str) a b : a <= b -> skipn a s = slice s a b ++ skipn b s.
Proof.
  intros H. unfold slice. replace (skipn b s) with (skipn (b - a) (skipn a s)).
  - symmetry. apply firstn_skipn.
  - rewrite skipn_skipn. f_equal. lia.
Qed.

(** The matches [all_matches] lists from [lastIndex] on start at or
    after it, lie inside the input, and are matches. *)
Lemma all_matches_sound re input fuel : forall lastIndex m,
  In m (all_matches re input fuel lastIndex) ->
  lastIndex <= index m /\ match_at re input (index m) = Some m.
Proof.
  induction fuel as [|fuel IH]; intros li m H; [destruct H|].
  simpl in H. destruct (exec re input li) as [[m'|] next] eqn:E; [|destruct H].
  apply exec_found in E. destruct E as [E1 [E2 [E3 [-> E5]]]].
  destruct H as [<-|H]; [split; assumption|].
  apply IH in H. destruct H as [H1 H2]. split; [|exact H2].
  destruct (stop m' =? index m'); lia.
Qed.

(** With "$&" as replacement text every match is replaced by itself. *)
Lemma substitute_self re input fuel : forall lastIndex pos,
  pos <= lastIndex -> pos <= length input ->
  substitute_matches input (js "$&") (all_matches re input fuel lastIndex) pos
  = skipn pos input.
Proof.
  induction fuel as [|fuel IH]; intros li pos Hp Hl; [reflexivity|].
  simpl all_matches. destruct (exec re input li) as [[m|] next] eqn:E; [|reflexivity].
  apply exec_found in E. destruct E as [E1 [E2 [E3 [-> E5]]]].
  cbn [substitute_matches].
  replace (pos <=? index m) with true by (symmetry; apply Nat.leb_le; lia).
  rewrite IH by (destruct (stop m =? index m); lia).
  change (GetSubstitution input m (js "$&")) with (matched input m ++ []).
  rewrite app_nil_r. unfold matched.
  rewrite (skipn_split input pos (index m)) by lia.
  rewrite (skipn_split input (index m) (stop m)) by lia. reflexivity.
Qed.

Lemma replace_by_self re (input : str) : replace_all input re (js "$&") = input.
Proof. unfold replace_all, matchAll. apply (substitute_self re input _ 0 0); lia. Qed.

End ReplaceFacts.

(* ===================================================================== *)
(** ** Escaping a key and compiling its pattern *)
(* ===================================================================== *)

Section EscapeFacts.
Import Template.

Lemma syntax_class_mem (a : char) :
  charset_mem false
    (mkSet [span "." "."; span "*" "*"; span "+" "+"; span "?" "?"; span "^" "^";
            span "$" "$"; span "{" "{"; span "}" "}"; span "(" "("; span ")" ")";
            span "|" "|"; span "[" "["; span "]" "]"; span "\" "\"] false) a
  = is_syntax_char a.
Proof.
  unfold charset_mem, canon, in_ranges, is_syntax_char, span.
  cbn [negated ranges andb existsb xorb ch char_of_ascii N_of_ascii N_of_digits].
  rewrite xorb_false_r. apply eq_true_iff_eq.
  rewrite !orb_true_iff, !andb_true_iff, !N.leb_le, !N.eqb_eq. lia.
Qed.

Lemma syntax_match_at (s : str) i :
  match_at SYNTAX_CHAR_REGEX s i =
  match nth_error s i with
  | Some a => if is_syntax_char a then Some (mkMatch i (i + 1) []) else None
  | None => None
  end.
Proof.
  unfold match_at, SYNTAX_CHAR_REGEX, cls.
  cbn [pattern flag_i ngroups repeat matcher endIndex].
  destruct (nth_error s i) as [a|]; [|reflexivity].
  rewrite syntax_class_mem. destruct (is_syntax_char a); reflexivity.
Qed.

Local Notation "'esc'" := (fun c : char => if is_syntax_char c then [92%N; c] else [c])
  (only parsing).

(** The first syntax character found from [i] on, with what lies before
    it. *)
Lemma search_syntax (s : str) n : forall i,
  length s < i + n ->
  match search SYNTAX_CHAR_REGEX s n i with
  | None => flat_map esc (skipn i s) = skipn i s
  | Some m =>
      i <= index m /\ stop m = index m + 1 /\ index m < length s
      /\ flat_map esc (skipn i s)
         = slice s i (index m) ++ 92%N :: matched s m
           ++ flat_map esc (skipn (index m + 1) s)
  end.
Proof.
  induction n as [|n IH]; intros i H.
  - simpl. rewrite skipn_all2 by lia. reflexivity.
  - simpl. rewrite syntax_match_at. destruct (nth_error s i) as [a|] eqn:E.
    + assert (Hi : i < length s) by (apply nth_error_Some; congruence).
      rewrite (skipn_cons_nth s i a E). destruct (is_syntax_char a) eqn:Ea.
      * cbn [index stop]. repeat split; try lia.
        unfold matched. cbn [index stop].
        rewrite (slice_cons_nth s i (i + 1) a E) by lia.
        unfold slice. rewrite Nat.sub_diag. replace (i + 1 - S i) with 0 by lia.
        cbn [firstn flat_map app]. rewrite Ea. rewrite Nat.add_1_r. reflexivity.
      * specialize (IH (S i)). destruct (search SYNTAX_CHAR_REGEX s n (S i)) as [m|].
        -- destruct IH as [H1 [H2 [H3 H4]]]; [lia|]. repeat split; try lia.
           cbn [flat_map]. rewrite Ea, H4.
           rewrite (slice_cons_nth s i (index m) a E) by lia. reflexivity.
        -- cbn [flat_map]. rewrite Ea, IH by lia. reflexivity.
    + apply nth_error_None in E.
      specialize (IH (S i)). rewrite skipn_all2 by lia.
      destruct (search SYNTAX_CHAR_REGEX s n (S i)) as [m|].
      * destruct IH as [H1 [H2 [H3 H4]]]; lia.
      * reflexivity.
Qed.

Lemma escape_from (s : str) fuel : forall i,
  i <= length s -> length s - i < fuel ->
  substitute_matches s (92%N :: js "$&") (all_matches SYNTAX_CHAR_REGEX s fuel i) i
  = flat_map esc (skipn i s).
Proof.
  induction fuel as [|fuel IH]; intros i Hi Hf; [lia|].
  simpl all_matches. unfold exec.
  replace (length s <? i) with false by (symmetry; apply Nat.ltb_ge; exact Hi).
  pose proof (search_syntax s (S (length s - i)) i) as Hs.
  destruct (search SYNTAX_CHAR_REGEX s (S (length s - i)) i) as [m|].
  - destruct Hs as [H1 [H2 [H3 H4]]]; [lia|].
    replace (stop m =? index m) with false by (symmetry; apply Nat.eqb_neq; lia).
    cbn [substitute_matches].
    replace (i <=? index m) with true by (symmetry; apply Nat.leb_le; exact H1).
    change (GetSubstitution s m (92%N :: js "$&")) with (92%N :: matched s m ++ []).
    rewrite app_nil_r, H4, H2. f_equal. cbn [app]. f_equal. f_equal. apply IH; lia.
  - cbn [substitute_matches]. unfold slice_from. symmetry. apply Hs. lia.
Qed.

(** Escaping puts a backslash before every syntax character and leaves
    the other characters as they are. *)
Lemma escapedKey_spec (key : str) : escapedKey key = flat_map esc key.
Proof.
  unfold escapedKey, replace_all, matchAll. apply (escape_from key _ 0); lia.
Qed.

Lemma backslash_is_syntax (c : char) : is_syntax_char c = false -> N.eqb c 92 = false.
Proof.
  intros H. destruct (N.eqb_spec c 92) as [->|]; [discriminate H | reflexivity].
Qed.

Lemma compile_escaped (key : str) : forall rest r,
  compile rest = Some r ->
  compile (flat_map esc key ++ rest)
  = Some (fold_right (fun c r => Seq (one c) r) r key).
Proof.
  induction key as [|c key IH]; intros rest r H; [exact H|].
  cbn [flat_map fold_right]. destruct (is_syntax_char c) eqn:E.
  - cbn [app compile]. rewrite N.eqb_refl, E, (IH rest r H). reflexivity.
  - cbn [app compile]. rewrite (backslash_is_syntax c E), E, (IH rest r H). reflexivity.
Qed.

Lemma chars_of_app (a b : str) :
  chars_of (a ++ b) = fold_right (fun c r => Seq (one c) r) (chars_of b) a.
Proof. unfold chars_of. apply fold_right_app. Qed.

Lemma placeholder_regex_spec (key : str) :
  placeholder_regex key = Some (mkRegExp (chars_of (placeholder key)) 0 false).
Proof.
  unfold placeholder_regex. rewrite escapedKey_spec.
  change (js "\[\[" ++ flat_map esc key ++ js "\]\]")
    with (92%N :: 91%N :: 92%N :: 91%N :: flat_map esc key ++ js "\]\]").
  cbn [compile]. change (N.eqb 92 92) with true. change (is_syntax_char 91%N) with true.
  cbv iota.
  rewrite (compile_escaped key (js "\]\]") (chars_of (js "]]"))) by reflexivity.
  unfold placeholder. rewrite <- chars_of_app. reflexivity.
Qed.

End EscapeFacts.

(* ===================================================================== *)
(** ** Replacing a literal *)
(* ===================================================================== *)

Section LiteralReplace.

Variable a0 : char.
Variable w' : str.
Variable value : str.
Hypothesis Hvalue : Forall (fun c => N.eqb c 36 = false) value.

Local Notation "'word'" := (a0 :: w') (only parsing).
Local Notation "'LITERAL'" := (mkRegExp (chars_of (a0 :: w')) 0 false) (only parsing).

(** A pattern that is a word matches exactly where the word stands. *)
Lemma literal_match_at (w s : str) i :
  match_at (mkRegExp (chars_of w) 0 false) s i
  = if startsWith (skipn i s) w then Some (mkMatch i (i + length w) []) else None.
Proof.
  unfold match_at. cbn [pattern flag_i ngroups repeat].
  destruct (startsWith (skipn i s) w) eqn:E.
  - apply startsWith_true in E. destruct E as [t E].
    rewrite (lit_step s w i [] t) by exact E. reflexivity.
  - rewrite lit_fail by exact E. reflexivity.
Qed.

Lemma replace_word_skip (w v : str) : forall (t : str) k,
  replace_word w v t k = replace_word w v (skipn k t) 0.
Proof.
  induction t as [|c t IH]; intros k.
  - rewrite skipn_nil. destruct k; reflexivity.
  - destruct k as [|k]; [reflexivity|]. cbn [replace_word skipn]. apply IH.
Qed.

Lemma search_word (s : str) n : forall i,
  length s < i + n ->
  match search LITERAL s n i with
  | None => replace_word word value (skipn i s) 0 = skipn i s
  | Some m =>
      i <= index m /\ stop m = index m + length word /\ stop m <= length s
      /\ replace_word word value (skipn i s) 0
         = slice s i (index m) ++ value ++ replace_word word value (skipn (stop m) s) 0
  end.
Proof.
  induction n as [|n IH]; intros i H.
  - simpl. rewrite skipn_all2 by lia. reflexivity.
  - cbn [search]. rewrite literal_match_at.
    destruct (startsWith (skipn i s) word) eqn:E.
    + cbn [index stop]. pose proof E as E'. apply startsWith_true in E'.
      destruct E' as [t Et].
      assert (Hlen : i + length word <= length s).
      { assert (L : length (skipn i s) = length (word ++ t)) by (rewrite Et; reflexivity).
        rewrite length_skipn, length_app in L.
        destruct (le_lt_dec i (length s)) as [Hi|Hi]; [simpl in *; len_lia|].
        rewrite skipn_all2 in Et by lia. discriminate Et. }
      repeat split; try lia.
      unfold slice. rewrite Nat.sub_diag. cbn [firstn app].
      rewrite Et in E |- *. cbn [app] in E |- *. cbn [replace_word]. rewrite E.
      apply (f_equal (app value)). rewrite replace_word_skip.
      replace (length (a0 :: w') - 1) with (length w') by (simpl; lia).
      rewrite skipn_app, skipn_all, Nat.sub_diag. cbn [skipn app].
      replace (i + length (a0 :: w')) with (i + 1 + length w') by (simpl; lia).
      rewrite (skipn_more s (i + 1) (length w') w' t); [reflexivity| |reflexivity].
      apply (skipn_next s i a0). exact Et.
    + destruct (nth_error s i) as [a|] eqn:Ea.
      * assert (Hi : i < length s) by (apply nth_error_Some; congruence).
        rewrite (skipn_cons_nth s i a Ea) in *.
        specialize (IH (S i)). destruct (search LITERAL s n (S i)) as [m|].
        -- destruct IH as [H1 [H2 [H3 H4]]]; [lia|]. repeat split; try lia.
           cbn [replace_word]. rewrite E, H4.
           rewrite (slice_cons_nth s i (index m) a Ea) by lia. reflexivity.
        -- cbn [replace_word]. rewrite E, IH by lia. reflexivity.
      * apply nth_error_None in Ea.
        specialize (IH (S i)). rewrite skipn_all2 by lia.
        destruct (search LITERAL s n (S i)) as [m|].
        -- destruct IH as [H1 [H2 [H3 H4]]]; simpl in *; lia.
        -- reflexivity.
Qed.

Lemma literal_from (s : str) fuel : forall i,
  i <= length s -> length s - i < fuel ->
  substitute_matches s value (all_matches LITERAL s fuel i) i
  = replace_word word value (skipn i s) 0.
Proof.
  induction fuel as [|fuel IH]; intros i Hi Hf; [lia|].
  cbn [all_matches]. unfold exec.
  replace (length s <? i) with false by (symmetry; apply Nat.ltb_ge; exact Hi).
  pose proof (search_word s (S (length s - i)) i) as Hs.
  destruct (search LITERAL s (S (length s - i)) i) as [m|].
  - destruct Hs as [H1 [H2 [H3 H4]]]; [lia|].
    replace (stop m =? index m) with false
      by (symmetry; apply Nat.eqb_neq; simpl in H2; lia).
    cbn [substitute_matches].
    replace (i <=? index m) with true by (symmetry; apply Nat.leb_le; exact H1).
    rewrite (GetSubstitution_plain s m value Hvalue), H4.
    f_equal. f_equal. apply IH; [exact H3 | simpl in H2; lia].
  - cbn [substitute_matches]. unfold slice_from. symmetry. apply Hs. lia.
Qed.

Lemma replace_literal (s : str) :
  replace_all s LITERAL value = replace_word word value s 0.
Proof. unfold replace_all, matchAll. apply (literal_from s _ 0); lia. Qed.

End LiteralReplace.

Section ConfirmFacts.
Import Template.

Lemma confirm_step (s : option str) (values : props str) :
  fold_left
    (fun substitutedContent kv =>
       match substitutedContent, placeholder_regex (fst kv) with
       | Some s, Some regex => Some (replace_all s regex (snd kv))
       | _, _ => None
       end) values s
  = match s with
    | Some s =>
        Some (fold_left
                (fun s kv =>
                   replace_all s (mkRegExp (chars_of (placeholder (fst kv))) 0 false) (snd kv))
                values s)
    | None => None
    end.
Proof.
  revert s. induction values as [|kv values IH]; intros s; [destruct s; reflexivity|].
  cbn [fold_left]. rewrite IH, placeholder_regex_spec. destruct s; reflexivity.
Qed.

Lemma confirm_spec (content : str) (values : props str) :
  handleVariableConfirm content values
  = Some (fold_left
            (fun s kv =>
               replace_all s (mkRegExp (chars_of (placeholder (fst kv))) 0 false) (snd kv))
            values content).
Proof. unfold handleVariableConfirm. apply confirm_step. Qed.

End ConfirmFacts.

(** X15.  Whatever code units a variable name holds, the expression
    handleVariableConfirm builds for it exists (new RegExp does not
    fail) and matches exactly where the text "[[name]]" stands: the
    escaping leaves no syntax character with a meaning of its own. *)
Theorem placeholder_regex_is_literal (key : str) :
  exists regex,
    Template.placeholder_regex key = Some regex
    /\ forall (s : str) i,
         match_at regex s i
         = if startsWith (skipn i s) (placeholder key)
           then Some (mkMatch i (i + length (placeholder key)) [])
           else None.
Proof.
  exists (mkRegExp (chars_of (placeholder key)) 0 false).
  split; [apply placeholder_regex_spec | intros s i; apply literal_match_at].
Qed.

(** X16.  With values that hold no "$", handleVariableConfirm replaces,
    entry after entry in the order of Object.entries, every occurrence
    of "[[key]]" by the value, verbatim, scanning left to right and
    skipping what it has replaced. *)
Theorem confirm_replaces_placeholders (content : str) (values : props str) :
  Forall (fun kv => includes (snd kv) (js "$") = false) values ->
  Template.handleVariableConfirm content values
  = Some (fold_left
            (fun s kv => replace_word (placeholder (fst kv)) (snd kv) s 0)
            values content).
Proof.
  intros H. rewrite confirm_spec. f_equal. revert content.
  induction H as [|kv values Hkv _ IH]; intros content; [reflexivity|].
  cbn [fold_left]. rewrite IH. f_equal.
  unfold placeholder. change (js "[[" ++ fst kv ++ js "]]")
    with (91%N :: (91%N :: fst kv ++ js "]]")).
  apply replace_literal. apply no_dollar. exact Hkv.
Qed.

Lemma confirm_replaces_placeholders_witness :
  let content := js "Translate [[text]] to [[lang]]; keep [[text]] short." in
  let values := [(js "text", js "the note"); (js "lang", js "French")] in
  Forall (fun kv => includes (snd kv) (js "$") = false) values
  /\ Template.handleVariableConfirm content values
     = Some (fold_left
               (fun s kv => replace_word (placeholder (fst kv)) (snd kv) s 0)
               values content)
  /\ Template.handleVariableConfirm content values
     = Some (js "Translate the note to French; keep the note short.").
Proof.
  split; [repeat constructor|]. split; [|vm_compute; reflexivity].
  apply (confirm_replaces_placeholders
           (js "Translate [[text]] to [[lang]]; keep [[text]] short.")
           [(js "text", js "the note"); (js "lang", js "French")]).
  repeat constructor.
Defined.

(** X17.  A value that is the text "$&" is not inserted: replace reads
    it as "the matched text", so every placeholder of every variable
    with this value stays in the content as it was. *)
Theorem dollar_ampersand_keeps_placeholder (content : str) (values : props str) :
  Forall (fun kv => snd kv = js "$&") values ->
  Template.handleVariableConfirm content values = Some content.
Proof.
  intros H. rewrite confirm_spec. f_equal. revert content.
  induction H as [|kv values Hkv _ IH]; intros content; [reflexivity|].
  cbn [fold_left]. rewrite Hkv, replace_by_self. apply IH.
Qed.

Lemma dollar_ampersand_keeps_placeholder_witness :
  Forall (fun kv : str * str => snd kv = js "$&") [(js "price", js "$&")]
  /\ Template.handleVariableConfirm (js "Pay [[price]] now") [(js "price", js "$&")]
     = Some (js "Pay [[price]] now").
Proof.
  split; [repeat constructor|].
  apply (dollar_ampersand_keeps_placeholder (js "Pay [[price]] now")
           [(js "price", js "$&")]).
  repeat constructor.
Defined.

(* ===================================================================== *)
(** ** The variables of a template *)
(* ===================================================================== *)

Section VariableFacts.
Import Template.

Lemma dot_mem (a : char) :
  charset_mem false (mkSet [(10, 10); (13, 13); (8232, 8233)]%N true) a
  = negb (is_line_terminator a).
Proof.
  unfold charset_mem, canon, in_ranges, is_line_terminator.
  cbn [negated ranges andb existsb]. rewrite xorb_true_r. f_equal.
  apply eq_true_iff_eq.
  rewrite !orb_true_iff, !andb_true_iff, !N.leb_le, !N.eqb_eq. lia.
Qed.

(** A lazy star over a class stops at the first position where the
    rest of the pattern matches; up to there every character is of the
    class. *)
Lemma lazy_chars_inv input cs : forall fuel e caps (c : Continuation) z,
  repeat_matcher (matcher input false (Chars cs)) [] false fuel 0 None (mkState e caps) c
  = Some z ->
  exists n, c (mkState (e + n) caps) = Some z
    /\ forall j, j < n ->
         c (mkState (e + j) caps) = None
         /\ exists a, nth_error input (e + j) = Some a /\ charset_mem false cs a = true.
Proof.
  induction fuel as [|fuel IH]; intros e caps c z H; [discriminate|].
  rewrite repeat_matcher_S in H. cbv zeta in H.
  cbn [Nat.eqb negb andb clear_captures fold_left option_map Nat.sub] in H.
  destruct (c (mkState e caps)) as [r|] eqn:E.
  - injection H as ->. exists 0. rewrite Nat.add_0_r. split; [exact E|]. intros j Hj. lia.
  - cbn [matcher endIndex] in H.
    destruct (nth_error input e) as [a|] eqn:Ea; [|discriminate].
    destruct (charset_mem false cs a) eqn:Ma; [|discriminate].
    unfold advance in H. cbn [endIndex captures] in H.
    replace (e + 1 =? e) with false in H by (symmetry; apply Nat.eqb_neq; lia).
    apply IH in H. destruct H as [n [Hn Hj]]. exists (S n). split.
    + replace (e + S n) with (e + 1 + n) by lia. exact Hn.
    + intros j Hlt. destruct j as [|j].
      * rewrite Nat.add_0_r. split; [exact E|]. exists a. split; assumption.
      * replace (e + S j) with (e + 1 + j) by lia. apply Hj. lia.
Qed.

Lemma startsWith_split (p q : str) : forall s : str,
  startsWith s (p ++ q) = startsWith s p && startsWith (skipn (length p) s) q.
Proof.
  induction p as [|x p IH]; intros s.
  - simpl. rewrite startsWith_nil. reflexivity.
  - destruct s as [|y s]; [reflexivity|]. simpl. rewrite IH. apply andb_assoc.
Qed.

Lemma startsWith_firstn_self (n : nat) : forall s : str, startsWith s (firstn n s) = true.
Proof.
  induction n as [|n IH]; intros s; [apply startsWith_nil|].
  destruct s as [|a s]; [reflexivity|]. simpl. rewrite N.eqb_refl. apply IH.
Qed.

Lemma includes_inv (p : str) : forall s : str,
  includes s p = true -> exists j, startsWith (skipn j s) p = true.
Proof.
  induction s as [|a s IH]; intros H; cbn [includes] in H.
  - rewrite orb_false_r in H. exists 0. exact H.
  - apply orb_prop in H. destruct H as [H|H].
    + exists 0. exact H.
    + destruct (IH H) as [j Hj]. exists (S j). exact Hj.
Qed.

Lemma Forall_firstn_skipn (P : char -> Prop) (s : str) : forall n e,
  (forall j, j < n -> exists a, nth_error s (e + j) = Some a /\ P a) ->
  Forall P (firstn n (skipn e s)).
Proof.
  induction n as [|n IH]; intros e H; [constructor|].
  destruct (H 0) as [a [Ea Pa]]; [lia|]. rewrite Nat.add_0_r in Ea.
  rewrite (skipn_cons_nth s e a Ea). cbn [firstn]. constructor; [exact Pa|].
  apply IH. intros j Hj. replace (S e + j) with (e + S j) by lia. apply H. lia.
Qed.

(** A match of the variable pattern: "[[", the shortest text that has
    no line terminator and is followed by "]]", and "]]". *)
Lemma variable_match content i m :
  match_at VARIABLE_REGEX content i = Some m ->
  exists n,
    startsWith (skipn i content) (js "[[") = true
    /\ group content m 1 = Some (slice content (i + 2) (i + 2 + n))
    /\ startsWith (skipn (i + 2 + n) content) (js "]]") = true
    /\ forall j, j < n ->
         startsWith (skipn (i + 2 + j) content) (js "]]") = false
         /\ exists a, nth_error content (i + 2 + j) = Some a
                      /\ is_line_terminator a = false.
Proof.
  unfold match_at. cbn [pattern flag_i ngroups VARIABLE_REGEX repeat].
  destruct (matcher content false _ _ _) as [z|] eqn:E; [|discriminate].
  intros H. injection H as <-.
  unfold seq in E. cbn [fold_right] in E. rewrite matcher_Seq in E.
  change (lit "[[") with (chars_of (js "[[")) in E.
  apply lit_inv in E. destruct E as [S0 E]. change (length (js "[[")) with 2 in E.
  rewrite matcher_Seq, matcher_Group in E.
  unfold star_lazy, dot, ncls in E. rewrite matcher_star in E.
  cbn [parens] in E. apply lazy_chars_inv in E. destruct E as [n [En Hj]].
  exists n. split; [exact S0|].
  cbn [endIndex] in En. unfold set_capture in En.
  cbn [endIndex captures set_nth Nat.sub] in En.
  rewrite matcher_Seq in En. change (lit "]]") with (chars_of (js "]]")) in En.
  apply lit_inv in En. destruct En as [S2 En]. rewrite matcher_Empty in En.
  injection En as <-. split; [reflexivity|]. split; [exact S2|].
  intros j Hlt. destruct (Hj j Hlt) as [Hnone [a [Ea Ma]]]. split.
  - cbn [endIndex] in Hnone. unfold set_capture in Hnone.
    cbn [endIndex captures set_nth Nat.sub] in Hnone.
    rewrite matcher_Seq in Hnone.
    destruct (startsWith (skipn (i + 2 + j) content) (js "]]")) eqn:S; [|reflexivity].
    apply startsWith_true in S. destruct S as [t S].
    change (lit "]]") with (chars_of (js "]]")) in Hnone.
    rewrite (lit_step content (js "]]") _ _ t _ S) in Hnone. discriminate Hnone.
  - exists a. split; [exact Ea|]. rewrite dot_mem in Ma.
    apply negb_true_iff in Ma. exact Ma.
Qed.

(** The name a match captures: its placeholder stands in the content,
    it holds no "]]" and no line terminator. *)
Lemma variable_of_match content i m :
  match_at VARIABLE_REGEX content i = Some m ->
  let v := or_empty (group content m 1) in
  includes content (placeholder v) = true
  /\ includes v (js "]]") = false
  /\ forallb (fun c => negb (is_line_terminator c)) v = true.
Proof.
  intros H. apply variable_match in H. destruct H as [n [S0 [G [S2 Hj]]]].
  cbv zeta. rewrite G. cbn [or_empty]. unfold slice.
  replace (i + 2 + n - (i + 2)) with n by lia.
  set (t := skipn (i + 2) content).
  assert (Ht : skipn 2 (skipn i content) = t)
    by (unfold t; rewrite skipn_skipn; f_equal; lia).
  assert (Hn : skipn n t = skipn (i + 2 + n) content)
    by (unfold t; rewrite skipn_skipn; f_equal; lia).
  assert (Hlen : length (firstn n t) = n).
  { rewrite length_firstn. apply Nat.min_l.
    destruct (le_lt_dec n (length t)) as [L|L]; [exact L|].
    rewrite <- Hn, skipn_all2 in S2 by lia. discriminate S2. }
  repeat split.
  - apply (includes_at _ content i). unfold placeholder.
    rewrite startsWith_split, S0. change (length (js "[[")) with 2. rewrite Ht.
    rewrite startsWith_split, startsWith_firstn_self, Hlen, Hn, S2. reflexivity.
  - destruct (includes (firstn n t) (js "]]")) eqn:I; [|reflexivity].
    apply includes_inv in I. destruct I as [j Sj].
    assert (Hlt : j < n).
    { destruct (le_lt_dec n j) as [L|L]; [|exact L].
      rewrite skipn_all2 in Sj by lia. discriminate Sj. }
    rewrite skipn_firstn_comm in Sj. apply startsWith_firstn in Sj.
    destruct (Hj j Hlt) as [Hno _].
    replace (skipn j t) with (skipn (i + 2 + j) content) in Sj
      by (unfold t; rewrite skipn_skipn; f_equal; lia).
    congruence.
  - apply forallb_forall. apply List.Forall_forall.
    apply Forall_firstn_skipn. intros j Hlt.
    destruct (Hj j Hlt) as [_ [a [Ea La]]]. exists a. split; [exact Ea|].
    rewrite La. reflexivity.
Qed.

Lemma set_add_In (x y : str) : forall s, In y (set_add x s) <-> y = x \/ In y s.
Proof.
  induction s as [|z s IH]; simpl.
  - intuition.
  - destruct (str_eqb x z) eqn:E.
    + apply str_eqb_eq in E. subst z. simpl. intuition.
    + simpl. rewrite IH. intuition.
Qed.

Lemma set_add_NoDup (x : str) : forall s, List.NoDup s -> List.NoDup (set_add x s).
Proof.
  induction s as [|z s IH]; intros H; simpl.
  - apply List.NoDup_cons; [intros [] | apply List.NoDup_nil].
  - destruct (str_eqb x z) eqn:E; [exact H|].
    apply str_eqb_neq in E. inversion H as [|? ? Hz Hs]; subst.
    apply List.NoDup_cons; [|apply IH; exact Hs].
    rewrite set_add_In. intros [->|Hin]; [congruence | exact (Hz Hin)].
Qed.

Lemma new_Set_from (l : list str) : forall acc,
  List.NoDup acc ->
  List.NoDup (fold_left (fun s x => set_add x s) l acc)
  /\ forall v, In v (fold_left (fun s x => set_add x s) l acc) <-> In v l \/ In v acc.
Proof.
  induction l as [|x l IH]; intros acc H; simpl.
  - split; [exact H | intuition].
  - destruct (IH (set_add x acc) (set_add_NoDup x acc H)) as [N I].
    split; [exact N|]. intros v. rewrite I, set_add_In. intuition.
Qed.

End VariableFacts.

(** X18.  The variables handleSelectPrompt hands to the modal are
    pairwise distinct, and each of them is a name whose placeholder
    "[[name]]" stands in the content of the prompt, with no "]]" and no
    line terminator inside the name. *)
Theorem extracted_variables (content : str) (v : str) :
  In v (Template.uniqueVars content) ->
  List.NoDup (Template.uniqueVars content)
  /\ includes content (placeholder v) = true
  /\ includes v (js "]]") = false
  /\ forallb (fun c => negb (is_line_terminator c)) v = true.
Proof.
  unfold Template.uniqueVars, Template.new_Set. intros H.
  destruct (new_Set_from
              (List.map (fun m => or_empty (group content m 1))
                        (matchAll Template.VARIABLE_REGEX content)) [] (List.NoDup_nil _))
    as [N I].
  split; [exact N|]. apply I in H. destruct H as [H|[]].
  apply in_map_iff in H. destruct H as [m [<- Hm]].
  unfold matchAll in Hm. apply all_matches_sound in Hm. destruct Hm as [_ Hm].
  exact (variable_of_match content (index m) m Hm).
Qed.

Lemma extracted_variables_witness :
  let content := js "Translate [[text]] to [[lang]]; keep [[text]] short and [[a]b]]" in
  Template.uniqueVars content = [js "text"; js "lang"; js "a]b"]
  /\ In (js "lang") (Template.uniqueVars content)
  /\ List.NoDup (Template.uniqueVars content)
  /\ includes content (placeholder (js "lang")) = true
  /\ includes (js "lang") (js "]]") = false
  /\ forallb (fun c => negb (is_line_terminator c)) (js "lang") = true.
Proof.
  split; [vm_compute; reflexivity|].
  split; [vm_compute; tauto|].
  apply (extracted_variables
           (js "Translate [[text]] to [[lang]]; keep [[text]] short and [[a]b]]")
           (js "lang")).
  vm_compute. tauto.
Defined.

(* ===================================================================== *)
(** ** getAttr *)
(* ===================================================================== *)

Section AttrFacts.

Lemma getAttr_eq (t name : str) (c : gmap str RegExp) :
  cache_ok c ->
  fst (getAttr (Some t) name c)
  = Returns match match_first (attr_regex name) t with
            | Some m => group t m 1
            | None => None
            end.
Proof.
  intros Hc. unfold getAttr. destruct (c !! name) as [re|] eqn:E; [|reflexivity].
  apply Hc in E. subst re. reflexivity.
Qed.

(** The pattern of an attribute matches only where the name and "="
    stand. *)
Lemma attr_match_needs_name (name t : str) j m :
  match_at (attr_regex name) t j = Some m ->
  startsWith (skipn j t) (name ++ js "=") = true.
Proof.
  unfold match_at. cbn [pattern flag_i ngroups attr_regex repeat].
  destruct (matcher t false _ _ _) as [z|] eqn:E; [|discriminate]. intros _.
  unfold seq in E. cbn [fold_right] in E. rewrite matcher_Seq in E.
  apply lit_inv in E. destruct E as [S1 E]. rewrite matcher_Seq in E.
  change (lit "=") with (chars_of (js "=")) in E. apply lit_inv in E.
  destruct E as [S2 _]. rewrite startsWith_split, S1.
  rewrite skipn_skipn, Nat.add_comm. exact S2.
Qed.

Lemma startsWith_within (p : str) : forall a b : str,
  length p <= length a -> startsWith (a ++ b) p = startsWith a p.
Proof.
  induction p as [|x p IH]; intros a b H; [rewrite !startsWith_nil; reflexivity|].
  destruct a as [|y a]; [simpl in H; lia|]. simpl. rewrite IH by (simpl in H; lia).
  reflexivity.
Qed.

Lemma quote_mem (a : char) :
  charset_mem false (mkSet [(DQUOTE, DQUOTE); span "'" "'"] false) a
  = N.eqb a 34 || N.eqb a 39.
Proof.
  unfold charset_mem, canon, in_ranges, span, DQUOTE.
  cbn [negated ranges andb existsb xorb ch char_of_ascii N_of_ascii N_of_digits].
  rewrite xorb_false_r. apply eq_true_iff_eq.
  rewrite !orb_true_iff, !andb_true_iff, !N.leb_le, !N.eqb_eq. lia.
Qed.

(** A lazy star over a class runs through the characters of the class
    as long as the rest of the pattern does not match, and stops where
    it does. *)
Lemma lazy_chars_run input cs (run : str) : forall e rest caps fuel (K : Continuation) z,
  skipn e input = run ++ rest ->
  Forall (fun a => charset_mem false cs a = true) run ->
  (forall j, j < length run -> K (mkState (e + j) caps) = None) ->
  K (mkState (e + length run) caps) = Some z ->
  length run < fuel ->
  repeat_matcher (matcher input false (Chars cs)) [] false fuel 0 None (mkState e caps) K
  = Some z.
Proof.
  induction run as [|a run IH]; intros e rest caps fuel K z H Hrun Hno Hend Hf;
    (destruct fuel as [|fuel]; [simpl in Hf; lia|]); rewrite repeat_matcher_S;
    cbv zeta; cbn [Nat.eqb negb andb clear_captures fold_left option_map Nat.sub].
  - simpl in Hend. rewrite Nat.add_0_r in Hend. rewrite Hend. reflexivity.
  - assert (H0 : K (mkState e caps) = None).
    { rewrite <- (Hno 0) by (simpl; lia). rewrite Nat.add_0_r. reflexivity. }
    rewrite H0.
    inversion Hrun as [|? ? Ha Hrun']; subst.
    rewrite (chars_step input cs e caps a (run ++ rest)) by assumption.
    cbn [endIndex]. replace (e + 1 =? e) with false by (symmetry; apply Nat.eqb_neq; lia).
    apply (IH (e + 1) rest); try assumption.
    + apply (skipn_next input e a). exact H.
    + intros j Hj. replace (e + 1 + j) with (e + S j) by lia. apply Hno. simpl. lia.
    + replace (e + 1 + length run) with (e + length (a :: run)) by (simpl; lia).
      exact Hend.
    + simpl in Hf. lia.
Qed.

End AttrFacts.

Section AttrValue.

Variable pre name v rest : str.
Variable q1 q2 : char.
Hypothesis Hq1 : N.eqb q1 34 || N.eqb q1 39 = true.
Hypothesis Hq2 : N.eqb q2 34 || N.eqb q2 39 = true.
Hypothesis Hv :
  forallb (fun a => negb (N.eqb a 34 || N.eqb a 39 || is_line_terminator a)) v = true.

Variable t : str.
Hypothesis Ht : t = pre ++ name ++ 61%N :: q1 :: v ++ q2 :: rest.

Variable o : nat.
Hypothesis Ho : length pre = o.

Lemma attr_at_name : skipn o t = name ++ 61%N :: q1 :: v ++ q2 :: rest.
Proof. rewrite Ht. apply skipn_prefix. exact Ho. Qed.

Lemma attr_at_eq : skipn (o + length name) t = 61%N :: q1 :: v ++ q2 :: rest.
Proof. apply (skipn_more t o (length name) name); [exact attr_at_name | reflexivity]. Qed.

Lemma attr_at_quote : skipn (o + length name + 1) t = q1 :: v ++ q2 :: rest.
Proof. apply (skipn_next t _ 61%N). exact attr_at_eq. Qed.

Lemma attr_at_value : skipn (o + length name + 1 + 1) t = v ++ q2 :: rest.
Proof. apply (skipn_next t _ q1). exact attr_at_quote. Qed.

Lemma value_chars :
  Forall (fun a => charset_mem false (mkSet [(10, 10); (13, 13); (8232, 8233)]%N true) a = true
                   /\ N.eqb a 34 || N.eqb a 39 = false) v.
Proof.
  apply List.Forall_forall. intros a Ha.
  rewrite forallb_forall in Hv. specialize (Hv a Ha).
  apply negb_true_iff in Hv. apply orb_false_elim in Hv. destruct Hv as [Hq Hl].
  rewrite dot_mem, Hl. split; [reflexivity | exact Hq].
Qed.

(** The match of the attribute where it stands: group 1 is the text
    between the quotes. *)
Lemma attr_match_here :
  match_at (attr_regex name) t o
  = Some (mkMatch o (o + length name + 1 + 1 + length v + 1)
            [Some (o + length name + 1 + 1, o + length name + 1 + 1 + length v)]).
Proof.
  unfold match_at. cbn [pattern flag_i ngroups attr_regex repeat].
  assert (E : matcher t false
                (seq [chars_of name; lit "="; quote_class; Group 1 (star_lazy dot); quote_class])
                (mkState o [None]) (fun y => Some y)
              = Some (mkState (o + length name + 1 + 1 + length v + 1)
                        [Some (o + length name + 1 + 1,
                               o + length name + 1 + 1 + length v)])).
  { unfold seq. cbn [fold_right]. rewrite matcher_Seq.
    rewrite (lit_step t name o _ _ _ attr_at_name).
    rewrite matcher_Seq. change (lit "=") with (chars_of (js "=")).
    rewrite (lit_step t (js "=") _ _ _ _ attr_at_eq). change (length (js "=")) with 1.
    rewrite matcher_Seq. unfold quote_class, cls.
    rewrite (chars_step t _ _ _ q1 _ _ attr_at_quote) by (rewrite quote_mem; exact Hq1).
    rewrite matcher_Seq, matcher_Group. unfold star_lazy, dot, ncls.
    rewrite matcher_star. cbn [parens endIndex].
    assert (HL : length t = o + length name + 1 + 1 + length v + 1 + length rest).
    { rewrite Ht, <- Ho. repeat (rewrite ?length_app; simpl length). len_lia. }
    apply (lazy_chars_run t _ v (o + length name + 1 + 1) (q2 :: rest)).
    - exact attr_at_value.
    - eapply List.Forall_impl; [|exact value_chars]. intros a [Ha _]. exact Ha.
    - intros j Hj. cbn [endIndex]. unfold set_capture.
      cbn [endIndex captures set_nth Nat.sub]. rewrite matcher_Seq.
      apply chars_stop.
      assert (Hs : skipn (o + length name + 1 + 1 + j) t = skipn j (v ++ q2 :: rest)).
      { rewrite <- attr_at_value, skipn_skipn. f_equal. lia. }
      rewrite Hs, skipn_app. replace (j - length v) with 0 by lia. cbn [skipn].
      destruct (skipn j v) as [|a u] eqn:Ej.
      + assert (L : length (skipn j v) = 0) by (rewrite Ej; reflexivity).
        rewrite length_skipn in L. lia.
      + cbn [app]. rewrite quote_mem.
        assert (Hin : In a v).
        { rewrite <- (firstn_skipn j v). apply in_or_app. right.
          rewrite Ej. left. reflexivity. }
        pose proof value_chars as Hall. rewrite List.Forall_forall in Hall.
        apply Hall. exact Hin.
    - cbn [endIndex]. unfold set_capture. cbn [endIndex captures set_nth Nat.sub].
      rewrite matcher_Seq.
      rewrite (chars_step t _ _ _ q2 rest).
      + rewrite matcher_Empty. reflexivity.
      + apply (skipn_more t _ (length v) v); [exact attr_at_value | reflexivity].
      + rewrite quote_mem. exact Hq2.
    - len_lia. }
  rewrite E. reflexivity.
Qed.

Hypothesis Hfirst : includes (pre ++ name) (name ++ js "=") = false.

Lemma attr_not_before j : j < o -> match_at (attr_regex name) t j = None.
Proof.
  intros Hj. destruct (match_at (attr_regex name) t j) as [m|] eqn:E; [|reflexivity].
  apply attr_match_needs_name in E. exfalso.
  assert (Hsplit : t = (pre ++ name) ++ 61%N :: q1 :: v ++ q2 :: rest)
    by (rewrite Ht, <- app_assoc; reflexivity).
  rewrite Hsplit, skipn_app in E.
  replace (j - length (pre ++ name)) with 0 in E by (rewrite length_app; lia).
  cbn [skipn] in E. rewrite startsWith_within in E.
  - apply includes_at in E. congruence.
  - rewrite length_skipn, !length_app. simpl. len_lia.
Qed.

Lemma attr_first_match :
  match_first (attr_regex name) t
  = Some (mkMatch o (o + length name + 1 + 1 + length v + 1)
            [Some (o + length name + 1 + 1, o + length name + 1 + 1 + length v)]).
Proof.
  unfold match_first.
  assert (HL : o <= length t).
  { rewrite Ht, <- Ho, length_app. lia. }
  replace (S (length t)) with (o + S (length t - o)) by lia.
  rewrite search_skip by (intros i Hi; apply attr_not_before; lia).
  apply search_hit. exact attr_match_here.
Qed.

Lemma attr_group :
  slice t (o + length name + 1 + 1) (o + length name + 1 + 1 + length v) = v.
Proof.
  rewrite Ht.
  replace (pre ++ name ++ 61%N :: q1 :: v ++ q2 :: rest)
    with ((pre ++ name ++ [61%N; q1]) ++ v ++ q2 :: rest).
  - apply slice_prefix; [|reflexivity].
    rewrite <- Ho. repeat (rewrite ?length_app; simpl length). len_lia.
  - rewrite <- !app_assoc. reflexivity.
Qed.

End AttrValue.

(** X19.  getAttr gives null for an attribute text in which the name
    followed by "=" does not stand (for a name without syntax
    characters, as the names the source passes are). *)
Theorem absent_attribute_is_null (tagContent name : str) (c : gmap str RegExp) :
  cache_ok c ->
  forallb (fun a => negb (Template.is_syntax_char a)) name = true ->
  includes tagContent (name ++ js "=") = false ->
  fst (getAttr (Some tagContent) name c) = Returns None.
Proof.
  intros Hc _ H. rewrite getAttr_eq by exact Hc.
  unfold match_first. rewrite search_none; [reflexivity|].
  intros j. destruct (match_at (attr_regex name) tagContent j) as [m|] eqn:E;
    [|reflexivity].
  apply attr_match_needs_name in E. apply includes_at in E. congruence.
Qed.

Lemma absent_attribute_is_null_witness :
  cache_ok ∅
  /\ forallb (fun a => negb (Template.is_syntax_char a)) (js "action") = true
  /\ includes (jsq "request_id='r1' tool='file'") (js "action" ++ js "=") = false
  /\ fst (getAttr (Some (jsq "request_id='r1' tool='file'")) (js "action") ∅)
     = Returns None.
Proof.
  split; [apply cache_ok_empty|]. split; [vm_compute; reflexivity|].
  split; [vm_compute; reflexivity|].
  apply (absent_attribute_is_null (jsq "request_id='r1' tool='file'") (js "action") ∅).
  - apply cache_ok_empty.
  - vm_compute. reflexivity.
  - vm_compute. reflexivity.
Defined.

(** X20.  getAttr gives the text between the quotes of the first place
    where the name and "=" stand, even inside a longer attribute name:
    for an attribute text of the form pre name = q1 v q2 rest, where q1
    and q2 are quotes (each a double quote or an apostrophe, not
    necessarily the same), v holds no quote and no line terminator, and
    the name (without syntax characters) with "=" does not stand
    earlier, the result is v. *)
Theorem attribute_value (pre name v rest : str) (q1 q2 : char) (c : gmap str RegExp) :
  cache_ok c ->
  forallb (fun a => negb (Template.is_syntax_char a)) name = true ->
  N.eqb q1 34 || N.eqb q1 39 = true ->
  N.eqb q2 34 || N.eqb q2 39 = true ->
  forallb (fun a => negb (N.eqb a 34 || N.eqb a 39 || is_line_terminator a)) v = true ->
  includes (pre ++ name) (name ++ js "=") = false ->
  fst (getAttr (Some (pre ++ name ++ js "=" ++ q1 :: v ++ q2 :: rest)) name c)
  = Returns (Some v).
Proof.
  intros Hc _ Hq1 Hq2 Hv Hfirst. rewrite getAttr_eq by exact Hc.
  change (pre ++ name ++ js "=" ++ q1 :: v ++ q2 :: rest)
    with (pre ++ name ++ 61%N :: q1 :: v ++ q2 :: rest).
  rewrite (attr_first_match pre name v rest q1 q2 Hq1 Hq2 Hv _ eq_refl _ eq_refl Hfirst).
  unfold group. cbn [groups nth Nat.sub].
  rewrite (attr_group pre name v rest q1 q2 _ eq_refl _ eq_refl). reflexivity.
Qed.

Lemma attribute_value_witness :
  let pre := jsq "request_id='r1' my" in
  let rest := jsq " tool='file'" in
  cache_ok ∅
  /\ forallb (fun a => negb (Template.is_syntax_char a)) (js "tool") = true
  /\ N.eqb 34 34 || N.eqb 34 39 = true
  /\ N.eqb 39 34 || N.eqb 39 39 = true
  /\ forallb (fun a => negb (N.eqb a 34 || N.eqb a 39 || is_line_terminator a)) (js "x y")
     = true
  /\ includes (pre ++ js "tool") (js "tool" ++ js "=") = false
  /\ fst (getAttr (Some (pre ++ js "tool" ++ js "=" ++ 34%N :: js "x y" ++ 39%N :: rest))
            (js "tool") ∅)
     = Returns (Some (js "x y")).
Proof.
  split; [apply cache_ok_empty|]. split; [vm_compute; reflexivity|].
  split; [reflexivity|]. split; [reflexivity|].
  split; [vm_compute; reflexivity|]. split; [vm_compute; reflexivity|].
  apply (attribute_value (jsq "request_id='r1' my") (js "tool") (js "x y")
           (jsq " tool='file'") 34%N 39%N ∅).
  - apply cache_ok_empty.
  - vm_compute. reflexivity.
  - reflexivity.
  - reflexivity.
  - vm_compute. reflexivity.
  - vm_compute. reflexivity.
Defined.

(* ===================================================================== *)
(** ** Tags with attributes that are not closed *)
(* ===================================================================== *)

Section OptionalAtEnd.

Variable input : str.

Lemma opt_expand r x c :
  matcher input false (opt r) x c =
  match matcher input false r (clear_captures (parens r) x)
          (fun y => if endIndex y =? endIndex x then None
                    else match length input - endIndex x with
                         | 0 => None
                         | S _ => c y
                         end) with
  | Some z => Some z
  | None => c x
  end.
Proof.
  unfold opt. cbn [matcher]. rewrite Nat.add_1_r, repeat_matcher_S.
  cbv zeta. cbn [Nat.eqb negb andb option_map Nat.sub].
  destruct (length input - endIndex x); reflexivity.
Qed.

(** At the end of the input an optional atom has nothing to take. *)
Lemma opt_nothing_at_end r x c :
  endIndex x = length input -> matcher input false (opt r) x c = c x.
Proof.
  intros Hx. rewrite opt_expand.
  match goal with
  | |- match ?e with _ => _ end = _ => destruct e as [z|] eqn:E; [|reflexivity]
  end.
  apply ranged_matcher in E. destruct E as [y [[H1 H2] E]].
  rewrite endIndex_clear_captures in H1, H2.
  replace (endIndex y =? endIndex x) with true in E; [discriminate|].
  symmetry. apply Nat.eqb_eq. lia.
Qed.

Lemma matcher_plus ic greedy r x c :
  matcher input ic (Repeat 1 None greedy r) x c =
  repeat_matcher (matcher input ic r) (parens r) greedy
    (S (S (length input - endIndex x))) 1 None x c.
Proof. cbn [matcher]. rewrite Nat.add_1_r. reflexivity. Qed.

End OptionalAtEnd.

Section OpenBody.

Variable input name : str.
Variable o : nat.

(** The tag opens at index [o] with [name]; group 2 holds [g2]; the
    inner text [s] starts at [bs] and runs to the end of the input. *)
Hypothesis Hname : firstn (length name) (skipn (o + 1) input) = name.
Variable g2 : option (nat * nat).
Variable bs : nat.
Variable s : str.
Hypothesis Hbody : skipn bs input = s.
Hypothesis Hbs : bs <= length input.
Hypothesis Hfree : free_of name s = true.

Lemma close_or_end_at_end c :
  matcher input false (Seq (Alt CLOSE EndAnchor) Empty)
    (mkState (length input)
       [Some (o + 1, o + 1 + length name); g2; Some (bs, length input); None; None]) c
  = c (mkState (length input)
         [Some (o + 1, o + 1 + length name); g2; Some (bs, length input); None; None]).
Proof.
  rewrite matcher_Seq, matcher_Alt.
  unfold CLOSE, seq. cbn [fold_right]. rewrite matcher_Seq.
  change (lit "</") with (chars_of (js "</")).
  rewrite lit_fail by (rewrite skipn_all; reflexivity).
  rewrite matcher_EndAnchor. cbn [endIndex]. rewrite Nat.eqb_refl.
  rewrite matcher_Empty. reflexivity.
Qed.

Lemma close_or_end_at_lt c e t :
  skipn e input = 60%N :: t ->
  startsWith t (47%N :: name) = false ->
  matcher input false (Seq (Alt CLOSE EndAnchor) Empty)
    (mkState e [Some (o + 1, o + 1 + length name); g2; Some (bs, e); None; None]) c
  = None.
Proof.
  intros Ht H. rewrite matcher_Seq, matcher_Alt.
  assert (Hclose : forall k, matcher input false CLOSE
            (mkState e [Some (o + 1, o + 1 + length name); g2; Some (bs, e); None; None]) k
            = None).
  { intros k. unfold CLOSE, seq. cbn [fold_right]. rewrite matcher_Seq.
    change (lit "</") with (chars_of (js "</")).
    destruct t as [|a t'].
    - apply lit_fail. rewrite Ht. reflexivity.
    - destruct (N.eqb a 47) eqn:Ea.
      + apply N.eqb_eq in Ea. subst a.
        rewrite (lit_step input (js "</") e _ t') by exact Ht.
        change (length (js "</")) with 2.
        rewrite matcher_Seq.
        apply (backref_name_fail input name o Hname); [reflexivity|].
        rewrite (skipn_more input e 2 (js "</") t' Ht eq_refl).
        simpl in H. exact H.
      + apply lit_fail. rewrite Ht.
        change (startsWith (60%N :: a :: t') (js "</"))
          with (N.eqb 60 60 && (N.eqb 47 a && startsWith t' [])).
        rewrite (N.eqb_sym 47 a), Ea. reflexivity. }
  rewrite Hclose. rewrite matcher_EndAnchor. cbn [endIndex].
  apply (skipn_length_le input) in Ht.
  replace (e =? length input) with false by (symmetry; apply Nat.eqb_neq; len_lia).
  reflexivity.
Qed.

Lemma lazy_to_end (K : Continuation) z :
  K (mkState (length input) [Some (o + 1, o + 1 + length name); g2; None; None; None])
  = Some z ->
  (forall e t, skipn e input = 60%N :: t ->
               startsWith t (47%N :: name) = false ->
               K (mkState e [Some (o + 1, o + 1 + length name); g2; None; None; None])
               = None) ->
  forall n t e fuel,
    length t <= n ->
    skipn e input = t -> e + length t = length input ->
    (t = [] \/ exists t', t = 60%N :: t') ->
    free_of name t = true ->
    length t < fuel ->
    repeat_matcher (matcher input false LOOP) [] false fuel 0 None
      (mkState e [Some (o + 1, o + 1 + length name); g2; None; None; None]) K
    = Some z.
Proof.
  intros Hend HK. induction n as [|n IH]; intros t e fuel Hn Ht He Hshape Hfr Hfuel;
    (destruct fuel as [|fuel]; [len_lia|]); rewrite repeat_matcher_S;
    cbv zeta; cbn [Nat.eqb negb andb option_map Nat.sub clear_captures fold_left].
  - destruct t; [|simpl in Hn; lia]. simpl in He. rewrite Nat.add_0_r in He. subst e.
    rewrite Hend. reflexivity.
  - destruct Hshape as [->|[t' ->]].
    + simpl in He. rewrite Nat.add_0_r in He. subst e. rewrite Hend. reflexivity.
    + destruct (free_of_lt name _ Hfr) as [F1 [F2 F3]].
      rewrite (HK e t' Ht F2).
      unfold LOOP, seq. cbn [fold_right]. rewrite matcher_Seq.
      change (lit "<") with (chars_of (js "<")).
      rewrite (lit_step input (js "<") e _ t') by exact Ht.
      change (length (js "<")) with 1.
      rewrite matcher_Seq.
      rewrite (lookahead_passes input name o Hname (e + 1) t'); try assumption;
        try reflexivity.
      2:{ apply (skipn_next input e 60%N). exact Ht. }
      destruct (split_at_lt t') as [run [rest [E [Frun Hrest]]]].
      rewrite matcher_Seq. unfold star, ncls. rewrite matcher_star.
      cbn [parens endIndex].
      apply (greedy_run input _ run (e + 1) rest).
      * rewrite <- E. apply (skipn_next input e 60%N). exact Ht.
      * exact Frun.
      * destruct Hrest as [->|[r ->]]; [exact I|]. rewrite not_lt_mem. reflexivity.
      * cbn [endIndex]. assert (length run <= length t') by (rewrite E, length_app; len_lia).
        simpl in He. len_lia.
      * rewrite matcher_Empty. cbn [endIndex].
        replace (e + 1 + length run =? e) with false
          by (symmetry; apply Nat.eqb_neq; len_lia).
        apply (IH rest).
        -- simpl in Hn. assert (length rest <= length t') by (rewrite E, length_app; len_lia).
           len_lia.
        -- apply (skipn_more input (e + 1) (length run) run rest); [|reflexivity].
           rewrite <- E. apply (skipn_next input e 60%N). exact Ht.
        -- simpl in He. rewrite E, length_app in He. len_lia.
        -- exact Hrest.
        -- rewrite E in F3. apply (free_of_app name) in F3. exact F3.
        -- simpl in Hfuel. assert (length rest <= length t') by (rewrite E, length_app; len_lia).
           len_lia.
Qed.

(** The inner text of a tag that is not closed: everything up to the
    end of the input, whatever group 2 holds. *)
Lemma open_body_to_end c z :
  c (mkState (length input)
       [Some (o + 1, o + 1 + length name); g2; Some (bs, length input); None; None])
  = Some z ->
  matcher input false BODY
    (mkState bs [Some (o + 1, o + 1 + length name); g2; None; None; None]) c
  = Some z.
Proof.
  intros Hc. unfold BODY, seq. cbn [fold_right].
  rewrite matcher_Seq, matcher_Group, matcher_Seq.
  unfold star, ncls. rewrite matcher_star. cbn [parens endIndex].
  destruct (split_at_lt s) as [run [rest [E [Frun Hrest]]]].
  assert (Hlen : length s = length run + length rest) by (rewrite E; apply length_app).
  assert (HL : length input = bs + length s).
  { rewrite <- Hbody, length_skipn. lia. }
  apply (greedy_run input _ run bs rest).
  - rewrite Hbody. exact E.
  - exact Frun.
  - destruct Hrest as [->|[r ->]]; [exact I|]. rewrite not_lt_mem. reflexivity.
  - len_lia.
  - rewrite matcher_Seq. unfold star_lazy. rewrite matcher_star.
    change (parens LOOP) with (@nil nat). cbn [endIndex].
    apply (lazy_to_end _ z) with (n := length rest) (t := rest).
    + rewrite matcher_Empty. cbn [endIndex]. unfold set_capture.
      cbn [endIndex captures set_nth Nat.sub].
      rewrite close_or_end_at_end. exact Hc.
    + intros e t Ht H. rewrite matcher_Empty. cbn [endIndex]. unfold set_capture.
      cbn [endIndex captures set_nth Nat.sub].
      apply (close_or_end_at_lt c e t Ht H).
    + len_lia.
    + apply (skipn_more input bs (length run) run rest); [|reflexivity].
      rewrite Hbody. exact E.
    + len_lia.
    + exact Hrest.
    + rewrite E in Hfree. apply (free_of_app name) in Hfree. exact Hfree.
    + len_lia.
Qed.

(** The optional body after the ">" of the opening tag: taken up to the
    end of the input, or skipped if the input ends there. *)
Lemma open_body_opt :
  matcher input false (Seq (opt BODY) Empty)
    (mkState bs [Some (o + 1, o + 1 + length name); g2; None; None; None])
    (fun y => Some y)
  = Some (mkState (length input)
            [Some (o + 1, o + 1 + length name); g2;
             match s with [] => None | _ :: _ => Some (bs, length input) end;
             None; None]).
Proof.
  rewrite matcher_Seq.
  assert (HL : length input = bs + length s).
  { rewrite <- Hbody, length_skipn. lia. }
  assert (Hs : s = [] \/ s <> []) by (destruct s; [left | right]; congruence).
  destruct Hs as [Es|Hs].
  - rewrite (opt_nothing_at_end input) by (cbn [endIndex]; rewrite Es in HL; simpl in HL; lia).
    rewrite matcher_Empty, Es. rewrite Es in HL. simpl in HL.
    rewrite Nat.add_0_r in HL. rewrite HL. reflexivity.
  - assert (Hpos : 0 < length s) by (destruct s; [congruence | simpl; lia]).
    replace (match s with [] => None | _ :: _ => Some (bs, length input) end)
      with (Some (bs, length input)) by (destruct s; [congruence | reflexivity]).
    apply opt_take.
    + cbn [endIndex]. lia.
    + change (parens BODY) with [3].
      change (clear_captures [3]
                (mkState bs [Some (o + 1, o + 1 + length name); g2; None; None; None]))
        with (mkState bs [Some (o + 1, o + 1 + length name); g2; None; None; None]).
      apply open_body_to_end. cbn [endIndex].
      replace (length input =? bs) with false
        by (symmetry; apply Nat.eqb_neq; lia).
      rewrite matcher_Empty. reflexivity.
Qed.

End OpenBody.

Section OpenPending.

Lemma not_gt_mem a : charset_mem false (mkSet (only ">") true) a = negb (N.eqb a 62).
Proof.
  unfold only. change (ch ">") with 62%N.
  unfold charset_mem. cbn [negated ranges canon andb].
  change (in_ranges [(62%N, 62%N)] a) with (((62 <=? a)%N && (a <=? 62)%N) || false).
  rewrite orb_false_r.
  destruct (N.eqb_spec a 62) as [->|Hne]; [reflexivity|].
  destruct (N.leb_spec 62 a), (N.leb_spec a 62); simpl; try reflexivity. lia.
Qed.

(** A greedy plus over a class takes the whole run, which is not empty,
    when the rest of the pattern accepts it there. *)
Lemma greedy_plus_run input cs a (run : str) e rest caps fuel k z :
  skipn e input = (a :: run) ++ rest ->
  Forall (fun a => charset_mem false cs a = true) (a :: run) ->
  match rest with
  | [] => True
  | b :: _ => charset_mem false cs b = false
  end ->
  length run + 1 < fuel ->
  k (mkState (e + length (a :: run)) caps) = Some z ->
  repeat_matcher (matcher input false (Chars cs)) [] true fuel 1 None (mkState e caps) k
  = Some z.
Proof.
  intros H Hrun Hrest Hf Hk. destruct fuel as [|fuel]; [lia|].
  rewrite repeat_matcher_S. cbv zeta.
  cbn [Nat.eqb negb andb option_map Nat.sub clear_captures fold_left].
  inversion Hrun as [|? ? Ha Hrun']; subst.
  rewrite (chars_step input cs e caps a (run ++ rest)) by assumption.
  apply (greedy_run input cs run (e + 1) rest); try assumption.
  - apply (skipn_next input e a). exact H.
  - lia.
  - rewrite <- Hk. f_equal. f_equal. simpl. lia.
Qed.

Variable pre w attrs rest : str.
Hypothesis Hw : w <> [].
Hypothesis Hblank : blank w = true.
Hypothesis Hattrs : includes attrs (js ">") = false.
Hypothesis Hfirst : exists a attrs', attrs = a :: attrs' /\ is_space a = false.
Hypothesis Hfree : free_of (js "tool_pending") rest = true.

Variable input : str.
Hypothesis Hinput : input = pre ++ js "<tool_pending" ++ w ++ attrs ++ 62%N :: rest.
Variable o : nat.
Hypothesis Ho : length pre = o.

Lemma pending_at_lt : skipn o input = js "<tool_pending" ++ w ++ attrs ++ 62%N :: rest.
Proof. rewrite Hinput. apply skipn_prefix. exact Ho. Qed.

Lemma pending_at_name : skipn (o + 1) input = js "tool_pending" ++ w ++ attrs ++ 62%N :: rest.
Proof. apply (skipn_next input o 60%N). exact pending_at_lt. Qed.

Lemma pending_at_space : skipn (o + 1 + 12) input = w ++ attrs ++ 62%N :: rest.
Proof.
  apply (skipn_more input (o + 1) 12 (js "tool_pending")); [exact pending_at_name | reflexivity].
Qed.

Lemma pending_at_attrs : skipn (o + 1 + 12 + length w) input = attrs ++ 62%N :: rest.
Proof.
  apply (skipn_more input (o + 1 + 12) (length w) w); [exact pending_at_space | reflexivity].
Qed.

Lemma pending_at_gt :
  skipn (o + 1 + 12 + length w + length attrs) input = 62%N :: rest.
Proof.
  apply (skipn_more input (o + 1 + 12 + length w) (length attrs) attrs);
    [exact pending_at_attrs | reflexivity].
Qed.

Lemma pending_at_rest :
  skipn (o + 1 + 12 + length w + length attrs + 1) input = rest.
Proof. apply (skipn_next input _ 62%N). exact pending_at_gt. Qed.

Lemma pending_length :
  length input = o + 1 + 12 + length w + length attrs + 1 + length rest.
Proof.
  rewrite Hinput, <- Ho. repeat (rewrite ?length_app; simpl length). len_lia.
Qed.

Lemma no_gt (value : str) :
  includes value (js ">") = false -> Forall (fun c => N.eqb c 62 = false) value.
Proof.
  induction value as [|c v IH]; intros H; [constructor|].
  change (includes (c :: v) (js ">"))
    with ((N.eqb 62 c && startsWith v []) || includes v (js ">")) in H.
  apply orb_false_elim in H. destruct H as [H1 H2].
  rewrite startsWith_nil, andb_true_r in H1.
  constructor; [rewrite N.eqb_sym; exact H1 | apply IH; exact H2].
Qed.

(** The match of the tag: from its "<" to the end of the input, group 2
    the attribute text. *)
Lemma open_pending_match :
  match_at TAG_REGEX input o
  = Some (mkMatch o (length input)
            [Some (o + 1, o + 1 + 12);
             Some (o + 1 + 12 + length w, o + 1 + 12 + length w + length attrs);
             match rest with
             | [] => None
             | _ :: _ => Some (o + 1 + 12 + length w + length attrs + 1, length input)
             end;
             None; None]).
Proof.
  unfold match_at. cbn [pattern flag_i ngroups TAG_REGEX repeat].
  rewrite matcher_Alt.
  pose proof pending_length as HL.
  assert (E : matcher input false (seq [lit "<"; Group 1 TAG_NAMES; ATTRS; lit ">"; opt BODY])
                (mkState o [None; None; None; None; None]) (fun y => Some y)
              = Some (mkState (length input)
                        [Some (o + 1, o + 1 + 12);
                         Some (o + 1 + 12 + length w, o + 1 + 12 + length w + length attrs);
                         match rest with
                         | [] => None
                         | _ :: _ =>
                             Some (o + 1 + 12 + length w + length attrs + 1, length input)
                         end;
                         None; None])).
  { unfold seq. cbn [fold_right]. rewrite matcher_Seq.
    change (lit "<") with (chars_of (js "<")).
    rewrite (lit_step input (js "<") o _ _ _ pending_at_lt).
    change (length (js "<")) with 1.
    rewrite matcher_Seq, matcher_Group.
    change TAG_NAMES with (alts (List.map chars_of tag_names)).
    change tag_names
      with ([js "thought"; js "think"; js "tool_call"]
            ++ js "tool_pending" :: [js "tool_result"; js "tool"; js "answer"]).
    apply (alts_first input (js "tool_pending") (o + 1) _ (w ++ attrs ++ 62%N :: rest)).
    { exact pending_at_name. }
    { rewrite pending_at_name. intros x [<-|[<-|[<-|[]]]]; reflexivity. }
    cbn [endIndex]. unfold set_capture. cbn [captures endIndex set_nth Nat.sub].
    change (length (js "tool_pending")) with 12.
    rewrite matcher_Seq. unfold ATTRS. apply opt_take; [cbn [endIndex]; lia|].
    change (parens (seq [plus ws; Group 2 (star_lazy (ncls (only ">")))])) with [2].
    change (clear_captures [2]
              (mkState (o + 1 + 12) [Some (o + 1, o + 1 + 12); None; None; None; None]))
      with (mkState (o + 1 + 12) [Some (o + 1, o + 1 + 12); None; None; None; None]).
    unfold seq. cbn [fold_right]. rewrite matcher_Seq.
    unfold plus, ws, cls. rewrite matcher_plus. cbn [parens endIndex].
    assert (Ew : exists a w', w = a :: w') by (destruct w; [congruence | eauto]).
    destruct Ew as [a [w' Ew]].
    assert (Hws : Forall (fun a => charset_mem false (mkSet space_ranges false) a = true) w).
    { apply List.Forall_forall. intros x Hx. rewrite ws_mem.
      pose proof Hblank as Hb. unfold blank in Hb. rewrite forallb_forall in Hb.
      apply Hb. exact Hx. }
    destruct Hfirst as [b [attrs' [Eattrs Hb]]].
    assert (Lw : length w = S (length w')) by (rewrite Ew; reflexivity).
    apply (greedy_plus_run input _ a w' (o + 1 + 12) (attrs ++ 62%N :: rest)).
    { rewrite <- Ew. exact pending_at_space. }
    { rewrite <- Ew. exact Hws. }
    { rewrite Eattrs. cbn [app]. rewrite ws_mem. exact Hb. }
    { lia. }
    rewrite <- Ew.
    rewrite matcher_Seq, matcher_Group. unfold star_lazy, ncls. rewrite matcher_star.
    cbn [parens endIndex].
    apply (lazy_chars_run input _ attrs (o + 1 + 12 + length w) (62%N :: rest)).
    - exact pending_at_attrs.
    - eapply List.Forall_impl; [|apply no_gt; exact Hattrs].
      intros x Hx. rewrite not_gt_mem, Hx. reflexivity.
    - intros j Hj. rewrite matcher_Empty. cbn [endIndex]. unfold set_capture.
      cbn [endIndex captures set_nth Nat.sub].
      replace (o + 1 + 12 + length w + j =? o + 1 + 12) with false.
      2:{ symmetry. apply Nat.eqb_neq. lia. }
      rewrite matcher_Seq. change (lit ">") with (chars_of (js ">")).
      apply lit_fail.
      assert (Hs : skipn (o + 1 + 12 + length w + j) input = skipn j (attrs ++ 62%N :: rest)).
      { rewrite <- pending_at_attrs, skipn_skipn. f_equal. lia. }
      rewrite Hs, skipn_app. replace (j - length attrs) with 0 by lia. cbn [skipn].
      destruct (skipn j attrs) as [|x u] eqn:Ej.
      + assert (L : length (skipn j attrs) = 0) by (rewrite Ej; reflexivity).
        rewrite length_skipn in L. lia.
      + cbn [app].
        assert (Hin : In x attrs).
        { rewrite <- (firstn_skipn j attrs). apply in_or_app. right.
          rewrite Ej. left. reflexivity. }
        pose proof (no_gt attrs Hattrs) as Hall. rewrite List.Forall_forall in Hall.
        change (startsWith (x :: u ++ 62%N :: rest) (js ">"))
          with (N.eqb 62 x && startsWith (u ++ 62%N :: rest) []).
        rewrite N.eqb_sym, (Hall x Hin). reflexivity.
    - rewrite matcher_Empty. cbn [endIndex]. unfold set_capture.
      cbn [endIndex captures set_nth Nat.sub].
      replace (o + 1 + 12 + length w + length attrs =? o + 1 + 12) with false.
      2:{ symmetry. apply Nat.eqb_neq. lia. }
      rewrite matcher_Seq. change (lit ">") with (chars_of (js ">")).
      rewrite (lit_step input (js ">") _ _ _ _ pending_at_gt).
      change (length (js ">")) with 1.
      apply (open_body_opt input (js "tool_pending") o).
      + rewrite pending_at_name. reflexivity.
      + exact pending_at_rest.
      + lia.
      + exact Hfree.
    - cbn [endIndex]. lia. }
  rewrite E. reflexivity.
Qed.

End OpenPending.

Section OpenPendingParse.

Lemma pending_parts_cleaned (new : list part) :
  Forall (fun q => type q = Pending) new ->
  List.filter keep_part (List.map clean_part new) = new.
Proof.
  induction 1 as [|q new Hq _ IH]; [reflexivity|].
  assert (Hc : clean_part q = q) by (unfold clean_part; rewrite Hq; reflexivity).
  cbn [List.map List.filter]. rewrite Hc, IH. unfold keep_part. rewrite Hq. reflexivity.
Qed.

Variable pre w attrs rest : str.
Hypothesis Hw : w <> [].
Hypothesis Hblank : blank w = true.
Hypothesis Hattrs : includes attrs (js ">") = false.
Hypothesis Hfirst : exists a attrs', attrs = a :: attrs' /\ is_space a = false.
Hypothesis Hfree : free_of (js "tool_pending") rest = true.
Hypothesis Hpre : includes pre (js "<") = false.

(** What the loop reads off the match. *)
Lemma open_pending_tag_parts (g3 : option (nat * nat)) c :
  let input := pre ++ js "<tool_pending" ++ w ++ attrs ++ 62%N :: rest in
  let o := length pre in
  tag_parts input
    (mkMatch o (length input)
       [Some (o + 1, o + 1 + 12);
        Some (o + 1 + 12 + length w, o + 1 + 12 + length w + length attrs);
        g3; None; None]) c
  = pending_parts (Some attrs) c.
Proof.
  cbv zeta. unfold tag_parts, group. cbn [groups nth Nat.sub].
  assert (G1 : slice (pre ++ js "<tool_pending" ++ w ++ attrs ++ 62%N :: rest)
                 (length pre + 1) (length pre + 1 + 12) = js "tool_pending").
  { change (pre ++ js "<tool_pending" ++ w ++ attrs ++ 62%N :: rest)
      with (pre ++ [60%N] ++ js "tool_pending" ++ w ++ attrs ++ 62%N :: rest).
    rewrite app_assoc. apply slice_prefix; [rewrite length_app; reflexivity | reflexivity]. }
  assert (G2 : slice (pre ++ js "<tool_pending" ++ w ++ attrs ++ 62%N :: rest)
                 (length pre + 1 + 12 + length w)
                 (length pre + 1 + 12 + length w + length attrs) = attrs).
  { replace (pre ++ js "<tool_pending" ++ w ++ attrs ++ 62%N :: rest)
      with ((pre ++ js "<tool_pending" ++ w) ++ attrs ++ 62%N :: rest)
      by (rewrite <- !app_assoc; reflexivity).
    apply slice_prefix; [|reflexivity].
    repeat (rewrite ?length_app; simpl length). len_lia. }
  rewrite G1, G2.
  destruct Hfirst as [a [attrs' [-> _]]]. reflexivity.
Qed.

Lemma open_pending_parse :
  length (pre ++ js "<tool_pending" ++ w ++ attrs ++ 62%N :: rest) <= MAX_CONTENT_LENGTH ->
  parse (pre ++ js "<tool_pending" ++ w ++ attrs ++ 62%N :: rest)
  = after_text pre (fst (pending_parts (Some attrs) ∅)).
Proof.
  intros Hlen.
  set (input := pre ++ js "<tool_pending" ++ w ++ attrs ++ 62%N :: rest) in *.
  set (o := length pre).
  pose proof (pending_length pre w attrs rest input eq_refl o eq_refl) as HL.
  unfold parse, parseMessageContent. rewrite guard_is_blank.
  replace (blank input) with false by (symmetry; apply blank_with_lt).
  unfold parse_body. rewrite capped_eq.
  replace (capped input) with input
    by (unfold capped, substring0; symmetry; apply firstn_all2; exact Hlen).
  assert (Hiter : exists k, MAX_ITERATIONS = S k).
  { exists (pred MAX_ITERATIONS). symmetry. apply Nat.succ_pred.
    apply Nat.eqb_neq. vm_compute. reflexivity. }
  destruct Hiter as [k ->].
  unfold bind at 1. rewrite scan_tags_S. cbn [regexLastIndex lastIndex parts].
  pose proof (open_pending_match pre w attrs rest Hw Hblank Hattrs Hfirst Hfree
                input eq_refl o eq_refl) as Hmatch.
  match type of Hmatch with
  | _ = Some ?mm => set (m := mm) in *
  end.
  assert (Hexec : exec TAG_REGEX input 0 = (Some m, length input)).
  { unfold exec. replace (length input <? 0) with false by reflexivity.
    rewrite Nat.sub_0_r.
    replace (S (length input)) with (o + S (length input - o)) by lia.
    rewrite search_skip.
    - rewrite (search_hit _ _ _ _ m Hmatch). reflexivity.
    - intros i Hi. unfold input. apply no_match_before; [exact Hpre | fold o; lia]. }
  rewrite Hexec.
  assert (Hm : length (matched input m) = length input - o).
  { apply length_matched. unfold m. cbn [index stop]. lia. }
  rewrite Hm.
  replace (length input - o =? 0) with false by (symmetry; apply Nat.eqb_neq; lia).
  rewrite andb_false_r. unfold bind.
  unfold m at 1. unfold input at 1 2, o.
  rewrite (open_pending_tag_parts _ ∅).
  destruct (pending_parts (Some attrs) ∅) as [[new|e|] c1] eqn:Ep; cbn [fst after_text];
    [|reflexivity..].
  rewrite scan_tags_none.
  2:{ cbn [regexLastIndex]. apply exec_at_end. reflexivity. }
  cbn [parts lastIndex index]. unfold slice_from. rewrite skipn_all.
  assert (Hs : slice input 0 (index m) = pre).
  { unfold m. cbn [index]. unfold input.
    change (pre ++ js "<tool_pending" ++ w ++ attrs ++ 62%N :: rest)
      with ([] ++ pre ++ js "<tool_pending" ++ w ++ attrs ++ 62%N :: rest).
    apply slice_prefix; reflexivity. }
  rewrite Hs. unfold ret. cbn [fst].
  change (push_text (push_text [] pre ++ new) []) with (push_text [] pre ++ new).
  rewrite map_app, List.filter_app.
  rewrite (pending_parts_cleaned new) by (eapply pending_parts_kind; exact Ep).
  reflexivity.
Qed.

End OpenPendingParse.



(* ===================================================================== *)
(** ** The thought tag that is not closed *)
(* ===================================================================== *)

Section OpenThought.

Lemma space_not_lt (a : char) : is_space a = true -> N.eqb a 60 = false.
Proof.
  intros H. destruct (N.eqb_spec a 60) as [->|]; [discriminate H | reflexivity].
Qed.

Lemma free_of_plain_prefix name (w t : str) :
  Forall (fun a => N.eqb a 60 = false) w -> free_of name (w ++ t) = free_of name t.
Proof.
  induction 1 as [|a w Ha _ IH]; [reflexivity|].
  simpl app. cbn [free_of]. rewrite Ha, IH. reflexivity.
Qed.

Lemma blank_plain (w : str) : blank w = true -> Forall (fun a => N.eqb a 60 = false) w.
Proof.
  unfold blank. rewrite forallb_forall. intros H. apply List.Forall_forall.
  intros a Ha. apply space_not_lt. apply H. exact Ha.
Qed.

Lemma attribute_text_parts (w attrs : str) :
  attribute_text w attrs = true ->
  blank w = true /\ includes attrs (js ">") = false
  /\ match attrs with
     | [] => True
     | a :: _ => is_space a = false /\ w <> []
     end.
Proof.
  unfold attribute_text. intros H.
  apply andb_prop in H. destruct H as [H H3]. apply andb_prop in H. destruct H as [H1 H2].
  apply negb_true_iff in H2. repeat split; try assumption.
  destruct attrs as [|a attrs]; [exact I|].
  apply andb_prop in H3. destruct H3 as [H3 H4]. apply negb_true_iff in H3.
  split; [exact H3|]. destruct w; [discriminate H4 | discriminate].
Qed.

Variable pre name w attrs s : str.
Hypothesis Hn : name = js "thought" \/ name = js "think".
Hypothesis Hshape : attribute_text w attrs = true.
Hypothesis Hfree : free_of name (attrs ++ 62%N :: s) = true.

Variable input : str.
Hypothesis Hinput : input = pre ++ 60%N :: name ++ w ++ attrs ++ 62%N :: s.
Variable o : nat.
Hypothesis Ho : length pre = o.

Lemma thought_at_lt : skipn o input = 60%N :: name ++ w ++ attrs ++ 62%N :: s.
Proof. rewrite Hinput. apply skipn_prefix. exact Ho. Qed.

Lemma thought_at_name : skipn (o + 1) input = name ++ w ++ attrs ++ 62%N :: s.
Proof. apply (skipn_next input o 60%N). exact thought_at_lt. Qed.

Lemma thought_at_space : skipn (o + 1 + length name) input = w ++ attrs ++ 62%N :: s.
Proof.
  apply (skipn_more input (o + 1) (length name) name); [exact thought_at_name | reflexivity].
Qed.

Lemma thought_at_attrs : skipn (o + 1 + length name + length w) input = attrs ++ 62%N :: s.
Proof.
  apply (skipn_more input (o + 1 + length name) (length w) w);
    [exact thought_at_space | reflexivity].
Qed.

Lemma thought_at_gt :
  skipn (o + 1 + length name + length w + length attrs) input = 62%N :: s.
Proof.
  apply (skipn_more input (o + 1 + length name + length w) (length attrs) attrs);
    [exact thought_at_attrs | reflexivity].
Qed.

Lemma thought_at_body :
  skipn (o + 1 + length name + length w + length attrs + 1) input = s.
Proof. apply (skipn_next input _ 62%N). exact thought_at_gt. Qed.

Lemma thought_length :
  length input = o + 1 + length name + length w + length attrs + 1 + length s.
Proof.
  rewrite Hinput, <- Ho. repeat (rewrite ?length_app; simpl length). len_lia.
Qed.

Lemma thought_name_there : firstn (length name) (skipn (o + 1) input) = name.
Proof.
  rewrite thought_at_name, firstn_app, firstn_all, Nat.sub_diag. apply app_nil_r.
Qed.

Lemma thought_body_free : free_of name s = true.
Proof.
  apply (free_of_app name (attrs ++ [62%N])). rewrite <- app_assoc. exact Hfree.
Qed.

(** The tag name, one of the first two alternatives of the pattern. *)
Lemma thought_name_step caps t c z e :
  skipn e input = name ++ t ->
  c (mkState (e + length name) caps) = Some z ->
  matcher input false TAG_NAMES (mkState e caps) c = Some z.
Proof.
  intros Hs Hc. change TAG_NAMES with (alts (List.map chars_of tag_names)).
  destruct Hn as [E|E].
  - change tag_names
      with ([] ++ js "thought" :: [js "think"; js "tool_call"; js "tool_pending";
                                    js "tool_result"; js "tool"; js "answer"]).
    rewrite <- E.
    apply (alts_first input name e caps t); [exact Hs | intros x [] | exact Hc].
  - change tag_names
      with ([js "thought"] ++ js "think" :: [js "tool_call"; js "tool_pending";
                                              js "tool_result"; js "tool"; js "answer"]).
    rewrite <- E.
    apply (alts_first input name e caps t); [exact Hs | | exact Hc].
    rewrite Hs, E. intros x [<-|[]]. reflexivity.
Qed.

(** The match of the tag: from its "<" to the end of the input; group 2
    is unset without white space after the name. *)
Lemma open_thought_match :
  match_at TAG_REGEX input o
  = Some (mkMatch o (length input)
            [Some (o + 1, o + 1 + length name);
             match w with
             | [] => None
             | _ :: _ => Some (o + 1 + length name + length w,
                               o + 1 + length name + length w + length attrs)
             end;
             match s with
             | [] => None
             | _ :: _ =>
                 Some (o + 1 + length name + length w + length attrs + 1, length input)
             end;
             None; None]).
Proof.
  destruct (attribute_text_parts w attrs Hshape) as [Hblank [Hattrs Hfirst]].
  unfold match_at. cbn [pattern flag_i ngroups TAG_REGEX repeat].
  rewrite matcher_Alt.
  pose proof thought_length as HL.
  pose proof thought_at_lt as Hlt. pose proof thought_at_name as Hnm.
  pose proof thought_at_space as Hsp. pose proof thought_at_attrs as Hat.
  pose proof thought_at_gt as Hgt. pose proof thought_at_body as Hbody.
  pose proof thought_name_there as Hthere. pose proof thought_body_free as Hbf.
  assert (Hstep : forall caps t c z e,
             skipn e input = name ++ t ->
             c (mkState (e + length name) caps) = Some z ->
             matcher input false TAG_NAMES (mkState e caps) c = Some z)
    by (intros; eapply thought_name_step; eassumption).
  clear Hinput Hshape Hfree.
  match goal with
  | |- match match ?e with _ => _ end with _ => _ end = Some (mkMatch _ _ ?caps) =>
      assert (E : e = Some (mkState (length input) caps)); [|rewrite E; reflexivity]
  end.
  unfold seq. cbn [fold_right]. rewrite matcher_Seq.
  change (lit "<") with (chars_of (js "<")).
  rewrite (lit_step input (js "<") o _ _ _ Hlt).
  change (length (js "<")) with 1.
  rewrite matcher_Seq, matcher_Group.
  apply (Hstep _ (w ++ attrs ++ 62%N :: s)); [exact Hnm|].
  cbn [endIndex]. unfold set_capture. cbn [captures endIndex set_nth Nat.sub].
  rewrite matcher_Seq. unfold ATTRS.
  destruct w as [|a w'] eqn:Ew.
  - (* no attribute part *)
    assert (Ea : attrs = []).
    { destruct attrs as [|b attrs']; [reflexivity|]. destruct Hfirst as [_ H]. congruence. }
    rewrite Ea in *. cbn [length] in *. rewrite !Nat.add_0_r in *.
    rewrite opt_skip.
    2:{ intros d. apply blocked_sound. rewrite endIndex_clear_captures. cbn [endIndex].
        rewrite (nth_error_skipn_cons input _ _ _ Hgt). reflexivity. }
    rewrite matcher_Seq. change (lit ">") with (chars_of (js ">")).
    rewrite (lit_step input (js ">") _ _ _ _ Hgt).
    change (length (js ">")) with 1.
    apply (open_body_opt input name o Hthere None _ s);
      [exact Hbody | lia | exact Hbf].
  - (* white space and an attribute text *)
    rewrite <- Ew in *.
    assert (Lw : length w = S (length w')) by (rewrite Ew; reflexivity).
    apply opt_take; [cbn [endIndex]; lia|].
    change (parens (seq [plus ws; Group 2 (star_lazy (ncls (only ">")))])) with [2].
    change (clear_captures [2]
              (mkState (o + 1 + length name)
                 [Some (o + 1, o + 1 + length name); None; None; None; None]))
      with (mkState (o + 1 + length name)
              [Some (o + 1, o + 1 + length name); None; None; None; None]).
    unfold seq. cbn [fold_right]. rewrite matcher_Seq.
    unfold plus, ws, cls. rewrite matcher_plus. cbn [parens endIndex].
    assert (Hws : Forall (fun a => charset_mem false (mkSet space_ranges false) a = true) w).
    { apply List.Forall_forall. intros x Hx. rewrite ws_mem.
      pose proof Hblank as Hb. unfold blank in Hb. rewrite forallb_forall in Hb.
      apply Hb. exact Hx. }
    apply (greedy_plus_run input _ a w' (o + 1 + length name) (attrs ++ 62%N :: s)).
    { rewrite <- Ew. exact Hsp. }
    { rewrite <- Ew. exact Hws. }
    { destruct attrs as [|b attrs']; cbn [app]; rewrite ws_mem;
        [reflexivity | apply Hfirst]. }
    { lia. }
    rewrite <- Ew.
    rewrite matcher_Seq, matcher_Group. unfold star_lazy, ncls. rewrite matcher_star.
    cbn [parens endIndex].
    apply (lazy_chars_run input _ attrs (o + 1 + length name + length w) (62%N :: s)).
    + exact Hat.
    + eapply List.Forall_impl; [|apply no_gt; exact Hattrs].
      intros x Hx. rewrite not_gt_mem, Hx. reflexivity.
    + intros j Hj. rewrite matcher_Empty. cbn [endIndex]. unfold set_capture.
      cbn [endIndex captures set_nth Nat.sub].
      replace (o + 1 + length name + length w + j =? o + 1 + length name) with false.
      2:{ symmetry. apply Nat.eqb_neq. lia. }
      rewrite matcher_Seq. change (lit ">") with (chars_of (js ">")).
      apply lit_fail.
      assert (Hs : skipn (o + 1 + length name + length w + j) input
                   = skipn j (attrs ++ 62%N :: s)).
      { rewrite <- Hat, skipn_skipn. f_equal. lia. }
      rewrite Hs, skipn_app. replace (j - length attrs) with 0 by lia. cbn [skipn].
      destruct (skipn j attrs) as [|x u] eqn:Ej.
      * assert (L : length (skipn j attrs) = 0) by (rewrite Ej; reflexivity).
        rewrite length_skipn in L. lia.
      * cbn [app].
        assert (Hin : In x attrs).
        { rewrite <- (firstn_skipn j attrs). apply in_or_app. right.
          rewrite Ej. left. reflexivity. }
        pose proof (no_gt attrs Hattrs) as Hall. rewrite List.Forall_forall in Hall.
        change (startsWith (x :: u ++ 62%N :: s) (js ">"))
          with (N.eqb 62 x && startsWith (u ++ 62%N :: s) []).
        rewrite N.eqb_sym, (Hall x Hin). reflexivity.
    + rewrite matcher_Empty. cbn [endIndex]. unfold set_capture.
      cbn [endIndex captures set_nth Nat.sub].
      replace (o + 1 + length name + length w + length attrs =? o + 1 + length name)
        with false.
      2:{ symmetry. apply Nat.eqb_neq. lia. }
      rewrite matcher_Seq. change (lit ">") with (chars_of (js ">")).
      rewrite (lit_step input (js ">") _ _ _ _ Hgt).
      change (length (js ">")) with 1.
      apply (open_body_opt input name o Hthere).
      * exact Hbody.
      * lia.
      * exact Hbf.
    + cbn [endIndex]. lia.
Qed.

(** The matched text does not end with the closing tag. *)
Lemma open_thought_not_closed :
  endsWith (60%N :: name ++ w ++ attrs ++ 62%N :: s) (js "</" ++ name ++ js ">") = false.
Proof.
  destruct (attribute_text_parts w attrs Hshape) as [Hblank _].
  destruct (endsWith (60%N :: name ++ w ++ attrs ++ 62%N :: s) (js "</" ++ name ++ js ">"))
    eqn:E; [|reflexivity].
  exfalso. apply endsWith_true in E. destruct E as [u E].
  assert (Hall : free_of name (name ++ w ++ attrs ++ 62%N :: s) = true).
  { rewrite <- (free_of_plain_prefix name w (attrs ++ 62%N :: s) (blank_plain w Hblank))
      in Hfree.
    destruct Hn; subst name; exact Hfree. }
  destruct u as [|a u].
  - destruct Hn; subst name; discriminate E.
  - change (js "</" ++ name ++ js ">") with (60%N :: 47%N :: name ++ [62%N]) in E.
    injection E as _ E. rewrite E in Hall. rewrite free_of_occurrence in Hall.
    discriminate.
Qed.

(** What the loop pushes for that match: the thought part, streaming,
    whatever group 2 holds. *)
Lemma open_thought_parts (g2 : option (nat * nat)) c :
  tag_parts input
    (mkMatch o (length input)
       [Some (o + 1, o + 1 + length name); g2;
        match s with
        | [] => None
        | _ :: _ =>
            Some (o + 1 + length name + length w + length attrs + 1, length input)
        end;
        None; None]) c
  = (Returns [mkPart Thought s (Some true)], c).
Proof.
  pose proof thought_length as HL.
  match goal with
  | |- tag_parts _ ?mm _ = _ => set (m := mm)
  end.
  assert (G1 : group input m 1 = Some name).
  { unfold group, m. cbn [groups nth Nat.sub]. f_equal. unfold slice.
    rewrite thought_at_name.
    replace (o + 1 + length name - (o + 1)) with (length name) by lia.
    rewrite firstn_app, firstn_all, Nat.sub_diag. apply app_nil_r. }
  assert (G3 : or_empty (js_or (group input m 3) (Some [])) = s).
  { pose proof thought_at_body as Hbody. clear G1.
    unfold group, m. cbn [groups nth Nat.sub]. clear m Hinput Hfree.
    destruct s as [|b s']; [reflexivity|].
    unfold slice. rewrite Hbody, firstn_all2 by lia. reflexivity. }
  assert (G0 : matched input m = 60%N :: name ++ w ++ attrs ++ 62%N :: s).
  { unfold matched, m, slice. cbn [index stop]. rewrite thought_at_lt.
    apply firstn_all2. simpl. repeat (rewrite ?length_app; simpl length). len_lia. }
  unfold tag_parts. rewrite G1, G3, G0.
  assert (Hjs : forall g, js_or (Some name) g = Some name)
    by (intros g; destruct Hn; subst name; reflexivity).
  rewrite Hjs. cbn [or_empty].
  rewrite open_thought_not_closed.
  destruct Hn; subst name; reflexivity.
Qed.

End OpenThought.

Section ThoughtScan.

Lemma no_tag_between_spec content from to :
  no_tag_between content from to = true ->
  forall i, from <= i < to -> match_at TAG_REGEX content i = None.
Proof.
  unfold no_tag_between. rewrite forallb_forall. intros H i Hi.
  assert (Hin : In i (List.seq from (to - from))) by (apply in_seq; lia).
  specialize (H i Hin). destruct (match_at TAG_REGEX content i); [discriminate | reflexivity].
Qed.

(** The search started at [r] finds the match at [o] when nothing
    matches in between. *)
Lemma exec_arrives re input r o m :
  r <= o -> o <= length input ->
  (forall i, r <= i < o -> match_at re input i = None) ->
  match_at re input o = Some m ->
  exec re input r = (Some m, stop m).
Proof.
  intros Hr Ho Hnone Hm. unfold exec.
  replace (length input <? r) with false by (symmetry; apply Nat.ltb_ge; lia).
  replace (S (length input - r)) with ((o - r) + S (length input - o)) by lia.
  rewrite search_skip by (intros i Hi; apply Hnone; lia).
  replace (r + (o - r)) with o by lia.
  rewrite (search_hit _ _ _ _ m Hm). reflexivity.
Qed.

(** One round of the loop at the tag: the text before it, the thought
    part, and the scan is over. *)
Lemma open_thought_scan (pre name w attrs s : str) st budget c :
  name = js "thought" \/ name = js "think" ->
  attribute_text w attrs = true ->
  free_of name (attrs ++ 62%N :: s) = true ->
  regexLastIndex st <= length pre ->
  no_tag_between (pre ++ 60%N :: name ++ w ++ attrs ++ 62%N :: s)
    (regexLastIndex st) (length pre) = true ->
  scan_tags (pre ++ 60%N :: name ++ w ++ attrs ++ 62%N :: s) (S budget) st c
  = (Returns
       (mkLoop (push_text (parts st)
                  (slice (pre ++ 60%N :: name ++ w ++ attrs ++ 62%N :: s)
                     (lastIndex st) (length pre))
                ++ [mkPart Thought s (Some true)])
          (length (pre ++ 60%N :: name ++ w ++ attrs ++ 62%N :: s))
          (length (pre ++ 60%N :: name ++ w ++ attrs ++ 62%N :: s))), c).
Proof.
  intros Hn Hshape Hfree Hr Hnone.
  set (input := pre ++ 60%N :: name ++ w ++ attrs ++ 62%N :: s) in *.
  set (o := length pre) in *.
  pose proof (thought_length pre name w attrs s input eq_refl o eq_refl) as HL.
  pose proof (open_thought_match pre name w attrs s Hn Hshape Hfree input eq_refl o eq_refl)
    as Hmatch.
  rewrite scan_tags_S.
  rewrite (exec_arrives TAG_REGEX input (regexLastIndex st) o _ Hr ltac:(lia)
             (no_tag_between_spec input _ _ Hnone) Hmatch).
  cbn [stop index].
  match goal with
  | |- context [matched input ?mm] =>
      assert (Hm : length (matched input mm) = length input - o)
        by (apply length_matched; cbn [index stop]; lia)
  end.
  rewrite Hm.
  replace (length input - o =? 0) with false by (symmetry; apply Nat.eqb_neq; lia).
  rewrite andb_false_r. unfold bind.
  rewrite (open_thought_parts pre name w attrs s Hn Hshape Hfree input eq_refl o eq_refl).
  rewrite scan_tags_none.
  2:{ cbn [regexLastIndex]. apply exec_at_end. reflexivity. }
  reflexivity.
Qed.

Lemma blank_firstn (t : str) k : blank t = true -> blank (firstn k t) = true.
Proof.
  unfold blank. rewrite !forallb_forall. intros H a Ha. apply H.
  rewrite <- (firstn_skipn k t). apply in_or_app. left. exact Ha.
Qed.

End ThoughtScan.



(** Buffers in which text or a closed tag stands before the tag. *)
Lemma unclosed_thought_examples :
  parse (js "Hello <thought>partial, with <b>bold</b> text")
    = Returns [mkPart Text (js "Hello") None;
               mkPart Thought (js "partial, with <b>bold</b> text") (Some true)]
  /\ parse (js "<think>partial") = Returns [mkPart Thought (js "partial") (Some true)]
  /\ parse (js "<thought>x</thought><thought>partial")
     = Returns [mkPart Thought (js "x") (Some false);
                mkPart Thought (js "partial") (Some true)]
  /\ parse (js "a < b <thought>partial")
     = Returns [mkPart Text (js "a < b") None; mkPart Thought (js "partial") (Some true)].
Proof. repeat split; vm_compute; reflexivity. Qed.


(* ===================================================================== *)
(** ** The children of a tool tag *)
(* ===================================================================== *)

Section ChildSteps.

Variable input : str.

Lemma skipn_length_eq (e : nat) (t : str) :
  skipn e input = t -> t <> [] -> length input = e + length t.
Proof.
  intros H Ht. assert (L : length (skipn e input) = length t) by (rewrite H; reflexivity).
  rewrite length_skipn in L. destruct t; [congruence|]. simpl in *. lia.
Qed.

Lemma nth_error_in_segment (p : nat) (seg more : str) j :
  skipn p input = seg ++ more -> j < length seg ->
  exists a, nth_error input (p + j) = Some a /\ In a seg.
Proof.
  intros H Hj.
  assert (E : nth_error input (p + j) = nth_error (skipn p input) j)
    by (rewrite nth_error_skipn; reflexivity).
  rewrite E, H, nth_error_app1 by exact Hj.
  destruct (nth_error seg j) as [a|] eqn:Ea.
  - exists a. split; [reflexivity|]. apply nth_error_In in Ea. exact Ea.
  - apply nth_error_None in Ea. lia.
Qed.

Lemma skipn_inside (p : nat) (seg more : str) j :
  skipn p input = seg ++ more -> j <= length seg ->
  skipn (p + j) input = skipn j seg ++ more.
Proof.
  intros H Hj. rewrite Nat.add_comm, <- skipn_skipn, H, skipn_app.
  replace (j - length seg) with 0 by lia. reflexivity.
Qed.

Lemma nth_error_skipn_head (e : nat) a :
  nth_error input e = Some a -> exists u, skipn e input = a :: u.
Proof.
  intros H. destruct (skipn e input) as [|b u] eqn:E.
  - rewrite (nth_error_skipn_nil input e E) in H. discriminate.
  - rewrite (nth_error_skipn_cons input e b u E) in H. injection H as ->. exists u.
    reflexivity.
Qed.

(** What [quiet] says, position by position. *)
Lemma quiet_spec (start : str -> bool) (t next : str) : forall j,
  quiet start t next = true -> j < length t -> start (skipn j t ++ next) = false.
Proof.
  induction t as [|a t IH]; intros j H Hj; [simpl in Hj; lia|].
  cbn [quiet] in H. apply andb_prop in H. destruct H as [H0 H].
  destruct j as [|j].
  - apply negb_true_iff in H0. exact H0.
  - apply IH; [exact H | simpl in Hj; lia].
Qed.

(** A pattern matches nowhere inside a text in which nothing starts that
    its matches need. *)
Lemma start_skip re (start : str -> bool) (p : nat) (t next : str) :
  (forall i m, match_at re input i = Some m -> start (skipn i input) = true) ->
  skipn p input = t ++ next ->
  quiet start t next = true ->
  forall i, p <= i < p + length t -> match_at re input i = None.
Proof.
  intros Hre H Hq i Hi.
  destruct (match_at re input i) as [m|] eqn:E; [|reflexivity].
  apply Hre in E.
  pose proof (skipn_inside p t next (i - p) H ltac:(lia)) as Hs.
  replace (p + (i - p)) with i in Hs by lia.
  rewrite Hs, (quiet_spec start t next (i - p) Hq) in E by lia. discriminate.
Qed.

(** Nothing that begins with "<" starts inside a text without "<". *)
Lemma quiet_plain (start : str -> bool) (t next : str) :
  (forall a u, N.eqb a 60 = false -> start (a :: u) = false) ->
  without_lt t = true -> quiet start t next = true.
Proof.
  intros Hs. induction t as [|a t IH]; intros H; [reflexivity|].
  unfold without_lt in H. cbn [forallb] in H. apply andb_prop in H. destruct H as [Ha H].
  apply negb_true_iff in Ha. cbn [quiet]. rewrite (IH H), andb_true_r.
  change ((a :: t) ++ next) with (a :: t ++ next). rewrite (Hs a _ Ha). reflexivity.
Qed.

Lemma quiet_app (start : str -> bool) (a b next : str) :
  quiet start a (b ++ next) = true -> quiet start b next = true ->
  quiet start (a ++ b) next = true.
Proof.
  induction a as [|x a IH]; intros Ha Hb; [exact Hb|].
  cbn [quiet] in Ha. apply andb_prop in Ha. destruct Ha as [H0 Ha].
  change ((x :: a) ++ b) with (x :: a ++ b). cbn [quiet].
  rewrite (IH Ha Hb), andb_true_r.
  change ((x :: a ++ b) ++ next) with (x :: (a ++ b) ++ next).
  rewrite <- app_assoc. exact H0.
Qed.

(** A repetition of a class that matched took some characters of the
    class, at least as many as it must, and the rest of the pattern
    matched after them. *)
Lemma repeat_chars_inv cs greedy : forall fuel min e caps (K : Continuation) z,
  repeat_matcher (matcher input false (Chars cs)) [] greedy fuel min None (mkState e caps) K
  = Some z ->
  exists n, min <= n
    /\ (forall j, j < n ->
          exists a, nth_error input (e + j) = Some a /\ charset_mem false cs a = true)
    /\ K (mkState (e + n) caps) = Some z.
Proof.
  induction fuel as [|fuel IH]; intros min e caps K z H; [discriminate|].
  rewrite repeat_matcher_S in H. cbv zeta in H.
  cbn [clear_captures fold_left option_map] in H.
  assert (Hstep : matcher input false (Chars cs) (mkState e caps)
                    (fun y => if (min =? 0) && (endIndex y =? endIndex (mkState e caps))
                              then None
                              else repeat_matcher (matcher input false (Chars cs)) []
                                     greedy fuel (min - 1) None y K) = Some z ->
                  exists n, min <= n
                    /\ (forall j, j < n ->
                          exists a, nth_error input (e + j) = Some a
                                    /\ charset_mem false cs a = true)
                    /\ K (mkState (e + n) caps) = Some z).
  { intros Hm. cbn [matcher endIndex] in Hm.
    destruct (nth_error input e) as [a|] eqn:Ea; [|discriminate].
    destruct (charset_mem false cs a) eqn:Ma; [|discriminate].
    unfold advance in Hm. cbn [endIndex captures] in Hm.
    replace (e + 1 =? e) with false in Hm by (symmetry; apply Nat.eqb_neq; lia).
    rewrite andb_false_r in Hm. apply IH in Hm.
    destruct Hm as [n [Hn [Hall HK]]]. exists (S n). split; [lia|]. split.
    - intros j Hj. destruct j as [|j].
      + rewrite Nat.add_0_r. exists a. split; assumption.
      + replace (e + S j) with (e + 1 + j) by lia. apply Hall. lia.
    - replace (e + S n) with (e + 1 + n) by lia. exact HK. }
  destruct (min =? 0) eqn:Emin; cbn [negb] in H.
  - apply Nat.eqb_eq in Emin. subst min.
    assert (Hzero : K (mkState e caps) = Some z ->
                    exists n, 0 <= n
                      /\ (forall j, j < n ->
                            exists a, nth_error input (e + j) = Some a
                                      /\ charset_mem false cs a = true)
                      /\ K (mkState (e + n) caps) = Some z).
    { intros HK. exists 0. split; [lia|]. split; [intros j Hj; lia|].
      rewrite Nat.add_0_r. exact HK. }
    destruct greedy.
    + match type of H with
      | match ?m with _ => _ end = _ => destruct m as [r|] eqn:Em
      end.
      * injection H as ->. apply Hstep. reflexivity.
      * apply Hzero. exact H.
    + destruct (K (mkState e caps)) as [r|] eqn:EK.
      * injection H as ->. apply Hzero. reflexivity.
      * apply Hstep. exact H.
  - apply Hstep. exact H.
Qed.

(** A repetition that must take one character of a class fails where
    none stands. *)
Lemma plus_stop cs e caps (K : Continuation) :
  match skipn e input with
  | [] => True
  | a :: _ => charset_mem false cs a = false
  end ->
  matcher input false (plus (Chars cs)) (mkState e caps) K = None.
Proof.
  intros H. unfold plus. rewrite matcher_plus, repeat_matcher_S. cbv zeta.
  cbn [Nat.eqb negb clear_captures fold_left parens]. apply chars_stop. exact H.
Qed.

Lemma word_mem (a : char) :
  charset_mem false
    (mkSet [span "a" "z"; span "A" "Z"; span "0" "9"; span "_" "_"] false) a
  = is_word_char a.
Proof.
  unfold charset_mem, canon, in_ranges, span, is_word_char.
  cbn [negated ranges andb existsb xorb ch char_of_ascii N_of_ascii N_of_digits].
  rewrite xorb_false_r. apply eq_true_iff_eq.
  rewrite !orb_true_iff, !andb_true_iff, !N.leb_le, !N.eqb_eq. lia.
Qed.

Lemma any_mem (a : char) : charset_mem false (mkSet [] true) a = true.
Proof. reflexivity. Qed.

Lemma segment_slice (e : nat) (seg more : str) :
  skipn e input = seg ++ more -> slice input e (e + length seg) = seg.
Proof.
  intros H. unfold slice. replace (e + length seg - e) with (length seg) by lia.
  rewrite H, firstn_app, firstn_all, Nat.sub_diag. apply app_nil_r.
Qed.

End ChildSteps.

Section ChildStarts.

Variable input : str.

Lemma flat_start_head (a : char) (u : str) :
  N.eqb a 60 = false -> flat_start (a :: u) = false.
Proof.
  intros H. unfold flat_start.
  change (startsWith (a :: u) (js "<argument"))
    with (N.eqb 60 a && startsWith u (js "argument")).
  rewrite N.eqb_sym, H. reflexivity.
Qed.

Lemma nested_start_head (a : char) (u : str) :
  N.eqb a 60 = false -> nested_start (a :: u) = false.
Proof. intros H. cbn [nested_start]. rewrite H. reflexivity. Qed.

Lemma closing_start_head key (a : char) (u : str) :
  N.eqb a 60 = false -> closing_start key (a :: u) = false.
Proof.
  intros H. unfold closing_start.
  change (startsWith (a :: u) (js "</" ++ key ++ js ">"))
    with (N.eqb 60 a && startsWith u (47%N :: key ++ js ">")).
  rewrite N.eqb_sym, H. reflexivity.
Qed.

(** A match of ARGUMENT_REGEX begins with "<argument" and white space. *)
Lemma argument_match_start i m :
  match_at ARGUMENT_REGEX input i = Some m -> flat_start (skipn i input) = true.
Proof.
  unfold match_at. cbn [pattern flag_i ngroups ARGUMENT_REGEX repeat].
  destruct (matcher input false _ _ _) as [z|] eqn:E; [|discriminate]. intros _.
  unfold seq in E. cbn [fold_right] in E. rewrite matcher_Seq in E.
  change (lit "<argument") with (chars_of (js "<argument")) in E.
  apply lit_inv in E. destruct E as [S1 E].
  change (i + length (js "<argument")) with (i + 9) in E.
  rewrite matcher_Seq in E. unfold plus, ws, cls in E. rewrite matcher_plus in E.
  cbn [parens endIndex] in E.
  apply repeat_chars_inv in E. destruct E as [n [Hn [Hall _]]].
  destruct (Hall 0 ltac:(lia)) as [a [Ea Ma]]. rewrite Nat.add_0_r in Ea.
  destruct (nth_error_skipn_head input _ _ Ea) as [u Hu].
  unfold flat_start. rewrite S1, skipn_skipn.
  replace (9 + i) with (i + 9) by lia. rewrite Hu. rewrite ws_mem in Ma. exact Ma.
Qed.

Lemma after_word_run : forall n (t : str),
  (forall j, j < n -> exists a, nth_error t j = Some a /\ is_word_char a = true) ->
  (exists u, skipn n t = 62%N :: u) ->
  after_word t = Some 62%N.
Proof.
  induction n as [|n IH]; intros t Hall [u Hu].
  - change (skipn 0 t) with t in Hu. rewrite Hu. reflexivity.
  - destruct t as [|a t]; [discriminate Hu|].
    destruct (Hall 0 ltac:(lia)) as [b [Eb Wb]]. simpl in Eb. injection Eb as <-.
    cbn [after_word]. rewrite Wb. apply IH.
    + intros j Hj. apply (Hall (S j)). lia.
    + exists u. exact Hu.
Qed.

(** A match of DEEP_ARG_REGEX begins with "<", a key and ">". *)
Lemma deep_match_start i m :
  match_at DEEP_ARG_REGEX input i = Some m -> nested_start (skipn i input) = true.
Proof.
  unfold match_at. cbn [pattern flag_i ngroups DEEP_ARG_REGEX repeat].
  destruct (matcher input false _ _ _) as [z|] eqn:E; [|discriminate]. intros _.
  unfold seq in E. cbn [fold_right] in E. rewrite matcher_Seq in E.
  change (lit "<") with (chars_of (js "<")) in E.
  apply lit_inv in E. destruct E as [S1 E].
  change (i + length (js "<")) with (i + 1) in E.
  rewrite matcher_Seq, matcher_Group in E. unfold plus, cls in E. rewrite matcher_plus in E.
  cbn [parens endIndex] in E.
  apply repeat_chars_inv in E. destruct E as [n [Hn [Hall E]]].
  unfold set_capture in E. cbn [endIndex captures set_nth Nat.sub] in E.
  rewrite matcher_Seq in E. change (lit ">") with (chars_of (js ">")) in E.
  apply lit_inv in E. destruct E as [S2 _].
  apply startsWith_true in S1. destruct S1 as [t1 S1].
  apply startsWith_true in S2. destruct S2 as [t2 S2].
  assert (H1 : skipn (i + 1) input = t1) by (apply (skipn_next input i 60%N); exact S1).
  assert (Hword : forall j, j < n ->
             exists a, nth_error t1 j = Some a /\ is_word_char a = true).
  { intros j Hj. destruct (Hall j Hj) as [a [Ea Ma]]. exists a.
    rewrite <- H1, nth_error_skipn. rewrite word_mem in Ma. split; assumption. }
  rewrite S1. change (js "<" ++ t1) with (60%N :: t1). cbn [nested_start].
  rewrite N.eqb_refl.
  rewrite (after_word_run n t1 Hword).
  2:{ exists t2. rewrite <- H1, skipn_skipn. replace (n + (i + 1)) with (i + 1 + n) by lia.
      exact S2. }
  destruct (Hword 0 ltac:(lia)) as [a [Ea Wa]].
  destruct t1 as [|b t1']; [discriminate Ea|]. simpl in Ea. injection Ea as ->.
  rewrite Wa. reflexivity.
Qed.

End ChildStarts.

Section ChildParts.

Lemma flat_parts sp1 qa name qb sp2 qc value qd sp3 slash (next : str) :
  well_formed_child (Flat sp1 qa name qb sp2 qc value qd sp3 slash) next = true ->
  (sp1 <> [] /\ blank sp1 = true) /\ (sp2 <> [] /\ blank sp2 = true) /\ blank sp3 = true
  /\ (is_quote qa = true /\ is_quote qb = true /\ is_quote qc = true /\ is_quote qd = true)
  /\ quotable name = true /\ quotable value = true.
Proof.
  intros H. cbn [well_formed_child] in H. rewrite !andb_true_iff in H.
  destruct H as [[[[[[[[[[A1 A2] A3] A4] A5] A6] A7] A8] A9] A10] A11].
  repeat split; try assumption.
  - destruct sp1; [discriminate A1 | discriminate].
  - destruct sp2; [discriminate A3 | discriminate].
Qed.

Lemma blank_spaces (w : str) :
  blank w = true -> Forall (fun a => charset_mem false (mkSet space_ranges false) a = true) w.
Proof.
  intros Hb. apply List.Forall_forall. intros x Hx. rewrite ws_mem.
  unfold blank in Hb. rewrite forallb_forall in Hb. apply Hb. exact Hx.
Qed.

Lemma quotable_chars (v : str) :
  quotable v = true ->
  Forall (fun a => charset_mem false (mkSet [(10, 10); (13, 13); (8232, 8233)]%N true) a = true
                   /\ is_quote a = false) v.
Proof.
  intros Hv. apply List.Forall_forall. intros a Ha.
  unfold quotable in Hv. rewrite forallb_forall in Hv. specialize (Hv a Ha).
  apply negb_true_iff in Hv. apply orb_false_elim in Hv. destruct Hv as [Hq Hl].
  rewrite dot_mem, Hl. split; [reflexivity | exact Hq].
Qed.

End ChildParts.

Section FlatChild.

Variable input : str.
Variable sp1 name sp2 value sp3 more : str.
Variable qa qb qc qd : char.
Variable slash : bool.
Variable p : nat.
Variable next : str.

Hypothesis Hwf :
  well_formed_child (Flat sp1 qa name qb sp2 qc value qd sp3 slash) next = true.
Hypothesis Hat :
  skipn p input
  = js "<argument" ++ sp1 ++ js "name=" ++ qa :: name ++ qb :: sp2
    ++ js "value=" ++ qc :: value ++ qd :: sp3
    ++ (if slash then js "/" else []) ++ 62%N :: more.

(** The match of ARGUMENT_REGEX where the child stands: group 1 is the
    name, group 2 the value. *)
Lemma argument_at_flat :
  match_at ARGUMENT_REGEX input p
  = Some (mkMatch p
            (p + 9 + length sp1 + 5 + 1 + length name + 1 + length sp2 + 6 + 1
             + length value + 1 + length sp3 + (if slash then 1 else 0) + 1)
            [Some (p + 9 + length sp1 + 5 + 1, p + 9 + length sp1 + 5 + 1 + length name);
             Some (p + 9 + length sp1 + 5 + 1 + length name + 1 + length sp2 + 6 + 1,
                   p + 9 + length sp1 + 5 + 1 + length name + 1 + length sp2 + 6 + 1
                   + length value)]).
Proof.
  destruct (flat_parts _ _ _ _ _ _ _ _ _ _ _ Hwf)
    as [[Hs1 Hb1] [[Hs2 Hb2] [Hb3 [[Hqa [Hqb [Hqc Hqd]]] [Hn Hv]]]]].
  set (e1 := p + 9).
  set (e2 := e1 + length sp1).
  set (e3 := e2 + 5).
  set (e4 := e3 + 1).
  set (e5 := e4 + length name).
  set (e6 := e5 + 1).
  set (e7 := e6 + length sp2).
  set (e8 := e7 + 6).
  set (e9 := e8 + 1).
  set (e10 := e9 + length value).
  set (e11 := e10 + 1).
  set (e12 := e11 + length sp3).
  set (e13 := e12 + (if slash then 1 else 0)).
  pose proof (skipn_more input p 9 (js "<argument") _ Hat eq_refl) as H1. fold e1 in H1.
  pose proof (skipn_more input e1 _ sp1 _ H1 eq_refl) as H2. fold e2 in H2.
  pose proof (skipn_more input e2 5 (js "name=") _ H2 eq_refl) as H3. fold e3 in H3.
  pose proof (skipn_next input e3 qa _ H3) as H4. fold e4 in H4.
  pose proof (skipn_more input e4 _ name _ H4 eq_refl) as H5. fold e5 in H5.
  pose proof (skipn_next input e5 qb _ H5) as H6. fold e6 in H6.
  pose proof (skipn_more input e6 _ sp2 _ H6 eq_refl) as H7. fold e7 in H7.
  pose proof (skipn_more input e7 6 (js "value=") _ H7 eq_refl) as H8. fold e8 in H8.
  pose proof (skipn_next input e8 qc _ H8) as H9. fold e9 in H9.
  pose proof (skipn_more input e9 _ value _ H9 eq_refl) as H10. fold e10 in H10.
  pose proof (skipn_next input e10 qd _ H10) as H11. fold e11 in H11.
  pose proof (skipn_more input e11 _ sp3 _ H11 eq_refl) as H12. fold e12 in H12.
  assert (H13 : skipn e13 input = 62%N :: more).
  { unfold e13. destruct slash.
    - apply (skipn_more input e12 1 (js "/") _ H12 eq_refl).
    - rewrite Nat.add_0_r. exact H12. }
  assert (HL : length input = e13 + 1 + length more).
  { rewrite (skipn_length_eq input e13 _ H13) by discriminate. simpl. lia. }
  assert (L13 : e12 <= e13) by (unfold e13; lia).
  assert (L12 : e11 <= e12) by (unfold e12; lia).
  assert (L10 : e9 <= e10) by (unfold e10; lia).
  assert (L7 : e6 <= e7) by (unfold e7; lia).
  assert (L5 : e4 <= e5) by (unfold e5; lia).
  assert (L2 : e1 <= e2) by (unfold e2; lia).
  unfold match_at. cbn [pattern flag_i ngroups ARGUMENT_REGEX repeat].
  match goal with
  | |- match ?e with _ => _ end = Some (mkMatch _ ?stop ?caps) =>
      assert (E : e = Some (mkState stop caps)); [|rewrite E; reflexivity]
  end.
  unfold seq. cbn [fold_right]. rewrite matcher_Seq.
  change (lit "<argument") with (chars_of (js "<argument")).
  rewrite (lit_step input (js "<argument") p _ _ _ Hat).
  change (p + length (js "<argument")) with e1.
  (* white space, name= and the opening quote *)
  rewrite matcher_Seq. unfold plus, ws, cls. rewrite matcher_plus. cbn [parens endIndex].
  assert (E1 : exists a1 sp1', sp1 = a1 :: sp1') by (destruct sp1; [congruence | eauto]).
  destruct E1 as [a1 [sp1' E1]].
  assert (Z1 : length sp1 = S (length sp1')) by (rewrite E1; reflexivity).
  eapply (greedy_plus_run input _ a1 sp1' e1).
  { rewrite <- E1. exact H1. }
  { rewrite <- E1. apply blank_spaces. exact Hb1. }
  { reflexivity. }
  { unfold e2 in *. lia. }
  rewrite <- E1. fold e2.
  rewrite matcher_Seq. change (lit "name=") with (chars_of (js "name=")).
  rewrite (lit_step input (js "name=") e2 _ _ _ H2).
  change (e2 + length (js "name=")) with e3.
  rewrite matcher_Seq. unfold quote_class, cls.
  rewrite (chars_step input _ e3 _ qa _ _ H3) by (rewrite quote_mem; exact Hqa).
  fold e4.
  (* the name, up to the first quote *)
  rewrite matcher_Seq, matcher_Group. unfold star_lazy, dot, ncls.
  rewrite matcher_star. cbn [parens endIndex].
  eapply (lazy_chars_run input _ name e4).
  { exact H4. }
  { eapply List.Forall_impl; [|exact (quotable_chars name Hn)]. intros a [Ha _]. exact Ha. }
  { intros j Hj. cbn [endIndex]. unfold set_capture.
    cbn [endIndex captures set_nth Nat.sub]. rewrite matcher_Seq.
    apply chars_stop.
    destruct (nth_error_in_segment input e4 name _ j H4 Hj) as [a [Ea Hin]].
    destruct (skipn (e4 + j) input) as [|b u] eqn:Eb.
    - exact I.
    - rewrite (nth_error_skipn_cons input _ _ _ Eb) in Ea. injection Ea as ->.
      rewrite quote_mem.
      pose proof (quotable_chars name Hn) as Hall. rewrite List.Forall_forall in Hall.
      apply Hall. exact Hin. }
  2:{ lia. }
  fold e5. cbn [endIndex]. unfold set_capture. cbn [endIndex captures set_nth Nat.sub].
  rewrite matcher_Seq.
  rewrite (chars_step input _ e5 _ qb _ _ H5) by (rewrite quote_mem; exact Hqb).
  fold e6.
  (* white space, value= and the opening quote *)
  rewrite matcher_Seq. rewrite matcher_plus. cbn [parens endIndex].
  assert (E2 : exists a2 sp2', sp2 = a2 :: sp2') by (destruct sp2; [congruence | eauto]).
  destruct E2 as [a2 [sp2' E2]].
  assert (Z2 : length sp2 = S (length sp2')) by (rewrite E2; reflexivity).
  eapply (greedy_plus_run input _ a2 sp2' e6).
  { rewrite <- E2. exact H6. }
  { rewrite <- E2. apply blank_spaces. exact Hb2. }
  { reflexivity. }
  { unfold e7 in *. lia. }
  rewrite <- E2. fold e7.
  rewrite matcher_Seq. change (lit "value=") with (chars_of (js "value=")).
  rewrite (lit_step input (js "value=") e7 _ _ _ H7).
  change (e7 + length (js "value=")) with e8.
  rewrite matcher_Seq.
  rewrite (chars_step input _ e8 _ qc _ _ H8) by (rewrite quote_mem; exact Hqc).
  fold e9.
  (* the value, up to the first quote *)
  rewrite matcher_Seq, matcher_Group. rewrite matcher_star. cbn [parens endIndex].
  eapply (lazy_chars_run input _ value e9).
  { exact H9. }
  { eapply List.Forall_impl; [|exact (quotable_chars value Hv)]. intros a [Ha _]. exact Ha. }
  { intros j Hj. cbn [endIndex]. unfold set_capture.
    cbn [endIndex captures set_nth Nat.sub]. rewrite matcher_Seq.
    apply chars_stop.
    destruct (nth_error_in_segment input e9 value _ j H9 Hj) as [a [Ea Hin]].
    destruct (skipn (e9 + j) input) as [|b u] eqn:Eb.
    - exact I.
    - rewrite (nth_error_skipn_cons input _ _ _ Eb) in Ea. injection Ea as ->.
      rewrite quote_mem.
      pose proof (quotable_chars value Hv) as Hall. rewrite List.Forall_forall in Hall.
      apply Hall. exact Hin. }
  2:{ lia. }
  fold e10. cbn [endIndex]. unfold set_capture. cbn [endIndex captures set_nth Nat.sub].
  rewrite matcher_Seq.
  rewrite (chars_step input _ e10 _ qd _ _ H10) by (rewrite quote_mem; exact Hqd).
  fold e11.
  (* white space, "/" and ">" *)
  rewrite matcher_Seq. unfold star. rewrite matcher_star. cbn [parens endIndex].
  eapply (greedy_run input _ sp3 e11).
  { exact H11. }
  { apply blank_spaces. exact Hb3. }
  { destruct slash; reflexivity. }
  { lia. }
  fold e12. rewrite matcher_Seq.
  destruct slash.
  - apply opt_take; [cbn [endIndex]; unfold e13 in *; lia|].
    change (parens (lit "/")) with (@nil nat). cbn [clear_captures fold_left].
    change (lit "/") with (chars_of (js "/")).
    rewrite (lit_step input (js "/") e12 _ _ _ H12).
    change (e12 + length (js "/")) with e13. cbn [endIndex].
    replace (e13 =? e12) with false by (symmetry; apply Nat.eqb_neq; unfold e13; lia).
    rewrite matcher_Seq. change (lit ">") with (chars_of (js ">")).
    rewrite (lit_step input (js ">") e13 _ _ _ H13). reflexivity.
  - rewrite opt_skip.
    2:{ intros d. change (parens (lit "/")) with (@nil nat).
        cbn [clear_captures fold_left].
        change (lit "/") with (chars_of (js "/")). apply lit_fail.
        rewrite H12. reflexivity. }
    assert (E13 : e13 = e12) by (unfold e13; lia).
    rewrite matcher_Seq. change (lit ">") with (chars_of (js ">")).
    rewrite <- E13. rewrite (lit_step input (js ">") e13 _ _ _ H13). reflexivity.
Qed.

(** The two groups of that match. *)
Lemma flat_slices :
  slice input (p + 9 + length sp1 + 5 + 1) (p + 9 + length sp1 + 5 + 1 + length name) = name
  /\ slice input (p + 9 + length sp1 + 5 + 1 + length name + 1 + length sp2 + 6 + 1)
        (p + 9 + length sp1 + 5 + 1 + length name + 1 + length sp2 + 6 + 1 + length value)
     = value.
Proof.
  pose proof (skipn_more input p 9 (js "<argument") _ Hat eq_refl) as H1.
  pose proof (skipn_more input _ _ sp1 _ H1 eq_refl) as H2.
  pose proof (skipn_more input _ 5 (js "name=") _ H2 eq_refl) as H3.
  pose proof (skipn_next input _ qa _ H3) as H4.
  pose proof (skipn_more input _ _ name _ H4 eq_refl) as H5.
  pose proof (skipn_next input _ qb _ H5) as H6.
  pose proof (skipn_more input _ _ sp2 _ H6 eq_refl) as H7.
  pose proof (skipn_more input _ 6 (js "value=") _ H7 eq_refl) as H8.
  pose proof (skipn_next input _ qc _ H8) as H9.
  split; [exact (segment_slice input _ _ _ H4) | exact (segment_slice input _ _ _ H9)].
Qed.

End FlatChild.

Section NestedChild.

Variable input : str.

Lemma word_not_space (a : char) : is_word_char a = true -> is_space a = false.
Proof.
  intros H. destruct (is_space a) eqn:E; [|reflexivity]. exfalso.
  unfold is_word_char in H. unfold is_space in E.
  rewrite ?orb_true_iff, ?andb_true_iff, ?N.leb_le, ?N.eqb_eq in H.
  rewrite ?orb_true_iff, ?andb_true_iff, ?N.leb_le, ?N.eqb_eq in E. lia.
Qed.

Lemma word_not_lt (a : char) : is_word_char a = true -> N.eqb a 60 = false.
Proof.
  intros H. destruct (N.eqb_spec a 60) as [->|]; [discriminate H | reflexivity].
Qed.

Lemma word_without_lt (k : str) : forallb is_word_char k = true -> without_lt k = true.
Proof.
  unfold without_lt. rewrite !forallb_forall. intros H a Ha.
  apply negb_true_iff. apply word_not_lt. apply H. exact Ha.
Qed.

(** What stands after a word [a] where a key and ">" stand: a character
    of the key or ">", no white space. *)
Lemma after_key (a : str) : forall (k more t : str),
  forallb is_word_char k = true ->
  Forall (fun y => N.eqb y 62 = false) a ->
  k ++ 62%N :: more = a ++ t ->
  match t with
  | [] => True
  | c :: _ => is_space c = false
  end.
Proof.
  induction a as [|y a IH]; intros k more t Hk Ha E.
  - simpl in E. subst t. destruct k as [|x k]; [reflexivity|].
    simpl in Hk. apply andb_prop in Hk. apply word_not_space. apply Hk.
  - inversion Ha as [|? ? Hy Ha']; subst. destruct k as [|x k].
    + simpl in E. injection E as E _. subst y. discriminate Hy.
    + simpl in E, Hk. injection E as _ E. apply andb_prop in Hk.
      apply (IH k more t); [apply Hk | exact Ha' | exact E].
Qed.

(** No flat child opens at the opening tag of a nested child. *)
Lemma flat_start_open (k more : str) :
  forallb is_word_char k = true ->
  flat_start (60%N :: k ++ 62%N :: more) = false.
Proof.
  intros Hk. unfold flat_start.
  destruct (startsWith (60%N :: k ++ 62%N :: more) (js "<argument")) eqn:S; [|reflexivity].
  apply startsWith_true in S. destruct S as [t S]. rewrite S.
  change (skipn 9 (js "<argument" ++ t)) with t.
  change (js "<argument" ++ t) with (60%N :: js "argument" ++ t) in S.
  injection S as S.
  pose proof (after_key (js "argument") k more t Hk) as A.
  destruct t as [|c t']; [reflexivity|]. cbn [andb]. apply A; [|exact S].
  repeat constructor.
Qed.

(** A back reference that matched found the text of its group. *)
Lemma backref_inv k s n e caps (c : Continuation) z :
  matcher input false (Backref k) (mkState e caps) c = Some z ->
  nth (k - 1) caps None = Some (s, s + n) ->
  length (firstn n (skipn s input)) = n ->
  startsWith (skipn e input) (firstn n (skipn s input)) = true
  /\ c (mkState (e + n) caps) = Some z.
Proof.
  intros H Hc L. split.
  - destruct (startsWith (skipn e input) (firstn n (skipn s input))) eqn:S; [reflexivity|].
    rewrite (backref_fail input k s n e caps c Hc L S) in H. discriminate.
  - simpl in H. unfold get_capture in H. simpl in H. rewrite Hc in H.
    replace (s + n - s) with n in H by lia.
    destruct (backref_ok false input e s n); [exact H | discriminate].
Qed.

Variable key value more : str.
Variable p : nat.
Hypothesis Hkey : key <> [].
Hypothesis Hword : forallb is_word_char key = true.
Hypothesis Hvalue :
  quiet (closing_start key) value (js "</" ++ key ++ js ">" ++ more) = true.
Hypothesis Hat :
  skipn p input = 60%N :: key ++ 62%N :: value ++ 60%N :: 47%N :: key ++ 62%N :: more.

(** The match of DEEP_ARG_REGEX where the child stands: group 1 is the
    key, group 2 the text up to the closing tag. *)
Lemma deep_at_nested :
  match_at DEEP_ARG_REGEX input p
  = Some (mkMatch p
            (p + 1 + length key + 1 + length value + 2 + length key + 1)
            [Some (p + 1, p + 1 + length key);
             Some (p + 1 + length key + 1, p + 1 + length key + 1 + length value)]).
Proof.
  set (e1 := p + 1).
  set (e2 := e1 + length key).
  set (e3 := e2 + 1).
  set (e4 := e3 + length value).
  set (e5 := e4 + 2).
  set (e6 := e5 + length key).
  pose proof (skipn_next input p 60%N _ Hat) as H1. fold e1 in H1.
  pose proof (skipn_more input e1 _ key _ H1 eq_refl) as H2. fold e2 in H2.
  pose proof (skipn_next input e2 62%N _ H2) as H3. fold e3 in H3.
  pose proof (skipn_more input e3 _ value _ H3 eq_refl) as H4. fold e4 in H4.
  pose proof (skipn_more input e4 2 (js "</") _ H4 eq_refl) as H5. fold e5 in H5.
  pose proof (skipn_more input e5 _ key _ H5 eq_refl) as H6. fold e6 in H6.
  assert (HL : length input = e6 + 1 + length more).
  { rewrite (skipn_length_eq input e6 _ H6) by discriminate. simpl. lia. }
  assert (L6 : e5 <= e6) by (unfold e6; lia).
  assert (L4 : e3 <= e4) by (unfold e4; lia).
  assert (L2 : e1 <= e2) by (unfold e2; lia).
  assert (Hname : firstn (length key) (skipn e1 input) = key).
  { rewrite H1, firstn_app, firstn_all, Nat.sub_diag. apply app_nil_r. }
  unfold match_at. cbn [pattern flag_i ngroups DEEP_ARG_REGEX repeat].
  match goal with
  | |- match ?e with _ => _ end = Some (mkMatch _ ?stop ?caps) =>
      assert (E : e = Some (mkState stop caps)); [|rewrite E; reflexivity]
  end.
  unfold seq. cbn [fold_right]. rewrite matcher_Seq.
  change (lit "<") with (chars_of (js "<")).
  rewrite (lit_step input (js "<") p _ _ _ Hat).
  change (p + length (js "<")) with e1.
  rewrite matcher_Seq, matcher_Group. unfold plus, cls. rewrite matcher_plus.
  cbn [parens endIndex].
  assert (E1 : exists a k', key = a :: k') by (destruct key; [congruence | eauto]).
  destruct E1 as [a [k' E1]].
  assert (Z1 : length key = S (length k')) by (rewrite E1; reflexivity).
  eapply (greedy_plus_run input _ a k' e1).
  { rewrite <- E1. exact H1. }
  { rewrite <- E1. apply List.Forall_forall. intros x Hx. rewrite word_mem.
    rewrite forallb_forall in Hword. apply Hword. exact Hx. }
  { reflexivity. }
  { unfold e2 in *. lia. }
  rewrite <- E1. fold e2. unfold set_capture. cbn [endIndex captures set_nth Nat.sub].
  rewrite matcher_Seq. change (lit ">") with (chars_of (js ">")).
  rewrite (lit_step input (js ">") e2 _ _ _ H2).
  change (e2 + length (js ">")) with e3.
  rewrite matcher_Seq, matcher_Group. unfold star_lazy, anychar, ncls.
  rewrite matcher_star. cbn [parens endIndex].
  eapply (lazy_chars_run input _ value e3).
  { exact H3. }
  { apply List.Forall_forall. intros x _. reflexivity. }
  { intros j Hj. cbn [endIndex]. unfold set_capture.
    cbn [endIndex captures set_nth Nat.sub].
    match goal with
    | |- ?k = None => destruct k as [r|] eqn:EK; [exfalso|reflexivity]
    end.
    rewrite matcher_Seq in EK. change (lit "</") with (chars_of (js "</")) in EK.
    apply lit_inv in EK. destruct EK as [S1 EK].
    rewrite matcher_Seq in EK.
    apply (backref_inv 1 e1 (length key)) in EK; [|reflexivity | rewrite Hname; reflexivity].
    destruct EK as [S2 EK]. rewrite Hname in S2.
    rewrite matcher_Seq in EK. change (lit ">") with (chars_of (js ">")) in EK.
    apply lit_inv in EK. destruct EK as [S3 _].
    pose proof (quiet_spec (closing_start key) value _ j Hvalue Hj) as Q.
    assert (Hs : skipn (e3 + j) input = skipn j value ++ js "</" ++ key ++ js ">" ++ more)
      by (apply (skipn_inside input e3 value _ j H3); lia).
    rewrite <- Hs in Q. unfold closing_start in Q.
    rewrite startsWith_split, S1 in Q. cbn [andb] in Q.
    rewrite startsWith_split in Q. rewrite !skipn_skipn in Q.
    change (length (js "</")) with 2 in Q, S2, S3.
    replace (2 + (e3 + j)) with (e3 + j + 2) in Q by lia.
    rewrite S2 in Q. cbn [andb] in Q.
    replace (length key + (e3 + j + 2)) with (e3 + j + 2 + length key) in Q by lia.
    rewrite S3 in Q. discriminate Q. }
  2:{ lia. }
  fold e4. cbn [endIndex]. unfold set_capture. cbn [endIndex captures set_nth Nat.sub].
  rewrite matcher_Seq. change (lit "</") with (chars_of (js "</")).
  rewrite (lit_step input (js "</") e4 _ _ _ H4).
  change (e4 + length (js "</")) with e5.
  rewrite matcher_Seq.
  rewrite (backref_step input 1 e1 (length key) e5).
  2:{ reflexivity. }
  2:{ apply (backref_ok_true input key e5 e1 _ _ H1 H5). }
  fold e6. rewrite matcher_Seq. change (lit ">") with (chars_of (js ">")).
  rewrite (lit_step input (js ">") e6 _ _ _ H6). reflexivity.
Qed.

End NestedChild.

Section Scan.

Variable input : str.

Lemma all_matches_over re fuel a b :
  a <= b -> b <= length input ->
  (forall i, a <= i < b -> match_at re input i = None) ->
  all_matches re input fuel a = all_matches re input fuel b.
Proof.
  intros Hab Hb Hnone. destruct fuel as [|fuel]; [reflexivity|].
  cbn [all_matches].
  assert (E : exec re input a = exec re input b).
  { unfold exec.
    replace (length input <? a) with false by (symmetry; apply Nat.ltb_ge; lia).
    replace (length input <? b) with false by (symmetry; apply Nat.ltb_ge; lia).
    replace (S (length input - a)) with ((b - a) + S (length input - b)) by lia.
    rewrite search_skip by (intros i Hi; apply Hnone; lia).
    replace (a + (b - a)) with b by lia. reflexivity. }
  rewrite E. reflexivity.
Qed.

Lemma all_matches_hit re fuel a m :
  a <= length input -> match_at re input a = Some m -> index m < stop m ->
  all_matches re input (S fuel) a = m :: all_matches re input fuel (stop m).
Proof.
  intros Ha Hm Hlt. cbn [all_matches]. unfold exec.
  replace (length input <? a) with false by (symmetry; apply Nat.ltb_ge; lia).
  rewrite (search_hit _ _ _ _ m Hm).
  replace (stop m =? index m) with false by (symmetry; apply Nat.eqb_neq; lia).
  reflexivity.
Qed.

Lemma all_matches_end re fuel :
  match_at re input (length input) = None ->
  all_matches re input fuel (length input) = [].
Proof.
  intros H. destruct fuel as [|fuel]; [reflexivity|].
  cbn [all_matches]. unfold exec. rewrite Nat.ltb_irrefl, Nat.sub_diag.
  cbn [search]. rewrite H. reflexivity.
Qed.

Lemma without_lt_app (a b : str) : without_lt (a ++ b) = without_lt a && without_lt b.
Proof. apply forallb_app. Qed.

Lemma blank_without_lt (w : str) : blank w = true -> without_lt w = true.
Proof.
  unfold blank, without_lt. rewrite !forallb_forall. intros H a Ha.
  apply negb_true_iff. destruct (N.eqb_spec a 60) as [->|]; [|reflexivity].
  specialize (H _ Ha). discriminate H.
Qed.

Lemma render_flat_more sp1 qa name qb sp2 qc value qd sp3 slash (more : str) :
  render (Flat sp1 qa name qb sp2 qc value qd sp3 slash) ++ more
  = js "<argument" ++ sp1 ++ js "name=" ++ qa :: name ++ qb :: sp2
    ++ js "value=" ++ qc :: value ++ qd :: sp3
    ++ (if slash then js "/" else []) ++ 62%N :: more.
Proof.
  unfold render. repeat (first [rewrite <- app_assoc | progress cbn [app]]). reflexivity.
Qed.

Lemma render_nested_more key value (more : str) :
  render (Nested key value) ++ more
  = 60%N :: key ++ 62%N :: value ++ 60%N :: 47%N :: key ++ 62%N :: more.
Proof.
  unfold render. change (js "<") with [60%N]. change (js ">") with [62%N].
  change (js "</") with [60%N; 47%N].
  repeat (first [rewrite <- app_assoc | progress cbn [app]]). reflexivity.
Qed.

End Scan.

Section ChildScan.

Variable input : str.

(** ARGUMENT_REGEX matches nowhere in a nested child. *)
Lemma argument_skip_nested (p : nat) (key value next : str) :
  well_formed_child (Nested key value) next = true ->
  skipn p input = render (Nested key value) ++ next ->
  forall i, p <= i < p + length (render (Nested key value)) ->
  match_at ARGUMENT_REGEX input i = None.
Proof.
  intros Hwf H. rewrite render_nested_more in H.
  cbn [well_formed_child] in Hwf. rewrite !andb_true_iff in Hwf.
  destruct Hwf as [[[_ Hword] Hflat] _].
  assert (HR : render (Nested key value)
               = [60%N] ++ (key ++ [62%N]) ++ value ++ [60%N] ++ (47%N :: key ++ [62%N])).
  { unfold render. change (js "<") with [60%N]. change (js ">") with [62%N].
    change (js "</") with [60%N; 47%N].
    repeat (first [rewrite <- app_assoc | progress cbn [app]]). reflexivity. }
  rewrite HR.
  apply (start_skip input ARGUMENT_REGEX flat_start p _ next
           (argument_match_start input)).
  - rewrite H. repeat (first [rewrite <- app_assoc | progress cbn [app]]). reflexivity.
  - apply quiet_app.
    { cbn [quiet]. rewrite andb_true_r. apply negb_true_iff.
      repeat (first [rewrite <- app_assoc | progress cbn [app]]).
      apply flat_start_open. exact Hword. }
    apply quiet_app.
    { apply quiet_plain; [apply flat_start_head|].
      rewrite without_lt_app, (word_without_lt key Hword). reflexivity. }
    apply quiet_app.
    { repeat (first [rewrite <- app_assoc | progress cbn [app]]). exact Hflat. }
    apply quiet_app.
    { cbn [quiet]. reflexivity. }
    apply quiet_plain; [apply flat_start_head|].
    change (without_lt (47%N :: key ++ [62%N])) with (without_lt (key ++ [62%N])).
    rewrite without_lt_app, (word_without_lt key Hword). reflexivity.
Qed.

Lemma skipn_end (p : nat) : skipn p input = [] -> p <= length input -> p = length input.
Proof.
  intros H Hp. assert (L : length (skipn p input) = 0) by (rewrite H; reflexivity).
  rewrite length_skipn in L. lia.
Qed.

Lemma skipn_bound (p : nat) (seg more : str) :
  skipn p input = seg ++ more -> p <= length input ->
  p + length seg + length more = length input.
Proof.
  intros H Hp. assert (L : length (skipn p input) = length (seg ++ more))
    by (rewrite H; reflexivity).
  rewrite length_skipn, length_app in L. lia.
Qed.

Lemma flat_length sp1 qa name qb sp2 qc value qd sp3 slash :
  length (render (Flat sp1 qa name qb sp2 qc value qd sp3 slash))
  = 9 + length sp1 + 5 + 1 + length name + 1 + length sp2 + 6 + 1 + length value + 1
    + length sp3 + (if slash then 1 else 0) + 1.
Proof.
  unfold render. repeat (rewrite ?length_app; simpl length).
  destruct slash; simpl; len_lia.
Qed.

Lemma nested_length key value :
  length (render (Nested key value)) = 1 + length key + 1 + length value + 2 + length key + 1.
Proof. unfold render. repeat (rewrite ?length_app; simpl length). len_lia. Qed.

Lemma no_match_at_end re :
  blocked (flag_i re) (pattern re) None = true ->
  match_at re input (length input) = None.
Proof.
  intros H. apply (blocked_match_at input (flag_i re)); [reflexivity|].
  replace (nth_error input (length input)) with (@None char); [exact H|].
  symmetry. apply nth_error_None. lia.
Qed.

(** The matches of ARGUMENT_REGEX in an inner text made of children:
    the flat children, one after the other. *)
Lemma argument_scan : forall (items : list child) (p fuel : nat),
  well_formed_children items = true ->
  skipn p input = inner_text items -> p <= length input ->
  length (inner_text items) < fuel ->
  List.map (fun am => (or_empty (group input am 1), or_empty (group input am 2)))
           (all_matches ARGUMENT_REGEX input fuel p)
  = flat_arguments items.
Proof.
  induction items as [|c items IH]; intros p fuel Hwf H Hp Hfuel.
  - rewrite (skipn_end p H Hp), all_matches_end; [reflexivity|].
    apply no_match_at_end. reflexivity.
  - cbn [well_formed_children] in Hwf. apply andb_prop in Hwf. destruct Hwf as [Hc Hwf].
    change (inner_text (c :: items)) with (render c ++ inner_text items) in H, Hfuel.
    pose proof (skipn_bound p _ _ H Hp) as HB.
    pose proof (skipn_more input p _ (render c) _ H eq_refl) as Hnext.
    rewrite length_app in Hfuel.
    destruct c as [text|sp1 qa name qb sp2 qc value qd sp3 slash|key value].
    + rewrite (all_matches_over input ARGUMENT_REGEX fuel p (p + length (render (Gap text)))).
      * apply IH; [exact Hwf | exact Hnext | lia | lia].
      * lia.
      * lia.
      * cbn [well_formed_child] in Hc. apply andb_prop in Hc.
        apply (start_skip input ARGUMENT_REGEX flat_start p _ _
                 (argument_match_start input) H). apply Hc.
    + destruct fuel as [|fuel]; [lia|].
      pose proof H as Hat. rewrite render_flat_more in Hat.
      pose proof (argument_at_flat input sp1 name sp2 value sp3 _ qa qb qc qd slash p _
                    Hc Hat) as Hm.
      destruct (flat_slices input sp1 name sp2 value sp3 _ qa qb qc qd slash p Hat)
        as [G1 G2].
      pose proof (flat_length sp1 qa name qb sp2 qc value qd sp3 slash) as HLc.
      rewrite (all_matches_hit input ARGUMENT_REGEX fuel p _ Hp Hm)
        by (cbn [index stop]; lia).
      cbn [List.map stop]. unfold group at 1 2. cbn [groups nth Nat.sub].
      rewrite G1, G2. cbn [or_empty flat_arguments flat_map app]. f_equal.
      apply IH; [exact Hwf | | lia | lia].
      rewrite <- Hnext. f_equal. rewrite HLc. lia.
    + rewrite (all_matches_over input ARGUMENT_REGEX fuel p
                 (p + length (render (Nested key value))))
        by (try lia; apply (argument_skip_nested p key value _ Hc H)).
      apply IH; [exact Hwf | exact Hnext | lia | lia].
Qed.

Lemma structural_excluded (k : str) :
  negb (excluded_key k) = forallb (fun n => negb (str_eqb k n)) structural_names.
Proof.
  unfold excluded_key, structural_names. cbn [existsb forallb].
  destruct (str_eqb k (js "arguments")), (str_eqb k (js "thought")),
    (str_eqb k (js "think")); reflexivity.
Qed.

(** The matches of DEEP_ARG_REGEX in an inner text made of children, in
    whose flat children no nested child opens: the nested children, one
    after the other. *)
Lemma deep_scan : forall (items : list child) (p fuel : nat),
  well_formed_children items = true ->
  flat_children_closed items = true ->
  skipn p input = inner_text items -> p <= length input ->
  length (inner_text items) < fuel ->
  List.filter (fun kv => negb (excluded_key (fst kv)))
    (List.map (fun dam => (or_empty (group input dam 1),
                           trim (or_empty (group input dam 2))))
              (all_matches DEEP_ARG_REGEX input fuel p))
  = nested_arguments items.
Proof.
  induction items as [|c items IH]; intros p fuel Hwf Hcl H Hp Hfuel.
  - rewrite (skipn_end p H Hp), all_matches_end; [reflexivity|].
    apply no_match_at_end. reflexivity.
  - cbn [well_formed_children] in Hwf. apply andb_prop in Hwf. destruct Hwf as [Hc Hwf].
    cbn [flat_children_closed] in Hcl. apply andb_prop in Hcl. destruct Hcl as [Hq Hcl].
    change (inner_text (c :: items)) with (render c ++ inner_text items) in H, Hfuel.
    pose proof (skipn_bound p _ _ H Hp) as HB.
    pose proof (skipn_more input p _ (render c) _ H eq_refl) as Hnext.
    rewrite length_app in Hfuel.
    destruct c as [text|sp1 qa name qb sp2 qc value qd sp3 slash|key value].
    + rewrite (all_matches_over input DEEP_ARG_REGEX fuel p (p + length (render (Gap text)))).
      * apply IH; [exact Hwf | exact Hcl | exact Hnext | lia | lia].
      * lia.
      * lia.
      * cbn [well_formed_child] in Hc. apply andb_prop in Hc.
        apply (start_skip input DEEP_ARG_REGEX nested_start p _ _
                 (deep_match_start input) H). apply Hc.
    + rewrite (all_matches_over input DEEP_ARG_REGEX fuel p
                 (p + length (render (Flat sp1 qa name qb sp2 qc value qd sp3 slash)))).
      * apply IH; [exact Hwf | exact Hcl | exact Hnext | lia | lia].
      * lia.
      * lia.
      * apply (start_skip input DEEP_ARG_REGEX nested_start p _ _
                 (deep_match_start input) H Hq).
    + destruct fuel as [|fuel]; [lia|].
      pose proof H as Hat. rewrite render_nested_more in Hat.
      pose proof Hc as Hc'. cbn [well_formed_child] in Hc'. rewrite !andb_true_iff in Hc'.
      destruct Hc' as [[[Hk Hword] _] Hvalue].
      assert (Hkey : key <> []) by (destruct key; [discriminate Hk | discriminate]).
      pose proof (deep_at_nested input key value _ p Hkey Hword Hvalue Hat) as Hm.
      pose proof (nested_length key value) as HLc.
      pose proof (skipn_next input p 60%N _ Hat) as H1.
      pose proof (skipn_more input _ _ key _ H1 eq_refl) as H2.
      pose proof (skipn_next input _ 62%N _ H2) as H3.
      rewrite (all_matches_hit input DEEP_ARG_REGEX fuel p _ Hp Hm)
        by (cbn [index stop]; lia).
      cbn [List.map stop]. unfold group at 1 2. cbn [groups nth Nat.sub].
      rewrite (segment_slice input _ _ _ H1), (segment_slice input _ _ _ H3).
      cbn [or_empty List.filter fst nested_arguments flat_map].
      rewrite structural_excluded.
      rewrite IH with (p := p + 1 + length key + 1 + length value + 2 + length key + 1);
        [| exact Hwf | exact Hcl | | lia | lia].
      * destruct (forallb (fun n => negb (str_eqb key n)) structural_names); reflexivity.
      * rewrite <- Hnext. f_equal. rewrite HLc. lia.
Qed.

End ChildScan.

Section ToolTag.

Lemma flat_pairs_children (items : list child) :
  well_formed_children items = true ->
  flat_pairs (inner_text items) = flat_arguments items.
Proof.
  intros Hwf. unfold flat_pairs, matchAll.
  apply (argument_scan (inner_text items) items 0); [exact Hwf | reflexivity | lia | lia].
Qed.

Lemma nested_pairs_children (items : list child) :
  well_formed_children items = true ->
  flat_children_closed items = true ->
  nested_pairs (inner_text items) = nested_arguments items.
Proof.
  intros Hwf Hcl. unfold nested_pairs, matchAll.
  apply (deep_scan (inner_text items) items 0);
    [exact Hwf | exact Hcl | reflexivity | lia | lia].
Qed.

Lemma spec_arguments_children (items : list child) :
  well_formed_children items = true ->
  (record_args (flat_arguments items) = [] -> flat_children_closed items = true) ->
  spec_arguments (inner_text items) = collected items.
Proof.
  intros Hwf Hcl. unfold spec_arguments, collected.
  rewrite (flat_pairs_children items Hwf).
  destruct (record_args (flat_arguments items)) as [|kv args]; [|reflexivity].
  rewrite (nested_pairs_children items Hwf (Hcl eq_refl)). reflexivity.
Qed.

(** NAME_ATTR_REGEX is the pattern getAttr compiles for the name "name". *)
Lemma name_attr_match_at (t : str) i :
  match_at NAME_ATTR_REGEX t i = match_at (attr_regex (js "name")) t i.
Proof. reflexivity. Qed.

Lemma name_attr_search (t : str) n : forall i,
  search NAME_ATTR_REGEX t n i = search (attr_regex (js "name")) t n i.
Proof.
  induction n as [|n IH]; intros i; [reflexivity|].
  cbn [search]. rewrite name_attr_match_at, IH. reflexivity.
Qed.

Lemma declared_name_read (pre N rest : str) (qa qb : char) :
  declares_name pre qa N qb = true ->
  declared_name (pre ++ js "name=" ++ qa :: N ++ qb :: rest) = N
  /\ includes (pre ++ js "name=" ++ qa :: N ++ qb :: rest) (js "name=") = true.
Proof.
  unfold declares_name. rewrite !andb_true_iff.
  intros [[[[_ Hfirst] Hqa] Hqb] HN]. apply negb_true_iff in Hfirst.
  split.
  - unfold declared_name, match_first. rewrite name_attr_search.
    change (pre ++ js "name=" ++ qa :: N ++ qb :: rest)
      with (pre ++ js "name" ++ 61%N :: qa :: N ++ qb :: rest).
    pose proof (attr_first_match pre (js "name") N rest qa qb Hqa Hqb HN _ eq_refl _ eq_refl
                  Hfirst) as E.
    unfold match_first in E. rewrite E. unfold group. cbn [groups nth Nat.sub].
    rewrite (attr_group pre (js "name") N rest qa qb _ eq_refl _ eq_refl). reflexivity.
  - apply (includes_at (js "name=") _ (length pre)).
    rewrite skipn_prefix by reflexivity. apply startsWith_app.
Qed.

End ToolTag.



(** The nested form: the values with what they hold, the structural
    names left out; and the nested form where the flat children record
    nothing. *)
Lemma tool_tag_examples :
  parse (jsq "<tool name='t'>see: <limit> 10 <b>!</b></limit> and <mode>fast</mode><arguments>z</arguments><think>no</think></tool>")
    = Returns [mkPart Tool
                 (jsq "{'name':'t','arguments':{'limit':'10 <b>!</b>','mode':'fast'}}") None]
  /\ parse (jsq "<tool name='t'><argument name='__proto__' value='x'/><k>v</k></tool>")
     = Returns [mkPart Tool (jsq "{'name':'t','arguments':{'k':'v'}}") None]
  /\ well_formed_children
       [Gap (js "see: "); Nested (js "limit") (js " 10 <b>!</b>"); Gap (js " and ");
        Nested (js "mode") (js "fast"); Nested (js "arguments") (js "z");
        Nested (js "think") (js "no")] = true
  /\ stringify (tool_activity (js "t")
       (collected [Gap (js "see: "); Nested (js "limit") (js " 10 <b>!</b>");
                   Gap (js " and "); Nested (js "mode") (js "fast");
                   Nested (js "arguments") (js "z"); Nested (js "think") (js "no")]))
     = jsq "{'name':'t','arguments':{'limit':'10 <b>!</b>','mode':'fast'}}".
Proof. repeat split; vm_compute; reflexivity. Qed.


(* ===================================================================== *)
(** ** JSON texts read back *)
(* ===================================================================== *)

From Stdlib Require DecimalFacts.

Section JsonStrings.

Lemma hex_digit_value n : (n < 16)%N -> hex_value (hex_digit n) = Some n.
Proof.
  intros H. unfold hex_digit, hex_value, is_digit.
  destruct (N.ltb_spec n 10) as [L|L].
  - replace ((48 <=? 48 + n) && (48 + n <=? 57))%N with true
      by (symmetry; apply andb_true_iff; split; apply N.leb_le; lia).
    f_equal. lia.
  - replace ((48 <=? 87 + n) && (87 + n <=? 57))%N with false
      by (symmetry; apply andb_false_iff; right; apply N.leb_gt; lia).
    replace ((97 <=? 87 + n) && (87 + n <=? 102))%N with true
      by (symmetry; apply andb_true_iff; split; apply N.leb_le; lia).
    f_equal. lia.
Qed.

Lemma unicode_value c :
  (c < 65536)%N ->
  ((c / 4096 mod 16) * 4096 + (c / 256 mod 16) * 256 + (c / 16 mod 16) * 16 + c mod 16 = c)%N.
Proof.
  intros H.
  assert (E1 : (c / 256 = c / 16 / 16)%N) by (rewrite N.Div0.div_div; reflexivity).
  assert (E2 : (c / 4096 = c / 256 / 16)%N)
    by (rewrite E1, !N.Div0.div_div; reflexivity).
  pose proof (N.div_mod c 16 ltac:(lia)) as D0.
  pose proof (N.div_mod (c / 16) 16 ltac:(lia)) as D1.
  pose proof (N.div_mod (c / 256) 16 ltac:(lia)) as D2.
  rewrite <- E1 in D1. rewrite <- E2 in D2.
  assert (L : (c / 4096 < 16)%N) by (apply N.Div0.div_lt_upper_bound; lia).
  rewrite (N.mod_small (c / 4096) 16) by exact L.
  lia.
Qed.

Lemma escape_read c t acc :
  (c < 65536)%N ->
  parse_string_body (unicode_escape c ++ t) acc = parse_string_body t (c :: acc).
Proof.
  intros H. unfold unicode_escape.
  change (js "\u") with [92%N; 117%N]. cbn [app parse_string_body].
  change (N.eqb 92 34) with false. change (92 <? 32)%N with false.
  change (N.eqb 92 92) with true. change (N.eqb 117 117) with true. cbv iota.
  rewrite !hex_digit_value by (apply N.mod_lt; lia).
  rewrite unicode_value by exact H. reflexivity.
Qed.

Lemma plain_read c t acc :
  N.eqb c 34 = false -> (c <? 32)%N = false -> N.eqb c 92 = false ->
  parse_string_body (c :: t) acc = parse_string_body t (c :: acc).
Proof. intros H1 H2 H3. cbn [parse_string_body]. rewrite H1, H2, H3. reflexivity. Qed.

Lemma surrogate_bound c :
  is_high_surrogate c = true \/ is_low_surrogate c = true -> (c < 65536)%N.
Proof.
  unfold is_high_surrogate, is_low_surrogate.
  intros [H|H]; apply andb_true_iff in H; destruct H as [_ H]; apply N.leb_le in H; lia.
Qed.

Lemma surrogate_plain c :
  is_high_surrogate c = true \/ is_low_surrogate c = true ->
  N.eqb c 34 = false /\ (c <? 32)%N = false /\ N.eqb c 92 = false.
Proof.
  unfold is_high_surrogate, is_low_surrogate.
  intros [H|H]; apply andb_true_iff in H; destruct H as [H _]; apply N.leb_le in H;
    (split; [apply N.eqb_neq; lia | split; [apply N.ltb_ge; lia | apply N.eqb_neq; lia]]).
Qed.

(** QuoteJSONString read back by the string literal of JSON.parse. *)
Lemma quote_body_read (n : nat) : forall s acc rest,
  length s <= n ->
  parse_string_body (quote_body s ++ 34%N :: rest) acc = Parsed (rev acc ++ s) rest.
Proof.
  induction n as [|n IH]; intros s acc rest Hn.
  - destruct s; [|simpl in Hn; lia]. simpl. rewrite app_nil_r. reflexivity.
  - destruct s as [|c s']; [simpl; rewrite app_nil_r; reflexivity|].
    simpl in Hn.
    assert (Hnext : forall t x, length t <= n ->
              parse_string_body (quote_body t ++ 34%N :: rest) (x :: acc)
              = Parsed (rev acc ++ x :: t) rest).
    { intros t x Ht. rewrite IH by exact Ht. simpl. rewrite <- app_assoc. reflexivity. }
    cbn [quote_body].
    destruct (N.eqb_spec c 8) as [->|N8]; [apply Hnext; lia|].
    destruct (N.eqb_spec c 9) as [->|N9]; [apply Hnext; lia|].
    destruct (N.eqb_spec c 10) as [->|N10]; [apply Hnext; lia|].
    destruct (N.eqb_spec c 12) as [->|N12]; [apply Hnext; lia|].
    destruct (N.eqb_spec c 13) as [->|N13]; [apply Hnext; lia|].
    destruct (N.eqb_spec c 34) as [->|N34]; [apply Hnext; lia|].
    destruct (N.eqb_spec c 92) as [->|N92]; [apply Hnext; lia|].
    destruct (N.ltb_spec c 32) as [L|L].
    { rewrite <- app_assoc, escape_read by lia. apply Hnext; lia. }
    assert (P : forall t, parse_string_body (c :: t) acc = parse_string_body t (c :: acc)).
    { intros t. apply plain_read; [apply N.eqb_neq; exact N34 | apply N.ltb_ge; exact L
                                  | apply N.eqb_neq; exact N92]. }
    destruct (is_high_surrogate c) eqn:Hh.
    { destruct s' as [|d s''].
      - rewrite escape_read by (apply surrogate_bound; left; exact Hh).
        reflexivity.
      - destruct (is_low_surrogate d) eqn:Hl.
        + cbn [app]. rewrite P.
          destruct (surrogate_plain d (or_intror Hl)) as [D1 [D2 D3]].
          rewrite plain_read by assumption.
          rewrite IH by (simpl in Hn; lia). simpl. rewrite <- !app_assoc. reflexivity.
        + rewrite <- app_assoc, escape_read by (apply surrogate_bound; left; exact Hh).
          apply Hnext; lia. }
    destruct (is_low_surrogate c) eqn:Hl.
    { rewrite <- app_assoc, escape_read by (apply surrogate_bound; right; exact Hl).
      apply Hnext; lia. }
    cbn [app]. rewrite P. apply Hnext; lia.
Qed.

Lemma quote_read s rest :
  parse_string_body (quote_body s ++ 34%N :: rest) [] = Parsed s rest.
Proof. apply (quote_body_read (length s)). lia. Qed.

End JsonStrings.

Section JsonNumbers.

Lemma value_end_not_digit rest :
  value_end rest = true ->
  match rest with [] => True | c :: _ => is_digit c = false end.
Proof.
  destruct rest as [|c r]; [trivial|]. unfold value_end, is_digit. intros H.
  apply orb_true_iff in H. destruct H as [H|H]; [apply orb_true_iff in H; destruct H as [H|H]|];
    apply N.eqb_eq in H; subst c; reflexivity.
Qed.

Lemma take_digits_app ds rest :
  Forall (fun c => is_digit c = true) ds -> value_end rest = true ->
  take_digits (ds ++ rest) = (ds, rest).
Proof.
  intros Hd Hr. induction Hd as [|c ds Hc _ IH]; cbn [app take_digits].
  - apply value_end_not_digit in Hr. destruct rest as [|c r]; [reflexivity|].
    cbn [take_digits]. rewrite Hr. reflexivity.
  - rewrite Hc, IH. reflexivity.
Qed.

Lemma digits_value_acc d : forall acc,
  digits_value (uint_digits d) (Npos acc) = Npos (Pos.of_uint_acc d acc).
Proof.
  induction d as [|d IH|d IH|d IH|d IH|d IH|d IH|d IH|d IH|d IH|d IH]; intros acc;
    cbn [uint_digits digits_value Pos.of_uint_acc]; [reflexivity|..];
    rewrite <- IH; f_equal; lia.
Qed.

Lemma digits_value_uint d : digits_value (uint_digits d) 0 = Pos.of_uint d.
Proof.
  induction d as [|d IH|d IH|d IH|d IH|d IH|d IH|d IH|d IH|d IH|d IH];
    cbn [uint_digits digits_value Pos.of_uint]; [reflexivity|exact IH|..];
    rewrite <- digits_value_acc; f_equal.
Qed.

Lemma digits_value_pos p : digits_value (uint_digits (Pos.to_uint p)) 0 = Npos p.
Proof. rewrite digits_value_uint. apply DecimalPos.Unsigned.of_to. Qed.

Lemma to_uint_normal p : Decimal.unorm (Pos.to_uint p) = Pos.to_uint p.
Proof.
  rewrite <- DecimalPos.Unsigned.to_of, DecimalPos.Unsigned.of_to. reflexivity.
Qed.

(** A numeral begins with a digit other than "0". *)
Lemma numeral_head p :
  exists c t, uint_digits (Pos.to_uint p) = c :: t
              /\ is_digit c = true /\ N.eqb c 48 = false.
Proof.
  pose proof (to_uint_normal p) as U.
  pose proof (DecimalPos.Unsigned.to_uint_nonzero p) as Z.
  destruct (Pos.to_uint p) as [|d|d|d|d|d|d|d|d|d|d];
    try (eexists; eexists; split; [reflexivity | split; reflexivity]).
  - discriminate U.
  - exfalso. rewrite DecimalFacts.unorm_D0 in U. unfold Decimal.unorm in U.
    destruct (Decimal.nzhead d) eqn:E; try discriminate U;
      try (apply (DecimalFacts.nzhead_nonzero d d); rewrite E; exact U).
    injection U as U. subst d. apply Z. reflexivity.
Qed.

Lemma digits_value_lower ds : forall acc,
  (acc * 10 ^ N.of_nat (length ds) <= digits_value ds acc)%N.
Proof.
  induction ds as [|c t IH]; intros acc; cbn [length digits_value].
  - simpl. lia.
  - specialize (IH (acc * 10 + (c - 48))%N).
    rewrite Nat2N.inj_succ, N.pow_succ_r'.
    assert (0 < 10 ^ N.of_nat (length t))%N by (apply N.neq_0_lt_0, N.pow_nonzero; lia).
    nia.
Qed.

Lemma numeral_length c t :
  is_digit c = true -> N.eqb c 48 = false ->
  (digits_value (c :: t) 0 <= MAX_SAFE)%N -> length (c :: t) <= 16.
Proof.
  intros Hc H0 Hv. destruct (Nat.le_gt_cases (length (c :: t)) 16) as [L|L]; [exact L|].
  exfalso. cbn [digits_value] in Hv. simpl in L.
  pose proof (digits_value_lower t (0 * 10 + (c - 48))%N) as B.
  assert (P : (10 ^ 16 <= 10 ^ N.of_nat (length t))%N) by (apply N.pow_le_mono_r; lia).
  apply N.eqb_neq in H0. unfold is_digit in Hc. apply andb_true_iff in Hc.
  destruct Hc as [Hc _]. apply N.leb_le in Hc.
  change (10 ^ 16)%N with 10000000000000000%N in P. unfold MAX_SAFE in Hv. nia.
Qed.

Lemma number_tail {A} rest (Y X : A) :
  value_end rest = true ->
  match rest with
  | c :: _ => if N.eqb c 46 || N.eqb c 101 || N.eqb c 69 then Y else X
  | [] => X
  end = X.
Proof.
  destruct rest as [|c r]; [reflexivity|]. unfold value_end. intros H.
  apply orb_true_iff in H. destruct H as [H|H]; [apply orb_true_iff in H; destruct H as [H|H]|];
    apply N.eqb_eq in H; subst c; reflexivity.
Qed.

Lemma parse_digits (neg : bool) c t rest :
  Forall (fun c => is_digit c = true) (c :: t) ->
  N.eqb c 48 = false \/ t = [] ->
  value_end rest = true ->
  length (c :: t) <= 16 -> (digits_value (c :: t) 0 <= MAX_SAFE)%N ->
  parse_number ((if neg then [45%N] else []) ++ (c :: t) ++ rest)
  = Parsed (JNum (if neg then Z.opp (Z.of_N (digits_value (c :: t) 0))
                  else Z.of_N (digits_value (c :: t) 0))) rest.
Proof.
  intros Hd Hz Hr Hl Hv. unfold parse_number.
  assert (Hc : N.eqb c 45 = false).
  { inversion Hd as [|? ? Hc _]. unfold is_digit in Hc. apply andb_true_iff in Hc.
    destruct Hc as [Hc _]. apply N.leb_le in Hc. apply N.eqb_neq. lia. }
  assert (Hlen : (length (c :: t) <=? 16) = true) by (apply Nat.leb_le; exact Hl).
  assert (Hval : (digits_value (c :: t) 0 <=? MAX_SAFE)%N = true) by (apply N.leb_le; exact Hv).
  destruct neg.
  - change ([45%N] ++ (c :: t) ++ rest) with (45%N :: (c :: t) ++ rest).
    cbv iota. change (N.eqb 45 45) with true. cbv iota.
    rewrite take_digits_app by assumption. cbv iota.
    destruct Hz as [Hz | ->]; [rewrite Hz | destruct (N.eqb c 48); cbn [app]]; cbv iota;
      rewrite number_tail by exact Hr; unfold plain_integer; rewrite Hlen, Hval;
      reflexivity.
  - change ([] ++ (c :: t) ++ rest) with (c :: t ++ rest).
    cbv iota. rewrite Hc. cbv iota.
    change (c :: t ++ rest) with ((c :: t) ++ rest).
    rewrite take_digits_app by assumption. cbv iota.
    destruct Hz as [Hz | ->]; [rewrite Hz | destruct (N.eqb c 48); cbn [app]]; cbv iota;
      rewrite number_tail by exact Hr; unfold plain_integer; rewrite Hlen, Hval;
      reflexivity.
Qed.

(** Number::toString read back by the number token of JSON.parse. *)
Lemma number_read z rest :
  (Z.abs z <=? Z.of_N MAX_SAFE)%Z = true -> value_end rest = true ->
  parse_number (number_to_string z ++ rest) = Parsed (JNum z) rest.
Proof.
  intros Hz Hr. apply Z.leb_le in Hz. destruct z as [|p|p]; cbn [number_to_string].
  - apply (parse_digits false 48%N [] rest);
      [constructor; [reflexivity|constructor] | right; reflexivity | exact Hr
      | simpl; lia | vm_compute; discriminate].
  - destruct (numeral_head p) as [c [t [E [Hc H0]]]].
    pose proof (digits_value_pos p) as V. pose proof (uint_digits_are_digits (Pos.to_uint p)) as D.
    rewrite E in V, D |- *.
    assert (Hv : (digits_value (c :: t) 0 <= MAX_SAFE)%N) by (rewrite V; unfold MAX_SAFE in *; simpl in Hz; lia).
    replace (Z.pos p) with (Z.of_N (digits_value (c :: t) 0)) by (rewrite V; reflexivity).
    apply (parse_digits false c t rest);
      [exact D | left; exact H0 | exact Hr | apply numeral_length; assumption | exact Hv].
  - destruct (numeral_head p) as [c [t [E [Hc H0]]]].
    pose proof (digits_value_pos p) as V. pose proof (uint_digits_are_digits (Pos.to_uint p)) as D.
    rewrite E in V, D |- *.
    assert (Hv : (digits_value (c :: t) 0 <= MAX_SAFE)%N) by (rewrite V; unfold MAX_SAFE in *; simpl in Hz; lia).
    replace (Z.neg p) with (Z.opp (Z.of_N (digits_value (c :: t) 0)))
      by (rewrite V; reflexivity).
    apply (parse_digits true c t rest);
      [exact D | left; exact H0 | exact Hr | apply numeral_length; assumption | exact Hv].
Qed.

Lemma Number_value_safe neg int_digits frac_digits exponent :
  safe_numbers (Number_value neg int_digits frac_digits exponent) = true ->
  well_formed (Number_value neg int_digits frac_digits exponent) = true.
Proof.
  unfold Number_value.
  destruct (_ =? 0)%Z; [reflexivity|].
  destruct (310 <? _)%Z; [discriminate|].
  destruct (_ <? -330)%Z; [reflexivity|].
  destruct (scaled _ _) as [num den].
  destruct (round_binary64 num den) as [|m e|]; [reflexivity| |discriminate].
  destruct (0 <=? e)%Z eqn:E.
  - cbn [andb]. destruct (_ <=? Z.of_N MAX_SAFE)%Z eqn:B; [|discriminate].
    intros _. cbn [well_formed]. apply Z.leb_le. apply Z.leb_le in B.
    assert (0 <= Z.pos m * 2 ^ e)%Z by (apply Z.mul_nonneg_nonneg; [lia|apply Z.pow_nonneg; lia]).
    destruct neg; lia.
  - destruct (_ =? 0)%Z; [|discriminate]. cbn [andb].
    destruct (_ <=? Z.of_N MAX_SAFE)%Z eqn:B; [|discriminate].
    intros _. cbn [well_formed]. apply Z.leb_le. apply Z.leb_le in B.
    assert (0 <= Z.pos m / 2 ^ (- e))%Z by (apply Z.div_pos; [lia|apply Z.pow_pos_nonneg; lia]).
    destruct neg; lia.
Qed.

Lemma plain_integer_safe neg int_digits s3 v r :
  plain_integer neg int_digits s3 = Parsed v r ->
  safe_numbers v = true -> well_formed v = true.
Proof.
  unfold plain_integer. destruct (_ && _) eqn:B; intros E; injection E as <- _.
  - intros _. apply andb_true_iff in B. destruct B as [_ B]. apply N.leb_le in B.
    cbn [well_formed]. apply Z.leb_le. unfold MAX_SAFE in *. destruct neg; lia.
  - apply Number_value_safe.
Qed.

Lemma fraction_and_exponent_safe neg int_digits s3 v r :
  fraction_and_exponent neg int_digits s3 = Parsed v r ->
  safe_numbers v = true -> well_formed v = true.
Proof.
  unfold fraction_and_exponent. destruct (read_fraction s3) as [[fd s4]|]; [|discriminate].
  destruct (read_exponent s4) as [[x s5]|]; [|discriminate].
  intros E. injection E as <- _. apply Number_value_safe.
Qed.

(** A number token without a fraction, an exponent or a magnitude above
    2^53 gives a value that is read back. *)
Lemma number_parsed s v r :
  parse_number s = Parsed v r -> safe_numbers v = true -> well_formed v = true.
Proof.
  unfold parse_number.
  destruct s as [|c s']; [|destruct (N.eqb c 45)]; cbv iota;
    (destruct (take_digits _) as [ds s2]; destruct ds as [|d0 more]; [discriminate|]);
    destruct (N.eqb d0 48); cbv iota;
    match goal with
    | |- match ?s3 with [] => _ | _ :: _ => _ end = _ -> _ =>
        destruct s3 as [|c3 s3']; [|destruct (N.eqb c3 46 || N.eqb c3 101 || N.eqb c3 69)]
    end;
    first [apply plain_integer_safe | apply fraction_and_exponent_safe].
Qed.

End JsonNumbers.

Section JsonKeys.

Lemma digit_cases c :
  is_digit c = true ->
  c = 48%N \/ c = 49%N \/ c = 50%N \/ c = 51%N \/ c = 52%N \/ c = 53%N
  \/ c = 54%N \/ c = 55%N \/ c = 56%N \/ c = 57%N.
Proof.
  unfold is_digit. intros H. apply andb_true_iff in H. destruct H as [A B].
  apply N.leb_le in A, B. lia.
Qed.

Lemma digits_numeral k : forallb is_digit k = true -> exists d, k = uint_digits d.
Proof.
  induction k as [|c k IH]; intros H.
  - exists Decimal.Nil. reflexivity.
  - cbn [forallb] in H. apply andb_true_iff in H. destruct H as [Hc Hk].
    destruct (IH Hk) as [d ->].
    destruct (digit_cases c Hc) as [->|[->|[->|[->|[->|[->|[->|[->|[->| ->]]]]]]]]];
      [exists (Decimal.D0 d) | exists (Decimal.D1 d) | exists (Decimal.D2 d)
      | exists (Decimal.D3 d) | exists (Decimal.D4 d) | exists (Decimal.D5 d)
      | exists (Decimal.D6 d) | exists (Decimal.D7 d) | exists (Decimal.D8 d)
      | exists (Decimal.D9 d)]; reflexivity.
Qed.

(** An array index is a numeral in normal form. *)
Lemma array_index_numeral k i :
  array_index k = Some i ->
  exists d, k = uint_digits d /\ Decimal.unorm d = d /\ Pos.of_uint d = i.
Proof.
  unfold array_index. destruct k as [|c rest]; [discriminate|].
  destruct (_ && _) eqn:C; [|discriminate]. intros E. injection E as <-.
  apply andb_true_iff in C. destruct C as [C _].
  apply andb_true_iff in C. destruct C as [C _].
  apply andb_true_iff in C. destruct C as [Hd Hz].
  destruct (digits_numeral _ Hd) as [d Ed]. exists d. split; [exact Ed|]. split.
  - destruct d as [|d|d|d|d|d|d|d|d|d|d]; try reflexivity; [discriminate Ed|].
    cbn [uint_digits] in Ed. injection Ed as -> ->.
    change (N.eqb 48 48) with true in Hz. cbn [negb orb] in Hz.
    destruct d; try discriminate Hz. reflexivity.
  - rewrite <- digits_value_uint, <- Ed. reflexivity.
Qed.

Lemma array_index_inj k k' i :
  array_index k = Some i -> array_index k' = Some i -> k = k'.
Proof.
  intros H H'. apply array_index_numeral in H, H'.
  destruct H as [d [-> [U E]]]. destruct H' as [d' [-> [U' E']]].
  f_equal. rewrite <- U, <- U'. apply DecimalPos.Unsigned.of_inj. congruence.
Qed.

Lemma key_before_neq k k' : key_before k k' = true -> k <> k'.
Proof.
  intros H ->. unfold key_before in H. destruct (array_index k') as [i|].
  - apply N.ltb_lt in H. lia.
  - rewrite (proj2 (str_eqb_eq k' k') eq_refl) in H. discriminate.
Qed.

Lemma has_key_absent {V} k (o : props V) :
  (forall x, In x (List.map fst o) -> x <> k) -> has_key k o = false.
Proof.
  induction o as [|[k' v'] o IH]; intros H; cbn [has_key]; [reflexivity|].
  apply orb_false_iff. split.
  - apply str_eqb_neq. intros ->. apply (H k'); [left|]; reflexivity.
  - apply IH. intros x Hx. apply H. right. exact Hx.
Qed.

Lemma has_key_false_In {V} k (o : props V) :
  has_key k o = false -> forall x, In x (List.map fst o) -> x <> k.
Proof.
  induction o as [|[k' v'] o IH]; intros H x Hx; [destruct Hx|].
  cbn [has_key] in H. apply orb_false_iff in H. destruct H as [H1 H2].
  destruct Hx as [<-|Hx]; [|apply IH; assumption].
  apply str_eqb_neq in H1. simpl. congruence.
Qed.

Lemma insert_index_last {V} i k (v : V) o :
  array_index k = Some i ->
  (forall x, In x (List.map fst o) -> key_before x k = true) ->
  insert_index i k v o = o ++ [(k, v)].
Proof.
  intros Hk. induction o as [|[k' v'] o IH]; intros H; cbn [insert_index app];
    [reflexivity|].
  pose proof (H k' (or_introl eq_refl)) as B. unfold key_before in B. rewrite Hk in B.
  destruct (array_index k') as [j|]; [|discriminate]. rewrite B. f_equal.
  apply IH. intros x Hx. apply H. right. exact Hx.
Qed.

(** A key that may stand after all the keys of an object is defined at
    its end. *)
Lemma define_property_last {V} k (v : V) o :
  (forall x, In x (List.map fst o) -> key_before x k = true) ->
  define_property k v o = o ++ [(k, v)].
Proof.
  intros H. unfold define_property.
  rewrite has_key_absent by (intros x Hx; apply key_before_neq, H, Hx).
  destruct (array_index k) as [i|] eqn:Hk; [apply insert_index_last; assumption|].
  reflexivity.
Qed.

Lemma ordered_keys_before l1 k l2 :
  ordered_keys (l1 ++ k :: l2) = true -> forall x, In x l1 -> key_before x k = true.
Proof.
  induction l1 as [|y l1 IH]; intros H x Hx; [destruct Hx|].
  cbn [app ordered_keys] in H. apply andb_true_iff in H. destruct H as [H1 H2].
  destruct Hx as [<-|Hx]; [|apply IH; assumption].
  rewrite List.forallb_forall in H1. apply H1. apply in_or_app. right. left. reflexivity.
Qed.

Lemma replace_value_keys {V} k (v : V) o :
  List.map fst (replace_value k v o) = List.map fst o.
Proof.
  induction o as [|[k' v'] o IH]; cbn [replace_value List.map]; [reflexivity|].
  destruct (str_eqb k k'); cbn [List.map fst]; [reflexivity|]. rewrite IH. reflexivity.
Qed.

Lemma insert_index_In {V} i k (v : V) o kv :
  In kv (insert_index i k v o) -> kv = (k, v) \/ In kv o.
Proof.
  induction o as [|[k' v'] o IH]; cbn [insert_index]; intros H.
  - destruct H as [<-|[]]. left. reflexivity.
  - destruct (array_index k') as [j|]; [destruct (j <? i)%N|].
    + destruct H as [<-|H]; [right; left; reflexivity|].
      destruct (IH H) as [->|H']; [left; reflexivity | right; right; exact H'].
    + destruct H as [<-|H]; [left; reflexivity | right; exact H].
    + destruct H as [<-|H]; [left; reflexivity | right; exact H].
Qed.

Lemma replace_value_In {V} k (v : V) o kv :
  In kv (replace_value k v o) -> snd kv = v \/ In kv o.
Proof.
  induction o as [|[k' v'] o IH]; cbn [replace_value]; intros H; [destruct H|].
  destruct (str_eqb k k').
  - destruct H as [<-|H]; [left; reflexivity | right; right; exact H].
  - destruct H as [<-|H]; [right; left; reflexivity|].
    destruct (IH H) as [E|H']; [left; exact E | right; right; exact H'].
Qed.

Lemma define_property_In {V} k (v : V) o kv :
  In kv (define_property k v o) -> snd kv = v \/ In kv o.
Proof.
  unfold define_property. destruct (has_key k o); [apply replace_value_In|].
  destruct (array_index k) as [i|].
  - intros H. apply insert_index_In in H. destruct H as [->|H]; [left; reflexivity|].
    right. exact H.
  - intros H. apply in_app_or in H. destruct H as [H|[<-|[]]];
      [right; exact H | left; reflexivity].
Qed.

Lemma insert_index_ordered {V} i k (v : V) o :
  array_index k = Some i -> has_key k o = false ->
  ordered_keys (List.map fst o) = true ->
  ordered_keys (List.map fst (insert_index i k v o)) = true.
Proof.
  intros Hk. induction o as [|[k' v'] o IH]; intros Hh Ho; [reflexivity|].
  cbn [has_key] in Hh. apply orb_false_iff in Hh. destruct Hh as [Hne Hh].
  cbn [List.map fst ordered_keys] in Ho. apply andb_true_iff in Ho.
  destruct Ho as [Hb Ho]. pose proof Hb as Hb'. rewrite List.forallb_forall in Hb.
  cbn [insert_index].
  assert (Front : (forall x, In x (k' :: List.map fst o) -> key_before k x = true) ->
                  ordered_keys (List.map fst ((k, v) :: (k', v') :: o)) = true).
  { intros F. cbn [List.map fst ordered_keys]. apply andb_true_iff. split.
    - apply List.forallb_forall. exact F.
    - apply andb_true_iff. split; [exact Hb' | exact Ho]. }
  destruct (array_index k') as [j|] eqn:Hk'.
  - destruct (N.ltb_spec j i) as [L|L].
    + cbn [List.map fst ordered_keys]. apply andb_true_iff.
      split; [|apply IH; assumption].
      apply List.forallb_forall. intros x Hx. apply in_map_iff in Hx.
      destruct Hx as [kv [<- Hx]]. apply insert_index_In in Hx.
      destruct Hx as [->|Hx].
      * unfold key_before. cbn [fst]. rewrite Hk', Hk. apply N.ltb_lt. exact L.
      * apply Hb. apply in_map. exact Hx.
    + apply Front.
      assert (Hij : i <> j).
      { intros ->. apply str_eqb_neq in Hne. apply Hne.
        eapply array_index_inj; eassumption. }
      intros x [<-|Hx].
      * unfold key_before. rewrite Hk, Hk'. apply N.ltb_lt. lia.
      * specialize (Hb x Hx). unfold key_before in Hb |- *. rewrite Hk' in Hb.
        rewrite Hk. destruct (array_index x) as [j'|]; [|reflexivity].
        apply N.ltb_lt in Hb. apply N.ltb_lt. lia.
  - apply Front. intros x [<-|Hx].
    + unfold key_before. rewrite Hk, Hk'. reflexivity.
    + specialize (Hb x Hx). unfold key_before in Hb |- *. rewrite Hk' in Hb.
      rewrite Hk. destruct (array_index x); [discriminate|reflexivity].
Qed.

Lemma ordered_keys_snoc l k :
  ordered_keys l = true -> (forall x, In x l -> key_before x k = true) ->
  ordered_keys (l ++ [k]) = true.
Proof.
  induction l as [|y l IH]; intros Ho H; [reflexivity|].
  cbn [app ordered_keys] in *. apply andb_true_iff in Ho. destruct Ho as [H1 H2].
  apply andb_true_iff. split.
  - rewrite forallb_app, H1. cbn [forallb]. rewrite (H y) by (left; reflexivity).
    reflexivity.
  - apply IH; [exact H2|]. intros x Hx. apply H. right. exact Hx.
Qed.

(** CreateDataProperty keeps the keys of an object in their order. *)
Lemma define_property_ordered {V} k (v : V) o :
  ordered_keys (List.map fst o) = true ->
  ordered_keys (List.map fst (define_property k v o)) = true.
Proof.
  intros Ho. unfold define_property. destruct (has_key k o) eqn:Hh.
  - rewrite replace_value_keys. exact Ho.
  - destruct (array_index k) as [i|] eqn:Hk.
    + apply insert_index_ordered; assumption.
    + rewrite List.map_app. cbn [List.map fst]. apply ordered_keys_snoc; [exact Ho|].
      intros x Hx. unfold key_before. rewrite Hk.
      destruct (array_index x); [reflexivity|].
      apply negb_true_iff. apply str_eqb_neq. apply (has_key_false_In k o Hh x Hx).
Qed.

End JsonKeys.

Section JsonValues.

Local Notation "'member'" :=
  (fun kv : str * json => quote (fst kv) ++ js ":" ++ stringify (snd kv)) (only parsing).

Lemma string_value fuel (s : str) :
  parse_value (S fuel) (34%N :: s)
  = match parse_string_body s [] with
    | Parsed k r => Parsed (JStr k) r
    | SyntaxError => SyntaxError
    | Unmodelled => Unmodelled
    end.
Proof. reflexivity. Qed.

Lemma array_value fuel (s : str) :
  parse_value (S fuel) (91%N :: s)
  = match skip_space s with
    | c1 :: r => if N.eqb c1 93 then Parsed (JArr []) r
                 else parse_elements (parse_value fuel) fuel s []
    | [] => SyntaxError
    end.
Proof. reflexivity. Qed.

Lemma object_value fuel (s : str) :
  parse_value (S fuel) (123%N :: s)
  = match skip_space s with
    | c1 :: r => if N.eqb c1 125 then Parsed (JObj []) r
                 else parse_members (parse_value fuel) fuel s []
    | [] => SyntaxError
    end.
Proof. reflexivity. Qed.

Lemma number_value fuel c (s : str) :
  is_digit c = true \/ c = 45%N ->
  parse_value (S fuel) (c :: s) = parse_number (c :: s).
Proof.
  intros [H| ->]; [|reflexivity].
  destruct (digit_cases c H) as [E|[E|[E|[E|[E|[E|[E|[E|[E|E]]]]]]]]]; subst c;
    reflexivity.
Qed.

Lemma expect_read (word : str) v (rest : str) :
  expect word v (word ++ rest) = Parsed v rest.
Proof.
  unfold expect. rewrite startsWith_app, skipn_app, skipn_all, Nat.sub_diag.
  reflexivity.
Qed.

Lemma json_size_pos v : 1 <= json_size v.
Proof. destruct v; simpl; lia. Qed.

Lemma list_sum_In {A} (f : A -> nat) l x : In x l -> f x <= list_sum (List.map f l).
Proof.
  induction l as [|y l IH]; intros H; [destruct H|]. simpl.
  destruct H as [->|H]; [lia|]. specialize (IH H). lia.
Qed.

Lemma list_sum_length {A} (f : A -> nat) l :
  (forall x, 1 <= f x) -> length l <= list_sum (List.map f l).
Proof.
  intros H. induction l as [|y l IH]; simpl; [lia|]. specialize (H y). lia.
Qed.

Lemma number_head z :
  exists c t, number_to_string z = c :: t /\ (is_digit c = true \/ c = 45%N).
Proof.
  destruct z as [|p|p]; cbn [number_to_string].
  - exists 48%N, []. split; [reflexivity | left; reflexivity].
  - destruct (numeral_head p) as [c [t [E [Hc _]]]]. exists c, t. split; [exact E|].
    left. exact Hc.
  - eexists. eexists. split; [reflexivity | right; reflexivity].
Qed.

(** A JSON text begins with a character that is no white space, no
    closing bracket and no closing brace. *)
Lemma stringify_head v :
  well_formed v = true ->
  exists c t, stringify v = c :: t
              /\ is_json_space c = false /\ N.eqb c 93 = false /\ N.eqb c 125 = false.
Proof.
  intros Hw. destruct v as [ |[|]|z|d|s|l|o]; try discriminate Hw;
    try (eexists; eexists; split; [reflexivity | repeat split; reflexivity]).
  cbn [stringify]. destruct (number_head z) as [c [t [E Hc]]].
  exists c, t. split; [exact E|].
  destruct Hc as [Hc| ->]; [|repeat split; reflexivity].
  destruct (digit_cases c Hc) as [D|[D|[D|[D|[D|[D|[D|[D|[D|D]]]]]]]]]; subst c;
    repeat split; reflexivity.
Qed.

Lemma skip_space_value v r :
  well_formed v = true -> skip_space (stringify v ++ r) = stringify v ++ r.
Proof.
  intros Hw. destruct (stringify_head v Hw) as [c [t [E [S _]]]]. rewrite E.
  cbn [app skip_space]. rewrite S. reflexivity.
Qed.

Lemma join_comma_cons {A} (f : A -> str) x l (tail : str) :
  join_comma (List.map f (x :: l)) ++ tail
  = f x ++ match l with
           | [] => tail
           | y :: l' => 44%N :: (join_comma (List.map f (y :: l')) ++ tail)
           end.
Proof.
  destruct l as [|y l']; cbn [List.map join_comma]; [reflexivity|].
  rewrite <- app_assoc. reflexivity.
Qed.

Lemma member_shape (kv : str * json) (tail : str) :
  (quote (fst kv) ++ js ":" ++ stringify (snd kv)) ++ tail
  = 34%N :: quote_body (fst kv) ++ 34%N :: 58%N :: stringify (snd kv) ++ tail.
Proof.
  unfold quote. change [DQUOTE] with [34%N]. change (js ":") with [58%N].
  cbn [app]. rewrite <- !app_assoc. reflexivity.
Qed.

Section Loops.

Variable value : str -> parsed json.
Variable f : nat.
Hypothesis value_reads : forall v r,
  json_size v <= f -> well_formed v = true -> value_end r = true ->
  value (stringify v ++ r) = Parsed v r.

Lemma elements_read rest : forall l x acc n,
  length (x :: l) <= n ->
  (forall v, In v (x :: l) -> json_size v <= f /\ well_formed v = true) ->
  parse_elements value n (join_comma (List.map stringify (x :: l)) ++ 93%N :: rest) acc
  = Parsed (JArr (rev acc ++ x :: l)) rest.
Proof.
  induction l as [|y l IH]; intros x acc n Hn Hl;
    (destruct n as [|n]; [simpl in Hn; lia|]);
    destruct (Hl x (or_introl eq_refl)) as [Hs Hw];
    rewrite join_comma_cons, parse_elements_S, skip_space_value by exact Hw;
    rewrite value_reads by (try assumption; reflexivity).
  - reflexivity.
  - cbn [skip_space]. change (is_json_space 44%N) with false. cbv iota.
    change (N.eqb 44 44) with true. cbv iota.
    rewrite IH.
    + cbn [rev]. rewrite <- app_assoc. reflexivity.
    + simpl in Hn |- *. lia.
    + intros v Hv. apply Hl. right. exact Hv.
Qed.

Lemma members_read rest : forall l kv acc n,
  length (kv :: l) <= n ->
  (forall x, In x (kv :: l) -> json_size (snd x) <= f /\ well_formed (snd x) = true) ->
  ordered_keys (List.map fst (acc ++ kv :: l)) = true ->
  parse_members value n (join_comma (List.map member (kv :: l)) ++ 125%N :: rest) acc
  = Parsed (JObj (acc ++ kv :: l)) rest.
Proof.
  induction l as [|y l IH]; intros [k v] acc n Hn Hl Ho;
    (destruct n as [|n]; [simpl in Hn; lia|]);
    destruct (Hl (k, v) (or_introl eq_refl)) as [Hs Hw]; cbn [snd] in Hs, Hw;
    rewrite (join_comma_cons member), parse_members_S, member_shape; cbn [fst snd];
    cbn [skip_space]; change (is_json_space 34%N) with false; cbv iota;
    change (N.eqb 34 34) with true; cbv iota;
    rewrite quote_read; cbn [skip_space]; change (is_json_space 58%N) with false; cbv iota;
    change (N.eqb 58 58) with true; cbv iota;
    rewrite skip_space_value by exact Hw;
    (rewrite value_reads by (try assumption; reflexivity));
    (rewrite (define_property_last k v acc)
      by (rewrite List.map_app in Ho; intros x0 Hx0;
          eapply ordered_keys_before; [exact Ho | exact Hx0])).
  - reflexivity.
  - cbn [skip_space]. change (is_json_space 44%N) with false. cbv iota.
    change (N.eqb 44 44) with true. cbv iota.
    rewrite IH.
    + rewrite <- app_assoc. reflexivity.
    + simpl in Hn |- *. lia.
    + intros x Hx. apply Hl. right. exact Hx.
    + rewrite <- app_assoc. exact Ho.
Qed.

End Loops.

(** JSON.stringify read back by the value parser of JSON.parse. *)
Lemma value_read fuel : forall v rest,
  json_size v <= fuel -> well_formed v = true -> value_end rest = true ->
  parse_value fuel (stringify v ++ rest) = Parsed v rest.
Proof.
  induction fuel as [|f IH]; intros v rest Hs Hw Hr;
    [pose proof (json_size_pos v); lia|].
  destruct v as [ |[|]|z|d|s|l|o]; try discriminate Hw.
  - change (parse_value (S f) (stringify JNull ++ rest))
      with (expect (js "null") JNull (js "null" ++ rest)).
    apply expect_read.
  - change (parse_value (S f) (stringify (JBool true) ++ rest))
      with (expect (js "true") (JBool true) (js "true" ++ rest)).
    apply expect_read.
  - change (parse_value (S f) (stringify (JBool false) ++ rest))
      with (expect (js "false") (JBool false) (js "false" ++ rest)).
    apply expect_read.
  - cbn [stringify]. destruct (number_head z) as [c [t [E Hc]]].
    rewrite E. cbn [app]. rewrite number_value by exact Hc.
    change (c :: t ++ rest) with ((c :: t) ++ rest). rewrite <- E.
    apply number_read; assumption.
  - change (stringify (JStr s) ++ rest) with (34%N :: (quote_body s ++ [34%N]) ++ rest).
    rewrite string_value, <- app_assoc. change ([34%N] ++ rest) with (34%N :: rest).
    rewrite quote_read. reflexivity.
  - destruct l as [|x l]; [reflexivity|].
    change (stringify (JArr (x :: l)) ++ rest)
      with (91%N :: (join_comma (List.map stringify (x :: l)) ++ [93%N]) ++ rest).
    rewrite array_value, <- app_assoc. change ([93%N] ++ rest) with (93%N :: rest).
    cbn [json_size] in Hs. cbn [well_formed] in Hw. rewrite List.forallb_forall in Hw.
    pose proof (Hw x (or_introl eq_refl)) as Hx.
    destruct (stringify_head x Hx) as [c [t [E [_ [H93 _]]]]].
    assert (SK : skip_space (join_comma (List.map stringify (x :: l)) ++ 93%N :: rest)
                 = c :: t ++ match l with
                             | [] => 93%N :: rest
                             | y :: l' => 44%N :: (join_comma (List.map stringify (y :: l'))
                                                   ++ 93%N :: rest)
                             end).
    { rewrite join_comma_cons, skip_space_value, E by exact Hx. reflexivity. }
    rewrite SK, H93.
    apply (elements_read (parse_value f) f IH rest l x [] f).
    + pose proof (list_sum_length json_size (x :: l) json_size_pos). lia.
    + intros v Hv. split; [|apply Hw; exact Hv].
      pose proof (list_sum_In json_size (x :: l) v Hv). lia.
  - destruct o as [|kv o]; [reflexivity|].
    change (stringify (JObj (kv :: o)) ++ rest)
      with (123%N :: (join_comma (List.map member (kv :: o)) ++ [125%N]) ++ rest).
    rewrite object_value, <- app_assoc. change ([125%N] ++ rest) with (125%N :: rest).
    assert (SK : exists t,
              skip_space (join_comma (List.map member (kv :: o)) ++ 125%N :: rest)
              = 34%N :: t).
    { rewrite (join_comma_cons member), member_shape. eexists. reflexivity. }
    destruct SK as [t SK]. rewrite SK. change (N.eqb 34 125) with false. cbv iota.
    cbn [json_size] in Hs. cbn [well_formed] in Hw. apply andb_true_iff in Hw.
    destruct Hw as [Ho Hw]. rewrite List.forallb_forall in Hw.
    apply (members_read (parse_value f) f IH rest o kv [] f).
    + pose proof (list_sum_length (fun x : str * json => json_size (snd x)) (kv :: o)
                    (fun x => json_size_pos (snd x))). lia.
    + intros x Hx. split; [|apply Hw; exact Hx].
      pose proof (list_sum_In (fun x : str * json => json_size (snd x)) (kv :: o) x Hx).
      lia.
    + exact Ho.
Qed.

Lemma join_comma_length {A} (f : A -> str) (g : A -> nat) l :
  (forall x, In x l -> g x <= length (f x)) ->
  list_sum (List.map g l) <= length (join_comma (List.map f l)).
Proof.
  induction l as [|x l IH]; intros H; [simpl; lia|].
  pose proof (H x (or_introl eq_refl)) as Hx.
  assert (Hl : list_sum (List.map g l) <= length (join_comma (List.map f l)))
    by (apply IH; intros y Hy; apply H; right; exact Hy).
  destruct l as [|y l]; [simpl in *; lia|].
  change (join_comma (List.map f (x :: y :: l)))
    with (f x ++ js "," ++ join_comma (List.map f (y :: l))).
  change (list_sum (List.map g (x :: y :: l)))
    with (g x + list_sum (List.map g (y :: l))).
  rewrite !length_app. unfold str in *. lia.
Qed.

Lemma size_le_length n : forall v,
  well_formed v = true -> json_size v <= n -> json_size v <= length (stringify v).
Proof.
  induction n as [|n IH]; intros v Hw H; [pose proof (json_size_pos v); lia|].
  destruct v as [ |[|]|z|d|s|l|o]; try discriminate Hw.
  - simpl. lia.
  - simpl. lia.
  - simpl. lia.
  - destruct (number_head z) as [c [t [E _]]]. cbn [stringify json_size].
    rewrite E. simpl. lia.
  - cbn [stringify json_size]. unfold quote. rewrite !length_app. simpl. lia.
  - cbn [stringify json_size] in *. rewrite !length_app.
    pose proof (join_comma_length stringify json_size l) as J.
    assert (Hl : list_sum (List.map json_size l)
                 <= length (join_comma (List.map stringify l))).
    { apply J. intros x Hx. cbn [well_formed] in Hw.
      rewrite List.forallb_forall in Hw. apply IH; [apply Hw; exact Hx|].
      pose proof (list_sum_In json_size l x Hx). lia. }
    simpl. unfold str in *. lia.
  - cbn [stringify json_size] in *. rewrite !length_app.
    pose proof (join_comma_length member (fun x : str * json => json_size (snd x)) o) as J.
    assert (Hl : list_sum (List.map (fun x : str * json => json_size (snd x)) o)
                 <= length (join_comma (List.map member o))).
    { apply J. intros x Hx. cbv beta. rewrite !length_app.
      assert (json_size (snd x) <= length (stringify (snd x))).
      { cbn [well_formed] in Hw. apply andb_true_iff in Hw. destruct Hw as [_ Hw].
        rewrite List.forallb_forall in Hw. apply IH; [apply Hw; exact Hx|].
        pose proof (list_sum_In (fun x : str * json => json_size (snd x)) o x Hx). lia. }
      unfold str in *. lia. }
    change (length (js "{")) with 1. change (length (js "}")) with 1.
    unfold str in *. lia.
Qed.

(** JSON.parse(JSON.stringify(v)) is v. *)
Lemma JSON_read v : well_formed v = true -> JSON_parse (stringify v) = Parsed v [].
Proof.
  intros Hw. unfold JSON_parse.
  pose proof (skip_space_value v [] Hw) as SK. rewrite app_nil_r in SK. rewrite SK.
  pose proof (value_read (S (length (stringify v))) v []) as R.
  rewrite app_nil_r in R. rewrite R; [reflexivity| |exact Hw|reflexivity].
  pose proof (size_le_length (json_size v) v Hw (le_n _)). lia.
Qed.

End JsonValues.

Section JsonParsed.

Section LoopResults.

Variable value : str -> parsed json.
Hypothesis value_gives : forall s v r,
  value s = Parsed v r -> safe_numbers v = true -> well_formed v = true.

Lemma elements_parsed : forall n s acc v r,
  (forall x, In x acc -> safe_numbers x = true -> well_formed x = true) ->
  parse_elements value n s acc = Parsed v r ->
  safe_numbers v = true -> well_formed v = true.
Proof.
  induction n as [|n IH]; intros s acc v r Ha H; [discriminate|].
  rewrite parse_elements_S in H.
  destruct (value (skip_space s)) as [x r1| |] eqn:E; try discriminate.
  assert (Hx : forall y, In y (x :: acc) -> safe_numbers y = true -> well_formed y = true).
  { intros y [<-|Hy]; [eapply value_gives; exact E | apply Ha; exact Hy]. }
  destruct (skip_space r1) as [|c r']; [discriminate|]. destruct (N.eqb c 44).
  - eapply IH; [exact Hx | exact H].
  - destruct (N.eqb c 93); [|discriminate]. injection H as <- _.
    cbn [well_formed safe_numbers]. intros Hs. rewrite List.forallb_forall in Hs.
    apply List.forallb_forall. intros y Hy. apply Hx; [|apply Hs; exact Hy].
    apply (proj2 (in_rev (x :: acc) y)). exact Hy.
Qed.

Lemma members_parsed : forall n s acc v r,
  ordered_keys (List.map fst acc) = true ->
  (forall kv, In kv acc -> safe_numbers (snd kv) = true -> well_formed (snd kv) = true) ->
  parse_members value n s acc = Parsed v r ->
  safe_numbers v = true -> well_formed v = true.
Proof.
  induction n as [|n IH]; intros s acc v r Ho Ha H; [discriminate|].
  rewrite parse_members_S in H.
  destruct (skip_space s) as [|q s1]; [discriminate|].
  destruct (N.eqb q 34); [|discriminate].
  destruct (parse_string_body s1 []) as [k r0| |]; try discriminate.
  destruct (skip_space r0) as [|c r1]; [discriminate|].
  destruct (N.eqb c 58); [|discriminate].
  destruct (value (skip_space r1)) as [x r2| |] eqn:E; try discriminate.
  assert (Ho' : ordered_keys (List.map fst (define_property k x acc)) = true)
    by (apply define_property_ordered; exact Ho).
  assert (Ha' : forall kv, In kv (define_property k x acc) ->
                  safe_numbers (snd kv) = true -> well_formed (snd kv) = true).
  { intros kv Hkv. apply define_property_In in Hkv.
    destruct Hkv as [->|Hkv]; [eapply value_gives; exact E | apply Ha; exact Hkv]. }
  destruct (skip_space r2) as [|c2 r3]; [discriminate|]. destruct (N.eqb c2 44).
  - eapply IH; [exact Ho' | exact Ha' | exact H].
  - destruct (N.eqb c2 125); [|discriminate]. injection H as <- _.
    cbn [well_formed safe_numbers]. intros Hs. rewrite List.forallb_forall in Hs.
    rewrite Ho'. apply List.forallb_forall. intros kv Hkv.
    apply Ha'; [exact Hkv | apply Hs; exact Hkv].
Qed.

End LoopResults.

(** What JSON.parse gives is read back from its JSON text, if it holds
    no number outside the integers of magnitude at most 2^53. *)
Lemma value_parsed fuel : forall s v r,
  parse_value fuel s = Parsed v r -> safe_numbers v = true -> well_formed v = true.
Proof.
  induction fuel as [|f IH]; intros s v r H; [discriminate|].
  rewrite parse_value_S in H. destruct s as [|c s']; [discriminate|].
  destruct (N.eqb c 123).
  { destruct (skip_space s') as [|c1 r1]; [discriminate|].
    destruct (N.eqb c1 125); [injection H as <- _; reflexivity|].
    eapply (members_parsed (parse_value f) IH); [| |exact H];
      [reflexivity | intros kv []]. }
  destruct (N.eqb c 91).
  { destruct (skip_space s') as [|c1 r1]; [discriminate|].
    destruct (N.eqb c1 93); [injection H as <- _; reflexivity|].
    eapply (elements_parsed (parse_value f) IH); [|exact H]. intros x []. }
  destruct (N.eqb c 34).
  { destruct (parse_string_body s' []); try discriminate.
    injection H as <- _. reflexivity. }
  destruct (N.eqb c 116).
  { unfold expect in H. destruct (startsWith _ _); [|discriminate].
    injection H as <- _. reflexivity. }
  destruct (N.eqb c 102).
  { unfold expect in H. destruct (startsWith _ _); [|discriminate].
    injection H as <- _. reflexivity. }
  destruct (N.eqb c 110).
  { unfold expect in H. destruct (startsWith _ _); [|discriminate].
    injection H as <- _. reflexivity. }
  eapply number_parsed. exact H.
Qed.

Lemma JSON_parsed text v r :
  JSON_parse text = Parsed v r -> safe_numbers v = true -> well_formed v = true.
Proof.
  unfold JSON_parse.
  destruct (parse_value (S (length text)) (skip_space text)) as [x r1| |] eqn:E;
    try discriminate.
  destruct (skip_space r1); [|discriminate]. intros H. injection H as <- _.
  eapply value_parsed. exact E.
Qed.

End JsonParsed.

Section PendingContent.

Lemma pending_action_read r t a params :
  well_formed params = true ->
  JSON_parse (stringify (pending_action r t a params))
  = Parsed (pending_action r t a params) [].
Proof.
  intros Hw. apply JSON_read. unfold pending_action.
  cbn [well_formed List.map fst snd forallb]. rewrite Hw. reflexivity.
Qed.


Lemma decode_pending_readable r t a p pt :
  decode_pending r t a p = Returns (Some pt) ->
  exists params,
    content pt = stringify (pending_action r t a params)
    /\ (safe_numbers params = true -> well_formed params = true).
Proof.
  unfold decode_pending. destruct (atob _) as [text|]; [|discriminate].
  destruct (JSON_parse text) as [params rest| |] eqn:E; try discriminate.
  intros H. injection H as <-. exists params. split; [reflexivity|].
  eapply JSON_parsed. exact E.
Qed.

Lemma pending_parts_readable tagContent c ps c' :
  pending_parts tagContent c = (Returns ps, c') ->
  Forall (fun q => exists r t a params,
            r <> [] /\ t <> [] /\ a <> []
            /\ content q = stringify (pending_action r t a params)
            /\ (safe_numbers params = true -> well_formed params = true)) ps.
Proof.
  unfold pending_parts. intros H.
  apply bind_returns in H. destruct H as [rq [c1 [_ H]]].
  apply bind_returns in H. destruct H as [tl [c2 [_ H]]].
  apply bind_returns in H. destruct H as [ac [c3 [_ H]]].
  apply bind_returns in H. destruct H as [pb [c4 [_ H]]].
  destruct rq as [[|r0 r]|], tl as [[|t0 t]|], ac as [[|a0 a]|], pb as [[|p0 p]|];
    try (apply ret_returns in H; destruct H as [<- _]; constructor).
  destruct (decode_pending (r0 :: r) (t0 :: t) (a0 :: a) (p0 :: p)) as [[pt|]|e|] eqn:D;
    try discriminate H; apply ret_returns in H; destruct H as [<- _]; constructor;
    [|constructor].
  destruct (decode_pending_readable _ _ _ _ _ D) as [params [Hc Hw]].
  exists (r0 :: r), (t0 :: t), (a0 :: a), params.
  repeat split; try discriminate; assumption.
Qed.

Lemma tag_parts_readable buffer m c ps c' :
  tag_parts buffer m c = (Returns ps, c') ->
  Forall (fun q => type q = Pending ->
            exists r t a params,
              r <> [] /\ t <> [] /\ a <> []
              /\ content q = stringify (pending_action r t a params)
              /\ (safe_numbers params = true -> well_formed params = true)) ps.
Proof.
  unfold tag_parts. cbv zeta.
  repeat match goal with
         | |- (if ?b then _ else _) _ = _ -> _ => destruct b
         end;
    intros H;
    try (apply ret_returns in H; destruct H as [<- _];
         repeat constructor; intros T; discriminate T).
  apply pending_parts_readable in H.
  eapply List.Forall_impl; [|exact H]. intros q Hq _. exact Hq.
Qed.

Lemma record_args_ordered pairs :
  ordered_keys (List.map fst (record_args pairs)) = true.
Proof.
  unfold record_args.
  assert (G : forall acc : props str,
            ordered_keys (List.map fst acc) = true ->
            ordered_keys
              (List.map fst
                 (fold_left (fun args kv => assign_string (fst kv) (snd kv) args) pairs acc))
            = true).
  { induction pairs as [|kv pairs IH]; intros acc Ha; [exact Ha|].
    cbn [fold_left]. apply IH. unfold assign_string.
    destruct (str_eqb (fst kv) (js "__proto__")); [exact Ha|].
    apply define_property_ordered. exact Ha. }
  apply G. reflexivity.
Qed.

Lemma spec_arguments_ordered tagInner :
  ordered_keys (List.map fst (spec_arguments tagInner)) = true.
Proof.
  unfold spec_arguments.
  pose proof (record_args_ordered (flat_pairs tagInner)) as F.
  destruct (record_args (flat_pairs tagInner)); [apply record_args_ordered | exact F].
Qed.

Lemma object_well_formed o :
  ordered_keys (List.map fst o) = true ->
  (forall kv, In kv o -> well_formed (snd kv) = true) ->
  well_formed (JObj o) = true.
Proof.
  intros Ho Hv. cbn [well_formed]. rewrite Ho. apply List.forallb_forall. exact Hv.
Qed.

Lemma tool_activity_read name (args : props str) :
  ordered_keys (List.map fst args) = true ->
  JSON_parse (stringify (tool_activity name args)) = Parsed (tool_activity name args) [].
Proof.
  intros Ho. apply JSON_read. unfold tool_activity.
  apply object_well_formed; [reflexivity|].
  intros kv [<-|[<-|[]]]; [reflexivity|]. cbn [snd].
  apply object_well_formed.
  - rewrite List.map_map.
    rewrite (List.map_ext _ fst) by (intros x; reflexivity). exact Ho.
  - intros kv Hkv. apply in_map_iff in Hkv. destruct Hkv as [x [<- _]]. reflexivity.
Qed.

End PendingContent.



(** X23.  The content written for a tool tag with a name attribute and
    an inner text that does not begin with a brace is a JSON text, what
    ever code units the name and the arguments hold: JSON.parse reads it
    back as the object { name, arguments } with the declared name and
    the recorded arguments, all of them strings. *)
Theorem tool_content_parses_back (type tagAttrs tagInner : str) :
  str_eqb type (js "tool") && includes tagAttrs (js "name=") = true ->
  startsWith (trim tagInner) (js "{") = false ->
  JSON_parse (toolContent type tagAttrs tagInner)
  = Parsed (tool_activity (declared_name tagAttrs) (spec_arguments tagInner)) [].
Proof.
  intros H1 H2. unfold toolContent. rewrite H1, H2. cbn [negb]. cbv iota.
  rewrite collected_args_spec. apply tool_activity_read. apply spec_arguments_ordered.
Qed.

Lemma tool_content_parses_back_witness :
  JSON_parse (toolContent (js "tool") (jsq "name='file'")
                          (jsq "<argument name='path' value='a.txt'/>"))
  = Parsed (tool_activity (js "file") [(js "path", js "a.txt")]) [].
Proof.
  apply (tool_content_parses_back (js "tool") (jsq "name='file'")
           (jsq "<argument name='path' value='a.txt'/>")); vm_compute; reflexivity.
Defined.

(* ===================================================================== *)
(** ** The values of the modal *)
(* ===================================================================== *)

Section OwnProperties.

Context {V : Type}.

Lemma str_eqb_refl (k : str) : str_eqb k k = true.
Proof. apply str_eqb_eq. reflexivity. Qed.

Lemma str_eqb_sym (k k' : str) : str_eqb k k' = str_eqb k' k.
Proof.
  destruct (str_eqb k' k) eqn:E.
  - apply str_eqb_eq in E. subst. apply str_eqb_refl.
  - apply str_eqb_neq in E. apply str_eqb_neq. congruence.
Qed.

Lemma has_key_get k (o : props V) :
  has_key k o = match get_property k o with Some _ => true | None => false end.
Proof.
  induction o as [|[k' v'] o IH]; cbn [has_key get_property]; [reflexivity|].
  destruct (str_eqb k k'); [reflexivity | exact IH].
Qed.

Lemma get_replace_same k (v : V) o :
  has_key k o = true -> get_property k (replace_value k v o) = Some v.
Proof.
  induction o as [|[k' v'] o IH]; cbn [has_key replace_value]; [discriminate|].
  destruct (str_eqb k k') eqn:E; cbn [get_property]; rewrite E; [reflexivity|].
  exact IH.
Qed.

Lemma get_replace_other k k' (v : V) o :
  str_eqb k' k = false -> get_property k' (replace_value k v o) = get_property k' o.
Proof.
  intros N. induction o as [|[k0 v0] o IH]; cbn [replace_value]; [reflexivity|].
  destruct (str_eqb k k0) eqn:E; cbn [get_property].
  - apply str_eqb_eq in E. subst k0. rewrite N. reflexivity.
  - rewrite IH. reflexivity.
Qed.

Lemma get_insert_same i k (v : V) o :
  has_key k o = false -> get_property k (insert_index i k v o) = Some v.
Proof.
  induction o as [|[k' v'] o IH]; cbn [has_key insert_index]; intros H.
  - cbn [get_property]. rewrite str_eqb_refl. reflexivity.
  - apply orb_false_iff in H. destruct H as [E H].
    destruct (array_index k') as [j|]; [destruct (j <? i)%N|]; cbn [get_property];
      rewrite ?str_eqb_refl, ?E; try reflexivity.
    apply IH. exact H.
Qed.

Lemma get_insert_other i k k' (v : V) o :
  str_eqb k' k = false -> get_property k' (insert_index i k v o) = get_property k' o.
Proof.
  intros N. induction o as [|[k0 v0] o IH]; cbn [insert_index].
  - cbn [get_property]. rewrite N. reflexivity.
  - destruct (array_index k0) as [j|]; [destruct (j <? i)%N|]; cbn [get_property];
      rewrite ?N, ?IH; reflexivity.
Qed.

Lemma get_last_same k (v : V) o :
  has_key k o = false -> get_property k (o ++ [(k, v)]) = Some v.
Proof.
  induction o as [|[k' v'] o IH]; cbn [has_key app get_property]; intros H.
  - rewrite str_eqb_refl. reflexivity.
  - apply orb_false_iff in H. destruct H as [E H]. rewrite E. apply IH. exact H.
Qed.

Lemma get_last_other k k' (v : V) o :
  str_eqb k' k = false -> get_property k' (o ++ [(k, v)]) = get_property k' o.
Proof.
  intros N. induction o as [|[k0 v0] o IH]; cbn [app get_property].
  - rewrite N. reflexivity.
  - rewrite IH. reflexivity.
Qed.

(** Reading a property after it was defined gives the value defined. *)
Lemma get_define_same k (v : V) o : get_property k (define_property k v o) = Some v.
Proof.
  unfold define_property. destruct (has_key k o) eqn:H; [apply get_replace_same, H|].
  destruct (array_index k); [apply get_insert_same, H | apply get_last_same, H].
Qed.

(** Defining a property changes no other property. *)
Lemma get_define_other k k' (v : V) o :
  str_eqb k' k = false -> get_property k' (define_property k v o) = get_property k' o.
Proof.
  intros N. unfold define_property. destruct (has_key k o); [apply get_replace_other, N|].
  destruct (array_index k); [apply get_insert_other, N | apply get_last_other, N].
Qed.

Lemma has_key_define k k' (v : V) o :
  has_key k' (define_property k v o) = str_eqb k' k || has_key k' o.
Proof.
  rewrite !has_key_get. destruct (str_eqb k' k) eqn:E.
  - apply str_eqb_eq in E. subst k'. rewrite get_define_same. reflexivity.
  - rewrite get_define_other by exact E. reflexivity.
Qed.

End OwnProperties.

Section ModalFacts.
Import Template.

Lemma initial_values_from (variables : list str) : forall (acc : props str) k,
  get_property k (fold_left (fun acc v => define_property v [] acc) variables acc)
  = if existsb (str_eqb k) variables then Some [] else get_property k acc.
Proof.
  induction variables as [|v variables IH]; intros acc k; cbn [fold_left existsb];
    [reflexivity|].
  rewrite IH. destruct (existsb (str_eqb k) variables); [rewrite orb_true_r; reflexivity|].
  rewrite orb_false_r. destruct (str_eqb k v) eqn:E.
  - apply str_eqb_eq in E. subst k. apply get_define_same.
  - apply get_define_other. exact E.
Qed.

Lemma existsb_str_In (k : str) l : existsb (str_eqb k) l = true <-> In k l.
Proof.
  rewrite existsb_exists. split.
  - intros [x [Hx E]]. apply str_eqb_eq in E. subst x. exact Hx.
  - intros H. exists k. split; [exact H | apply str_eqb_refl].
Qed.

Lemma edits_get (edits : list (str * str)) k : forall values : props str,
  get_property k (fold_left (fun values e => set_value (fst e) (snd e) values) edits values)
  = match get_property k values with
    | Some text =>
        Some (fold_left (fun text e => if str_eqb (fst e) k then snd e else text) edits text)
    | None =>
        if existsb (fun e => str_eqb k (fst e)) edits
        then Some (fold_left (fun text e => if str_eqb (fst e) k then snd e else text)
                             edits [])
        else None
    end.
Proof.
  induction edits as [|[v x] edits IH]; intros values; cbn [fold_left existsb fst snd].
  - destruct (get_property k values); reflexivity.
  - rewrite IH. unfold set_value. rewrite (str_eqb_sym k v).
    destruct (str_eqb v k) eqn:E.
    + apply str_eqb_eq in E. subst v. rewrite get_define_same.
      destruct (get_property k values); reflexivity.
    + rewrite get_define_other by (rewrite str_eqb_sym; exact E).
      destruct (get_property k values); reflexivity.
Qed.

Lemma existsb_fst_In (k : str) (edits : list (str * str)) :
  existsb (fun e => str_eqb k (fst e)) edits = true <-> In k (List.map fst edits).
Proof.
  rewrite existsb_exists, in_map_iff. split.
  - intros [e [He E]]. apply str_eqb_eq in E. exists e. split; [congruence | exact He].
  - intros [e [E He]]. exists e. split; [exact He | apply str_eqb_eq; congruence].
Qed.

Lemma edits_keys (edits : list (str * str)) : forall (values : props str) k,
  has_key k (fold_left (fun values e => set_value (fst e) (snd e) values) edits values)
  = has_key k values || existsb (fun e => str_eqb k (fst e)) edits.
Proof.
  induction edits as [|[v x] edits IH]; intros values k; cbn [fold_left existsb fst snd].
  - rewrite orb_false_r. reflexivity.
  - rewrite IH. unfold set_value. rewrite has_key_define.
    destruct (str_eqb k v), (has_key k values); reflexivity.
Qed.

Lemma edits_ordered (edits : list (str * str)) : forall values : props str,
  ordered_keys (List.map fst values) = true ->
  ordered_keys
    (List.map fst (fold_left (fun values e => set_value (fst e) (snd e) values) edits values))
  = true.
Proof.
  induction edits as [|e edits IH]; intros values H; cbn [fold_left]; [exact H|].
  apply IH. apply define_property_ordered. exact H.
Qed.

Lemma initial_values_ordered (variables : list str) : forall acc : props str,
  ordered_keys (List.map fst acc) = true ->
  ordered_keys
    (List.map fst (fold_left (fun acc v => define_property v [] acc) variables acc))
  = true.
Proof.
  induction variables as [|v variables IH]; intros acc H; cbn [fold_left]; [exact H|].
  apply IH. apply define_property_ordered. exact H.
Qed.

End ModalFacts.

(** X25.  The values of the modal are set up when the modal is first
    mounted, for the variables of the prompt selected then, and live on
    while its inputs change and other prompts are selected.  Whatever
    the changes, the values handed to onConfirm hold exactly one entry
    for each of those first variables and for each variable whose input
    was changed, no key twice, and the entry of a variable holds the
    text last typed into its input, the empty string if nothing was
    typed. *)
Theorem modal_keeps_what_is_typed (variables : list str) (edits : list (str * str)) :
  ordered_keys (List.map fst (modal_values variables edits)) = true
  /\ (forall k, has_key k (modal_values variables edits) = true
                <-> In k variables \/ In k (List.map fst edits))
  /\ (forall v, In v variables \/ In v (List.map fst edits) ->
        get_property v (modal_values variables edits) = Some (last_typed edits v)).
Proof.
  unfold modal_values.
  assert (G : forall k,
            get_property k (Template.initial_values variables)
            = if existsb (str_eqb k) variables then Some [] else None).
  { intros k. apply (initial_values_from variables [] k). }
  split; [|split].
  - apply edits_ordered. unfold Template.initial_values.
    apply initial_values_ordered. reflexivity.
  - intros k. rewrite edits_keys, has_key_get, G, <- existsb_str_In, <- existsb_fst_In.
    rewrite orb_true_iff. destruct (existsb (str_eqb k) variables); split; intros [H|H];
      try discriminate H; tauto.
  - intros v Hv. rewrite edits_get, G. unfold last_typed.
    destruct (existsb (str_eqb v) variables) eqn:E1; [reflexivity|].
    destruct Hv as [Hv|Hv].
    + apply existsb_str_In in Hv. congruence.
    + apply existsb_fst_In in Hv. rewrite Hv. reflexivity.
Qed.

Lemma modal_keeps_what_is_typed_witness :
  let variables := [js "name"; js "1"] in
  let edits := [(js "name", js "A"); (js "1", js "x"); (js "name", js "Ada");
                (js "city", js "Rome")] in
  modal_values variables edits
  = [(js "1", js "x"); (js "name", js "Ada"); (js "city", js "Rome")]
  /\ get_property (js "city") (modal_values variables edits) = Some (js "Rome").
Proof.
  split; [vm_compute; reflexivity|].
  apply (modal_keeps_what_is_typed [js "name"; js "1"]
           [(js "name", js "A"); (js "1", js "x"); (js "name", js "Ada");
            (js "city", js "Rome")]).
  right. simpl. tauto.
Defined.

(* ===================================================================== *)
(** ** The parts of the messages *)
(* ===================================================================== *)

Section Memo.
Import Messages.

Lemma parsedMessages_from messages : forall c,
  cache_ok c ->
  fst (parsedMessages messages c) = all_returned (List.map message_entry messages).
Proof.
  induction messages as [|msg messages IH]; intros c Hc; [reflexivity|].
  cbn [parsedMessages fold_right List.map all_returned].
  fold (parsedMessages messages). unfold message_entry at 1.
  destruct (str_eqb (role msg) (js "assistant")).
  - unfold bind at 1. unfold bind at 1.
    destruct (stable_parseMessageContent (msg_content msg) c ∅ Hc cache_ok_empty)
      as [Hfst Hok].
    fold (parse (msg_content msg)) in Hfst.
    destruct (parseMessageContent (msg_content msg) c) as [o c1].
    cbn [fst snd] in Hfst, Hok. subst o.
    destruct (parse (msg_content msg)) as [ps|e|]; [|reflexivity|reflexivity].
    cbn [ret]. unfold bind. specialize (IH c1 Hok).
    destruct (parsedMessages messages c1) as [o' c2]. cbn [fst] in IH. rewrite <- IH.
    destruct o'; reflexivity.
  - unfold bind at 1. cbn [ret]. unfold bind. specialize (IH c Hc).
    destruct (parsedMessages messages c) as [o' c2]. cbn [fst] in IH. rewrite <- IH.
    destruct o'; reflexivity.
Qed.

End Memo.

(** X26.  The memo parsedMessages tokenizes each message as if on its
    own, whatever the attribute cache holds from earlier calls: it gives
    the messages in their order, each with the parts of its content if
    it is a message of the assistant and with null otherwise; and if the
    tokenizer throws for one of them, the first such exception is what
    the memo throws, for the whole list.  Every list has one of these
    two outcomes. *)
Theorem messages_are_parsed_one_by_one (earlier : list str)
    (messages : list Messages.message) :
  fst (Messages.parsedMessages messages (cache_after earlier))
  = all_returned (List.map message_entry messages)
  /\ all_returned (List.map message_entry messages) <> OutOfModel.
Proof.
  split; [apply parsedMessages_from; apply cache_after_ok|].
  induction messages as [|msg messages IH]; [discriminate|].
  cbn [List.map all_returned]. unfold message_entry at 1.
  destruct (str_eqb (Messages.role msg) (js "assistant")).
  - pose proof (parse_in_model (Messages.msg_content msg)) as P.
    destruct (parse (Messages.msg_content msg)); [|discriminate|congruence].
    destruct (all_returned (List.map message_entry messages));
      [discriminate | discriminate | congruence].
  - destruct (all_returned (List.map message_entry messages));
      [discriminate | discriminate | congruence].
Qed.
